(** * ARC_Cache: LRU, LRU-K, LFU, hashed shards and the adaptive replacement cache

    A shallow embedding of the C++ templates of [LruCache.h], [LfuCache.h]
    and [ArcCache/*.h].

    Modelling conventions.
    - A [std::shared_ptr<Node>] is a [ptr] into an arena ([list] of node
      records, a node is never freed); [nullptr] is [None].  Dereferencing
      a null pointer is undefined behaviour and makes the operation return
      [None].
    - [std::unordered_map] and [std::map] are [gmap]s.
    - [int] fields are [Z]; arithmetic that leaves the 32-bit range is
      undefined behaviour ([int_ok] returns [None]).  [size_t] fields are
      [Z] reduced modulo [2^64] ([u64]).
    - Mutexes are not modelled: every method body runs to completion under
      the lock of its object, so a method is a function on the object's
      state. *)

From stdpp Require Import gmap strings list fin_maps.

Open Scope Z_scope.

(** ** Pointers and machine integers *)

Abbreviation ptr := nat.

(** Conversion of a value to [size_t]. *)
Definition u64 (z : Z) : Z := z mod 2 ^ 64.

(** Narrowing conversion to [int]. *)
Definition s32 (z : Z) : Z := (z + 2 ^ 31) mod 2 ^ 32 - 2 ^ 31.

(** Result of a signed [int] operation: overflow is undefined. *)
Definition int_ok (z : Z) : option Z :=
  if decide (- 2 ^ 31 ≤ z < 2 ^ 31) then Some z else None.

Definition INT_MAX : Z := 2147483647.
Definition INT8_MAX : Z := 127.

(** [container.size()], a [size_t]. *)
Definition zsize `{Countable K} {A} (m : gmap K A) : Z := Z.of_nat (size m).

(** ** LruCache.h *)

Module Lru.
Section LruCache.
Context `{Countable Key} {Value : Type}.
(** [Key()] and [Value()], the value-initialised key and value of the
    sentinel nodes. *)
Variables (Key0 : Key) (Value0 : Value).

Record LruNode := mkNode {
  key_ : Key;
  value_ : Value;
  accessCount_ : Z;
  prev_ : option ptr;
  next_ : option ptr
}.

Definition newNode (key : Key) (value : Value) : LruNode :=
  mkNode key value 1 None None.

Definition setValue (value : Value) (n : LruNode) : LruNode :=
  mkNode (key_ n) value (accessCount_ n) (prev_ n) (next_ n).
Definition set_prev (p : option ptr) (n : LruNode) : LruNode :=
  mkNode (key_ n) (value_ n) (accessCount_ n) p (next_ n).
Definition set_next (p : option ptr) (n : LruNode) : LruNode :=
  mkNode (key_ n) (value_ n) (accessCount_ n) (prev_ n) p.

Record LruCache := mkCache {
  capacity_ : Z;
  nodeMap_ : gmap Key ptr;
  dummyHead_ : ptr;
  dummyTail_ : ptr;
  nodes : list LruNode
}.

Definition with_nodes (h : list LruNode) (c : LruCache) : LruCache :=
  mkCache (capacity_ c) (nodeMap_ c) (dummyHead_ c) (dummyTail_ c) h.
Definition with_nodeMap (m : gmap Key ptr) (c : LruCache) : LruCache :=
  mkCache (capacity_ c) m (dummyHead_ c) (dummyTail_ c) (nodes c).

(** [p->field = v]: [None] when [p] is not a live node. *)
Definition store (p : ptr) (f : LruNode → LruNode) (h : list LruNode)
    : option (list LruNode) :=
  n ← h !! p; Some (<[p := f n]> h).

(** [make_shared<LruNodeType>(key, value)] *)
Definition alloc (n : LruNode) (h : list LruNode) : ptr * list LruNode :=
  (length h, h ++ [n]).

(** [initializeList] *)
Definition initializeList (capacity : Z) : LruCache :=
  let head := set_next (Some 1%nat) (newNode Key0 Value0) in
  let tail := set_prev (Some 0%nat) (newNode Key0 Value0) in
  mkCache capacity ∅ 0%nat 1%nat [head; tail].

(** [LruCache(int capacity)] *)
Definition new (capacity : Z) : LruCache := initializeList capacity.

(** [removeNode]:
    [node->prev_->next_ = node->next_; node->next_->prev_ = node->prev_;] *)
Definition removeNode (node : ptr) (h : list LruNode)
    : option (list LruNode) :=
  n ← h !! node;
  pp ← prev_ n;
  h1 ← store pp (set_next (next_ n)) h;
  n1 ← h1 !! node;
  nn ← next_ n1;
  store nn (set_prev (prev_ n1)) h1.

(** [insertNode]:
    [node->next_ = dummyTail_; dummyTail_->prev_->next_ = node;
     node->prev_ = dummyTail_->prev_; dummyHead_->prev_ = node;] *)
Definition insertNode (node : ptr) (c : LruCache) : option LruCache :=
  h1 ← store node (set_next (Some (dummyTail_ c))) (nodes c);
  t ← h1 !! dummyTail_ c;
  tp ← prev_ t;
  h2 ← store tp (set_next (Some node)) h1;
  t2 ← h2 !! dummyTail_ c;
  h3 ← store node (set_prev (prev_ t2)) h2;
  h4 ← store (dummyHead_ c) (set_prev (Some node)) h3;
  Some (with_nodes h4 c).

(** [moveToMostRecent] *)
Definition moveToMostRecent (node : ptr) (c : LruCache) : option LruCache :=
  h ← removeNode node (nodes c);
  insertNode node (with_nodes h c).

(** [updateExistingNode] *)
Definition updateExistingNode (node : ptr) (value : Value) (c : LruCache)
    : option LruCache :=
  h ← store node (setValue value) (nodes c);
  moveToMostRecent node (with_nodes h c).

(** [evictLeastRecent]: the victim is [dummyHead_->next_]. *)
Definition evictLeastRecent (c : LruCache) : option LruCache :=
  hd ← nodes c !! dummyHead_ c;
  leastRecent ← next_ hd;
  h ← removeNode leastRecent (nodes c);
  n ← h !! leastRecent;
  Some (with_nodeMap (delete (key_ n) (nodeMap_ c)) (with_nodes h c)).

(** [addNewNode]; [nodeMap_.size() >= capacity_] compares as [size_t]. *)
Definition addNewNode (key : Key) (value : Value) (c : LruCache)
    : option LruCache :=
  c1 ← (if decide (u64 (capacity_ c) ≤ zsize (nodeMap_ c))
        then evictLeastRecent c else Some c);
  let '(p, h) := alloc (newNode key value) (nodes c1) in
  c2 ← insertNode p (with_nodes h c1);
  Some (with_nodeMap (<[key := p]> (nodeMap_ c2)) c2).

(** [void put(Key key, Value value)] *)
Definition put (key : Key) (value : Value) (c : LruCache)
    : option LruCache :=
  if decide (capacity_ c ≤ 0) then Some c
  else match nodeMap_ c !! key with
       | Some node => updateExistingNode node value c
       | None => addNewNode key value c
       end.

(** [bool get(Key key, Value& value)]: the first component is
    [Some v] on a hit ([value] is assigned [v], the result is [true]) and
    [None] on a miss ([value] is left alone, the result is [false]). *)
Definition get (key : Key) (c : LruCache)
    : option (option Value * LruCache) :=
  match nodeMap_ c !! key with
  | Some node =>
      c1 ← moveToMostRecent node c;
      n ← nodes c1 !! node;
      Some (Some (value_ n), c1)
  | None => Some (None, c)
  end.

(** [Value get(Key key)]: [Value value{}; get(key, value); return value;] *)
Definition get_value (key : Key) (c : LruCache)
    : option (Value * LruCache) :=
  '(r, c1) ← get key c;
  Some (default Value0 r, c1).

(** [void remove(Key key)] *)
Definition remove (key : Key) (c : LruCache) : option LruCache :=
  match nodeMap_ c !! key with
  | Some node =>
      h ← removeNode node (nodes c);
      Some (with_nodeMap (delete key (nodeMap_ c)) (with_nodes h c))
  | None => Some c
  end.

End LruCache.
End Lru.

(** *** What an [LruCache] does, seen from outside

    [insertNode] never moves [dummyTail_->prev_], so the list that starts
    at [dummyHead_] holds at most one node: the node touched last.  The
    observable state of a cache is therefore its capacity, its key-value
    content and the key of the node [dummyHead_->next_], which is the one
    [evictLeastRecent] removes. *)

Module LruModel.
Section LruModel.
Context `{Countable Key} {Value : Type}.

Record state := mkState {
  cap : Z;
  content : gmap Key Value;
  linked : option Key
}.

Definition put (key : Key) (value : Value) (a : state) : state :=
  if decide (cap a ≤ 0) then a
  else if decide (is_Some (content a !! key))
    then mkState (cap a) (<[key := value]> (content a)) (Some key)
    else
      let m := if decide (cap a ≤ zsize (content a))
               then from_option (λ j, delete j (content a)) (content a)
                                (linked a)
               else content a in
      mkState (cap a) (<[key := value]> m) (Some key).

Definition get (key : Key) (a : state) : option Value * state :=
  match content a !! key with
  | Some v => (Some v, mkState (cap a) (content a) (Some key))
  | None => (None, a)
  end.

Definition remove (key : Key) (a : state) : state :=
  match content a !! key with
  | Some _ => mkState (cap a) (delete key (content a)) None
  | None => a
  end.

(** The observable state of a concrete cache. *)
Definition view (c : Lru.LruCache (Key := Key) (Value := Value))
    : gmap Key Value :=
  omap (λ p, Lru.value_ <$> Lru.nodes c !! p) (Lru.nodeMap_ c).

Definition first_key (c : Lru.LruCache (Key := Key) (Value := Value))
    : option Key :=
  hd ← Lru.nodes c !! Lru.dummyHead_ c;
  p ← Lru.next_ hd;
  if decide (p = Lru.dummyTail_ c) then None
  else Lru.key_ <$> Lru.nodes c !! p.

Definition abs (c : Lru.LruCache (Key := Key) (Value := Value)) : state :=
  mkState (Lru.capacity_ c) (view c) (first_key c).

(** The arena [h'] differs from [h] in that node [p], holding
    [(k, v)], is the one linked behind the head sentinel. *)
Definition touched (head tail p : ptr) (k : Key) (v : Value)
    (h h' : list (Lru.LruNode (Key := Key) (Value := Value))) : Prop :=
  (∃ hd', h' !! head = Some hd' ∧ Lru.next_ hd' = Some p)
  ∧ (∃ n', h' !! p = Some n' ∧ Lru.key_ n' = k ∧ Lru.value_ n' = v
           ∧ Lru.prev_ n' = Some head ∧ Lru.next_ n' = Some tail)
  ∧ ∀ q, q ≠ head → q ≠ p → h' !! q = h !! q.

(** The shape of the nodes of a cache that was built by its methods. *)
Record wf (c : Lru.LruCache (Key := Key) (Value := Value)) : Prop := mkWf {
  wf_int : - 2 ^ 31 ≤ Lru.capacity_ c < 2 ^ 31;
  wf_sentinels : Lru.dummyHead_ c ≠ Lru.dummyTail_ c;
  wf_head : ∃ hd,
    Lru.nodes c !! Lru.dummyHead_ c = Some hd
    ∧ (Lru.next_ hd = Some (Lru.dummyTail_ c)
       ∨ ∃ k p, Lru.nodeMap_ c !! k = Some p ∧ Lru.next_ hd = Some p);
  wf_tail : ∃ tl,
    Lru.nodes c !! Lru.dummyTail_ c = Some tl
    ∧ Lru.prev_ tl = Some (Lru.dummyHead_ c);
  wf_nodes : ∀ k p, Lru.nodeMap_ c !! k = Some p →
    p ≠ Lru.dummyHead_ c ∧ p ≠ Lru.dummyTail_ c
    ∧ ∃ n, Lru.nodes c !! p = Some n ∧ Lru.key_ n = k
           ∧ Lru.prev_ n = Some (Lru.dummyHead_ c)
           ∧ Lru.next_ n = Some (Lru.dummyTail_ c);
  wf_empty : Lru.capacity_ c ≤ 0 → Lru.nodeMap_ c = ∅;
  wf_bound : 0 < Lru.capacity_ c → zsize (Lru.nodeMap_ c) ≤ Lru.capacity_ c;
  wf_full : zsize (Lru.nodeMap_ c) = Lru.capacity_ c →
    0 < Lru.capacity_ c → is_Some (first_key c)
}.

End LruModel.
End LruModel.

(** ** LruKCache

    [LruKCache] initialises and calls [LruCache<Key, Value>] as its base
    class (the promotion store) and owns [historyList_], an
    [LruCache<Key, size_t>] of access counts.  [put] compares the stored
    value with the empty string, so [Value] is [string]. *)

Module LruK.
Section LruKCache.
Context `{Countable Key}.
Variable Key0 : Key.

Record LruKCache := mkCache {
  base : Lru.LruCache (Key := Key) (Value := string);
  historyList_ : Lru.LruCache (Key := Key) (Value := Z);
  k_ : Z
}.

(** [LruKCache(int capacity, int historyCapacity, int k)] *)
Definition new (capacity historyCapacity k : Z) : LruKCache :=
  mkCache (Lru.new Key0 ""%string capacity)
          (Lru.new Key0 0 historyCapacity) k.

(** [int historyCount = historyList_->get(key);
     historyList_->put(key, ++historyCount);]
    returns the incremented count. *)
Definition touchHistory (key : Key)
    (h : Lru.LruCache (Key := Key) (Value := Z))
    : option (Z * Lru.LruCache (Key := Key) (Value := Z)) :=
  '(v, h1) ← Lru.get_value 0 key h;
  historyCount ← int_ok (s32 v + 1);
  h2 ← Lru.put key (u64 historyCount) h1;
  Some (historyCount, h2).

(** [Value get(Key key)] *)
Definition get (key : Key) (c : LruKCache) : option (string * LruKCache) :=
  '(_, h) ← touchHistory key (historyList_ c);
  '(v, b) ← Lru.get_value ""%string key (base c);
  Some (v, mkCache b h (k_ c)).

(** [void put(Key key, Value value)] *)
Definition put (key : Key) (value : string) (c : LruKCache)
    : option LruKCache :=
  '(v, b1) ← Lru.get_value ""%string key (base c);
  b2 ← (if decide (v ≠ ""%string) then Lru.put key value b1 else Some b1);
  '(historyCount, h1) ← touchHistory key (historyList_ c);
  if decide (k_ c ≤ historyCount) then
    h2 ← Lru.remove key h1;
    b3 ← Lru.put key value b2;
    Some (mkCache b3 h2 (k_ c))
  else Some (mkCache b2 h1 (k_ c)).

(** Membership in the promotion store. *)
Definition promoted (key : Key) (c : LruKCache) : bool :=
  bool_decide (is_Some (Lru.nodeMap_ (base c) !! key)).

(** An access of a key: [get(key)] or [put(key, value)]. *)
Inductive access := AGet | APut (value : string).

Definition do_access (key : Key) (a : access) (c : LruKCache)
    : option LruKCache :=
  match a with
  | AGet => snd <$> get key c
  | APut v => put key v c
  end.

End LruKCache.
End LruK.

(** *** What an [LruKCache] does, seen from outside *)

Module LruKModel.
Section LruKModel.
Context `{Countable Key}.

Record state := mkState {
  store : LruModel.state (Key := Key) (Value := string);
  history : LruModel.state (Key := Key) (Value := Z);
  k : Z
}.

Definition touchHistory (key : Key)
    (h : LruModel.state (Key := Key) (Value := Z))
    : option (Z * LruModel.state (Key := Key) (Value := Z)) :=
  let '(r, h1) := LruModel.get key h in
  historyCount ← int_ok (s32 (default 0 r) + 1);
  Some (historyCount, LruModel.put key (u64 historyCount) h1).

Definition get (key : Key) (a : state) : option (string * state) :=
  '(_, h) ← touchHistory key (history a);
  let '(r, b) := LruModel.get key (store a) in
  Some (default ""%string r, mkState b h (k a)).

Definition put (key : Key) (value : string) (a : state) : option state :=
  let '(r, b1) := LruModel.get key (store a) in
  let b2 := if decide (default ""%string r ≠ ""%string)
            then LruModel.put key value b1 else b1 in
  '(historyCount, h1) ← touchHistory key (history a);
  if decide (k a ≤ historyCount)
  then Some (mkState (LruModel.put key value b2) (LruModel.remove key h1) (k a))
  else Some (mkState b2 h1 (k a)).

Definition do_access (key : Key) (a : LruK.access) (s : state)
    : option state :=
  match a with
  | LruK.AGet => snd <$> get key s
  | LruK.APut v => put key v s
  end.

Definition abs (c : LruK.LruKCache (Key := Key)) : state :=
  mkState (LruModel.abs (LruK.base c)) (LruModel.abs (LruK.historyList_ c))
          (LruK.k_ c).

Definition wf (c : LruK.LruKCache (Key := Key)) : Prop :=
  LruModel.wf (LruK.base c) ∧ LruModel.wf (LruK.historyList_ c).

(** The states a fresh cache with K = 3 goes through while one key is
    accessed: nothing recorded, [n] accesses counted, key admitted. *)
Definition fresh (capacity historyCapacity : Z) : state :=
  mkState (LruModel.mkState capacity ∅ None)
          (LruModel.mkState historyCapacity ∅ None) 3.

Definition counted (capacity historyCapacity : Z) (key : Key) (n : Z)
    : state :=
  mkState (LruModel.mkState capacity ∅ None)
          (LruModel.mkState historyCapacity {[key := n]} (Some key)) 3.

Definition admitted (capacity historyCapacity : Z) (key : Key)
    (value : string) (history : gmap Key Z) (last : option Key) : state :=
  mkState (LruModel.mkState capacity {[key := value]} (Some key))
          (LruModel.mkState historyCapacity history last) 3.

End LruKModel.
End LruKModel.

(** ** HashLruCaches

    [std::hash<Key>] is the parameter [Hash]; [hardware_concurrency] is the
    value of [std::thread::hardware_concurrency()].  [std::ceil] of the
    [double] quotient is the integer ceiling for the capacities a cache can
    have. *)

Definition sliceSize (capacity sliceNum_ : Z) : Z :=
  (capacity + sliceNum_ - 1) `div` sliceNum_.

(** [vec[i]] with [i] a [size_t]; out of range is undefined. *)
Definition at_index {A} (l : list A) (i : Z) : option A :=
  if decide (0 ≤ i) then l !! Z.to_nat i else None.

Module HashLru.
Section HashLruCaches.
Context `{Countable Key} {Value : Type}.
Variables (Key0 : Key) (Value0 : Value).
Variable Hash : Key → Z.
Variable hardware_concurrency : Z.

Record HashLruCaches := mkCache {
  capacity_ : Z;
  sliceNum_ : Z;
  lruSliceCaches_ : list (Lru.LruCache (Key := Key) (Value := Value))
}.

(** [HashLruCaches(size_t capacity, int sliceNum)]: the loop runs to
    [sliceNum], not to [sliceNum_]. *)
Definition new (capacity sliceNum : Z) : HashLruCaches :=
  let n := if decide (0 < sliceNum) then sliceNum
           else s32 hardware_concurrency in
  mkCache capacity n
    (replicate (Z.to_nat sliceNum)
               (Lru.new Key0 Value0 (s32 (sliceSize capacity n)))).

(** [Hash(key) % sliceNum_], computed as [size_t]; a zero divisor is
    undefined. *)
Definition sliceIndex (key : Key) (c : HashLruCaches) : option Z :=
  if decide (u64 (sliceNum_ c) = 0) then None
  else Some (u64 (Hash key) `mod` u64 (sliceNum_ c)).

Definition with_slice (i : Z)
    (s : Lru.LruCache (Key := Key) (Value := Value))
    (c : HashLruCaches) : HashLruCaches :=
  mkCache (capacity_ c) (sliceNum_ c)
          (<[Z.to_nat i := s]> (lruSliceCaches_ c)).

(** [void put(Key key, Value value)] *)
Definition put (key : Key) (value : Value) (c : HashLruCaches)
    : option HashLruCaches :=
  i ← sliceIndex key c;
  s ← at_index (lruSliceCaches_ c) i;
  s' ← Lru.put key value s;
  Some (with_slice i s' c).

(** [bool get(Key key, Value& value)] *)
Definition get (key : Key) (c : HashLruCaches)
    : option (option Value * HashLruCaches) :=
  i ← sliceIndex key c;
  s ← at_index (lruSliceCaches_ c) i;
  '(r, s') ← Lru.get key s;
  Some (r, with_slice i s' c).

End HashLruCaches.
End HashLru.

(** ** LfuCache.h *)

Module Lfu.
Section LfuCache.
Context `{Countable Key} {Value : Type}.
(** What the default-initialised [key] and [value] members of a sentinel
    [Node()] hold (for a class type such as [std::string], the empty
    object). *)
Variables (Key0 : Key) (Value0 : Value).

Record Node := mkNode {
  freq : Z;
  key : Key;
  value : Value;
  prev : option ptr;
  next : option ptr
}.

(** [Node()] and [Node(Key key, Value value)] *)
Definition sentinel : Node := mkNode 1 Key0 Value0 None None.
Definition newNode (k : Key) (v : Value) : Node := mkNode 1 k v None None.

Definition set_freq (f : Z) (n : Node) : Node :=
  mkNode f (key n) (value n) (prev n) (next n).
Definition set_value (v : Value) (n : Node) : Node :=
  mkNode (freq n) (key n) v (prev n) (next n).
Definition set_prev (p : option ptr) (n : Node) : Node :=
  mkNode (freq n) (key n) (value n) p (next n).
Definition set_next (p : option ptr) (n : Node) : Node :=
  mkNode (freq n) (key n) (value n) (prev n) p.

Record FreqList := mkFreqList {
  freq_ : Z;
  head_ : ptr;
  tail_ : ptr
}.

Record LfuCache := mkCache {
  capacity_ : Z;
  minFreq_ : Z;
  maxAverageNum_ : Z;
  curAverageNum_ : Z;
  curTotalNum_ : Z;
  nodeMap_ : gmap Key ptr;
  freqToFreqList_ : gmap Z FreqList;
  nodes : list Node
}.

Definition with_nodes (h : list Node) (c : LfuCache) : LfuCache :=
  mkCache (capacity_ c) (minFreq_ c) (maxAverageNum_ c) (curAverageNum_ c)
          (curTotalNum_ c) (nodeMap_ c) (freqToFreqList_ c) h.
Definition with_nodeMap (m : gmap Key ptr) (c : LfuCache) : LfuCache :=
  mkCache (capacity_ c) (minFreq_ c) (maxAverageNum_ c) (curAverageNum_ c)
          (curTotalNum_ c) m (freqToFreqList_ c) (nodes c).
Definition with_lists (l : gmap Z FreqList) (c : LfuCache) : LfuCache :=
  mkCache (capacity_ c) (minFreq_ c) (maxAverageNum_ c) (curAverageNum_ c)
          (curTotalNum_ c) (nodeMap_ c) l (nodes c).
Definition with_minFreq (f : Z) (c : LfuCache) : LfuCache :=
  mkCache (capacity_ c) f (maxAverageNum_ c) (curAverageNum_ c)
          (curTotalNum_ c) (nodeMap_ c) (freqToFreqList_ c) (nodes c).
Definition with_average (a : Z) (c : LfuCache) : LfuCache :=
  mkCache (capacity_ c) (minFreq_ c) (maxAverageNum_ c) a
          (curTotalNum_ c) (nodeMap_ c) (freqToFreqList_ c) (nodes c).
Definition with_total (t : Z) (c : LfuCache) : LfuCache :=
  mkCache (capacity_ c) (minFreq_ c) (maxAverageNum_ c) (curAverageNum_ c)
          t (nodeMap_ c) (freqToFreqList_ c) (nodes c).

Definition store (p : ptr) (f : Node → Node) (h : list Node)
    : option (list Node) :=
  n ← h !! p; Some (<[p := f n]> h).

Definition alloc (n : Node) (h : list Node) : ptr * list Node :=
  (length h, h ++ [n]).

(** *** FreqList *)

(** [explicit FreqList(int n)] *)
Definition FreqList_new (n : Z) (h : list Node) : FreqList * list Node :=
  let hd := length h in
  let tl := S (length h) in
  (mkFreqList n hd tl,
   h ++ [set_next (Some tl) sentinel; set_prev (Some hd) sentinel]).

(** [isEmpty]: [head_->next == tail_] *)
Definition isEmpty (l : FreqList) (h : list Node) : option bool :=
  hd ← h !! head_ l;
  Some (bool_decide (next hd = Some (tail_ l))).

(** [addNode]:
    [node->prev = tail_->prev; tail_->prev = node;
     node->prev->next = node; node->next = tail_;] *)
Definition addNode (l : FreqList) (node : option ptr) (h : list Node)
    : option (list Node) :=
  match node with
  | None => Some h
  | Some p =>
      t ← h !! tail_ l;
      h1 ← store p (set_prev (prev t)) h;
      h2 ← store (tail_ l) (set_prev (Some p)) h1;
      n ← h2 !! p;
      pp ← prev n;
      h3 ← store pp (set_next (Some p)) h2;
      store p (set_next (Some (tail_ l))) h3
  end.

(** [removeNode]: nothing happens for a null [node] or a [node] whose
    [next] or [prev] is null; otherwise
    [node->prev->next = node->next; node->next->prev = node->prev;
     node->prev = nullptr; node->next = nullptr;] *)
Definition removeNode (node : option ptr) (h : list Node)
    : option (list Node) :=
  match node with
  | None => Some h
  | Some p =>
      n ← h !! p;
      match next n, prev n with
      | Some _, Some pp =>
          h1 ← store pp (set_next (next n)) h;
          n1 ← h1 !! p;
          nn ← next n1;
          h2 ← store nn (set_prev (prev n1)) h1;
          h3 ← store p (set_prev None) h2;
          store p (set_next None) h3
      | _, _ => Some h
      end
  end.

(** [getFirstNode]: [head_->next] *)
Definition getFirstNode (l : FreqList) (h : list Node)
    : option (option ptr) :=
  hd ← h !! head_ l; Some (next hd).

(** *** LfuCache *)

(** [LfuCache(int capacity, int maxAverageNum = 10)] *)
Definition new (capacity maxAverageNum : Z) : LfuCache :=
  mkCache capacity INT_MAX maxAverageNum 0 0 ∅ ∅ [].

(** [removeFromFreqList]; [freqToFreqList_[freq]] of a frequency without
    a list is a null [FreqList*]. *)
Definition removeFromFreqList (node : option ptr) (c : LfuCache)
    : option LfuCache :=
  match node with
  | None => Some c
  | Some p =>
      n ← nodes c !! p;
      _ ← freqToFreqList_ c !! freq n;
      h ← removeNode node (nodes c);
      Some (with_nodes h c)
  end.

(** [addToFreqList] *)
Definition addToFreqList (node : option ptr) (c : LfuCache)
    : option LfuCache :=
  match node with
  | None => Some c
  | Some p =>
      n ← nodes c !! p;
      let c1 :=
        match freqToFreqList_ c !! freq n with
        | Some _ => c
        | None =>
            let '(l, h) := FreqList_new (freq n) (nodes c) in
            with_lists (<[freq n := l]> (freqToFreqList_ c)) (with_nodes h c)
        end in
      l ← freqToFreqList_ c1 !! freq n;
      h ← addNode l node (nodes c1);
      Some (with_nodes h c1)
  end.

(** [updateMinFreq]; the minimum does not depend on the iteration order
    of the [unordered_map]. *)
Definition updateMinFreq (c : LfuCache) : option LfuCache :=
  m ← foldr (λ (fl : Z * FreqList) (acc : option Z),
               m ← acc;
               e ← isEmpty fl.2 (nodes c);
               Some (if (e : bool) then m else Z.min m fl.1))
            (Some INT8_MAX) (map_to_list (freqToFreqList_ c));
  Some (with_minFreq (if decide (m = INT8_MAX) then 1 else m) c).

(** The body of the loop of [handleOverMaxAverageNum]; [/] on [int]
    truncates. *)
Definition ageNode (node : ptr) (c : LfuCache) : option LfuCache :=
  c1 ← removeFromFreqList (Some node) c;
  n ← nodes c1 !! node;
  f ← int_ok (freq n - maxAverageNum_ c1 `quot` 2);
  h ← store node (set_freq (if decide (f < 1) then 1 else f)) (nodes c1);
  addToFreqList (Some node) (with_nodes h c1).

(** [handleOverMaxAverageNum]; the loop visits [nodeMap_] in the order of
    [map_to_list]. *)
Definition handleOverMaxAverageNum (c : LfuCache) : option LfuCache :=
  if decide (nodeMap_ c = ∅) then Some c
  else
    c1 ← foldl (λ (acc : option LfuCache) (kn : Key * ptr), c0 ← acc; ageNode kn.2 c0)
               (Some c) (map_to_list (nodeMap_ c));
    updateMinFreq c1.

(** [addFreqNum]; [curTotalNum_ / nodeMap_.size()] divides as [size_t]. *)
Definition addFreqNum (c : LfuCache) : option LfuCache :=
  t ← int_ok (curTotalNum_ c + 1);
  let a := if decide (nodeMap_ c = ∅) then 0
           else s32 (u64 t `div` zsize (nodeMap_ c)) in
  let c1 := with_average a (with_total t c) in
  if decide (maxAverageNum_ c1 < a) then handleOverMaxAverageNum c1
  else Some c1.

(** [decreaseFreqNum]; [curAverageNum_ -= size_t] is computed as
    [size_t] and narrowed. *)
Definition decreaseFreqNum (num : Z) (c : LfuCache) : option LfuCache :=
  t ← int_ok (curTotalNum_ c - num);
  let a := if decide (nodeMap_ c = ∅) then 0
           else s32 (u64 (u64 (curAverageNum_ c)
                          - u64 t `div` zsize (nodeMap_ c))) in
  Some (with_average a (with_total t c)).

(** [getInternal]; the result carries the value read. *)
Definition getInternal (node : ptr) (c : LfuCache)
    : option (Value * LfuCache) :=
  n ← nodes c !! node;
  let v := value n in
  c1 ← removeFromFreqList (Some node) c;
  n1 ← nodes c1 !! node;
  f ← int_ok (freq n1 + 1);
  h ← store node (set_freq f) (nodes c1);
  c2 ← addToFreqList (Some node) (with_nodes h c1);
  c3 ← (if decide (f - 1 = minFreq_ c2) then
          l ← freqToFreqList_ c2 !! (f - 1);
          e ← isEmpty l (nodes c2);
          if (e : bool)
          then m ← int_ok (minFreq_ c2 + 1); Some (with_minFreq m c2)
          else Some c2
        else Some c2);
  c4 ← addFreqNum c3;
  Some (v, c4).

(** [kickOut] *)
Definition kickOut (c : LfuCache) : option LfuCache :=
  l ← freqToFreqList_ c !! minFreq_ c;
  node ← getFirstNode l (nodes c);
  c1 ← removeFromFreqList node c;
  p ← node;
  n ← nodes c1 !! p;
  decreaseFreqNum (freq n) (with_nodeMap (delete (key n) (nodeMap_ c1)) c1).

(** [putInternal]; [nodeMap_.size() == capacity_] compares as [size_t]. *)
Definition putInternal (k : Key) (v : Value) (c : LfuCache)
    : option LfuCache :=
  c1 ← (if decide (zsize (nodeMap_ c) = u64 (capacity_ c)) then kickOut c
        else Some c);
  let '(p, h) := alloc (newNode k v) (nodes c1) in
  let c2 := with_nodeMap (<[k := p]> (nodeMap_ c1)) (with_nodes h c1) in
  c3 ← addToFreqList (Some p) c2;
  c4 ← addFreqNum c3;
  Some (with_minFreq (Z.min (minFreq_ c4) 1) c4).

(** [void put(Key key, Value value)] *)
Definition put (k : Key) (v : Value) (c : LfuCache) : option LfuCache :=
  if decide (capacity_ c = 0) then Some c
  else match nodeMap_ c !! k with
       | Some node =>
           h ← store node (set_value v) (nodes c);
           snd <$> getInternal node (with_nodes h c)
       | None => putInternal k v c
       end.

(** [bool get(Key key, Value& value)] *)
Definition get (k : Key) (c : LfuCache) : option (option Value * LfuCache) :=
  match nodeMap_ c !! k with
  | Some node =>
      '(v, c1) ← getInternal node c;
      Some (Some v, c1)
  | None => Some (None, c)
  end.

(** [void purge()] *)
Definition purge (c : LfuCache) : LfuCache :=
  with_lists ∅ (with_nodeMap ∅ c).

(** The frequency recorded in the node of a resident key. *)
Definition freq_of (k : Key) (c : LfuCache) : option Z :=
  p ← nodeMap_ c !! k; n ← nodes c !! p; Some (freq n).

End LfuCache.
End Lfu.


(** ** HashLfuCache *)

Module HashLfu.
Section HashLfuCache.
Context `{Countable Key} {Value : Type}.
Variables (Key0 : Key) (Value0 : Value).
Variable Hash : Key → Z.
Variable hardware_concurrency : Z.

Record HashLfuCache := mkCache {
  capacity_ : Z;
  sliceNum_ : Z;
  lfuSliceCaches_ : list (Lfu.LfuCache (Key := Key) (Value := Value))
}.

(** [HashLfuCache(size_t capacity, int sliceNum, int maxAverageNum = 10)] *)
Definition new (capacity sliceNum maxAverageNum : Z) : HashLfuCache :=
  let n := if decide (0 < sliceNum) then sliceNum
           else s32 hardware_concurrency in
  mkCache capacity n
    (replicate (Z.to_nat sliceNum)
               (Lfu.new (s32 (sliceSize capacity n)) maxAverageNum)).

(** [Hash(key) % sliceNum_], computed as [size_t]; a zero divisor is
    undefined. *)
Definition sliceIndex (k : Key) (c : HashLfuCache) : option Z :=
  if decide (u64 (sliceNum_ c) = 0) then None
  else Some (u64 (Hash k) `mod` u64 (sliceNum_ c)).

Definition with_slice (i : Z)
    (s : Lfu.LfuCache (Key := Key) (Value := Value))
    (c : HashLfuCache) : HashLfuCache :=
  mkCache (capacity_ c) (sliceNum_ c)
          (<[Z.to_nat i := s]> (lfuSliceCaches_ c)).

(** [void put(Key key, Value value)]: the body is
    [return lfuSliceCaches_[sliceIndex]->get(key, value);], a lookup in
    the shard with [value] as the output argument. *)
Definition put (k : Key) (v : Value) (c : HashLfuCache)
    : option HashLfuCache :=
  i ← sliceIndex k c;
  s ← at_index (lfuSliceCaches_ c) i;
  '(_, s') ← Lfu.get Key0 Value0 k s;
  Some (with_slice i s' c).

(** Modelled from the spec: the two-argument [get(key, value)] that
    [Value get(Key key)] calls is not declared in [HashLfuCache]; by
    section 4.5 it has the routing of [HashLruCaches::get] and asks the
    one shard selected by the hash. *)
Definition get (k : Key) (c : HashLfuCache)
    : option (option Value * HashLfuCache) :=
  i ← sliceIndex k c;
  s ← at_index (lfuSliceCaches_ c) i;
  '(r, s') ← Lfu.get Key0 Value0 k s;
  Some (r, with_slice i s' c).

(** [void purge()] *)
Definition purge (c : HashLfuCache) : HashLfuCache :=
  mkCache (capacity_ c) (sliceNum_ c) (Lfu.purge <$> lfuSliceCaches_ c).

End HashLfuCache.
End HashLfu.

(** ** ArcCache/ArcCacheNode.h *)

Module ArcNode.
Section ArcNode.
Context {Key Value : Type}.

(** Modelled from the spec: [ArcCacheNode.h] is not among the sources.
    By section 3 an entry is [{key, value, accessCount}] and its
    [accessCount] is 1 when it is freshly created; the partitions use the
    members [accessCount_], [prev_], [next_] and the accessors [getKey],
    [getValue], [setValue], [getAccessCount], [increaseAccessCount]. *)
Record ArcNode := mkNode {
  key_ : Key;
  value_ : Value;
  accessCount_ : Z;
  prev_ : option ptr;
  next_ : option ptr
}.

Definition newNode (key : Key) (value : Value) : ArcNode :=
  mkNode key value 1 None None.

Definition setValue (value : Value) (n : ArcNode) : ArcNode :=
  mkNode (key_ n) value (accessCount_ n) (prev_ n) (next_ n).
Definition set_accessCount (a : Z) (n : ArcNode) : ArcNode :=
  mkNode (key_ n) (value_ n) a (prev_ n) (next_ n).
Definition increaseAccessCount (n : ArcNode) : ArcNode :=
  set_accessCount (u64 (accessCount_ n + 1)) n.
Definition set_prev (p : option ptr) (n : ArcNode) : ArcNode :=
  mkNode (key_ n) (value_ n) (accessCount_ n) p (next_ n).
Definition set_next (p : option ptr) (n : ArcNode) : ArcNode :=
  mkNode (key_ n) (value_ n) (accessCount_ n) (prev_ n) p.

Definition store (p : ptr) (f : ArcNode → ArcNode) (h : list ArcNode)
    : option (list ArcNode) :=
  n ← h !! p; Some (<[p := f n]> h).

Definition alloc (n : ArcNode) (h : list ArcNode) : ptr * list ArcNode :=
  (length h, h ++ [n]).

(** [node->prev_->next_ = node->next_; node->next_->prev_ = node->prev_;],
    the body shared by [removeFromMain], [removeFromGhost] and the first
    half of [moveToFront]. *)
Definition unlink (node : option ptr) (h : list ArcNode)
    : option (list ArcNode) :=
  p ← node;
  n ← h !! p;
  pp ← prev_ n;
  h1 ← store pp (set_next (next_ n)) h;
  n1 ← h1 !! p;
  nn ← next_ n1;
  store nn (set_prev (prev_ n1)) h1.

(** [node->next_ = head->next_; head->next_ = node;
     node->next_->prev_ = node; node->prev_ = head;] *)
Definition link_after (head : ptr) (node : option ptr) (h : list ArcNode)
    : option (list ArcNode) :=
  p ← node;
  hd ← h !! head;
  h1 ← store p (set_next (next_ hd)) h;
  h2 ← store head (set_next (Some p)) h1;
  n ← h2 !! p;
  nn ← next_ n;
  h3 ← store nn (set_prev (Some p)) h2;
  store p (set_prev (Some head)) h3.

(** [node->next_ = tail; tail->prev_->next_ = node;
     node->prev_ = tail->prev_; tail->prev_ = node;] *)
Definition link_before (tail : ptr) (node : option ptr) (h : list ArcNode)
    : option (list ArcNode) :=
  p ← node;
  h1 ← store p (set_next (Some tail)) h;
  t ← h1 !! tail;
  tp ← prev_ t;
  h2 ← store tp (set_next (Some p)) h1;
  t2 ← h2 !! tail;
  h3 ← store p (set_prev (prev_ t2)) h2;
  store tail (set_prev (Some p)) h3.

(** A node update that only redirects links or resets the counter. *)
Definition keeps_entry (f : ArcNode → ArcNode) : Prop :=
  ∀ n, key_ (f n) = key_ n ∧ value_ (f n) = value_ n.

(** Two arenas that hold the same key and value at every pointer. *)
Definition same_entries (h h' : list ArcNode) : Prop :=
  ∀ p, (λ n, (key_ n, value_ n)) <$> h' !! p
       = (λ n, (key_ n, value_ n)) <$> h !! p.

End ArcNode.
End ArcNode.


(** ** ArcCache/ArcLruPart.h *)

Module ArcLru.
Import ArcNode.
Section ArcLruPart.
Context `{Countable Key} {Value : Type}.
Variables (Key0 : Key) (Value0 : Value).

Record ArcLruPart := mkPart {
  capacity_ : Z;
  ghostCapacity_ : Z;
  transformThreshold_ : Z;
  mainCache_ : gmap Key ptr;
  ghostCache_ : gmap Key ptr;
  mainHead_ : ptr;
  mainTail_ : ptr;
  ghostHead_ : ptr;
  ghostTail_ : ptr;
  nodes : list (ArcNode (Key := Key) (Value := Value))
}.

Definition with_nodes (h : list ArcNode) (c : ArcLruPart) : ArcLruPart :=
  mkPart (capacity_ c) (ghostCapacity_ c) (transformThreshold_ c)
         (mainCache_ c) (ghostCache_ c)
         (mainHead_ c) (mainTail_ c) (ghostHead_ c) (ghostTail_ c) h.
Definition with_mainCache (m : gmap Key ptr) (c : ArcLruPart) : ArcLruPart :=
  mkPart (capacity_ c) (ghostCapacity_ c) (transformThreshold_ c)
         m (ghostCache_ c)
         (mainHead_ c) (mainTail_ c) (ghostHead_ c) (ghostTail_ c) (nodes c).
Definition with_ghostCache (g : gmap Key ptr) (c : ArcLruPart) : ArcLruPart :=
  mkPart (capacity_ c) (ghostCapacity_ c) (transformThreshold_ c)
         (mainCache_ c) g
         (mainHead_ c) (mainTail_ c) (ghostHead_ c) (ghostTail_ c) (nodes c).
Definition with_capacity (n : Z) (c : ArcLruPart) : ArcLruPart :=
  mkPart n (ghostCapacity_ c) (transformThreshold_ c)
         (mainCache_ c) (ghostCache_ c)
         (mainHead_ c) (mainTail_ c) (ghostHead_ c) (ghostTail_ c) (nodes c).

(** [ArcLruPart(size_t capacity, size_t transformThreshold)] with
    [initlizeLists] *)
Definition new (capacity transformThreshold : Z) : ArcLruPart :=
  let s := newNode Key0 Value0 in
  mkPart capacity capacity transformThreshold ∅ ∅ 0%nat 1%nat 2%nat 3%nat
    [set_next (Some 1%nat) s; set_prev (Some 0%nat) s;
     set_next (Some 3%nat) s; set_prev (Some 2%nat) s].

(** [addToFront] *)
Definition addToFront (node : option ptr) (c : ArcLruPart)
    : option ArcLruPart :=
  h ← link_after (mainHead_ c) node (nodes c); Some (with_nodes h c).

(** [moveToFront] *)
Definition moveToFront (node : option ptr) (c : ArcLruPart)
    : option ArcLruPart :=
  h ← unlink node (nodes c); addToFront node (with_nodes h c).

(** [removeFromMain] *)
Definition removeFromMain (node : option ptr) (c : ArcLruPart)
    : option ArcLruPart :=
  h ← unlink node (nodes c); Some (with_nodes h c).

(** [removeFromGhost] *)
Definition removeFromGhost (node : option ptr) (c : ArcLruPart)
    : option ArcLruPart :=
  h ← unlink node (nodes c); Some (with_nodes h c).

(** [addToGhost]: the node goes to the head of the ghost list. *)
Definition addToGhost (node : option ptr) (c : ArcLruPart)
    : option ArcLruPart :=
  p ← node;
  h1 ← store p (set_accessCount 1) (nodes c);
  h2 ← link_after (ghostHead_ c) node h1;
  n ← h2 !! p;
  Some (with_ghostCache (<[key_ n := p]> (ghostCache_ c)) (with_nodes h2 c)).

(** [removeOldestGhost]: the victim is [ghostTail_->prev_]. *)
Definition removeOldestGhost (c : ArcLruPart) : option ArcLruPart :=
  t ← nodes c !! ghostTail_ c;
  let oldestGhost := prev_ t in
  if decide (oldestGhost = Some (ghostHead_ c)) then Some c
  else
    c1 ← removeFromGhost oldestGhost c;
    p ← oldestGhost;
    n ← nodes c1 !! p;
    Some (with_ghostCache (delete (key_ n) (ghostCache_ c1)) c1).

(** [evictLeastRecent] *)
Definition evictLeastRecent (c : ArcLruPart) : option ArcLruPart :=
  t ← nodes c !! mainTail_ c;
  let leastRecent := prev_ t in
  if decide (leastRecent = Some (mainHead_ c)) then Some c
  else
    c1 ← removeFromMain leastRecent c;
    c2 ← (if decide (ghostCapacity_ c1 ≤ zsize (ghostCache_ c1))
          then removeOldestGhost c1 else Some c1);
    c3 ← addToGhost leastRecent c2;
    p ← leastRecent;
    n ← nodes c3 !! p;
    Some (with_mainCache (delete (key_ n) (mainCache_ c3)) c3).

(** [updateExistingNode] *)
Definition updateExistingNode (node : ptr) (value : Value) (c : ArcLruPart)
    : option ArcLruPart :=
  h ← store node (setValue value) (nodes c);
  moveToFront (Some node) (with_nodes h c).

(** [addNewNode] *)
Definition addNewNode (key : Key) (value : Value) (c : ArcLruPart)
    : option ArcLruPart :=
  c1 ← (if decide (capacity_ c ≤ zsize (mainCache_ c))
        then evictLeastRecent c else Some c);
  let '(p, h) := alloc (newNode key value) (nodes c1) in
  addToFront (Some p)
    (with_mainCache (<[key := p]> (mainCache_ c1)) (with_nodes h c1)).

(** [updateNodeAccess] *)
Definition updateNodeAccess (node : ptr) (c : ArcLruPart)
    : option (bool * ArcLruPart) :=
  c1 ← moveToFront (Some node) c;
  h ← store node increaseAccessCount (nodes c1);
  n ← h !! node;
  Some (bool_decide (transformThreshold_ c1 ≤ accessCount_ n),
        with_nodes h c1).

(** [bool put(Key key, Value value)] *)
Definition put (key : Key) (value : Value) (c : ArcLruPart)
    : option (bool * ArcLruPart) :=
  if decide (capacity_ c = 0) then Some (false, c)
  else
    c1 ← match mainCache_ c !! key with
         | Some node => updateExistingNode node value c
         | None => addNewNode key value c
         end;
    Some (true, c1).

(** [bool get(Key key, Value& value, bool& shouldTransform)]: on a hit
    the first component is [Some (value, shouldTransform)]. *)
Definition get (key : Key) (c : ArcLruPart)
    : option (option (Value * bool) * ArcLruPart) :=
  match mainCache_ c !! key with
  | Some node =>
      '(shouldTransform, c1) ← updateNodeAccess node c;
      n ← nodes c1 !! node;
      Some (Some (value_ n, shouldTransform), c1)
  | None => Some (None, c)
  end.

(** [inLruMainCache] *)
Definition inLruMainCache (key : Key) (c : ArcLruPart) : bool :=
  bool_decide (is_Some (mainCache_ c !! key)).

(** [bool checkGhost(Key key)] *)
Definition checkGhost (key : Key) (c : ArcLruPart)
    : option (bool * ArcLruPart) :=
  match ghostCache_ c !! key with
  | Some node =>
      c1 ← removeFromGhost (Some node) c;
      Some (true, with_ghostCache (delete key (ghostCache_ c1)) c1)
  | None => Some (false, c)
  end.

(** [increaseCapacity] *)
Definition increaseCapacity (c : ArcLruPart) : ArcLruPart :=
  with_capacity (u64 (capacity_ c + 1)) c.

(** [bool decreaseCapacity()] *)
Definition decreaseCapacity (c : ArcLruPart) : option (bool * ArcLruPart) :=
  if decide (capacity_ c ≤ 0) then Some (false, c)
  else
    c1 ← (if decide (zsize (mainCache_ c) = capacity_ c)
          then evictLeastRecent c else Some c);
    Some (true, with_capacity (capacity_ c1 - 1) c1).

End ArcLruPart.
End ArcLru.

(** ** ArcCache/ArcLfuPart.h *)

(** [freqMap_.begin()->first]: the smallest key of the ordered map. *)
Definition min_key {A} (m : gmap Z A) : option Z :=
  match (map_to_list m).*1 with
  | [] => None
  | f :: fs => Some (foldr Z.min f fs)
  end.

Module ArcLfu.
Import ArcNode.
Section ArcLfuPart.
Context `{Countable Key} {Value : Type}.
Variables (Key0 : Key) (Value0 : Value).

Record ArcLfuPart := mkPart {
  capacity_ : Z;
  ghostCapacity_ : Z;
  transformThreshold_ : Z;
  minFreq_ : Z;
  mainCache_ : gmap Key ptr;
  ghostCache_ : gmap Key ptr;
  freqMap_ : gmap Z (list ptr);
  ghostHead_ : ptr;
  ghostTail_ : ptr;
  nodes : list (ArcNode (Key := Key) (Value := Value))
}.

Definition with_nodes (h : list ArcNode) (c : ArcLfuPart) : ArcLfuPart :=
  mkPart (capacity_ c) (ghostCapacity_ c) (transformThreshold_ c)
         (minFreq_ c) (mainCache_ c) (ghostCache_ c) (freqMap_ c)
         (ghostHead_ c) (ghostTail_ c) h.
Definition with_mainCache (m : gmap Key ptr) (c : ArcLfuPart) : ArcLfuPart :=
  mkPart (capacity_ c) (ghostCapacity_ c) (transformThreshold_ c)
         (minFreq_ c) m (ghostCache_ c) (freqMap_ c)
         (ghostHead_ c) (ghostTail_ c) (nodes c).
Definition with_ghostCache (g : gmap Key ptr) (c : ArcLfuPart) : ArcLfuPart :=
  mkPart (capacity_ c) (ghostCapacity_ c) (transformThreshold_ c)
         (minFreq_ c) (mainCache_ c) g (freqMap_ c)
         (ghostHead_ c) (ghostTail_ c) (nodes c).
Definition with_freqMap (f : gmap Z (list ptr)) (c : ArcLfuPart)
    : ArcLfuPart :=
  mkPart (capacity_ c) (ghostCapacity_ c) (transformThreshold_ c)
         (minFreq_ c) (mainCache_ c) (ghostCache_ c) f
         (ghostHead_ c) (ghostTail_ c) (nodes c).
Definition with_minFreq (f : Z) (c : ArcLfuPart) : ArcLfuPart :=
  mkPart (capacity_ c) (ghostCapacity_ c) (transformThreshold_ c)
         f (mainCache_ c) (ghostCache_ c) (freqMap_ c)
         (ghostHead_ c) (ghostTail_ c) (nodes c).
Definition with_capacity (n : Z) (c : ArcLfuPart) : ArcLfuPart :=
  mkPart n (ghostCapacity_ c) (transformThreshold_ c)
         (minFreq_ c) (mainCache_ c) (ghostCache_ c) (freqMap_ c)
         (ghostHead_ c) (ghostTail_ c) (nodes c).

(** [ArcLfuPart(size_t capacity, size_t transformThreshold)] with
    [initializeLists] *)
Definition new (capacity transformThreshold : Z) : ArcLfuPart :=
  let s := newNode Key0 Value0 in
  mkPart capacity capacity transformThreshold 0 ∅ ∅ ∅ 0%nat 1%nat
    [set_next (Some 1%nat) s; set_prev (Some 0%nat) s].

(** [removeFromGhost] *)
Definition removeFromGhost (node : option ptr) (c : ArcLfuPart)
    : option ArcLfuPart :=
  h ← unlink node (nodes c); Some (with_nodes h c).

(** [addToGhost]: the node goes to the tail of the ghost list. *)
Definition addToGhost (node : option ptr) (c : ArcLfuPart)
    : option ArcLfuPart :=
  p ← node;
  h1 ← store p (set_accessCount 1) (nodes c);
  h2 ← link_before (ghostTail_ c) node h1;
  n ← h2 !! p;
  Some (with_ghostCache (<[key_ n := p]> (ghostCache_ c)) (with_nodes h2 c)).

(** [removeOldestGhost]: the victim is [ghostHead_->next_]. *)
Definition removeOldestGhost (c : ArcLfuPart) : option ArcLfuPart :=
  hd ← nodes c !! ghostHead_ c;
  let oldestGhost := next_ hd in
  if decide (oldestGhost ≠ Some (ghostTail_ c)) then
    c1 ← removeFromGhost oldestGhost c;
    p ← oldestGhost;
    n ← nodes c1 !! p;
    Some (with_ghostCache (delete (key_ n) (ghostCache_ c1)) c1)
  else Some c.

(** [updateNodeFrequency]; [freqMap_[oldFreq]] creates an empty list for
    a frequency that has none, [oldList.remove(node)] drops every
    occurrence of the pointer. *)
Definition updateNodeFrequency (node : ptr) (c : ArcLfuPart)
    : option ArcLfuPart :=
  n ← nodes c !! node;
  let oldFreq := accessCount_ n in
  h ← store node increaseAccessCount (nodes c);
  n1 ← h !! node;
  let newFreq := accessCount_ n1 in
  let oldList :=
    filter (λ q, q ≠ node) (default [] (freqMap_ c !! oldFreq)) in
  let c1 :=
    if decide (oldList = []) then
      let c0 := with_freqMap (delete oldFreq (freqMap_ c)) c in
      if decide (oldFreq = minFreq_ c) then with_minFreq newFreq c0 else c0
    else with_freqMap (<[oldFreq := oldList]> (freqMap_ c)) c in
  let newList := default [] (freqMap_ c1 !! newFreq) ++ [node] in
  Some (with_freqMap (<[newFreq := newList]> (freqMap_ c1))
                     (with_nodes h c1)).

(** [evictLeastFrequent]; [freqMap_[minFreq_]] creates an empty list
    when [minFreq_] has none. *)
Definition evictLeastFrequent (c : ArcLfuPart) : option ArcLfuPart :=
  if decide (freqMap_ c = ∅) then Some c
  else
    match default [] (freqMap_ c !! minFreq_ c) with
    | [] => Some (with_freqMap (<[minFreq_ c := []]> (freqMap_ c)) c)
    | leastNode :: rest =>
        let c1 :=
          match rest with
          | [] =>
              let fm := delete (minFreq_ c) (freqMap_ c) in
              let c0 := with_freqMap fm c in
              match min_key fm with
              | Some f => with_minFreq f c0
              | None => c0
              end
          | _ => with_freqMap (<[minFreq_ c := rest]> (freqMap_ c)) c
          end in
        c2 ← (if decide (ghostCapacity_ c1 ≤ zsize (ghostCache_ c1))
              then removeOldestGhost c1 else Some c1);
        c3 ← addToGhost (Some leastNode) c2;
        n ← nodes c3 !! leastNode;
        Some (with_mainCache (delete (key_ n) (mainCache_ c3)) c3)
    end.

(** [updateExistingNode] *)
Definition updateExistingNode (node : ptr) (value : Value) (c : ArcLfuPart)
    : option ArcLfuPart :=
  h ← store node (setValue value) (nodes c);
  updateNodeFrequency node (with_nodes h c).

(** [addNewNode] *)
Definition addNewNode (key : Key) (value : Value) (c : ArcLfuPart)
    : option ArcLfuPart :=
  c1 ← (if decide (capacity_ c ≤ zsize (mainCache_ c))
        then evictLeastFrequent c else Some c);
  let '(p, h) := alloc (newNode key value) (nodes c1) in
  let l := default [] (freqMap_ c1 !! 1) ++ [p] in
  Some (with_minFreq 1
          (with_freqMap (<[1 := l]> (freqMap_ c1))
             (with_mainCache (<[key := p]> (mainCache_ c1))
                (with_nodes h c1)))).

(** [bool put(Key key, Value value)] *)
Definition put (key : Key) (value : Value) (c : ArcLfuPart)
    : option (bool * ArcLfuPart) :=
  if decide (capacity_ c = 0) then Some (false, c)
  else
    c1 ← match mainCache_ c !! key with
         | Some node => updateExistingNode node value c
         | None => addNewNode key value c
         end;
    Some (true, c1).

(** [bool get(Key key, Value& value)] *)
Definition get (key : Key) (c : ArcLfuPart)
    : option (option Value * ArcLfuPart) :=
  match mainCache_ c !! key with
  | Some node =>
      c1 ← updateNodeFrequency node c;
      n ← nodes c1 !! node;
      Some (Some (value_ n), c1)
  | None => Some (None, c)
  end.

(** [inLfuMainCache] *)
Definition inLfuMainCache (key : Key) (c : ArcLfuPart) : bool :=
  bool_decide (is_Some (mainCache_ c !! key)).

(** [bool checkGhost(Key key)] *)
Definition checkGhost (key : Key) (c : ArcLfuPart)
    : option (bool * ArcLfuPart) :=
  match ghostCache_ c !! key with
  | Some node =>
      c1 ← removeFromGhost (Some node) c;
      Some (true, with_ghostCache (delete key (ghostCache_ c1)) c1)
  | None => Some (false, c)
  end.

(** [increaseCapacity] *)
Definition increaseCapacity (c : ArcLfuPart) : ArcLfuPart :=
  with_capacity (u64 (capacity_ c + 1)) c.

(** [bool decreaseCapacity()]: at capacity 0 the result is [true]. *)
Definition decreaseCapacity (c : ArcLfuPart) : option (bool * ArcLfuPart) :=
  if decide (capacity_ c ≤ 0) then Some (true, c)
  else
    c1 ← (if decide (zsize (mainCache_ c) = capacity_ c)
          then evictLeastFrequent c else Some c);
    Some (true, with_capacity (capacity_ c1 - 1) c1).

(** The frequency recorded in the node of a resident key. *)
Definition freq_of (key : Key) (c : ArcLfuPart) : option Z :=
  p ← mainCache_ c !! key; n ← nodes c !! p; Some (accessCount_ n).

End ArcLfuPart.
End ArcLfu.

(** ** ArcCache/ArcCache.h *)

Module Arc.
Section ArcCache.
Context `{Countable Key} {Value : Type}.
Variables (Key0 : Key) (Value0 : Value).

Record ArcCache := mkCache {
  capacity_ : Z;
  transformThreshold_ : Z;
  lruPart_ : ArcLru.ArcLruPart (Key := Key) (Value := Value);
  lfuPart_ : ArcLfu.ArcLfuPart (Key := Key) (Value := Value)
}.

Definition with_lru (l : ArcLru.ArcLruPart) (c : ArcCache) : ArcCache :=
  mkCache (capacity_ c) (transformThreshold_ c) l (lfuPart_ c).
Definition with_lfu (l : ArcLfu.ArcLfuPart) (c : ArcCache) : ArcCache :=
  mkCache (capacity_ c) (transformThreshold_ c) (lruPart_ c) l.

(** [ArcCache(size_t capacity = 10, size_t transformThreshold = 3)] *)
Definition new (capacity transformThreshold : Z) : ArcCache :=
  mkCache capacity transformThreshold
          (ArcLru.new Key0 Value0 capacity transformThreshold)
          (ArcLfu.new Key0 Value0 capacity transformThreshold).

(** [bool checkGhostCaches(Key key)] *)
Definition checkGhostCaches (key : Key) (c : ArcCache)
    : option (bool * ArcCache) :=
  '(inLru, lru1) ← ArcLru.checkGhost key (lruPart_ c);
  if (inLru : bool) then
    '(ok, lfu1) ← ArcLfu.decreaseCapacity (lfuPart_ c);
    let lru2 := if (ok : bool) then ArcLru.increaseCapacity lru1 else lru1 in
    Some (true, mkCache (capacity_ c) (transformThreshold_ c) lru2 lfu1)
  else
    '(inLfu, lfu1) ← ArcLfu.checkGhost key (lfuPart_ c);
    if (inLfu : bool) then
      '(ok, lru2) ← ArcLru.decreaseCapacity lru1;
      let lfu2 :=
        if (ok : bool) then ArcLfu.increaseCapacity lfu1 else lfu1 in
      Some (true, mkCache (capacity_ c) (transformThreshold_ c) lru2 lfu2)
    else
      Some (false, mkCache (capacity_ c) (transformThreshold_ c) lru1 lfu1).

(** [void put(Key key, Value value)] *)
Definition put (key : Key) (value : Value) (c : ArcCache)
    : option ArcCache :=
  '(inGhost, c1) ← checkGhostCaches key c;
  if (inGhost : bool) then
    '(_, l) ← ArcLru.put key value (lruPart_ c1); Some (with_lru l c1)
  else if ArcLfu.inLfuMainCache key (lfuPart_ c1) then
    '(_, l) ← ArcLfu.put key value (lfuPart_ c1); Some (with_lfu l c1)
  else
    '(_, l) ← ArcLru.put key value (lruPart_ c1); Some (with_lru l c1).

(** [bool get(Key key, Value& value)] *)
Definition get (key : Key) (c : ArcCache)
    : option (option Value * ArcCache) :=
  '(_, c1) ← checkGhostCaches key c;
  '(r, lru1) ← ArcLru.get key (lruPart_ c1);
  match r with
  | Some (value, shouldTransform) =>
      if (shouldTransform : bool) then
        '(_, lfu1) ← ArcLfu.put key value (lfuPart_ c1);
        Some (Some value,
              mkCache (capacity_ c1) (transformThreshold_ c1) lru1 lfu1)
      else Some (Some value, with_lru lru1 c1)
  | None =>
      '(r2, lfu1) ← ArcLfu.get key (lfuPart_ c1);
      Some (r2, mkCache (capacity_ c1) (transformThreshold_ c1) lru1 lfu1)
  end.

End ArcCache.
End Arc.


(** ** Operation sequences used by the statements below *)

(** Run a sequence of state-changing calls, stopping at undefined
    behaviour. *)
Definition run {S : Type} (ops : list (S → option S)) (s : S) : option S :=
  foldl (λ acc op, acc ≫= op) (Some s) ops.

(** Drop the result of a call that returns one. *)
Definition call {S R : Type} (f : S → option (R * S)) (s : S) : option S :=
  snd <$> f s.

Section Scenarios.
Open Scope string_scope.

(** [LruCache<int, string> c(2); c.put(1,"a"); c.put(2,"b"); c.put(3,"c");] *)
Definition lru_three_puts : option (Lru.LruCache (Key := Z)) :=
  run [Lru.put 1 "a"; Lru.put 2 "b"; Lru.put 3 "c"] (Lru.new 0 "" 2).

(** [LfuCache<string, string> c(1, 252); c.put("k1","a");] followed by
    [n] calls of [c.get("k1", v)]. *)
Definition lfu_hot (n : nat) : option (Lfu.LfuCache (Key := string)) :=
  run (Lfu.put "" "" "k1" "a" :: replicate n (call (Lfu.get "" "" "k1")))
      (Lfu.new 1 252).

(** ... followed by [c.put("k2","b");] *)
Definition lfu_hot_then_put : option (Lfu.LfuCache (Key := string)) :=
  lfu_hot 252 ≫= Lfu.put "" "" "k2" "b".

(** [LfuCache<string, string> c(2); c.put("k1","a"); c.put("k2","b");
     c.get("k1", v);] *)
Definition lfu_two_buckets : option (Lfu.LfuCache (Key := string)) :=
  run [Lfu.put "" "" "k1" "a"; Lfu.put "" "" "k2" "b";
       call (Lfu.get "" "" "k1")] (Lfu.new 2 10).

(** [ArcCache<int, string> c(1, 3); c.put(1,"a"); c.put(2,"b");
     c.put(1,"c"); c.put(3,"d");] *)
Definition arc_lfu_drained : option (Arc.ArcCache (Key := Z)) :=
  run [Arc.put 1 "a"; Arc.put 2 "b"; Arc.put 1 "c"; Arc.put 3 "d"]
      (Arc.new 0 "" 1 3).

(** [ArcCache<int, string> c(1, 3); c.put(1,"a"); c.put(2,"b");]: key 1
    is in the ghost list of the LRU partition. *)
Definition arc_ghosted : option (Arc.ArcCache (Key := Z)) :=
  run [Arc.put 1 "a"; Arc.put 2 "b"] (Arc.new 0 "" 1 3).

(** [ArcCache<int, string> c(2, 2); c.put(1,"a"); c.put(2,"b");
     c.put(3,"c"); c.get(2, v); c.get(3, v); c.put(1,"x");] *)
Definition arc_before_reput : option (Arc.ArcCache (Key := Z)) :=
  run [Arc.put 1 "a"; Arc.put 2 "b"; Arc.put 3 "c";
       call (Arc.get 2); call (Arc.get 3); Arc.put 1 "x"]
      (Arc.new 0 "" 2 2).

(** [LruKCache<int, string> c(2, 2, 3); c.put(1,"a"); c.put(1,"a");
     c.get(1);] *)
Definition lruk_put_put_get : option (LruK.LruKCache (Key := Z)) :=
  run [LruK.do_access 1 (LruK.APut "a"); LruK.do_access 1 (LruK.APut "a");
       LruK.do_access 1 LruK.AGet]
      (LruK.new 0 2 2 3).
End Scenarios.

(** The smallest frequency whose bucket is not empty, found by looking at
    every [FreqList] of an [LfuCache]. *)
Definition lfu_true_min {Key Value} `{Countable Key}
    (c : Lfu.LfuCache (Key := Key) (Value := Value)) : option Z :=
  match omap (λ fl : Z * Lfu.FreqList,
                e ← Lfu.isEmpty fl.2 (Lfu.nodes c);
                if (e : bool) then None else Some fl.1)
             (map_to_list (Lfu.freqToFreqList_ c)) with
  | [] => None
  | f :: fs => Some (foldr Z.min f fs)
  end.

(** [n] calls of [get(key, value)]; the flag is [true] when every one of
    them reported a miss. *)
Fixpoint repeat_get {S V : Type} (get : S → option (option V * S))
    (n : nat) (s : S) : option (bool * S) :=
  match n with
  | O => Some (true, s)
  | S n' =>
      '(r, s1) ← get s;
      '(b, s2) ← repeat_get get n' s1;
      Some (match r with Some _ => false | None => true end && b, s2)
  end.

(** A call on an [LruCache]. *)
Inductive lru_op {Key Value : Type} :=
  | LruPut (key : Key) (value : Value)
  | LruGet (key : Key)
  | LruRemove (key : Key).
Arguments lru_op : clear implicits.

Definition lru_step `{Countable Key} {Value : Type} (o : lru_op Key Value)
    (c : Lru.LruCache (Key := Key) (Value := Value))
    : option (Lru.LruCache (Key := Key) (Value := Value)) :=
  match o with
  | LruPut key value => Lru.put key value c
  | LruGet key => call (Lru.get key) c
  | LruRemove key => Lru.remove key c
  end.

(** The capacities of the two partitions of an [ArcCache]. *)
Definition arc_capacities `{Countable Key} {Value : Type}
    (c : Arc.ArcCache (Key := Key) (Value := Value)) : Z * Z :=
  (ArcLru.capacity_ (Arc.lruPart_ c), ArcLfu.capacity_ (Arc.lfuPart_ c)).

(** The state a run ends in ([s] when it hit undefined behaviour). *)
Definition final {S : Type} (s : S) (r : option S) : S := default s r.

(** ** Call sequences and model states used by the further properties *)

(** The model states of an [LruKCache] with threshold [K] in which only
    [key] was accessed: [n] accesses counted, and [key] admitted. *)
Definition lruk_counting `{Countable Key} (capacity historyCapacity K : Z)
    (key : Key) (n : nat) : LruKModel.state (Key := Key) :=
  LruKModel.mkState
    (LruModel.mkState capacity ∅ None)
    (match n with
     | O => LruModel.mkState historyCapacity ∅ None
     | S _ => LruModel.mkState historyCapacity {[key := Z.of_nat n]} (Some key)
     end) K.

Definition lruk_admitted `{Countable Key} (capacity historyCapacity K : Z)
    (key : Key) (value : string) (n : nat) : LruKModel.state (Key := Key) :=
  LruKModel.mkState
    (LruModel.mkState capacity {[key := value]} (Some key))
    (match n with
     | O => LruModel.mkState historyCapacity ∅ None
     | S _ => LruModel.mkState historyCapacity {[key := Z.of_nat n]} (Some key)
     end) K.

(** The model state [a] belongs to a cache with the given capacities whose
    history counts are between 0 and [n]. *)
Definition lruk_counts_upto `{Countable Key} (capacity historyCapacity : Z)
    (n : Z) (a : LruKModel.state (Key := Key)) : Prop :=
  LruModel.cap (LruKModel.store a) = capacity
  ∧ LruModel.cap (LruKModel.history a) = historyCapacity
  ∧ ∀ j x, LruModel.content (LruKModel.history a) !! j = Some x → 0 ≤ x ≤ n.

(** An access of an [LruKCache] with its key. *)
Definition lruk_step `{Countable Key} (ka : Key * LruK.access)
    (c : LruK.LruKCache (Key := Key)) : option (LruK.LruKCache (Key := Key)) :=
  LruK.do_access ka.1 ka.2 c.

(** A call on a [HashLruCaches]. *)
Inductive hash_op {Key Value : Type} :=
  | HashPut (key : Key) (value : Value)
  | HashGet (key : Key).
Arguments hash_op : clear implicits.

Definition hashlru_step `{Countable Key} {Value : Type} (Hash : Key → Z)
    (o : hash_op Key Value)
    (c : HashLru.HashLruCaches (Key := Key) (Value := Value))
    : option (HashLru.HashLruCaches (Key := Key) (Value := Value)) :=
  match o with
  | HashPut key value => HashLru.put Hash key value c
  | HashGet key => call (HashLru.get Hash key) c
  end.

(** The shards of a [HashLruCaches] built with [sliceNum] shards of
    capacity [shardCapacity]: every shard is well formed and holds only
    keys that are routed to it. *)
Definition hashlru_wf `{Countable Key} {Value : Type} (Hash : Key → Z)
    (sliceNum shardCapacity : Z)
    (c : HashLru.HashLruCaches (Key := Key) (Value := Value)) : Prop :=
  HashLru.sliceNum_ c = sliceNum
  ∧ length (HashLru.lruSliceCaches_ c) = Z.to_nat sliceNum
  ∧ ∀ i s, HashLru.lruSliceCaches_ c !! i = Some s →
      LruModel.wf s ∧ Lru.capacity_ s = shardCapacity
      ∧ ∀ key, is_Some (Lru.nodeMap_ s !! key) →
          HashLru.sliceIndex Hash key c = Some (Z.of_nat i).

(** A call on an [LfuCache]. *)
Inductive lfu_op {Key Value : Type} :=
  | LfuPut (key : Key) (value : Value)
  | LfuGet (key : Key)
  | LfuPurge.
Arguments lfu_op : clear implicits.

Definition lfu_step `{Countable Key} {Value : Type} (Key0 : Key)
    (Value0 : Value) (o : lfu_op Key Value)
    (c : Lfu.LfuCache (Key := Key) (Value := Value))
    : option (Lfu.LfuCache (Key := Key) (Value := Value)) :=
  match o with
  | LfuPut key value => Lfu.put Key0 Value0 key value c
  | LfuGet key => call (Lfu.get Key0 Value0 key) c
  | LfuPurge => Some (Lfu.purge c)
  end.

(** A call on an [ArcCache]. *)
Inductive arc_op {Key Value : Type} :=
  | ArcPut (key : Key) (value : Value)
  | ArcGet (key : Key).
Arguments arc_op : clear implicits.

Definition arc_step `{Countable Key} {Value : Type} (o : arc_op Key Value)
    (c : Arc.ArcCache (Key := Key) (Value := Value))
    : option (Arc.ArcCache (Key := Key) (Value := Value)) :=
  match o with
  | ArcPut key value => Arc.put key value c
  | ArcGet key => call (Arc.get key) c
  end.

(** ** States used to instantiate the further properties *)

Section MoreScenarios.
Open Scope string_scope.

(** [LruCache<int, string> c(2); c.put(1,"a"); c.put(2,"b");] *)
Definition lru_two_puts_ops : list (lru_op Z string) :=
[LruPut 1 "a"; LruPut 2 "b"].

Definition lru_two_puts : Lru.LruCache (Key := Z) :=
final (Lru.new 0 "" 2) (run (lru_step <$> lru_two_puts_ops) (Lru.new 0 "" 2)).

(** [LruKCache<int, string> c(2, 2, 1); c.put(1,"a");] *)
Definition lruk_admitted_ops : list (Z * LruK.access) :=
[(1, LruK.APut "a")].

Definition lruk_one_admitted : LruK.LruKCache (Key := Z) :=
final (LruK.new 0 2 2 1)
      (run (lruk_step <$> lruk_admitted_ops) (LruK.new 0 2 2 1)).

(** [HashLruCaches<int, string> c(4, 2); c.put(1,"a"); c.put(2,"b");
   c.put(3,"c"); c.get(1);] with the identity as hash and 8 hardware
  threads. *)
Definition hashlru_ops : list (hash_op Z string) :=
[HashPut 1 "a"; HashPut 2 "b"; HashPut 3 "c"; HashGet 1].

Definition hashlru_used : HashLru.HashLruCaches (Key := Z) :=
final (HashLru.new 0 "" 8 4 2)
      (run (hashlru_step id <$> hashlru_ops) (HashLru.new 0 "" 8 4 2)).

(** [ArcCache<int, string> c(2, 2); c.put(1,"a"); c.get(1);]: the [get]
  reaches the threshold and copies key 1 into the LFU partition. *)
Definition arc_promoted_ops : list (arc_op Z string) :=
[ArcPut 1 "a"; ArcGet 1].

Definition arc_promoted : Arc.ArcCache (Key := Z) :=
final (Arc.new 0 "" 2 2)
      (run (arc_step <$> arc_promoted_ops) (Arc.new 0 "" 2 2)).

(** [ArcCache<int, string> c(1, 2); c.put(1,"a"); c.get(1); c.put(2,"b");
   c.put(3,"c");]: key 1 is left in the LFU partition only. *)
Definition arc_lfu_only_ops : list (arc_op Z string) :=
[ArcPut 1 "a"; ArcGet 1; ArcPut 2 "b"; ArcPut 3 "c"].

Definition arc_lfu_only : Arc.ArcCache (Key := Z) :=
final (Arc.new 0 "" 1 2)
      (run (arc_step <$> arc_lfu_only_ops) (Arc.new 0 "" 1 2)).

(** [LfuCache<int, string> c(2, 10); c.put(1,"a"); c.put(2,"b");
   c.get(1);]: the cache is full, key 1 has frequency 2 and key 2
  frequency 1. *)
Definition lfu_full_ops : list (lfu_op Z string) :=
[LfuPut 1 "a"; LfuPut 2 "b"; LfuGet 1].

Definition lfu_full : Lfu.LfuCache (Key := Z) :=
final (Lfu.new 2 10)
      (run (lfu_step 0 "" <$> lfu_full_ops) (Lfu.new 2 10)).

(** [ArcCache<int, string> c(1, 1); c.put(1,"a"); c.get(1); c.put(2,"b");
   c.get(2); c.put(3,"c");]: key 3 fills the LRU partition of capacity
  1, key 2 the LFU partition, and key 1 is in the ghost list of the LFU
  partition. *)
Definition arc_lfu_ghosted_ops : list (arc_op Z string) :=
[ArcPut 1 "a"; ArcGet 1; ArcPut 2 "b"; ArcGet 2; ArcPut 3 "c"].

Definition arc_lfu_ghosted : Arc.ArcCache (Key := Z) :=
final (Arc.new 0 "" 1 1)
      (run (arc_step <$> arc_lfu_ghosted_ops) (Arc.new 0 "" 1 1)).

(** [ArcCache<int, string> c(2, 2); c.put(1,"a"); c.put(2,"b");
   c.put(3,"c"); c.get(2); c.get(3); c.put(1,"x");], as a list of
  calls: keys 1, 2 and 3 are in the LRU partition, key 3 also in the
  LFU partition, and key 2 also in the ghost list of the LFU
  partition. *)
Definition arc_before_reput_ops : list (arc_op Z string) :=
[ArcPut 1 "a"; ArcPut 2 "b"; ArcPut 3 "c"; ArcGet 2; ArcGet 3; ArcPut 1 "x"].

Definition arc_reput : Arc.ArcCache (Key := Z) :=
final (Arc.new 0 "" 2 2)
      (run (arc_step <$> arc_before_reput_ops) (Arc.new 0 "" 2 2)).

End MoreScenarios.

(** ** Doubly linked lists

    The lists of the LFU cache and of the ARC partitions are chains of
    nodes between two sentinels.  What matters of the arena is the
    successor and the predecessor it gives to a pointer. *)

(** [x] is followed by [y] in the list of pointers [L]. *)
Definition adjacent (L : list ptr) (x y : ptr) : Prop :=
  ∃ i : nat, L !! i = Some x ∧ L !! S i = Some y.

(** The pointers [L] are linked in this order by the successor function
    [nx] and the predecessor function [pv]. *)
Definition linked_fn (nx pv : ptr → option ptr) (L : list ptr) : Prop :=
  ∀ x y, adjacent L x y → nx x = Some y ∧ pv y = Some x.

(** ** Doubly linked lists in an arena of [ArcNode]s *)
Section ArcLists.
Context {Key Value : Type}.
Implicit Types h : list (ArcNode.ArcNode (Key := Key) (Value := Value)).

(** The links and the payload of the node at a pointer. *)
Definition nxt h (q : ptr) : option ptr := h !! q ≫= ArcNode.next_.
Definition prv h (q : ptr) : option ptr := h !! q ≫= ArcNode.prev_.
Definition payload h (q : ptr) : option (Key * Value * Z) :=
(λ n, (ArcNode.key_ n, ArcNode.value_ n, ArcNode.accessCount_ n)) <$> h !! q.
Definition key_at h (q : ptr) : option Key := ArcNode.key_ <$> h !! q.

(** The nodes [L], sentinels included, are linked in this order. *)
Definition linked_list h (L : list ptr) : Prop :=
linked_fn (nxt h) (prv h) L.
End ArcLists.

Section ShapeDef.
Context {Key Value : Type}.
Implicit Types h : list (ArcNode.ArcNode (Key := Key) (Value := Value)).

(** Two lists of distinct, allocated nodes, each linked in its order. *)
Definition arc_shape h (L K : list ptr) : Prop :=
NoDup (L ++ K)
∧ (∀ q, q ∈ L ++ K → (q < length h)%nat)
∧ linked_list h L ∧ linked_list h K.
End ShapeDef.

Section ShapeDef2.
Context {Key Value : Type}.
Implicit Types h : list (ArcNode.ArcNode (Key := Key) (Value := Value)).
Definition value_at h (q : ptr) : option Value := ArcNode.value_ <$> h !! q.
Definition count_at h (q : ptr) : option Z := ArcNode.accessCount_ <$> h !! q.
End ShapeDef2.

Section ArcLruInvDef.
Context `{Countable Key} {Value : Type}.

(** The shape of an [ArcLruPart] that was built by its methods: [ms] are
  the nodes of the main list and [gs] those of the ghost list, most
  recent first. *)
Record arclru_inv (c : ArcLru.ArcLruPart (Key := Key) (Value := Value))
  (ms gs : list ptr) : Prop := mkArcLruInv {
alru_sentinels :
  ArcLru.mainHead_ c = 0%nat ∧ ArcLru.mainTail_ c = 1%nat
  ∧ ArcLru.ghostHead_ c = 2%nat ∧ ArcLru.ghostTail_ c = 3%nat;
alru_shape :
  arc_shape (ArcLru.nodes c) (0%nat :: ms ++ [1%nat]) (2%nat :: gs ++ [3%nat]);
alru_main_map : ∀ k p,
  ArcLru.mainCache_ c !! k = Some p
  ↔ p ∈ ms ∧ key_at (ArcLru.nodes c) p = Some k;
alru_ghost_map : ∀ k p,
  ArcLru.ghostCache_ c !! k = Some p →
  p ∈ gs ∧ key_at (ArcLru.nodes c) p = Some k
}.
End ArcLruInvDef.

Section ArcLfuInvDef.
Context `{Countable Key} {Value : Type}.

(** Every frequency list holds distinct allocated nodes outside the ghost
  list, each with the frequency of its list as access count. *)
Definition arclfu_freq_ok
  (h : list (ArcNode.ArcNode (Key := Key) (Value := Value)))
  (gs : list ptr) (fm : gmap Z (list ptr)) : Prop :=
∀ f l, fm !! f = Some l →
  NoDup l
  ∧ ∀ p, p ∈ l →
      (p < length h)%nat ∧ (p ∉ 0%nat :: gs ++ [1%nat])
      ∧ count_at h p = Some f.

(** The shape of an [ArcLfuPart] that was built by its methods: [gs] are
  the nodes of the ghost list, oldest first. *)
Record arclfu_inv (c : ArcLfu.ArcLfuPart (Key := Key) (Value := Value))
  (gs : list ptr) : Prop := mkArcLfuInv {
alfu_sentinels :
  ArcLfu.ghostHead_ c = 0%nat ∧ ArcLfu.ghostTail_ c = 1%nat;
alfu_shape : arc_shape (ArcLfu.nodes c) (0%nat :: gs ++ [1%nat]) [];
alfu_ghost_map : ∀ k p,
  ArcLfu.ghostCache_ c !! k = Some p →
  p ∈ gs ∧ key_at (ArcLfu.nodes c) p = Some k;
alfu_main_map : ∀ k p,
  ArcLfu.mainCache_ c !! k = Some p →
  (p < length (ArcLfu.nodes c))%nat ∧ (p ∉ 0%nat :: gs ++ [1%nat])
  ∧ key_at (ArcLfu.nodes c) p = Some k;
alfu_freq : arclfu_freq_ok (ArcLfu.nodes c) gs (ArcLfu.freqMap_ c)
}.
End ArcLfuInvDef.

Section ArcInvDef.
Context `{Countable Key} {Value : Type}.

(** Both partitions of an [ArcCache] have the shape their methods keep. *)
Definition arc_inv (c : Arc.ArcCache (Key := Key) (Value := Value)) : Prop :=
(∃ ms gs, arclru_inv (Arc.lruPart_ c) ms gs)
∧ (∃ gs, arclfu_inv (Arc.lfuPart_ c) gs).

(** The LRU partition holds at most [capacity_] entries, and [capacity_]
  is between 0 and [n]. *)
Definition arc_lru_bounded (n : Z)
  (c : Arc.ArcCache (Key := Key) (Value := Value)) : Prop :=
0 ≤ ArcLru.capacity_ (Arc.lruPart_ c) ≤ n
∧ zsize (ArcLru.mainCache_ (Arc.lruPart_ c))
  ≤ ArcLru.capacity_ (Arc.lruPart_ c).
End ArcInvDef.

Section ArcLfuCountedDef.
Context `{Countable Key} {Value : Type}.

(** The frequency lists of an [ArcLfuPart] hold the nodes of its main
  cache and no others: no list is empty, every node of a list is
  indexed, every indexed node is in a list, [minFreq_] has a list
  whenever there is one, and the main cache holds at most [capacity_]
  entries. *)
Record arclfu_counted (c : ArcLfu.ArcLfuPart (Key := Key) (Value := Value))
  : Prop := mkArcLfuCounted {
alc_lists : ∀ f l,
  ArcLfu.freqMap_ c !! f = Some l →
  l ≠ [] ∧ ∀ p, p ∈ l → ∃ k, ArcLfu.mainCache_ c !! k = Some p;
alc_main : ∀ k p,
  ArcLfu.mainCache_ c !! k = Some p →
  ∃ f l, ArcLfu.freqMap_ c !! f = Some l ∧ p ∈ l;
alc_min :
  ArcLfu.freqMap_ c ≠ ∅ →
  is_Some (ArcLfu.freqMap_ c !! ArcLfu.minFreq_ c);
alc_size : zsize (ArcLfu.mainCache_ c) ≤ ArcLfu.capacity_ c
}.

(** The LFU partition of an [ArcCache] after at most [n] calls. *)
Definition arc_lfu_bounded (n : Z)
  (c : Arc.ArcCache (Key := Key) (Value := Value)) : Prop :=
arclfu_counted (Arc.lfuPart_ c)
∧ ArcLfu.capacity_ (Arc.lfuPart_ c) ≤ n.
(** The fields that the ghost list operations leave alone. *)
Definition alfu_same_main
  (c c' : ArcLfu.ArcLfuPart (Key := Key) (Value := Value)) : Prop :=
ArcLfu.mainCache_ c' = ArcLfu.mainCache_ c
∧ ArcLfu.freqMap_ c' = ArcLfu.freqMap_ c
∧ ArcLfu.minFreq_ c' = ArcLfu.minFreq_ c
∧ ArcLfu.capacity_ c' = ArcLfu.capacity_ c
∧ ArcNode.same_entries (ArcLfu.nodes c) (ArcLfu.nodes c').
End ArcLfuCountedDef.

(** ** The frequency lists of an [LfuCache] *)
Section LfuInvDef.
Context `{Countable Key} {Value : Type}.
Implicit Types h : list (Lfu.Node (Key := Key) (Value := Value)).
Implicit Types c : Lfu.LfuCache (Key := Key) (Value := Value).
Implicit Types fm : gmap Z Lfu.FreqList.
Implicit Types nm : gmap Key ptr.
Implicit Types G : Z → list ptr.

(** The links and the payload of the node at a pointer. *)
Definition lfu_nxt h (q : ptr) : option ptr := h !! q ≫= Lfu.next.
Definition lfu_prv h (q : ptr) : option ptr := h !! q ≫= Lfu.prev.
Definition lfu_freq_at h (q : ptr) : option Z := Lfu.freq <$> h !! q.
Definition lfu_key_at h (q : ptr) : option Key := Lfu.key <$> h !! q.
Definition lfu_value_at h (q : ptr) : option Value := Lfu.value <$> h !! q.

(** The nodes of the list [l] when [ps] are the entries it holds, oldest
  first: the head sentinel, the entries, the tail sentinel. *)
Definition lfu_chain (l : Lfu.FreqList) (ps : list ptr) : list ptr :=
Lfu.head_ l :: ps ++ [Lfu.tail_ l].

(** The list [l] of frequency [f] holds the entries [ps]: its nodes are
  distinct, allocated and linked in this order, every entry has
  frequency [f], and the tail sentinel is as [FreqList(int)] made it. *)
Record lfu_list_ok h (f : Z) (l : Lfu.FreqList) (ps : list ptr) : Prop :=
mkLfuListOk {
lfl_nodup : NoDup (lfu_chain l ps);
lfl_valid : ∀ q, q ∈ lfu_chain l ps → (q < length h)%nat;
lfl_linked : linked_fn (lfu_nxt h) (lfu_prv h) (lfu_chain l ps);
lfl_freq : ∀ p, p ∈ ps → lfu_freq_at h p = Some f;
lfl_tail_freq : lfu_freq_at h (Lfu.tail_ l) = Some 1;
lfl_tail_next : lfu_nxt h (Lfu.tail_ l) = None
}.

(** Every list of [freqToFreqList_] holds the entries [G] gives to its
  frequency, and no node is in two lists. *)
Record lfu_lists_ok h fm G : Prop := mkLfuListsOk {
lfs_list : ∀ f l, fm !! f = Some l → lfu_list_ok h f l (G f);
lfs_disjoint : ∀ f g l l' q,
  f ≠ g → fm !! f = Some l → fm !! g = Some l' →
  q ∈ lfu_chain l (G f) → q ∉ lfu_chain l' (G g)
}.

(** The entries [G] with those of frequency [f] replaced by [ps]. *)
Definition lfu_upd G (f : Z) (ps : list ptr) : Z → list ptr :=
λ g, if decide (g = f) then ps else G g.

(** The node [p] is an entry of the list of its frequency. *)
Definition lfu_resident h fm G (p : ptr) : Prop :=
∃ f, lfu_freq_at h p = Some f ∧ is_Some (fm !! f) ∧ p ∈ G f.

(** The node [p] is allocated and in no list. *)
Definition lfu_detached h fm G (p : ptr) : Prop :=
(p < length h)%nat ∧ ∀ f l, fm !! f = Some l → p ∉ lfu_chain l (G f).

(** What the methods of [LfuCache] keep of the arena, the lists and the
  index: the lists are well formed, an indexed key is the key of its
  node, which is an entry of the list of its frequency, the frequencies
  with a list are between 1 and [B], and frequency 1 has a list as soon
  as any frequency has one. *)
Record lfu_heap_inv (B : Z) nm h fm G : Prop := mkLfuHeapInv {
lfh_lists : lfu_lists_ok h fm G;
lfh_map : ∀ k p, nm !! k = Some p →
  lfu_key_at h p = Some k ∧ lfu_resident h fm G p;
lfh_freqs : ∀ f, is_Some (fm !! f) → 1 ≤ f ≤ B;
lfh_one : ∀ f, is_Some (fm !! f) → is_Some (fm !! 1)
}.

(** The state of an [LfuCache] after at most [n] calls. *)
Record lfu_inv (n : Z) c : Prop := mkLfuInv {
lfi_heap : ∃ G, lfu_heap_inv (n + 1) (Lfu.nodeMap_ c) (Lfu.nodes c)
                  (Lfu.freqToFreqList_ c) G;
lfi_minFreq : 1 ≤ Lfu.minFreq_ c;
lfi_min_list : Lfu.nodeMap_ c ≠ ∅ →
  is_Some (Lfu.freqToFreqList_ c !! Lfu.minFreq_ c);
lfi_total : - (n * (n + 1)) ≤ Lfu.curTotalNum_ c ≤ n;
lfi_max : 0 ≤ Lfu.maxAverageNum_ c < 2 ^ 31;
lfi_capacity : - 2 ^ 31 ≤ Lfu.capacity_ c < 2 ^ 31
}.

(** The arena [h'] extends [h] and keeps the keys and the values. *)
Definition lfu_kv_ext h h' : Prop :=
(length h ≤ length h')%nat
∧ ∀ q, (q < length h)%nat →
    lfu_key_at h' q = lfu_key_at h q ∧ lfu_value_at h' q = lfu_value_at h q.

(** The content of an [LfuCache]: the value of every indexed key. *)
Definition lfu_view c : gmap Key Value :=
omap (lfu_value_at (Lfu.nodes c)) (Lfu.nodeMap_ c).
End LfuInvDef.

(** * Properties *)

Ltac sb := cbn [mbind option_bind].

(** ** Machine integers *)

Lemma u64_small z : 0 ≤ z < 2 ^ 64 → u64 z = z.
Proof. intros. unfold u64. by apply Z.mod_small. Qed.

Lemma s32_small z : - 2 ^ 31 ≤ z < 2 ^ 31 → s32 z = z.
Proof. intros. unfold s32. rewrite Z.mod_small; lia. Qed.

Lemma int_ok_small z : - 2 ^ 31 ≤ z < 2 ^ 31 → int_ok z = Some z.
Proof. intros. unfold int_ok. by rewrite decide_True. Qed.

(** ** Sequences of calls *)

Lemma run_stuck {S : Type} (ops : list (S → option S)) :
  foldl (λ acc op, acc ≫= op) None ops = None.
Proof. by induction ops. Qed.

Lemma run_cons {S : Type} (op : S → option S) ops (s : S) :
  run (op :: ops) s = op s ≫= run ops.
Proof.
  unfold run. cbn [foldl]. sb. destruct (op s); sb; [done|]. apply run_stuck.
Qed.

Lemma repeat_get_fixpoint {S V : Type} (get : S → option (option V * S))
    (s : S) (n : nat) :
  get s = Some (None, s) → repeat_get get n s = Some (true, s).
Proof.
  intros Hg. induction n as [|n IH]; [done|].
  cbn [repeat_get]. rewrite Hg. sb. by rewrite IH.
Qed.

(** ** LruCache: the nodes and what they represent *)

Section LruRefine.
Context `{Countable Key} {Value : Type}.
Implicit Types c : Lru.LruCache (Key := Key) (Value := Value).
Implicit Types h : list (Lru.LruNode (Key := Key) (Value := Value)).
Implicit Types n hd tl : Lru.LruNode (Key := Key) (Value := Value).
Implicit Types m : gmap Key ptr.

Lemma lru_store_eq h p f n :
  h !! p = Some n → Lru.store p f h = Some (<[p := f n]> h).
Proof. intros Hp. unfold Lru.store. by rewrite Hp. Qed.

Lemma lru_set_prev_id n p : Lru.prev_ n = p → Lru.set_prev p n = n.
Proof. intros <-. by destruct n. Qed.

Lemma lru_removeNode_spec h head tail p n hd tl :
  h !! p = Some n → Lru.prev_ n = Some head → Lru.next_ n = Some tail →
  h !! head = Some hd → h !! tail = Some tl → Lru.prev_ tl = Some head →
  p ≠ head → p ≠ tail → head ≠ tail →
  Lru.removeNode p h = Some (<[head := Lru.set_next (Some tail) hd]> h).
Proof.
  intros Hp Hpp Hpn Hh Ht Htp ? ? ?. unfold Lru.removeNode.
  rewrite Hp. sb. rewrite Hpp. sb. rewrite (lru_store_eq _ _ _ _ Hh). sb.
  rewrite list_lookup_insert_ne by done. rewrite Hp. sb. rewrite Hpn. sb.
  rewrite Hpp.
  erewrite lru_store_eq by (rewrite list_lookup_insert_ne by done; exact Ht).
  rewrite lru_set_prev_id by done. f_equal. apply list_insert_id.
  by rewrite list_lookup_insert_ne.
Qed.

Lemma lru_insertNode_spec c p n hd tl :
  Lru.nodes c !! p = Some n →
  Lru.nodes c !! Lru.dummyHead_ c = Some hd →
  Lru.nodes c !! Lru.dummyTail_ c = Some tl →
  Lru.prev_ tl = Some (Lru.dummyHead_ c) →
  p ≠ Lru.dummyHead_ c → p ≠ Lru.dummyTail_ c →
  Lru.dummyHead_ c ≠ Lru.dummyTail_ c →
  Lru.insertNode p c
  = Some (Lru.with_nodes
            (<[Lru.dummyHead_ c :=
                 Lru.set_prev (Some p) (Lru.set_next (Some p) hd)]>
               (<[p := Lru.set_prev (Some (Lru.dummyHead_ c))
                         (Lru.set_next (Some (Lru.dummyTail_ c)) n)]>
                  (<[Lru.dummyHead_ c := Lru.set_next (Some p) hd]>
                     (<[p := Lru.set_next (Some (Lru.dummyTail_ c)) n]>
                        (Lru.nodes c))))) c).
Proof.
  intros Hp Hh Ht Htp ? ? ?. unfold Lru.insertNode.
  assert (p < length (Lru.nodes c))%nat by (by eapply lookup_lt_Some).
  assert (Lru.dummyHead_ c < length (Lru.nodes c))%nat by (by eapply lookup_lt_Some).
  rewrite (lru_store_eq _ _ _ _ Hp). sb.
  rewrite list_lookup_insert_ne by done. rewrite Ht. sb. rewrite Htp. sb.
  erewrite lru_store_eq by (rewrite list_lookup_insert_ne by done; exact Hh). sb.
  do 2 (rewrite list_lookup_insert_ne by done). rewrite Ht. sb.
  erewrite lru_store_eq
    by (rewrite list_lookup_insert_ne by done; by apply list_lookup_insert_eq). sb.
  erewrite lru_store_eq
    by (rewrite list_lookup_insert_ne by done;
        apply list_lookup_insert_eq; by rewrite length_insert). sb.
  by rewrite Htp.
Qed.

Lemma view_lookup c k :
  LruModel.view c !! k
  = Lru.nodeMap_ c !! k ≫= λ p, Lru.value_ <$> Lru.nodes c !! p.
Proof. unfold LruModel.view. by rewrite lookup_omap. Qed.

Lemma view_is_Some c k :
  LruModel.wf c → is_Some (LruModel.view c !! k) ↔ is_Some (Lru.nodeMap_ c !! k).
Proof.
  intros Hwf. rewrite view_lookup. split.
  - intros [v Hv]. destruct (Lru.nodeMap_ c !! k); [done|]. done.
  - intros [p Hp]. rewrite Hp. sb.
    destruct (LruModel.wf_nodes c Hwf k p Hp) as (_ & _ & n & Hn & _).
    rewrite Hn. by eexists.
Qed.

Lemma view_size c : LruModel.wf c → zsize (LruModel.view c) = zsize (Lru.nodeMap_ c).
Proof.
  intros Hwf. unfold zsize. f_equal.
  rewrite <- !size_dom. f_equal. apply set_eq. intros k.
  rewrite !elem_of_dom. by apply view_is_Some.
Qed.

Lemma first_key_tail c hd :
  Lru.nodes c !! Lru.dummyHead_ c = Some hd →
  Lru.next_ hd = Some (Lru.dummyTail_ c) →
  LruModel.first_key c = None.
Proof.
  intros Hh Hn. unfold LruModel.first_key. rewrite Hh. sb. rewrite Hn. sb.
  by rewrite decide_True.
Qed.

Lemma first_key_node c hd p n :
  Lru.nodes c !! Lru.dummyHead_ c = Some hd →
  Lru.next_ hd = Some p → p ≠ Lru.dummyTail_ c →
  Lru.nodes c !! p = Some n →
  LruModel.first_key c = Some (Lru.key_ n).
Proof.
  intros Hh Hn Hp Hl. unfold LruModel.first_key. rewrite Hh. sb. rewrite Hn. sb.
  rewrite decide_False by done. by rewrite Hl.
Qed.

(** From [first_key c = Some j] back to the node. *)
Lemma first_key_inv c j :
  LruModel.wf c → LruModel.first_key c = Some j →
  ∃ hd p n, Lru.nodes c !! Lru.dummyHead_ c = Some hd
    ∧ Lru.next_ hd = Some p ∧ Lru.nodeMap_ c !! j = Some p
    ∧ Lru.nodes c !! p = Some n ∧ Lru.key_ n = j.
Proof.
  intros Hwf Hf. destruct (LruModel.wf_head c Hwf) as (hd & Hh & Hcase).
  destruct Hcase as [Ht|(k & p & Hk & Hp)].
  - by rewrite (first_key_tail _ _ Hh Ht) in Hf.
  - destruct (LruModel.wf_nodes c Hwf k p Hk) as (? & ? & n & Hn & Hkey & _).
    rewrite (first_key_node _ _ _ _ Hh Hp) in Hf by done.
    injection Hf as <-. exists hd, p, n. by rewrite Hkey.
Qed.

(** Two keys of the index never share a node. *)
Lemma wf_nodeMap_inj c k1 k2 p :
  LruModel.wf c → Lru.nodeMap_ c !! k1 = Some p → Lru.nodeMap_ c !! k2 = Some p →
  k1 = k2.
Proof.
  intros Hwf H1 H2.
  destruct (LruModel.wf_nodes c Hwf _ _ H1) as (_ & _ & n1 & Hn1 & <- & _).
  destruct (LruModel.wf_nodes c Hwf _ _ H2) as (_ & _ & n2 & Hn2 & <- & _).
  congruence.
Qed.

(** Unlinking the node of [k] and dropping [k] from the index. *)
Lemma wf_drop c k p hd :
  LruModel.wf c → Lru.nodeMap_ c !! k = Some p →
  Lru.nodes c !! Lru.dummyHead_ c = Some hd →
  ∀ c', c' = Lru.with_nodeMap (delete k (Lru.nodeMap_ c))
               (Lru.with_nodes
                  (<[Lru.dummyHead_ c := Lru.set_next (Some (Lru.dummyTail_ c)) hd]>
                     (Lru.nodes c)) c) →
  LruModel.wf c'
  ∧ LruModel.view c' = delete k (LruModel.view c)
  ∧ LruModel.first_key c' = None
  ∧ zsize (Lru.nodeMap_ c') = zsize (Lru.nodeMap_ c) - 1
  ∧ Lru.capacity_ c' = Lru.capacity_ c.
Proof.
  intros Hwf Hk Hh c' ->.
  destruct Hwf as [Hint Hs _ (tl & Ht & Htp) Hnodes Hempty Hbound _].
  set (head := Lru.dummyHead_ c) in *. set (tail := Lru.dummyTail_ c) in *.
  set (h := Lru.nodes c) in *. set (m := Lru.nodeMap_ c) in *.
  assert (head < length h)%nat as Lh by (by eapply lookup_lt_Some).
  assert (zsize (delete k m) = zsize m - 1) as Hsize.
  { unfold zsize. rewrite map_size_delete_Some by (by eexists).
    assert (size m ≠ 0%nat); [|lia].
    apply map_size_non_empty_iff. intros Hm. by rewrite Hm, lookup_empty in Hk. }
  assert (0 < Lru.capacity_ c) as Hcap.
  { destruct (decide (0 < Lru.capacity_ c)); [done|].
    fold m in Hempty. rewrite Hempty in Hk by lia.
    by rewrite lookup_empty in Hk. }
  assert (∀ k' p', delete k m !! k' = Some p' →
            <[head := Lru.set_next (Some tail) hd]> h !! p' = h !! p') as Hsame.
  { intros k' p' [_ Hk']%lookup_delete_Some.
    destruct (Hnodes _ _ Hk') as (? & _). by rewrite list_lookup_insert_ne. }
  split; [|split; [|split; [|done]]].
  - constructor; cbn [Lru.nodes Lru.with_nodes Lru.with_nodeMap Lru.nodeMap_
                      Lru.capacity_ Lru.dummyHead_ Lru.dummyTail_].
    + done.
    + done.
    + eexists. split; [by apply list_lookup_insert_eq|]. by left.
    + exists tl. split; [|done]. by rewrite list_lookup_insert_ne.
    + intros k' p' Hk'. rewrite (Hsame _ _ Hk').
      apply lookup_delete_Some in Hk' as [_ Hk']. by apply Hnodes.
    + lia.
    + intros _. specialize (Hbound Hcap). fold m in Hbound. lia.
    + intros Hsz _. specialize (Hbound Hcap). fold m in Hbound. lia.
  - apply map_eq. intros k'. rewrite view_lookup.
    cbn [Lru.nodes Lru.with_nodes Lru.with_nodeMap Lru.nodeMap_].
    destruct (decide (k' = k)) as [->|Hne].
    + by rewrite !lookup_delete_eq.
    + rewrite !lookup_delete_ne by done. rewrite view_lookup. fold m h.
      destruct (m !! k') as [p'|] eqn:Hk'; [|done]. sb.
      rewrite (Hsame k' p'); [done|]. by rewrite lookup_delete_ne.
  - eapply first_key_tail;
      cbn [Lru.nodes Lru.with_nodes Lru.with_nodeMap Lru.dummyHead_ Lru.dummyTail_];
      [by apply list_lookup_insert_eq|done].
Qed.

Lemma lru_remove_refines c k :
  LruModel.wf c →
  ∃ c', Lru.remove k c = Some c' ∧ LruModel.wf c'
        ∧ LruModel.abs c' = LruModel.remove k (LruModel.abs c).
Proof.
  intros Hwf. unfold Lru.remove, LruModel.remove. cbn [LruModel.abs LruModel.content].
  rewrite view_lookup.
  destruct (Lru.nodeMap_ c !! k) as [p|] eqn:Hk; sb.
  - destruct (LruModel.wf_nodes c Hwf k p Hk) as (? & ? & n & Hn & _ & Hpp & Hpn).
    destruct (LruModel.wf_head c Hwf) as (hd & Hh & _).
    destruct (LruModel.wf_tail c Hwf) as (tl & Ht & Htp).
    rewrite Hn. cbn [fmap option_fmap option_map].
    erewrite lru_removeNode_spec by (first [eassumption | apply (LruModel.wf_sentinels c Hwf)]).
    sb. eexists. split; [done|].
    edestruct (wf_drop c k p hd Hwf Hk Hh) as (Hwf' & Hv & Hf & _ & Hc); [reflexivity|].
    split; [done|]. unfold LruModel.abs. by rewrite Hv, Hf, Hc.
  - by exists c.
Qed.

Lemma lru_evict_refines c j :
  LruModel.wf c → LruModel.first_key c = Some j →
  ∃ c', Lru.evictLeastRecent c = Some c' ∧ LruModel.wf c'
        ∧ LruModel.view c' = delete j (LruModel.view c)
        ∧ LruModel.first_key c' = None
        ∧ zsize (Lru.nodeMap_ c') = zsize (Lru.nodeMap_ c) - 1
        ∧ Lru.capacity_ c' = Lru.capacity_ c
        ∧ Lru.nodeMap_ c' = delete j (Lru.nodeMap_ c).
Proof.
  intros Hwf Hf.
  destruct (first_key_inv c j Hwf Hf) as (hd & p & n & Hh & Hp & Hj & Hn & Hkey).
  destruct (LruModel.wf_nodes c Hwf j p Hj) as (? & ? & n' & Hn' & _ & Hpp & Hpn).
  assert (n' = n) as -> by congruence.
  destruct (LruModel.wf_tail c Hwf) as (tl & Ht & Htp).
  unfold Lru.evictLeastRecent. rewrite Hh. sb. rewrite Hp. sb.
  erewrite lru_removeNode_spec by (first [eassumption | apply (LruModel.wf_sentinels c Hwf)]).
  sb. rewrite list_lookup_insert_ne by done. rewrite Hn. sb. rewrite Hkey.
  eexists. split; [done|].
  edestruct (wf_drop c j p hd Hwf Hj Hh) as (? & ? & ? & ? & ?); [reflexivity|].
  done.
Qed.

Lemma lru_touched_after_store head tail p k v h h' x :
  LruModel.touched head tail p k v (<[p := x]> h) h' → LruModel.touched head tail p k v h h'.
Proof.
  intros (Hh & Hp & Hframe). split; [done|]. split; [done|].
  intros q ? ?. rewrite Hframe by done. by rewrite list_lookup_insert_ne.
Qed.

Lemma lru_moveToMostRecent_spec c p n hd tl :
  Lru.nodes c !! p = Some n →
  Lru.prev_ n = Some (Lru.dummyHead_ c) → Lru.next_ n = Some (Lru.dummyTail_ c) →
  Lru.nodes c !! Lru.dummyHead_ c = Some hd →
  Lru.nodes c !! Lru.dummyTail_ c = Some tl →
  Lru.prev_ tl = Some (Lru.dummyHead_ c) →
  p ≠ Lru.dummyHead_ c → p ≠ Lru.dummyTail_ c →
  Lru.dummyHead_ c ≠ Lru.dummyTail_ c →
  ∃ h', Lru.moveToMostRecent p c = Some (Lru.with_nodes h' c)
    ∧ LruModel.touched (Lru.dummyHead_ c) (Lru.dummyTail_ c) p
              (Lru.key_ n) (Lru.value_ n) (Lru.nodes c) h'.
Proof.
  intros Hp Hpp Hpn Hh Ht Htp ? ? ?. unfold Lru.moveToMostRecent.
  assert (p < length (Lru.nodes c))%nat by (by eapply lookup_lt_Some).
  assert (Lru.dummyHead_ c < length (Lru.nodes c))%nat by (by eapply lookup_lt_Some).
  erewrite lru_removeNode_spec by eassumption. sb.
  erewrite (lru_insertNode_spec _ p n)
    by (cbn [Lru.nodes Lru.with_nodes Lru.dummyHead_ Lru.dummyTail_];
        first [ done
              | by rewrite list_lookup_insert_ne
              | by apply list_lookup_insert_eq ]).
  cbn [Lru.nodes Lru.with_nodes Lru.dummyHead_ Lru.dummyTail_].
  eexists. split; [by destruct c|].
  split; [|split].
  - eexists. split; [apply list_lookup_insert_eq; by rewrite !length_insert|]. done.
  - eexists. split.
    + rewrite list_lookup_insert_ne by done.
      apply list_lookup_insert_eq. by rewrite !length_insert.
    + done.
  - intros q ? ?. by rewrite !list_lookup_insert_ne.
Qed.

Lemma wf_touch c k v p h' :
  LruModel.wf c → 0 < Lru.capacity_ c →
  (Lru.nodeMap_ c !! k = Some p
   ∨ (Lru.nodeMap_ c !! k = None ∧ (length (Lru.nodes c) ≤ p)%nat
      ∧ zsize (Lru.nodeMap_ c) < Lru.capacity_ c)) →
  LruModel.touched (Lru.dummyHead_ c) (Lru.dummyTail_ c) p k v (Lru.nodes c) h' →
  ∀ c', c' = Lru.with_nodeMap (<[k := p]> (Lru.nodeMap_ c)) (Lru.with_nodes h' c) →
  LruModel.wf c'
  ∧ LruModel.view c' = <[k := v]> (LruModel.view c)
  ∧ LruModel.first_key c' = Some k.
Proof.
  intros Hwf Hcap Hcase ((hd' & Hh' & Hnext') & (n' & Hp' & Hkey' & Hval' & Hpp' & Hpn') & Hframe) c' ->.
  pose proof (λ k1 k2 q, wf_nodeMap_inj c k1 k2 q Hwf) as Hinj.
  destruct Hwf as [Hint Hs (hd & Hh & _) (tl & Ht & Htp) Hnodes Hempty Hbound _].
  set (head := Lru.dummyHead_ c) in *. set (tail := Lru.dummyTail_ c) in *.
  set (h := Lru.nodes c) in *. set (m := Lru.nodeMap_ c) in *.
  assert (p ≠ head ∧ p ≠ tail) as [Hph Hpt].
  { destruct Hcase as [Hk|(_ & Hlen & _)].
    - by destruct (Hnodes _ _ Hk) as (? & ? & _).
    - apply lookup_lt_Some in Hh, Ht. lia. }
  assert (∀ k' p', k' ≠ k → m !! k' = Some p' → h' !! p' = h !! p') as Hother.
  { intros k' p' Hne Hk'. destruct (Hnodes _ _ Hk') as (? & ? & n0 & Hn0 & _).
    apply Hframe; [done|]. intros ->.
    destruct Hcase as [Hk|(_ & Hlen & _)].
    - apply Hne. by eapply Hinj.
    - apply lookup_lt_Some in Hn0. lia. }
  assert (LruModel.first_key
            (Lru.with_nodeMap (<[k:=p]> m) (Lru.with_nodes h' c)) = Some k) as Hfirst.
  { rewrite <- Hkey'. eapply first_key_node;
      cbn [Lru.nodes Lru.with_nodes Lru.with_nodeMap Lru.dummyHead_ Lru.dummyTail_];
      eauto. }
  split; [|split; [|done]].
  - constructor; cbn [Lru.nodes Lru.with_nodes Lru.with_nodeMap Lru.nodeMap_
                      Lru.capacity_ Lru.dummyHead_ Lru.dummyTail_].
    + done.
    + done.
    + exists hd'. split; [done|]. right. exists k, p. by rewrite lookup_insert_eq.
    + exists tl. split; [|done]. by rewrite Hframe.
    + intros k' p'. destruct (decide (k' = k)) as [->|Hne].
      * rewrite lookup_insert_eq. intros [= <-]. split; [done|]. split; [done|].
        by exists n'.
      * rewrite lookup_insert_ne by done. intros Hk'.
        rewrite (Hother _ _ Hne Hk'). by apply Hnodes.
    + lia.
    + intros _. unfold zsize. destruct Hcase as [Hk|(Hk & _ & Hlt)].
      * rewrite map_size_insert_Some by (by eexists). by apply Hbound.
      * rewrite map_size_insert_None by done. unfold zsize in Hlt. lia.
    + intros _ _. by rewrite Hfirst.
  - apply map_eq. intros k'. rewrite view_lookup.
    cbn [Lru.nodes Lru.with_nodes Lru.with_nodeMap Lru.nodeMap_].
    destruct (decide (k' = k)) as [->|Hne].
    + rewrite !lookup_insert_eq. sb. by rewrite Hp', <- Hval'.
    + rewrite !lookup_insert_ne by done. rewrite view_lookup. fold m h.
      destruct (m !! k') as [p'|] eqn:Hk'; [|done]. sb.
      by rewrite (Hother _ _ Hne Hk').
Qed.

Lemma lru_get_refines c k :
  LruModel.wf c →
  ∃ r c', Lru.get k c = Some (r, c') ∧ LruModel.wf c'
          ∧ (r, LruModel.abs c') = LruModel.get k (LruModel.abs c).
Proof.
  intros Hwf. unfold Lru.get, LruModel.get. cbn [LruModel.abs LruModel.content].
  rewrite view_lookup.
  destruct (Lru.nodeMap_ c !! k) as [p|] eqn:Hk; sb; [|by exists None, c].
  destruct (LruModel.wf_nodes c Hwf k p Hk) as (? & ? & n & Hn & Hkey & Hpp & Hpn).
  destruct (LruModel.wf_head c Hwf) as (hd & Hh & _).
  destruct (LruModel.wf_tail c Hwf) as (tl & Ht & Htp).
  assert (0 < Lru.capacity_ c) as Hcap.
  { destruct (decide (0 < Lru.capacity_ c)); [done|].
    rewrite (LruModel.wf_empty c Hwf) in Hk by lia. by rewrite lookup_empty in Hk. }
  destruct (lru_moveToMostRecent_spec c p n hd tl) as (h' & -> & Ht');
    [first [eassumption | apply (LruModel.wf_sentinels c Hwf)]..|].
  sb. cbn [Lru.nodes Lru.with_nodes].
  destruct (Ht') as (_ & (n' & Hn' & _ & Hval' & _) & _). rewrite Hn'. sb.
  rewrite Hn. cbn [fmap option_fmap option_map].
  rewrite Hkey in Ht'.
  edestruct (wf_touch c k (Lru.value_ n) p h' Hwf Hcap) as (Hwf' & Hv & Hf);
    [by left|done|reflexivity|].
  rewrite insert_id in Hwf', Hv, Hf by done.
  assert (Lru.with_nodeMap (Lru.nodeMap_ c) (Lru.with_nodes h' c) = Lru.with_nodes h' c)
    as Heq by (by destruct c).
  rewrite Heq in Hwf', Hv, Hf.
  eexists _, _. split; [done|]. split; [done|].
  unfold LruModel.abs. rewrite Hv, Hf, Hval'. cbn [Lru.capacity_ Lru.with_nodes].
  rewrite insert_id; [done|]. rewrite view_lookup, Hk. sb. by rewrite Hn.
Qed.

Lemma lru_put_refines c k v :
  LruModel.wf c →
  ∃ c', Lru.put k v c = Some c' ∧ LruModel.wf c'
        ∧ LruModel.abs c' = LruModel.put k v (LruModel.abs c).
Proof.
  intros Hwf. unfold Lru.put, LruModel.put. cbn [LruModel.abs LruModel.cap LruModel.content LruModel.linked].
  destruct (decide (Lru.capacity_ c ≤ 0)) as [|Hcap]; [by exists c|].
  assert (0 < Lru.capacity_ c) as Hcap' by lia.
  rewrite (view_size c Hwf).
  destruct (LruModel.wf_head c Hwf) as (hd & Hh & _).
  destruct (LruModel.wf_tail c Hwf) as (tl & Ht & Htp).
  pose proof (LruModel.wf_sentinels c Hwf) as Hs.
  destruct (Lru.nodeMap_ c !! k) as [p|] eqn:Hk.
  - (* the key is resident *)
    rewrite decide_True by (apply view_is_Some; [done|by eexists]).
    destruct (LruModel.wf_nodes c Hwf k p Hk) as (? & ? & n & Hn & Hkey & Hpp & Hpn).
    unfold Lru.updateExistingNode. rewrite (lru_store_eq _ _ _ _ Hn). sb.
    assert (p < length (Lru.nodes c))%nat by (by eapply lookup_lt_Some).
    destruct (lru_moveToMostRecent_spec
                (Lru.with_nodes (<[p:=Lru.setValue v n]> (Lru.nodes c)) c)
                p (Lru.setValue v n) hd tl) as (h' & -> & Ht');
      [cbn [Lru.nodes Lru.with_nodes Lru.dummyHead_ Lru.dummyTail_];
       first [ done | by apply list_lookup_insert_eq
             | by rewrite list_lookup_insert_ne ]..|].
    cbn [Lru.nodes Lru.with_nodes Lru.dummyHead_ Lru.dummyTail_ Lru.key_ Lru.value_ Lru.setValue] in Ht'.
    apply lru_touched_after_store in Ht'. rewrite Hkey in Ht'.
    edestruct (wf_touch c k v p h' Hwf Hcap') as (Hwf' & Hv & Hf);
      [by left|done|reflexivity|].
    rewrite insert_id in Hwf', Hv, Hf by done.
    assert (∀ h0, Lru.with_nodes h' (Lru.with_nodes h0 c) = Lru.with_nodes h' c)
      as Heq0 by (by destruct c).
    assert (Lru.with_nodeMap (Lru.nodeMap_ c) (Lru.with_nodes h' c) = Lru.with_nodes h' c)
      as Heq by (by destruct c).
    rewrite Heq in Hwf', Hv, Hf. rewrite Heq0.
    eexists. split; [done|]. split; [done|].
    unfold LruModel.abs. by rewrite Hv, Hf.
  - (* a new key *)
    rewrite decide_False by (rewrite view_is_Some by done; rewrite Hk; by intros [? ?]).
    unfold Lru.addNewNode.
    pose proof (LruModel.wf_int c Hwf) as Hint.
    rewrite u64_small by lia.
    assert (∃ c1, (if decide (Lru.capacity_ c ≤ zsize (Lru.nodeMap_ c))
                   then Lru.evictLeastRecent c else Some c) = Some c1
              ∧ LruModel.wf c1
              ∧ LruModel.view c1
                = (if decide (Lru.capacity_ c ≤ zsize (Lru.nodeMap_ c))
                   then from_option (λ j, delete j (LruModel.view c)) (LruModel.view c)
                                    (LruModel.first_key c)
                   else LruModel.view c)
              ∧ zsize (Lru.nodeMap_ c1) < Lru.capacity_ c1
              ∧ Lru.capacity_ c1 = Lru.capacity_ c
              ∧ Lru.nodeMap_ c1 !! k = None) as (c1 & -> & Hwf1 & Hv1 & Hlt1 & Hc1 & Hk1).
    { case_decide as Hfull.
      - pose proof (LruModel.wf_bound c Hwf Hcap') as Hb.
        destruct (LruModel.wf_full c Hwf) as [j Hj]; [lia|done|].
        destruct (lru_evict_refines c j Hwf Hj) as (c1 & He & Hwf1 & Hv1 & _ & Hsz & Hc & Hm).
        exists c1. rewrite Hj. cbn [from_option]. rewrite Hc, Hsz, Hm.
        split_and!; try done; [lia|]. by rewrite lookup_delete_None; right.
      - exists c. split_and!; try done. lia. }
    sb. rewrite <- Hv1. clear Hv1.
    destruct (LruModel.wf_head c1 Hwf1) as (hd1 & Hh1 & _).
    destruct (LruModel.wf_tail c1 Hwf1) as (tl1 & Ht1 & Htp1).
    pose proof (LruModel.wf_sentinels c1 Hwf1) as Hs1.
    cbn [Lru.alloc].
    assert (Lru.dummyHead_ c1 < length (Lru.nodes c1))%nat by (by eapply lookup_lt_Some).
    assert (Lru.dummyTail_ c1 < length (Lru.nodes c1))%nat by (by eapply lookup_lt_Some).
    erewrite (lru_insertNode_spec _ (length (Lru.nodes c1)) (Lru.newNode k v) hd1 tl1);
      cbn [Lru.nodes Lru.with_nodes Lru.dummyHead_ Lru.dummyTail_];
      [ | by rewrite lookup_app_r, Nat.sub_diag
        | by rewrite lookup_app_l
        | by rewrite lookup_app_l
        | done | lia | lia | done ].
    sb. cbn [Lru.nodes Lru.with_nodes Lru.with_nodeMap Lru.nodeMap_].
    assert (∀ h0 h1 m, Lru.with_nodeMap m (Lru.with_nodes h1 (Lru.with_nodes h0 c1))
              = Lru.with_nodeMap m (Lru.with_nodes h1 c1)) as Heq by (by destruct c1).
    rewrite Heq.
    eexists. split; [done|].
    match goal with
    | |- LruModel.wf (Lru.with_nodeMap _ (Lru.with_nodes ?h' _)) ∧ _ =>
        edestruct (wf_touch c1 k v (length (Lru.nodes c1)) h' Hwf1) as (Hwf' & Hv & Hf);
          [lia | right; split_and!; [done|lia|done] | | reflexivity | ]
    end.
    { split; [|split].
      - eexists. split; [apply list_lookup_insert_eq|done].
        rewrite !length_insert, length_app. lia.
      - eexists. split.
        + rewrite list_lookup_insert_ne by lia.
          apply list_lookup_insert_eq. rewrite !length_insert, length_app. cbn. lia.
        + done.
      - intros q ? ?. rewrite !list_lookup_insert_ne by done.
        destruct (decide (q < length (Lru.nodes c1))%nat).
        + by rewrite lookup_app_l.
        + rewrite !lookup_ge_None_2; [done|lia|rewrite length_app; cbn; lia]. }
    split; [done|]. unfold LruModel.abs. rewrite Hv, Hf.
    cbn [Lru.capacity_ Lru.with_nodes Lru.with_nodeMap]. by rewrite Hc1.
Qed.

Lemma lru_new_wf (Key0 : Key) (Value0 : Value) capacity :
  - 2 ^ 31 ≤ capacity < 2 ^ 31 →
  LruModel.wf (Lru.new Key0 Value0 capacity)
  ∧ LruModel.abs (Lru.new Key0 Value0 capacity) = LruModel.mkState capacity ∅ None.
Proof.
  intros Hc. split.
  - constructor; cbn.
    + done.
    + done.
    + eexists. split; [done|]. by left.
    + eexists. by split.
    + intros k p. by rewrite lookup_empty.
    + done.
    + intros ?. unfold zsize. rewrite map_size_empty. lia.
    + unfold zsize. rewrite map_size_empty. lia.
  - unfold LruModel.abs. f_equal; first [done | apply omap_empty].
Qed.
End LruRefine.


(** Every sequence of [put], [get] and [remove] on a fresh [LruCache] runs
    without undefined behaviour and keeps the number of entries within the
    capacity. *)
Section LruBound.
Context `{Countable Key} {Value : Type}.
Variables (Key0 : Key) (Value0 : Value).
Implicit Types c : Lru.LruCache (Key := Key) (Value := Value).

Lemma lru_step_refines (o : lru_op Key Value) c :
  LruModel.wf c → ∃ c', lru_step o c = Some c' ∧ LruModel.wf c'.
Proof.
  intros Hwf. destruct o as [k v|k|k]; cbn [lru_step]; unfold call.
  - destruct (lru_put_refines c k v Hwf) as (c' & -> & ? & _). by exists c'.
  - destruct (lru_get_refines c k Hwf) as (r & c' & -> & ? & _). by exists c'.
  - destruct (lru_remove_refines c k Hwf) as (c' & -> & ? & _). by exists c'.
Qed.

Lemma lru_run_wf (ops : list (lru_op Key Value)) c :
  LruModel.wf c → ∃ c', run (lru_step <$> ops) c = Some c' ∧ LruModel.wf c'.
Proof.
  revert c. induction ops as [|o ops IH]; intros c Hwf; [by exists c|].
  rewrite fmap_cons, run_cons.
  destruct (lru_step_refines o c Hwf) as (c1 & -> & Hwf1). sb. by apply IH.
Qed.

Lemma lru_wf_size c :
  LruModel.wf c → 0 ≤ Lru.capacity_ c → zsize (Lru.nodeMap_ c) ≤ Lru.capacity_ c.
Proof.
  intros Hwf Hc. destruct (decide (0 < Lru.capacity_ c)) as [Hpos|Hz].
  - by apply (LruModel.wf_bound c Hwf).
  - rewrite (LruModel.wf_empty c Hwf) by lia. unfold zsize.
    rewrite map_size_empty. lia.
Qed.

(** X1.  Every sequence of [put], [get] and [remove] calls on a cache with a
    capacity in the [int] range runs without undefined behaviour and
    leaves at most [capacity] entries. *)
Theorem lru_size_within_capacity capacity (ops : list (lru_op Key Value)) :
  0 ≤ capacity < 2 ^ 31 →
  ∃ c, run (lru_step <$> ops) (Lru.new Key0 Value0 capacity) = Some c
    ∧ Lru.capacity_ c = capacity
    ∧ zsize (Lru.nodeMap_ c) ≤ capacity.
Proof.
  intros Hc.
  destruct (lru_new_wf Key0 Value0 capacity) as [Hwf0 _]; [lia|].
  assert (∀ (l : list (lru_op Key Value)) c c',
            run (lru_step <$> l) c = Some c' → LruModel.wf c →
            Lru.capacity_ c' = Lru.capacity_ c) as Hcap.
  { induction l as [|o l IH]; intros c c'.
    - by intros [= <-].
    - rewrite fmap_cons, run_cons. intros Hr Hwf.
      destruct (lru_step_refines o c Hwf) as (c1 & Hs & Hwf1).
      rewrite Hs in Hr. sb. rewrite (IH _ _ Hr Hwf1).
      destruct o as [k v|k|k]; cbn [lru_step] in Hs; unfold call in Hs.
      + destruct (lru_put_refines c k v Hwf) as (c2 & Hp & _ & Ha).
        rewrite Hp in Hs. injection Hs as <-.
        apply (f_equal LruModel.cap) in Ha. cbn [LruModel.abs LruModel.cap] in Ha.
        rewrite Ha. unfold LruModel.put. cbn [LruModel.cap].
        by repeat case_decide.
      + destruct (lru_get_refines c k Hwf) as (r & c2 & Hp & _ & Ha).
        rewrite Hp in Hs. injection Hs as <-.
        apply (f_equal (λ x, LruModel.cap x.2)) in Ha. cbn [LruModel.abs LruModel.cap snd] in Ha.
        rewrite Ha. unfold LruModel.get. by destruct (_ !! k).
      + destruct (lru_remove_refines c k Hwf) as (c2 & Hp & _ & Ha).
        rewrite Hp in Hs. injection Hs as <-.
        apply (f_equal LruModel.cap) in Ha. cbn [LruModel.abs LruModel.cap] in Ha.
        rewrite Ha. unfold LruModel.remove. by destruct (_ !! k). }
  destruct (lru_run_wf ops _ Hwf0) as (c & Hr & Hwf).
  exists c. split; [done|]. pose proof (Hcap _ _ _ Hr Hwf0) as Hcc.
  cbn in Hcc. split; [done|]. rewrite <- Hcc. apply lru_wf_size; [done|lia].
Qed.
End LruBound.

(** ** LruKCache: admission after K accesses *)

Section LruKRefine.
Context `{Countable Key}.
Variable Key0 : Key.
Implicit Types c : LruK.LruKCache (Key := Key).
Open Scope string_scope.

Lemma lruk_touchHistory_refines key (h : Lru.LruCache (Key := Key) (Value := Z)) n a' :
  LruModel.wf h →
  LruKModel.touchHistory key (LruModel.abs h) = Some (n, a') →
  ∃ h', LruK.touchHistory key h = Some (n, h') ∧ LruModel.wf h' ∧ LruModel.abs h' = a'.
Proof.
  intros Hwf. unfold LruKModel.touchHistory, LruK.touchHistory, Lru.get_value.
  destruct (lru_get_refines h key Hwf) as (r & h1 & -> & Hwf1 & <-). sb.
  destruct (int_ok (s32 (default 0 r) + 1)) as [cnt|]; sb; [|done].
  intros [= <- <-].
  destruct (lru_put_refines h1 key (u64 cnt) Hwf1) as (h2 & -> & Hwf2 & <-). sb.
  by exists h2.
Qed.

Lemma lruk_get_refines key c v a' :
  LruKModel.wf c →
  LruKModel.get key (LruKModel.abs c) = Some (v, a') →
  ∃ c', LruK.get key c = Some (v, c') ∧ LruKModel.wf c' ∧ LruKModel.abs c' = a'.
Proof.
  intros [Hb Hh]. unfold LruKModel.get, LruK.get, Lru.get_value.
  cbn [LruKModel.abs LruKModel.history LruKModel.store LruKModel.k].
  destruct (LruKModel.touchHistory key (LruModel.abs (LruK.historyList_ c)))
    as [[n ah]|] eqn:Et; sb; [|done].
  destruct (lruk_touchHistory_refines _ _ _ _ Hh Et) as (h' & -> & Hwfh & <-). sb.
  destruct (lru_get_refines (LruK.base c) key Hb) as (r & b1 & -> & Hwfb & <-). sb.
  intros [= <- <-]. eexists. split; [done|]. by split.
Qed.

Lemma lruk_put_refines key value c a' :
  LruKModel.wf c →
  LruKModel.put key value (LruKModel.abs c) = Some a' →
  ∃ c', LruK.put key value c = Some c' ∧ LruKModel.wf c' ∧ LruKModel.abs c' = a'.
Proof.
  intros [Hb Hh]. unfold LruKModel.put, LruK.put, Lru.get_value.
  cbn [LruKModel.abs LruKModel.history LruKModel.store LruKModel.k].
  destruct (lru_get_refines (LruK.base c) key Hb) as (r & b1 & -> & Hwf1 & <-). sb.
  assert (∃ b2, (if decide (default "" r ≠ "") then Lru.put key value b1 else Some b1)
                = Some b2 ∧ LruModel.wf b2
            ∧ LruModel.abs b2
              = (if decide (default "" r ≠ "")
                 then LruModel.put key value (LruModel.abs b1) else LruModel.abs b1))
    as (b2 & -> & Hwf2 & <-).
  { case_decide; [|by exists b1]. by apply lru_put_refines. }
  sb.
  destruct (LruKModel.touchHistory key (LruModel.abs (LruK.historyList_ c)))
    as [[n ah]|] eqn:Et; sb; [|done].
  destruct (lruk_touchHistory_refines _ _ _ _ Hh Et) as (h' & -> & Hwfh & <-). sb.
  case_decide.
  - intros [= <-].
    destruct (lru_remove_refines h' key Hwfh) as (h2 & -> & Hwfh2 & <-). sb.
    destruct (lru_put_refines b2 key value Hwf2) as (b3 & -> & Hwf3 & <-). sb.
    eexists. split; [done|]. by split.
  - intros [= <-]. eexists. split; [done|]. by split.
Qed.

Lemma lruk_new_wf capacity historyCapacity :
  - 2 ^ 31 ≤ capacity < 2 ^ 31 → - 2 ^ 31 ≤ historyCapacity < 2 ^ 31 →
  LruKModel.wf (LruK.new Key0 capacity historyCapacity 3)
  ∧ LruKModel.abs (LruK.new Key0 capacity historyCapacity 3)
    = LruKModel.fresh capacity historyCapacity.
Proof.
  intros Hc Hh.
  destruct (lru_new_wf Key0 "" capacity Hc) as [Hw1 Ha1].
  destruct (lru_new_wf Key0 0%Z historyCapacity Hh) as [Hw2 Ha2].
  split; [by split|]. unfold LruKModel.abs, LruKModel.fresh. cbn [LruK.new LruK.base LruK.historyList_ LruK.k_].
  by rewrite Ha1, Ha2.
Qed.

Lemma lruk_access_refines key a c a' :
  LruKModel.wf c →
  LruKModel.do_access key a (LruKModel.abs c) = Some a' →
  ∃ c', LruK.do_access key a c = Some c' ∧ LruKModel.wf c' ∧ LruKModel.abs c' = a'.
Proof.
  intros Hwf. destruct a as [|v]; cbn [LruKModel.do_access LruK.do_access].
  - destruct (LruKModel.get key (LruKModel.abs c)) as [[v a1]|] eqn:E; [|done].
    intros [= <-].
    destruct (lruk_get_refines key c v a1 Hwf E) as (c' & -> & ? & ?).
    by exists c'.
  - by apply lruk_put_refines.
Qed.

Lemma lruk_promoted_abs key c :
  LruKModel.wf c →
  LruK.promoted key c
  = bool_decide (is_Some (LruModel.content (LruKModel.store (LruKModel.abs c)) !! key)).
Proof.
  intros [Hb _]. unfold LruK.promoted. apply bool_decide_ext.
  symmetry. by apply view_is_Some.
Qed.

Section OneKey.
Variables (capacity historyCapacity : Z) (key : Key).

Lemma model_touch_fresh :
  0 < historyCapacity →
  LruKModel.touchHistory key (LruModel.mkState historyCapacity ∅ None)
  = Some (1, LruModel.mkState historyCapacity {[key := 1]} (Some key)).
Proof.
  intros Hhist. unfold LruKModel.touchHistory, LruModel.get, LruModel.put.
  cbn [LruModel.content LruModel.cap LruModel.linked].
  rewrite lookup_empty. cbn [default from_option id]. rewrite s32_small, int_ok_small by lia. sb.
  cbn [LruModel.content LruModel.cap LruModel.linked].
  rewrite decide_False by lia. rewrite lookup_empty.
  rewrite decide_False by (by intros [? ?]).
  unfold zsize. rewrite map_size_empty. rewrite decide_False by lia.
  by rewrite insert_empty.
Qed.

Lemma model_touch_counted n :
  0 < historyCapacity → 0 ≤ n < 2 ^ 31 - 1 →
  LruKModel.touchHistory key (LruModel.mkState historyCapacity {[key := n]} (Some key))
  = Some (n + 1, LruModel.mkState historyCapacity {[key := n + 1]} (Some key)).
Proof.
  intros Hhist Hn. unfold LruKModel.touchHistory, LruModel.get, LruModel.put.
  cbn [LruModel.content LruModel.cap LruModel.linked].
  rewrite lookup_singleton_eq. cbn [default from_option id].
  rewrite s32_small, int_ok_small by lia. sb.
  cbn [LruModel.content LruModel.cap LruModel.linked].
  rewrite decide_False by lia. rewrite lookup_singleton_eq.
  rewrite decide_True by (by eexists).
  rewrite insert_singleton_eq. by rewrite u64_small by lia.
Qed.

Lemma model_store_miss (s : LruModel.state (Key := Key) (Value := string)) :
  LruModel.content s !! key = None → LruModel.get key s = (None, s).
Proof. intros Hk. unfold LruModel.get. by rewrite Hk. Qed.

Lemma model_access_fresh a :
  0 < capacity → 0 < historyCapacity →
  LruKModel.do_access key a (LruKModel.fresh capacity historyCapacity)
  = Some (LruKModel.counted capacity historyCapacity key 1).
Proof.
  intros Hcap Hhist.
  destruct a as [|v]; unfold LruKModel.do_access, LruKModel.get, LruKModel.put,
    LruKModel.fresh; cbn [LruKModel.history LruKModel.store LruKModel.k];
    rewrite model_touch_fresh, model_store_miss by (first [done | apply lookup_empty]); sb;
    cbn [default from_option id]; [done|].
  rewrite (decide_False (P := "" ≠ "")) by (intros Hne; by apply Hne). by rewrite decide_False by lia.
Qed.

Lemma model_access_counted a n :
  0 < capacity → 0 < historyCapacity → 0 ≤ n < 2 →
  LruKModel.do_access key a (LruKModel.counted capacity historyCapacity key n)
  = Some (LruKModel.counted capacity historyCapacity key (n + 1)).
Proof.
  intros Hcap Hhist Hn.
  destruct a as [|v]; unfold LruKModel.do_access, LruKModel.get, LruKModel.put,
    LruKModel.counted; cbn [LruKModel.history LruKModel.store LruKModel.k];
    rewrite model_touch_counted, model_store_miss by (first [lia | apply lookup_empty]);
    sb; cbn [default from_option id]; [done|].
  rewrite (decide_False (P := "" ≠ "")) by (intros Hne; by apply Hne). by rewrite decide_False by lia.
Qed.

Lemma model_put_counted_2 value :
  0 < capacity → 0 < historyCapacity →
  LruKModel.put key value (LruKModel.counted capacity historyCapacity key 2)
  = Some (LruKModel.admitted capacity historyCapacity key value ∅ None).
Proof.
  intros Hcap Hhist. unfold LruKModel.put, LruKModel.counted.
  cbn [LruKModel.history LruKModel.store LruKModel.k].
  rewrite model_touch_counted, model_store_miss by (first [lia | apply lookup_empty]).
  sb. cbn [default from_option id]. rewrite (decide_False (P := "" ≠ "")) by (intros Hne; by apply Hne).
  rewrite decide_True by lia. unfold LruKModel.admitted. do 2 f_equal.
  - unfold LruModel.put. cbn [LruModel.content LruModel.cap LruModel.linked].
    rewrite decide_False by lia. rewrite lookup_empty.
    rewrite decide_False by (by intros [? ?]).
    unfold zsize. rewrite map_size_empty. rewrite decide_False by lia.
    by rewrite insert_empty.
  - unfold LruModel.remove. cbn [LruModel.content LruModel.cap LruModel.linked].
    rewrite lookup_singleton_eq. by rewrite delete_singleton_eq.
Qed.

Lemma model_get_admitted value :
  0 < capacity → 0 < historyCapacity →
  LruKModel.get key (LruKModel.admitted capacity historyCapacity key value ∅ None)
  = Some (value, LruKModel.admitted capacity historyCapacity key value
                   {[key := 1]} (Some key)).
Proof.
  intros Hcap Hhist. unfold LruKModel.get, LruKModel.admitted.
  cbn [LruKModel.history LruKModel.store LruKModel.k].
  rewrite model_touch_fresh by done. sb. unfold LruModel.get.
  cbn [LruModel.content LruModel.cap LruModel.linked].
  by rewrite lookup_singleton_eq.
Qed.

Lemma model_get_counted_2 :
  0 < capacity → 0 < historyCapacity →
  LruKModel.do_access key LruK.AGet (LruKModel.counted capacity historyCapacity key 2)
  = Some (LruKModel.counted capacity historyCapacity key 3).
Proof.
  intros Hcap Hhist. unfold LruKModel.do_access, LruKModel.get, LruKModel.counted.
  cbn [LruKModel.history LruKModel.store LruKModel.k].
  rewrite model_touch_counted, model_store_miss by (first [lia | apply lookup_empty]).
  done.
Qed.
End OneKey.

(** C9, as amended.  On a fresh [LruKCache] with K = 3 and positive
    capacities, a key that was accessed exactly twice, by [get] or by
    [put] in any mix, is absent from the promotion store.  A third access
    by [put] makes it present, and [get] then returns the value of that
    [put].  A third access by [get] leaves it absent. *)
Theorem lruk_third_access_admits_on_put
    (capacity historyCapacity : Z) (key : Key) (a1 a2 : LruK.access) (value : string) :
  0 < capacity < 2 ^ 31 → 0 < historyCapacity < 2 ^ 31 →
  ∃ c2, run [LruK.do_access key a1; LruK.do_access key a2]
            (LruK.new Key0 capacity historyCapacity 3) = Some c2
    ∧ LruK.promoted key c2 = false
    ∧ (∃ c3, LruK.do_access key (LruK.APut value) c2 = Some c3
             ∧ LruK.promoted key c3 = true
             ∧ fst <$> LruK.get key c3 = Some value)
    ∧ (∃ c3, LruK.do_access key LruK.AGet c2 = Some c3
             ∧ LruK.promoted key c3 = false).
Proof.
  intros Hc Hh.
  destruct (lruk_new_wf capacity historyCapacity) as [Hwf0 Ha0]; [lia..|].
  pose proof (model_access_fresh capacity historyCapacity key a1 ltac:(lia) ltac:(lia)) as E1.
  rewrite <- Ha0 in E1.
  destruct (lruk_access_refines key a1 _ _ Hwf0 E1) as (c1 & Hr1 & Hwf1 & Ha1).
  pose proof (model_access_counted capacity historyCapacity key a2 1 ltac:(lia) ltac:(lia) ltac:(lia)) as E2.
  rewrite <- Ha1 in E2.
  destruct (lruk_access_refines key a2 _ _ Hwf1 E2) as (c2 & Hr2 & Hwf2 & Ha2).
  exists c2. split; [|split; [|split]].
  - unfold run. cbn [foldl]. sb. rewrite Hr1. sb. by rewrite Hr2.
  - rewrite lruk_promoted_abs, Ha2 by done. cbn. by rewrite lookup_empty.
  - pose proof (model_put_counted_2 capacity historyCapacity key value ltac:(lia) ltac:(lia)) as E3.
    change (2 : Z) with (1 + 1) in E3. rewrite <- Ha2 in E3.
    destruct (lruk_put_refines key value _ _ Hwf2 E3) as (c3 & Hr3 & Hwf3 & Ha3).
    exists c3. split; [done|]. split.
    + rewrite lruk_promoted_abs, Ha3 by done. cbn. by rewrite lookup_singleton_eq.
    + pose proof (model_get_admitted capacity historyCapacity key value ltac:(lia) ltac:(lia)) as E4.
      rewrite <- Ha3 in E4.
      destruct (lruk_get_refines key _ _ _ Hwf3 E4) as (c4 & -> & _). done.
  - pose proof (model_get_counted_2 capacity historyCapacity key ltac:(lia) ltac:(lia)) as E3.
    change (2 : Z) with (1 + 1) in E3. rewrite <- Ha2 in E3.
    destruct (lruk_access_refines key LruK.AGet _ _ Hwf2 E3) as (c3 & Hr3 & Hwf3 & Ha3).
    exists c3. split; [done|].
    rewrite lruk_promoted_abs, Ha3 by done. cbn. by rewrite lookup_empty.
Qed.
End LruKRefine.

Section LruKExample.
Open Scope string_scope.

(** C9, the claim as stated fails.  With K = 3, after [put(1,"a");
  put(1,"a"); get(1)] key 1 has been accessed three times and is still
  absent from the promotion store: [get] counts the access but never
  inserts. *)
Lemma lruk_third_access_get_not_admitted :
(c ← lruk_put_put_get; Some (LruK.promoted 1 c)) = Some false.
Proof. vm_compute; reflexivity. Qed.

Lemma lruk_third_access_admits_on_put_witness :
∃ c2 : LruK.LruKCache (Key := Z),
  run [LruK.do_access 1 (LruK.APut "a"); LruK.do_access 1 LruK.AGet]
      (LruK.new 0 2 2 3) = Some c2
  ∧ LruK.promoted 1 c2 = false
  ∧ (∃ c3, LruK.do_access 1 (LruK.APut "b") c2 = Some c3
           ∧ LruK.promoted 1 c3 = true
           ∧ fst <$> LruK.get 1 c3 = Some "b")
  ∧ (∃ c3, LruK.do_access 1 LruK.AGet c2 = Some c3
           ∧ LruK.promoted 1 c3 = false).
Proof.
apply (lruk_third_access_admits_on_put 0 2 2 1 (LruK.APut "a") LruK.AGet "b");
  lia.
Defined.

End LruKExample.

(** ** LruCache: the three-put example *)

Section LruExample.
Open Scope string_scope.

(** C3.  On an [LruCache] of capacity 2, after [put(1,"a"); put(2,"b");
  put(3,"c")] the code has evicted key 2, not key 1: [insertNode] writes
  [dummyHead_->prev_] where the [prev_] of the tail sentinel was meant,
  so [dummyHead_->next_] is always the node touched last, and that is the
  node [evictLeastRecent] removes.  [get(1)] hits with "a", [get(2)]
  misses, [get(3)] hits with "c". *)
Theorem lru_three_puts_evict_key_2 :
(c ← lru_three_puts;
 Some (bool_decide (is_Some (Lru.nodeMap_ c !! 1)),
       bool_decide (is_Some (Lru.nodeMap_ c !! 2)),
       bool_decide (is_Some (Lru.nodeMap_ c !! 3))))
  = Some (true, false, true)
∧ (c ← lru_three_puts;
   '(r1, c) ← Lru.get 1 c;
   '(r2, c) ← Lru.get 2 c;
   '(r3, c) ← Lru.get 3 c;
   Some (r1, r2, r3))
  = Some (Some "a", None, Some "c").
Proof. split; vm_compute; reflexivity. Qed.

End LruExample.

(** ** LfuCache: aging, the minimum frequency and eviction *)

Section LfuExamples.
Open Scope string_scope.

(** C7.  [LfuCache(1, 252)]: after [put("k1")] and 251 hits the entry has
  frequency 252 and [minFreq_] is 252.  The next hit raises the average
  to 253, the aging pass takes [252 / 2] off and leaves the entry at
  frequency 127, but [updateMinFreq] starts its scan from [INT8_MAX] and
  reads a minimum of [INT8_MAX] as "no entry": [minFreq_] becomes 1 while
  the only non-empty bucket is 127. *)
Theorem lfu_aging_loses_min_freq :
(c ← lfu_hot 251;
 Some (Lfu.freq_of "k1" c, Lfu.minFreq_ c, lfu_true_min c))
  = Some (Some 252, 252, Some 252)
∧ (c ← lfu_hot 252;
   Some (Lfu.freq_of "k1" c, Lfu.minFreq_ c, lfu_true_min c))
  = Some (Some 127, 1, Some 127).
Proof. split; vm_compute; reflexivity. Qed.

(** C1.  The same cache, of capacity 1, then receives [put("k2","b")]:
  [kickOut] looks into the empty bucket 1, takes its tail sentinel for
  the victim and evicts nothing, and the insertion leaves two resident
  entries in a cache of capacity 1. *)
Theorem lfu_size_exceeds_capacity :
(c ← lfu_hot_then_put;
 Some (zsize (Lfu.nodeMap_ c), Lfu.capacity_ c,
       bool_decide (is_Some (Lfu.nodeMap_ c !! "k1")),
       bool_decide (is_Some (Lfu.nodeMap_ c !! "k2"))))
  = Some (2, 1, true, true).
Proof. vm_compute; reflexivity. Qed.

(** C8, the claim as stated fails.  A full [LfuCache] of capacity 2 holds
  "k2" in bucket 1 and "k1" in bucket 2.  [kickOut] evicts "k2" and
  empties bucket 1, and [minFreq_] is still 1 afterwards: it designates
  the empty bucket, while the remaining entry has frequency 2. *)
Lemma lfu_kickOut_keeps_stale_minFreq :
(c ← lfu_two_buckets;
 c' ← Lfu.kickOut c;
 l ← Lfu.freqToFreqList_ c' !! Lfu.minFreq_ c';
 e ← Lfu.isEmpty l (Lfu.nodes c');
 Some (zsize (Lfu.nodeMap_ c), Lfu.minFreq_ c,
       Lfu.nodeMap_ c' !! "k2", Lfu.minFreq_ c', e, lfu_true_min c'))
  = Some (2, 1, None, 1, true, Some 2).
Proof. vm_compute; reflexivity. Qed.

End LfuExamples.

(** ** LfuCache and the hashed shards: lookups of absent keys *)

Section Shards.
Context `{Countable Key} {Value : Type}.
Variables (Key0 : Key) (Value0 : Value) (Hash : Key → Z).
Variable hardware_concurrency : Z.

Local Abbreviation fresh capacity sliceNum maxAverageNum :=
  (HashLfu.new (Key := Key) (Value := Value)
     hardware_concurrency capacity sliceNum maxAverageNum).

Lemma lru_get_absent (key : Key)
    (c : Lru.LruCache (Key := Key) (Value := Value)) :
  Lru.nodeMap_ c !! key = None → Lru.get key c = Some (None, c).
Proof. intros Hk. unfold Lru.get. by rewrite Hk. Qed.

Lemma lfu_get_absent (k : Key)
    (c : Lfu.LfuCache (Key := Key) (Value := Value)) :
  Lfu.nodeMap_ c !! k = None → Lfu.get Key0 Value0 k c = Some (None, c).
Proof. intros Hk. unfold Lfu.get. by rewrite Hk. Qed.

Lemma hashlru_with_slice_id
    (c : HashLru.HashLruCaches (Key := Key) (Value := Value)) i s :
  at_index (HashLru.lruSliceCaches_ c) i = Some s →
  HashLru.with_slice i s c = c.
Proof.
  unfold at_index, HashLru.with_slice. destruct c as [a b l]; simpl.
  case_decide; [|done]. intros Hl. f_equal. by apply list_insert_id.
Qed.

Lemma hashlru_get_absent (key : Key)
    (c : HashLru.HashLruCaches (Key := Key) (Value := Value)) i s :
  HashLru.sliceIndex Hash key c = Some i →
  at_index (HashLru.lruSliceCaches_ c) i = Some s →
  Lru.nodeMap_ s !! key = None →
  HashLru.get Hash key c = Some (None, c).
Proof.
  intros Hi Hs Hk. unfold HashLru.get. rewrite Hi. sb. rewrite Hs. sb.
  rewrite lru_get_absent by done. sb.
  by rewrite (hashlru_with_slice_id _ _ _ Hs).
Qed.

Lemma hashlfu_with_slice_id
    (c : HashLfu.HashLfuCache (Key := Key) (Value := Value)) i s :
  at_index (HashLfu.lfuSliceCaches_ c) i = Some s →
  HashLfu.with_slice i s c = c.
Proof.
  unfold at_index, HashLfu.with_slice. destruct c as [a b l]; simpl.
  case_decide; [|done]. intros Hl. f_equal. by apply list_insert_id.
Qed.

(** The shard a key of a fresh [HashLfuCache] is routed to. *)
Lemma hashlfu_slice_new (capacity sliceNum maxAverageNum : Z) (k : Key) :
  0 < sliceNum < 2 ^ 31 →
  ∃ i, HashLfu.sliceIndex Hash k (fresh capacity sliceNum maxAverageNum)
       = Some i
    ∧ at_index
        (HashLfu.lfuSliceCaches_ (fresh capacity sliceNum maxAverageNum)) i
      = Some (Lfu.new (s32 (sliceSize capacity sliceNum)) maxAverageNum).
Proof.
  intros Hn. unfold HashLfu.new, HashLfu.sliceIndex, at_index. simpl.
  rewrite (decide_True (P := 0 < sliceNum)) by lia.
  rewrite (u64_small sliceNum) by lia.
  rewrite (decide_False (P := sliceNum = 0)) by lia.
  eexists. split; [done|].
  assert (0 ≤ u64 (Hash k) `mod` sliceNum < sliceNum)
    by (apply Z.mod_pos_bound; lia).
  rewrite decide_True by lia.
  apply lookup_replicate_2. lia.
Qed.

(** C4.  [HashLfuCache::put] calls [get] on the shard, so it stores
    nothing: on a cache constructed with positive capacity and shard
    count, [put(key, value)] leaves the cache as it was, and the [get]
    that follows misses. *)
Theorem hashlfu_put_stores_nothing
    (capacity sliceNum maxAverageNum : Z) (k : Key) (v : Value) :
  0 < capacity → 0 < sliceNum < 2 ^ 31 →
  HashLfu.put Key0 Value0 Hash k v (fresh capacity sliceNum maxAverageNum)
    = Some (fresh capacity sliceNum maxAverageNum)
  ∧ HashLfu.get Key0 Value0 Hash k (fresh capacity sliceNum maxAverageNum)
    = Some (None, fresh capacity sliceNum maxAverageNum).
Proof.
  intros Hc Hn.
  destruct (hashlfu_slice_new capacity sliceNum maxAverageNum k Hn)
    as (i & Hi & Hs).
  unfold HashLfu.put, HashLfu.get. rewrite Hi. sb. rewrite Hs. sb.
  rewrite lfu_get_absent by apply lookup_empty. sb.
  by rewrite (hashlfu_with_slice_id _ _ _ Hs).
Qed.
End Shards.

Section ShardsExample.
Open Scope string_scope.

Lemma hashlfu_put_stores_nothing_witness :
(c ← HashLfu.put 0 "" id 7 "a" (HashLfu.new (Key := Z) 8 4 2 10);
 fst <$> HashLfu.get 0 "" id 7 c) = Some None.
Proof.
destruct (hashlfu_put_stores_nothing 0 "" id 8 4 2 10 7 "a") as [Hp Hg];
  [lia | lia |].
rewrite Hp. sb. rewrite Hg. reflexivity.
Defined.

End ShardsExample.

(** ** ArcLruPart: what a completed write leaves behind *)

Section ArcLruWrite.
Context `{Countable Key} {Value : Type}.
Implicit Types h : list (ArcNode.ArcNode (Key := Key) (Value := Value)).
Implicit Types part : ArcLru.ArcLruPart (Key := Key) (Value := Value).

Lemma same_entries_refl h : ArcNode.same_entries h h.
Proof. done. Qed.

Lemma same_entries_trans h1 h2 h3 :
  ArcNode.same_entries h1 h2 → ArcNode.same_entries h2 h3 → ArcNode.same_entries h1 h3.
Proof. intros H12 H23 p. by rewrite H23, H12. Qed.

Lemma arcnode_store_same h h' q f :
  ArcNode.keeps_entry f → ArcNode.store q f h = Some h' → ArcNode.same_entries h h'.
Proof.
  intros Hf. unfold ArcNode.store. destruct (h !! q) as [n|] eqn:Hq; [|done].
  intros [= <-] p. destruct (decide (p = q)) as [->|Hne].
  - rewrite list_lookup_insert_eq by (by eapply lookup_lt_Some).
    rewrite Hq. cbn. destruct (Hf n) as [-> ->]. done.
  - by rewrite list_lookup_insert_ne.
Qed.

Lemma keeps_set_next x :
  ArcNode.keeps_entry (Key := Key) (Value := Value) (ArcNode.set_next x).
Proof. by intros []. Qed.
Lemma keeps_set_prev x :
  ArcNode.keeps_entry (Key := Key) (Value := Value) (ArcNode.set_prev x).
Proof. by intros []. Qed.
Lemma keeps_set_accessCount x :
  ArcNode.keeps_entry (Key := Key) (Value := Value)
    (ArcNode.set_accessCount x).
Proof. by intros []. Qed.
Lemma keeps_increaseAccessCount :
  ArcNode.keeps_entry (Key := Key) (Value := Value)
    ArcNode.increaseAccessCount.
Proof. by intros []. Qed.

Ltac same_step :=
  match goal with
  | Hs : ArcNode.store _ _ _ = Some _ |- _ =>
      apply arcnode_store_same in Hs;
      [|first [apply keeps_set_next | apply keeps_set_prev
              | apply keeps_set_accessCount]]
  end.

Lemma arcnode_unlink_same node h h' :
  ArcNode.unlink node h = Some h' → ArcNode.same_entries h h'.
Proof.
  unfold ArcNode.unlink. intros Hu. simplify_option_eq.
  repeat same_step. eauto using same_entries_trans.
Qed.

Lemma arcnode_link_after_same head node h h' :
  ArcNode.link_after head node h = Some h' → ArcNode.same_entries h h'.
Proof.
  unfold ArcNode.link_after. intros Hu. simplify_option_eq.
  repeat same_step. eauto using same_entries_trans.
Qed.

Lemma same_entries_value h h' p k v :
  ArcNode.same_entries h h' →
  (λ n, (ArcNode.key_ n, ArcNode.value_ n)) <$> h !! p = Some (k, v) →
  ∃ n, h' !! p = Some n ∧ ArcNode.key_ n = k ∧ ArcNode.value_ n = v.
Proof.
  intros Hs Hp. rewrite <- Hs in Hp. destruct (h' !! p) as [n|]; [|done].
  injection Hp as <- <-. by exists n.
Qed.

(** A completed [ArcLruPart::put] on a partition of non-zero capacity
    leaves the key resident with the value written. *)
Lemma arclru_put_stores key value part b part' :
  ArcLru.capacity_ part ≠ 0 →
  ArcLru.put key value part = Some (b, part') →
  b = true
  ∧ ∃ p n, ArcLru.mainCache_ part' !! key = Some p
      ∧ ArcLru.nodes part' !! p = Some n
      ∧ ArcNode.value_ n = value.
Proof.
  intros Hc. unfold ArcLru.put. rewrite decide_False by done.
  destruct (ArcLru.mainCache_ part !! key) as [node|] eqn:Hk.
  - unfold ArcLru.updateExistingNode, ArcLru.moveToFront, ArcLru.addToFront.
    intros Hp. apply bind_Some in Hp as (c1 & Hp & [= <- <-]). split; [done|].
    apply bind_Some in Hp as (h0 & Hs & Hp).
    apply bind_Some in Hp as (h1 & Hu & Hp).
    apply bind_Some in Hp as (h2 & Hl & [= <-]).
    cbn [ArcLru.nodes ArcLru.with_nodes ArcLru.mainCache_ ArcLru.mainHead_] in *.
    apply arcnode_unlink_same in Hu. apply arcnode_link_after_same in Hl.
    pose proof (same_entries_trans _ _ _ Hu Hl) as Hsame.
    unfold ArcNode.store in Hs.
    destruct (ArcLru.nodes part !! node) as [n0|] eqn:Hn0; [|done].
    injection Hs as <-.
    edestruct (same_entries_value _ _ node (ArcNode.key_ n0) value Hsame)
      as (n & Hn' & _ & Hv);
      [by rewrite list_lookup_insert_eq by (by eapply lookup_lt_Some)|].
    exists node, n. by rewrite Hk.
  - unfold ArcLru.addNewNode, ArcLru.addToFront. intros Hp.
    apply bind_Some in Hp as (c1 & Hp & [= <- <-]). split; [done|].
    apply bind_Some in Hp as (c0 & _ & Hp). cbn [ArcNode.alloc] in Hp.
    apply bind_Some in Hp as (h' & Hl & [= <-]).
    cbn [ArcLru.nodes ArcLru.with_nodes ArcLru.with_mainCache ArcLru.mainCache_
         ArcLru.mainHead_] in *.
    apply arcnode_link_after_same in Hl.
    edestruct (same_entries_value _ _ (length (ArcLru.nodes c0)) key value Hl)
      as (n & Hn' & _ & Hv).
    { by rewrite lookup_app_r, Nat.sub_diag. }
    exists (length (ArcLru.nodes c0)), n. by rewrite lookup_insert_eq.
Qed.
End ArcLruWrite.

(** ** ArcCache *)

Section ArcExamples.
Open Scope string_scope.

(** C2.  With the LFU partition already at capacity 0 and key 2 in the
  ghost list of the LRU partition, [put(2,"e")] hits that ghost list:
  [ArcLfuPart::decreaseCapacity] answers [true] at capacity 0, so the LRU
  partition grows from 2 to 3 while the LFU partition stays at 0. *)
Theorem arc_growth_without_shrink :
(c ← arc_lfu_drained;
 c' ← Arc.put 2 "e" c;
 Some (bool_decide (is_Some (ArcLru.ghostCache_ (Arc.lruPart_ c) !! 2)),
       arc_capacities c, arc_capacities c'))
  = Some (true, (2, 0), (3, 0)).
Proof. vm_compute; reflexivity. Qed.

(** C5.  Key 2 is the least recent entry of the full LRU partition and is
  also in the ghost list of the LFU partition.  [put(2,"y")] hits the LFU
  ghost list, [ArcLruPart::decreaseCapacity] evicts key 2 itself into the
  LRU ghost list, and the write that follows puts key 2 back into the LRU
  main cache: afterwards key 2 is in the main cache and in the ghost
  cache of the LRU partition. *)
Theorem arc_key_in_main_and_own_ghost :
(c ← arc_before_reput;
 c' ← Arc.put 2 "y" c;
 Some (bool_decide (is_Some (ArcLru.mainCache_ (Arc.lruPart_ c) !! 2)),
       bool_decide (is_Some (ArcLru.ghostCache_ (Arc.lruPart_ c) !! 2)),
       bool_decide (is_Some (ArcLfu.ghostCache_ (Arc.lfuPart_ c) !! 2)),
       bool_decide (is_Some (ArcLru.mainCache_ (Arc.lruPart_ c') !! 2)),
       bool_decide (is_Some (ArcLru.ghostCache_ (Arc.lruPart_ c') !! 2))))
  = Some (true, false, true, true, true).
Proof. vm_compute; reflexivity. Qed.

(** C10, the claim as stated fails.  In the [ArcCache], key 1 is in
  neither main cache but in the ghost list of the LRU partition:
  [get(1)] reports a miss, yet it removes the ghost entry, takes the LFU
  partition from capacity 1 to 0 and the LRU partition from 1 to 2.  In
  a fresh [LruKCache], [get(1)] returns the empty value of a miss and
  records key 1 in the history store. *)
Lemma get_miss_mutates :
(c ← arc_ghosted;
 '(r, c') ← Arc.get 1 c;
 Some (ArcLru.inLruMainCache 1 (Arc.lruPart_ c),
       ArcLfu.inLfuMainCache 1 (Arc.lfuPart_ c),
       r,
       bool_decide (is_Some (ArcLru.ghostCache_ (Arc.lruPart_ c) !! 1)),
       bool_decide (is_Some (ArcLru.ghostCache_ (Arc.lruPart_ c') !! 1)),
       arc_capacities c, arc_capacities c'))
  = Some (false, false, None, true, false, (1, 1), (2, 0))
∧ (let c := LruK.new (Key := Z) 0 2 2 3 in
   '(v, c') ← LruK.get 1 c;
   Some (LruK.promoted 1 c, v,
         zsize (Lru.nodeMap_ (LruK.historyList_ c)),
         zsize (Lru.nodeMap_ (LruK.historyList_ c'))))
  = Some (false, "", 0, 1).
Proof. split; vm_compute; reflexivity. Qed.

End ArcExamples.

Section ArcProps.
Context `{Countable Key} {Value : Type}.
Variables (Key0 : Key) (Value0 : Value) (Hash : Key → Z).
Implicit Types c : Arc.ArcCache (Key := Key) (Value := Value).

(** The two [decreaseCapacity] differ at capacity 0. *)
Lemma arclru_decreaseCapacity_at_zero
    (p : ArcLru.ArcLruPart (Key := Key) (Value := Value)) :
  ArcLru.capacity_ p = 0 → ArcLru.decreaseCapacity p = Some (false, p).
Proof. intros Hc. unfold ArcLru.decreaseCapacity. by rewrite decide_True by lia. Qed.

Lemma arclfu_decreaseCapacity_at_zero
    (p : ArcLfu.ArcLfuPart (Key := Key) (Value := Value)) :
  ArcLfu.capacity_ p = 0 → ArcLfu.decreaseCapacity p = Some (true, p).
Proof. intros Hc. unfold ArcLfu.decreaseCapacity. by rewrite decide_True by lia. Qed.

(** A hit on the LRU ghost list while the LFU partition is at capacity 0
    grows the LRU partition and leaves the LFU partition at 0. *)
Lemma arc_lru_ghost_hit_at_lfu_zero key c
    (lru1 : ArcLru.ArcLruPart (Key := Key) (Value := Value)) :
  ArcLru.checkGhost key (Arc.lruPart_ c) = Some (true, lru1) →
  ArcLfu.capacity_ (Arc.lfuPart_ c) = 0 →
  Arc.checkGhostCaches key c
  = Some (true, Arc.mkCache (Arc.capacity_ c) (Arc.transformThreshold_ c)
                  (ArcLru.increaseCapacity lru1) (Arc.lfuPart_ c)).
Proof.
  intros Hg Hz. unfold Arc.checkGhostCaches. rewrite Hg. sb.
  by rewrite arclfu_decreaseCapacity_at_zero.
Qed.

Lemma arc_checkGhostCaches_absent key c :
  ArcLru.ghostCache_ (Arc.lruPart_ c) !! key = None →
  ArcLfu.ghostCache_ (Arc.lfuPart_ c) !! key = None →
  Arc.checkGhostCaches key c = Some (false, c).
Proof.
  intros H1 H2.
  unfold Arc.checkGhostCaches, ArcLru.checkGhost, ArcLfu.checkGhost.
  rewrite H1, H2. by destruct c.
Qed.

Lemma arc_checkGhostCaches_hit key c g c1 :
  is_Some (ArcLru.ghostCache_ (Arc.lruPart_ c) !! key)
  ∨ is_Some (ArcLfu.ghostCache_ (Arc.lfuPart_ c) !! key) →
  Arc.checkGhostCaches key c = Some (g, c1) → g = true.
Proof.
  intros Hg.
  unfold Arc.checkGhostCaches, ArcLru.checkGhost, ArcLfu.checkGhost.
  destruct (ArcLru.ghostCache_ (Arc.lruPart_ c) !! key) as [p|] eqn:E1.
  - destruct (ArcLru.removeFromGhost (Some p) (Arc.lruPart_ c)); sb; [|done].
    destruct (ArcLfu.decreaseCapacity (Arc.lfuPart_ c)) as [[ok l]|]; sb;
      [|done].
    by intros [= <- _].
  - destruct Hg as [[? ?]|[q Hq]]; [done|]. rewrite Hq. sb.
    destruct (ArcLfu.removeFromGhost (Some q) (Arc.lfuPart_ c)); sb; [|done].
    destruct (ArcLru.decreaseCapacity (Arc.lruPart_ c)) as [[ok l]|]; sb;
      [|done].
    by intros [= <- _].
Qed.

Lemma arc_get_absent key c :
  ArcLru.mainCache_ (Arc.lruPart_ c) !! key = None →
  ArcLfu.mainCache_ (Arc.lfuPart_ c) !! key = None →
  ArcLru.ghostCache_ (Arc.lruPart_ c) !! key = None →
  ArcLfu.ghostCache_ (Arc.lfuPart_ c) !! key = None →
  Arc.get key c = Some (None, c).
Proof.
  intros H3 H4 H1 H2. unfold Arc.get.
  rewrite arc_checkGhostCaches_absent by done. sb.
  unfold ArcLru.get, ArcLfu.get. rewrite H3. sb. rewrite H4.
  by destruct c.
Qed.

(** An update of a resident entry of the LFU partition. *)
Lemma arclfu_put_resident key value
    (part : ArcLfu.ArcLfuPart (Key := Key) (Value := Value)) p n :
  ArcLfu.capacity_ part ≠ 0 →
  ArcLfu.mainCache_ part !! key = Some p →
  ArcLfu.nodes part !! p = Some n →
  ∃ part', ArcLfu.put key value part = Some (true, part')
    ∧ ArcLfu.mainCache_ part' !! key = Some p
    ∧ ArcLfu.nodes part' !! p
      = Some (ArcNode.mkNode (ArcNode.key_ n) value
                (u64 (ArcNode.accessCount_ n + 1))
                (ArcNode.prev_ n) (ArcNode.next_ n)).
Proof.
  intros Hc Hk Hn. unfold ArcLfu.put. rewrite decide_False by done.
  rewrite Hk.
  unfold ArcLfu.updateExistingNode, ArcNode.store. rewrite Hn. sb.
  unfold ArcLfu.updateNodeFrequency, ArcNode.store.
  assert (p < length (ArcLfu.nodes part))%nat as Hlt by (by eapply lookup_lt_Some).
  cbn [ArcLfu.nodes ArcLfu.with_nodes].
  rewrite list_lookup_insert_eq by done. sb.
  rewrite list_lookup_insert_eq by (by rewrite length_insert). sb.
  eexists. split; [reflexivity|]. split.
  - by case_decide; [case_decide|].
  - cbn. rewrite list_lookup_insert_eq by (by rewrite length_insert). done.
Qed.

(** C10, as amended.  For [LruCache], [LfuCache], [HashLruCaches] and
    for an [ArcCache] in which the key is in neither ghost list, any
    number of [get] calls for a key that is not stored all report a miss
    and leave the whole state of the cache as it was. *)
Theorem get_of_absent_key_changes_nothing (key : Key) (n : nat) :
  (∀ c : Lru.LruCache (Key := Key) (Value := Value),
     Lru.nodeMap_ c !! key = None →
     repeat_get (Lru.get key) n c = Some (true, c))
  ∧ (∀ c : Lfu.LfuCache (Key := Key) (Value := Value),
     Lfu.nodeMap_ c !! key = None →
     repeat_get (Lfu.get Key0 Value0 key) n c = Some (true, c))
  ∧ (∀ (c : HashLru.HashLruCaches (Key := Key) (Value := Value)) i s,
     HashLru.sliceIndex Hash key c = Some i →
     at_index (HashLru.lruSliceCaches_ c) i = Some s →
     Lru.nodeMap_ s !! key = None →
     repeat_get (HashLru.get Hash key) n c = Some (true, c))
  ∧ (∀ c : Arc.ArcCache (Key := Key) (Value := Value),
     ArcLru.mainCache_ (Arc.lruPart_ c) !! key = None →
     ArcLfu.mainCache_ (Arc.lfuPart_ c) !! key = None →
     ArcLru.ghostCache_ (Arc.lruPart_ c) !! key = None →
     ArcLfu.ghostCache_ (Arc.lfuPart_ c) !! key = None →
     repeat_get (Arc.get key) n c = Some (true, c)).
Proof.
  repeat split; intros; apply repeat_get_fixpoint.
  - by apply lru_get_absent.
  - by apply lfu_get_absent.
  - by eapply hashlru_get_absent.
  - by apply arc_get_absent.
Qed.
End ArcProps.

Section ArcInstances.
Open Scope string_scope.

Lemma get_of_absent_key_changes_nothing_witness :
repeat_get (Lru.get 9) 3 (final (Lru.new 0 "" 2) lru_three_puts)
  = Some (true, final (Lru.new 0 "" 2) lru_three_puts)
∧ repeat_get (Lfu.get 0 "" 9) 3
    (final (Lfu.new 2 10) (Lfu.put 0 "" 1 "a" (Lfu.new 2 10)))
  = Some (true, final (Lfu.new 2 10) (Lfu.put 0 "" 1 "a" (Lfu.new 2 10)))
∧ repeat_get (HashLru.get id 9) 3
    (final (HashLru.new 0 "" 8 4 2) (HashLru.put id 1 "a" (HashLru.new 0 "" 8 4 2)))
  = Some (true, final (HashLru.new 0 "" 8 4 2)
                  (HashLru.put id 1 "a" (HashLru.new 0 "" 8 4 2)))
∧ repeat_get (Arc.get 9) 3 (final (Arc.new 0 "" 2 2) arc_before_reput)
  = Some (true, final (Arc.new 0 "" 2 2) arc_before_reput).
Proof.
destruct (get_of_absent_key_changes_nothing 0 "" id 9 3)
  as (Hlru & Hlfu & Hhash & Harc).
split; [|split; [|split]].
- apply Hlru. vm_compute; reflexivity.
- apply Hlfu. vm_compute; reflexivity.
- eapply Hhash; vm_compute; reflexivity.
- apply Harc; vm_compute; reflexivity.
Defined.

End ArcInstances.

(** ** LruCache: what a caller observes *)

Section LruUser.
Context `{Countable Key} {Value : Type}.
Variables (Key0 : Key) (Value0 : Value).
Implicit Types c : Lru.LruCache (Key := Key) (Value := Value).
Implicit Types ops : list (lru_op Key Value).

(** A cache reached from a fresh one has well-formed nodes and the
    capacity it was built with. *)
Lemma lru_reach_wf capacity ops c :
  - 2 ^ 31 ≤ capacity < 2 ^ 31 →
  run (lru_step <$> ops) (Lru.new Key0 Value0 capacity) = Some c →
  LruModel.wf c ∧ Lru.capacity_ c = capacity.
Proof.
  intros Hc Hr.
  destruct (lru_new_wf Key0 Value0 capacity Hc) as [Hwf0 _].
  assert (∀ l c0 c1, LruModel.wf c0 →
            run (lru_step <$> l) c0 = Some c1 →
            LruModel.wf c1 ∧ Lru.capacity_ c1 = Lru.capacity_ c0) as Hgen.
  { induction l as [|o l IH]; intros c0 c1 Hwf.
    - by intros [= <-].
    - rewrite fmap_cons, run_cons.
      destruct o as [k v|k|k]; cbn [lru_step]; unfold call.
      + destruct (lru_put_refines c0 k v Hwf) as (c2 & -> & Hwf2 & Ha). sb.
        intros Hr2. destruct (IH _ _ Hwf2 Hr2) as [? ->]. split; [done|].
        apply (f_equal LruModel.cap) in Ha.
        cbn [LruModel.abs LruModel.cap] in Ha. rewrite Ha.
        unfold LruModel.put. cbn [LruModel.cap]. by repeat case_decide.
      + destruct (lru_get_refines c0 k Hwf) as (r & c2 & -> & Hwf2 & Ha).
        cbn [fmap option_fmap option_map snd]. sb.
        intros Hr2. destruct (IH _ _ Hwf2 Hr2) as [? ->]. split; [done|].
        apply (f_equal (λ x, LruModel.cap x.2)) in Ha.
        cbn [LruModel.abs LruModel.cap snd] in Ha. rewrite Ha.
        unfold LruModel.get. by destruct (_ !! k).
      + destruct (lru_remove_refines c0 k Hwf) as (c2 & -> & Hwf2 & Ha). sb.
        intros Hr2. destruct (IH _ _ Hwf2 Hr2) as [? ->]. split; [done|].
        apply (f_equal LruModel.cap) in Ha.
        cbn [LruModel.abs LruModel.cap] in Ha. rewrite Ha.
        unfold LruModel.remove. by destruct (_ !! k). }
  by destruct (Hgen _ _ _ Hwf0 Hr).
Qed.

(** What [put] leaves in the content, read off the model. *)
Lemma lru_model_put_content (a : LruModel.state (Key := Key) (Value := Value))
    k v :
  0 < LruModel.cap a →
  LruModel.content (LruModel.put k v a)
  = <[k := v]>
      (if decide (is_Some (LruModel.content a !! k)) then LruModel.content a
       else if decide (LruModel.cap a ≤ zsize (LruModel.content a))
         then from_option (λ j, delete j (LruModel.content a))
                          (LruModel.content a) (LruModel.linked a)
         else LruModel.content a)
  ∧ LruModel.linked (LruModel.put k v a) = Some k.
Proof.
  intros Hc. unfold LruModel.put. rewrite decide_False by lia.
  by repeat case_decide.
Qed.

(** X2.  [put(key, value)] followed by [get(key)] returns [value], in every
    cache of positive capacity reached by [put], [get] and [remove]. *)
Theorem lru_put_then_get capacity ops c key value :
  0 < capacity < 2 ^ 31 →
  run (lru_step <$> ops) (Lru.new Key0 Value0 capacity) = Some c →
  ∃ c' c'', Lru.put key value c = Some c'
    ∧ Lru.get key c' = Some (Some value, c'').
Proof.
  intros Hc Hr. destruct (lru_reach_wf capacity ops c) as [Hwf Hcap]; [lia|done|].
  destruct (lru_put_refines c key value Hwf) as (c' & Hp & Hwf' & Ha).
  destruct (lru_get_refines c' key Hwf') as (r & c'' & Hg & _ & Hg').
  exists c', c''. split; [done|]. rewrite Hg. do 2 f_equal.
  rewrite Ha in Hg'. unfold LruModel.get in Hg'.
  destruct (lru_model_put_content (LruModel.abs c) key value) as [Hcont _].
  { cbn. lia. }
  rewrite Hcont, lookup_insert_eq in Hg'. by injection Hg' as ->.
Qed.

(** X3.  [get] returns what the content holds for the key and leaves the
    content as it was. *)
Theorem lru_get_reads_content capacity ops c key :
  - 2 ^ 31 ≤ capacity < 2 ^ 31 →
  run (lru_step <$> ops) (Lru.new Key0 Value0 capacity) = Some c →
  ∃ c', Lru.get key c = Some (LruModel.view c !! key, c')
    ∧ LruModel.view c' = LruModel.view c
    ∧ zsize (Lru.nodeMap_ c') = zsize (Lru.nodeMap_ c).
Proof.
  intros Hc Hr. destruct (lru_reach_wf capacity ops c) as [Hwf Hcap]; [done..|].
  destruct (lru_get_refines c key Hwf) as (r & c' & Hg & Hwf' & Hg').
  exists c'. unfold LruModel.get in Hg'. cbn [LruModel.abs LruModel.content] in Hg'.
  rewrite <- !view_size by done.
  destruct (LruModel.view c !! key) as [v|] eqn:Hv;
    injection Hg' as -> _ Hview _; by rewrite Hg, Hview.
Qed.

(** X4.  A [put] of a resident key, or into a cache that is not full, keeps
    every other entry. *)
Theorem lru_put_without_eviction capacity ops c key value :
  0 < capacity < 2 ^ 31 →
  run (lru_step <$> ops) (Lru.new Key0 Value0 capacity) = Some c →
  is_Some (Lru.nodeMap_ c !! key) ∨ zsize (Lru.nodeMap_ c) < capacity →
  ∃ c', Lru.put key value c = Some c'
    ∧ LruModel.view c' = <[key := value]> (LruModel.view c).
Proof.
  intros Hc Hr Hcase.
  destruct (lru_reach_wf capacity ops c) as [Hwf Hcap]; [lia|done|].
  destruct (lru_put_refines c key value Hwf) as (c' & Hp & Hwf' & Ha).
  exists c'. split; [done|].
  apply (f_equal LruModel.content) in Ha. cbn [LruModel.abs LruModel.content] in Ha.
  rewrite Ha.
  destruct (lru_model_put_content (LruModel.abs c) key value) as [-> _].
  { cbn. lia. }
  cbn [LruModel.abs LruModel.content LruModel.cap LruModel.linked].
  case_decide as Hres; [done|].
  rewrite decide_False; [done|].
  destruct Hcase as [Hin|Hlt]; [by rewrite view_is_Some in Hres|].
  rewrite view_size by done. lia.
Qed.

(** X5.  The entry a full cache evicts is the one touched last: after
    [put(j, w)], the [put] of a new key into the full cache removes
    exactly [j] and keeps every other entry. *)
Theorem lru_full_put_evicts_last_put capacity ops c j w key value :
  0 < capacity < 2 ^ 31 →
  run (lru_step <$> (ops ++ [LruPut j w])) (Lru.new Key0 Value0 capacity)
    = Some c →
  zsize (Lru.nodeMap_ c) = capacity →
  Lru.nodeMap_ c !! key = None →
  ∃ c', Lru.put key value c = Some c'
    ∧ LruModel.view c' = <[key := value]> (delete j (LruModel.view c))
    ∧ LruModel.view c !! j = Some w
    ∧ zsize (Lru.nodeMap_ c') = capacity.
Proof.
  intros Hc Hr Hfull Hnew.
  destruct (lru_reach_wf capacity (ops ++ [LruPut j w]) c) as [Hwf Hcap];
    [lia|done|].
  rewrite fmap_app in Hr. unfold run in Hr. rewrite foldl_app in Hr.
  cbn [fmap list_fmap foldl] in Hr.
  destruct (foldl (λ acc op, acc ≫= op) (Some (Lru.new Key0 Value0 capacity))
              (lru_step <$> ops)) as [c0|] eqn:Hr0; [|done].
  cbn [mbind option_bind lru_step] in Hr.
  destruct (lru_reach_wf capacity ops c0) as [Hwf0 Hcap0]; [lia|done|].
  destruct (lru_put_refines c0 j w Hwf0) as (c1 & Hp1 & _ & Ha1).
  rewrite Hp1 in Hr. injection Hr as ->.
  destruct (lru_model_put_content (LruModel.abs c0) j w) as [Hcont1 Hlink1].
  { cbn. lia. }
  rewrite <- Ha1 in Hcont1, Hlink1.
  cbn [LruModel.abs LruModel.content LruModel.linked] in Hcont1, Hlink1.
  destruct (lru_put_refines c key value Hwf) as (c' & Hp & Hwf' & Ha).
  exists c'. split; [done|].
  destruct (lru_model_put_content (LruModel.abs c) key value) as [Hcont _].
  { cbn. lia. }
  rewrite <- Ha in Hcont.
  cbn [LruModel.abs LruModel.content LruModel.cap LruModel.linked] in Hcont.
  rewrite decide_False in Hcont
    by (rewrite view_is_Some by done; rewrite Hnew; by intros [? ?]).
  rewrite decide_True in Hcont by (rewrite view_size by done; lia).
  rewrite Hlink1 in Hcont. cbn [from_option] in Hcont.
  split; [done|]. split; [by rewrite Hcont1, lookup_insert_eq|].
  rewrite <- view_size, Hcont by done. unfold zsize.
  assert (is_Some (LruModel.view c !! j)) as Hj
    by (rewrite Hcont1, lookup_insert_eq; by eexists).
  assert (j ≠ key) as Hne.
  { intros ->. apply view_is_Some in Hj; [|done]. rewrite Hnew in Hj.
    by destruct Hj. }
  rewrite map_size_insert_None by (rewrite lookup_delete_ne by done;
    apply eq_None_not_Some; rewrite view_is_Some by done; rewrite Hnew;
    by intros [? ?]).
  rewrite map_size_delete_Some by done.
  rewrite <- view_size in Hfull by done. unfold zsize in Hfull.
  assert (size (LruModel.view c) ≠ 0%nat); [|lia].
  apply map_size_non_empty_iff. intros Hm. rewrite Hm, lookup_empty in Hj.
  by destruct Hj.
Qed.

(** X6.  [remove(key)] deletes the entry of [key] and nothing else. *)
Theorem lru_remove_deletes capacity ops c key :
  - 2 ^ 31 ≤ capacity < 2 ^ 31 →
  run (lru_step <$> ops) (Lru.new Key0 Value0 capacity) = Some c →
  ∃ c', Lru.remove key c = Some c'
    ∧ LruModel.view c' = delete key (LruModel.view c)
    ∧ Lru.get key c' = Some (None, c').
Proof.
  intros Hc Hr. destruct (lru_reach_wf capacity ops c) as [Hwf Hcap]; [done..|].
  destruct (lru_remove_refines c key Hwf) as (c' & Hp & Hwf' & Ha).
  exists c'. split; [done|].
  assert (LruModel.view c' = delete key (LruModel.view c)) as Hv.
  { apply (f_equal LruModel.content) in Ha.
    cbn [LruModel.abs LruModel.content] in Ha. rewrite Ha.
    unfold LruModel.remove. cbn [LruModel.abs LruModel.content].
    destruct (LruModel.view c !! key) eqn:Hk; [done|].
    cbn [LruModel.content]. by rewrite delete_id. }
  split; [done|]. unfold Lru.get.
  assert (Lru.nodeMap_ c' !! key = None) as ->; [|done].
  apply eq_None_not_Some. rewrite <- view_is_Some by done.
  rewrite Hv, lookup_delete_eq. by intros [? ?].
Qed.

(** X7.  With a capacity of 0 or less nothing is ever stored: every sequence
    of calls leaves the cache as it was constructed. *)
Theorem lru_nonpositive_capacity_stays_empty capacity ops :
  capacity ≤ 0 →
  run (lru_step <$> ops) (Lru.new Key0 Value0 capacity)
  = Some (Lru.new Key0 Value0 capacity).
Proof.
  intros Hc. induction ops as [|o ops IH]; [done|].
  rewrite fmap_cons, run_cons.
  assert (lru_step o (Lru.new Key0 Value0 capacity)
          = Some (Lru.new Key0 Value0 capacity)) as ->; [|done].
  destruct o as [k v|k|k]; cbn [lru_step]; unfold call.
  - unfold Lru.put. by rewrite decide_True by (cbn; lia).
  - unfold Lru.get. cbn [Lru.nodeMap_ Lru.new Lru.initializeList].
    by rewrite lookup_empty.
  - unfold Lru.remove. cbn [Lru.nodeMap_ Lru.new Lru.initializeList].
    by rewrite lookup_empty.
Qed.
End LruUser.

(** ** LruCache: facts shared by the caches built on it *)

Section LruFacts.
Context `{Countable Key} {Value : Type}.
Implicit Types s : Lru.LruCache (Key := Key) (Value := Value).
Implicit Types a : LruModel.state (Key := Key) (Value := Value).
Implicit Types key : Key.
Implicit Types value : Value.

Lemma lru_model_put_values a key value j x :
  LruModel.content (LruModel.put key value a) !! j = Some x →
  (j = key ∧ x = value) ∨ LruModel.content a !! j = Some x.
Proof.
  unfold LruModel.put.
  repeat case_decide; cbn [LruModel.content]; try (by right);
    (destruct (decide (j = key)) as [->|Hne];
     [rewrite lookup_insert_eq; intros [= <-]; by left
     |rewrite lookup_insert_ne by done; intros Hj; right]); try done.
  destruct (LruModel.linked a) as [l|]; cbn [from_option] in Hj; [|done].
  by apply lookup_delete_Some in Hj as [_ ?].
Qed.

Lemma lru_model_remove_values a key j x :
  LruModel.content (LruModel.remove key a) !! j = Some x →
  LruModel.content a !! j = Some x.
Proof.
  unfold LruModel.remove. destruct (LruModel.content a !! key); [|done].
  cbn [LruModel.content]. by intros [_ ?]%lookup_delete_Some.
Qed.

Lemma lru_model_remove_cap a key :
  LruModel.cap (LruModel.remove key a) = LruModel.cap a.
Proof. unfold LruModel.remove. by destruct (LruModel.content a !! key). Qed.

Lemma lru_model_get_snd a key :
  LruModel.cap (LruModel.get key a).2 = LruModel.cap a
  ∧ LruModel.content (LruModel.get key a).2 = LruModel.content a
  ∧ (LruModel.get key a).1 = LruModel.content a !! key.
Proof. unfold LruModel.get. by destruct (LruModel.content a !! key). Qed.

Lemma lru_model_put_cap a key value :
  LruModel.cap (LruModel.put key value a) = LruModel.cap a.
Proof. unfold LruModel.put. by repeat case_decide. Qed.

Lemma lru_model_put_keys a key value j :
  is_Some (LruModel.content (LruModel.put key value a) !! j) →
  j = key ∨ is_Some (LruModel.content a !! j).
Proof.
  intros Hj. destruct (decide (j = key)) as [->|Hne]; [by left|]. right.
  revert Hj. unfold LruModel.put.
  repeat case_decide; cbn [LruModel.content]; try done;
    rewrite lookup_insert_ne by done; try done.
  destruct (LruModel.linked a) as [l|]; cbn [from_option]; [|done].
  destruct (decide (l = j)) as [->|Hlj].
  - rewrite lookup_delete_eq. by intros [? ?].
  - by rewrite lookup_delete_ne.
Qed.

Lemma lru_put_keeps s key value :
  LruModel.wf s →
  ∃ s', Lru.put key value s = Some s' ∧ LruModel.wf s'
    ∧ Lru.capacity_ s' = Lru.capacity_ s
    ∧ (∀ j, is_Some (Lru.nodeMap_ s' !! j) →
            j = key ∨ is_Some (Lru.nodeMap_ s !! j))
    ∧ (0 < Lru.capacity_ s → LruModel.view s' !! key = Some value).
Proof.
  intros Hwf.
  destruct (lru_put_refines s key value Hwf) as (s' & Hp & Hwf' & Ha).
  exists s'. split; [done|]. split; [done|].
  assert (Lru.capacity_ s' = Lru.capacity_ s) as Hcap.
  { change (LruModel.cap (LruModel.abs s') = LruModel.cap (LruModel.abs s)).
    by rewrite Ha, lru_model_put_cap. }
  split; [done|]. split.
  - intros j Hj. apply (view_is_Some s' j Hwf') in Hj.
    change (is_Some (LruModel.content (LruModel.abs s') !! j)) in Hj.
    rewrite Ha in Hj. apply lru_model_put_keys in Hj as [->|Hj]; [by left|].
    right. by apply (view_is_Some s j Hwf).
  - intros Hpos.
    change (LruModel.content (LruModel.abs s') !! key = Some value).
    rewrite Ha.
    destruct (lru_model_put_content (LruModel.abs s) key value Hpos)
      as [-> _].
    apply lookup_insert_eq.
Qed.

Lemma lru_get_keeps s key :
  LruModel.wf s →
  ∃ r s', Lru.get key s = Some (r, s') ∧ LruModel.wf s'
    ∧ Lru.capacity_ s' = Lru.capacity_ s
    ∧ LruModel.view s' = LruModel.view s
    ∧ r = LruModel.view s !! key.
Proof.
  intros Hwf.
  destruct (lru_get_refines s key Hwf) as (r & s' & Hg & Hwf' & Ha).
  exists r, s'. split; [done|]. split; [done|].
  unfold LruModel.get in Ha. cbn [LruModel.abs LruModel.content] in Ha.
  destruct (LruModel.view s !! key) as [v|] eqn:Hv.
  - by injection Ha as -> -> -> _.
  - injection Ha as -> -> -> _. done.
Qed.
End LruFacts.

(** ** LruKCache: any threshold K *)

Section LruKUser.
Context `{Countable Key}.
Variable Key0 : Key.
Implicit Types c : LruK.LruKCache (Key := Key).
Implicit Types key : Key.
Open Scope string_scope.

Lemma lruk_new_wf_any capacity historyCapacity K :
  - 2 ^ 31 ≤ capacity < 2 ^ 31 → - 2 ^ 31 ≤ historyCapacity < 2 ^ 31 →
  LruKModel.wf (LruK.new Key0 capacity historyCapacity K)
  ∧ LruKModel.abs (LruK.new Key0 capacity historyCapacity K)
    = lruk_counting capacity historyCapacity K Key0 0.
Proof.
  intros Hc Hh.
  destruct (lru_new_wf Key0 "" capacity Hc) as [Hw1 Ha1].
  destruct (lru_new_wf Key0 0%Z historyCapacity Hh) as [Hw2 Ha2].
  split; [by split|]. unfold LruKModel.abs, lruk_counting.
  cbn [LruK.new LruK.base LruK.historyList_ LruK.k_].
  by rewrite Ha1, Ha2.
Qed.

Lemma lruk_model_touch capacity historyCapacity key (n : nat) :
  0 < historyCapacity → Z.of_nat n < 2 ^ 31 - 1 →
  LruKModel.touchHistory key
    (LruKModel.history (lruk_counting capacity historyCapacity 0 key n))
  = Some (Z.of_nat (S n),
          LruModel.mkState historyCapacity {[key := Z.of_nat (S n)]}
                           (Some key)).
Proof.
  intros Hh Hn. unfold lruk_counting. cbn [LruKModel.history].
  destruct n as [|n].
  - by rewrite model_touch_fresh.
  - rewrite model_touch_counted by lia.
    by replace (Z.of_nat (S n) + 1) with (Z.of_nat (S (S n))) by lia.
Qed.

Lemma lruk_model_access capacity historyCapacity K key a (n : nat) :
  0 < historyCapacity → K < 2 ^ 31 → Z.of_nat (S n) < K →
  LruKModel.do_access key a (lruk_counting capacity historyCapacity K key n)
  = Some (lruk_counting capacity historyCapacity K key (S n)).
Proof.
  intros Hh HK Hn.
  pose proof (lruk_model_touch capacity historyCapacity key n Hh) as Ht.
  unfold lruk_counting in *. cbn [LruKModel.history] in Ht.
  destruct a as [|v];
    unfold LruKModel.do_access, LruKModel.get, LruKModel.put;
    cbn [LruKModel.history LruKModel.store LruKModel.k];
    rewrite Ht by lia; unfold LruModel.get;
    cbn [LruModel.content]; rewrite lookup_empty; sb;
    cbn [default from_option id]; [done|].
  rewrite (decide_False (P := "" ≠ "")) by (intros Hne; by apply Hne).
  by rewrite decide_False by lia.
Qed.

Lemma lruk_model_put_admits capacity historyCapacity K key value (n : nat) :
  0 < capacity → 0 < historyCapacity → K < 2 ^ 31 → Z.of_nat (S n) = K →
  LruKModel.put key value (lruk_counting capacity historyCapacity K key n)
  = Some (lruk_admitted capacity historyCapacity K key value 0).
Proof.
  intros Hc Hh HK Hn.
  pose proof (lruk_model_touch capacity historyCapacity key n Hh) as Ht.
  unfold lruk_counting, lruk_admitted in *. cbn [LruKModel.history] in Ht.
  unfold LruKModel.put. cbn [LruKModel.history LruKModel.store LruKModel.k].
  rewrite Ht by lia. unfold LruModel.get at 1.
  cbn [LruModel.content]. rewrite lookup_empty. sb.
  cbn [default from_option id].
  rewrite (decide_False (P := "" ≠ "")) by (intros Hne; by apply Hne).
  rewrite decide_True by lia. do 2 f_equal.
  - unfold LruModel.put. cbn [LruModel.content LruModel.cap LruModel.linked].
    rewrite decide_False by lia. rewrite lookup_empty.
    rewrite decide_False by (by intros [? ?]).
    unfold zsize. rewrite map_size_empty. rewrite decide_False by lia.
    by rewrite insert_empty.
  - unfold LruModel.remove. cbn [LruModel.content LruModel.cap LruModel.linked].
    rewrite lookup_singleton_eq. by rewrite delete_singleton_eq.
Qed.

Lemma lruk_model_get_admitted capacity historyCapacity K key value :
  0 < historyCapacity →
  LruKModel.get key (lruk_admitted capacity historyCapacity K key value 0)
  = Some (value, lruk_admitted capacity historyCapacity K key value 1).
Proof.
  intros Hh. unfold LruKModel.get, lruk_admitted.
  cbn [LruKModel.history LruKModel.store LruKModel.k].
  rewrite model_touch_fresh by done. sb. unfold LruModel.get.
  cbn [LruModel.content LruModel.cap LruModel.linked].
  by rewrite lookup_singleton_eq.
Qed.

Lemma lruk_run_counting capacity historyCapacity K key
    (accs : list LruK.access) c (n : nat) :
  0 < historyCapacity → K < 2 ^ 31 →
  Z.of_nat (n + length accs) < K →
  LruKModel.wf c →
  LruKModel.abs c = lruk_counting capacity historyCapacity K key n →
  ∃ c', run (LruK.do_access key <$> accs) c = Some c'
    ∧ LruKModel.wf c'
    ∧ LruKModel.abs c'
      = lruk_counting capacity historyCapacity K key (n + length accs).
Proof.
  intros Hh HK. revert c n.
  induction accs as [|a accs IH]; intros c n Hn Hwf Ha.
  - exists c. by rewrite Nat.add_0_r.
  - rewrite fmap_cons, run_cons. cbn [length] in Hn.
    pose proof (lruk_model_access capacity historyCapacity K key a n Hh HK
                  ltac:(lia)) as E.
    rewrite <- Ha in E.
    destruct (lruk_access_refines key a c _ Hwf E) as (c1 & -> & Hwf1 & Ha1).
    sb. destruct (IH c1 (S n)) as (c' & Hr & Hwf' & Ha'); [lia|done..|].
    exists c'. split; [done|]. split; [done|].
    rewrite Ha'. f_equal. cbn [length]. lia.
Qed.

(** X8.  For every threshold K ≥ 1, a key of a fresh [LruKCache] that was
    accessed fewer than K times, by [get] or [put] in any mix, is absent
    from the promotion store; when K - 1 accesses were made, the next
    [put] admits the key and [get] then returns the value of that
    [put]. *)
Theorem lruk_kth_put_admits capacity historyCapacity K key
    (accs : list LruK.access) value :
  0 < capacity < 2 ^ 31 → 0 < historyCapacity < 2 ^ 31 →
  1 ≤ K < 2 ^ 31 → Z.of_nat (length accs) < K →
  ∃ c, run (LruK.do_access key <$> accs)
           (LruK.new Key0 capacity historyCapacity K) = Some c
    ∧ LruK.promoted key c = false
    ∧ (Z.of_nat (length accs) = K - 1 →
       ∃ c', LruK.put key value c = Some c'
         ∧ LruK.promoted key c' = true
         ∧ fst <$> LruK.get key c' = Some value).
Proof.
  intros Hc Hh HK Hlen.
  destruct (lruk_new_wf_any capacity historyCapacity K) as [Hwf0 Ha0]; [lia..|].
  assert (lruk_counting capacity historyCapacity K Key0 0
          = lruk_counting capacity historyCapacity K key 0) as E0 by done.
  rewrite E0 in Ha0.
  destruct (lruk_run_counting capacity historyCapacity K key accs
              (LruK.new Key0 capacity historyCapacity K) 0)
    as (c & Hr & Hwf & Ha); [lia|lia|cbn; lia|done..|].
  cbn [Nat.add] in Ha.
  exists c. split; [done|]. split.
  - rewrite lruk_promoted_abs, Ha by done. cbn. by rewrite lookup_empty.
  - intros Hk.
    pose proof (lruk_model_put_admits capacity historyCapacity K key value
                  (length accs) ltac:(lia) ltac:(lia) ltac:(lia) ltac:(lia))
      as E.
    rewrite <- Ha in E.
    destruct (lruk_put_refines key value _ _ Hwf E) as (c' & Hp & Hwf' & Ha').
    exists c'. split; [done|]. split.
    + rewrite lruk_promoted_abs, Ha' by done. cbn.
      by rewrite lookup_singleton_eq.
    + pose proof (lruk_model_get_admitted capacity historyCapacity K key value
                    ltac:(lia)) as E'.
      rewrite <- Ha' in E'.
      by destruct (lruk_get_refines key _ _ _ Hwf' E') as (c'' & -> & _).
Qed.

(** X9.  With a history store of capacity 0 or less and K ≥ 2, every access
    counts as the first one: no sequence of [get] and [put] calls, on
    whatever keys, ever stores anything. *)
Theorem lruk_without_history_never_admits (capacity historyCapacity K : Z)
    (accs : list (Key * LruK.access)) :
  (historyCapacity ≤ 0)%Z → (2 ≤ K)%Z →
  run (lruk_step <$> accs) (LruK.new Key0 capacity historyCapacity K)
  = Some (LruK.new Key0 capacity historyCapacity K).
Proof.
  intros Hh HK. induction accs as [|[k a] accs IH]; [done|].
  rewrite fmap_cons, run_cons.
  assert (lruk_step (k, a) (LruK.new Key0 capacity historyCapacity K)
          = Some (LruK.new Key0 capacity historyCapacity K)) as ->; [|done].
  assert (LruK.touchHistory k (Lru.new Key0 0%Z historyCapacity)
          = Some (1, Lru.new Key0 0%Z historyCapacity)) as Ht.
  { unfold LruK.touchHistory, Lru.get_value, Lru.get.
    cbn [Lru.nodeMap_ Lru.new Lru.initializeList]. rewrite lookup_empty. sb.
    cbn [default from_option id]. rewrite s32_small, int_ok_small by lia. sb.
    unfold Lru.put. by rewrite decide_True by (cbn; lia). }
  assert (Lru.get_value "" k (Lru.new Key0 "" capacity)
          = Some ("", Lru.new Key0 "" capacity)) as Hb.
  { unfold Lru.get_value, Lru.get.
    cbn [Lru.nodeMap_ Lru.new Lru.initializeList]. by rewrite lookup_empty. }
  unfold lruk_step. cbn [fst snd].
  destruct a as [|v]; cbn [LruK.do_access]; unfold LruK.get, LruK.put, LruK.new;
    cbn [LruK.base LruK.historyList_ LruK.k_]; rewrite Ht, Hb; sb; [done|].
  rewrite (decide_False (P := "" ≠ "")) by (intros Hne; by apply Hne).
  sb. by rewrite decide_False by lia.
Qed.

Lemma lruk_model_touch_counts historyCapacity n key
    (h : LruModel.state (Key := Key) (Value := Z)) :
  (0 ≤ n < 2 ^ 31 - 1)%Z →
  LruModel.cap h = historyCapacity →
  (∀ j x, LruModel.content h !! j = Some x → (0 ≤ x ≤ n)%Z) →
  ∃ cnt h', LruKModel.touchHistory key h = Some (cnt, h')
    ∧ LruModel.cap h' = historyCapacity
    ∧ ∀ j x, LruModel.content h' !! j = Some x → (0 ≤ x ≤ n + 1)%Z.
Proof.
  intros Hn Hcap Hall. unfold LruKModel.touchHistory.
  destruct (lru_model_get_snd h key) as (Hc1 & Hm1 & Hr1).
  destruct (LruModel.get key h) as [r h1]. cbn [fst snd] in *.
  assert (0 ≤ default 0 r ≤ n)%Z as Hr.
  { subst r. destruct (LruModel.content h !! key) as [x|] eqn:E;
      cbn [default from_option id]; [by eapply Hall|lia]. }
  rewrite s32_small, int_ok_small by lia. sb.
  eexists _, _. split; [done|]. split.
  - by rewrite lru_model_put_cap, Hc1.
  - intros j x [[_ ->]|Hj]%lru_model_put_values.
    + rewrite u64_small by lia. lia.
    + rewrite Hm1 in Hj. apply Hall in Hj. lia.
Qed.

Lemma lruk_model_access_counts capacity historyCapacity n key acc
    (a : LruKModel.state (Key := Key)) :
  (0 ≤ n < 2 ^ 31 - 1)%Z →
  lruk_counts_upto capacity historyCapacity n a →
  ∃ a', LruKModel.do_access key acc a = Some a'
    ∧ lruk_counts_upto capacity historyCapacity (n + 1) a'.
Proof.
  intros Hn (Hcs & Hch & Hall).
  destruct (lruk_model_touch_counts historyCapacity n key
              (LruKModel.history a) Hn Hch Hall)
    as (cnt & h' & Ht & Hch' & Hall').
  destruct (lru_model_get_snd (LruKModel.store a) key) as (Hc1 & _ & _).
  destruct acc as [|value]; unfold LruKModel.do_access, LruKModel.get,
    LruKModel.put; rewrite ?Ht; sb;
    destruct (LruModel.get key (LruKModel.store a)) as [r b1];
    cbn [fst snd] in Hc1.
  - eexists. split; [done|]. split; [by rewrite <- Hcs|]. by split.
  - rewrite ?Ht. sb.
    assert (LruModel.cap
              (if decide (default "" r ≠ "")
               then LruModel.put key value b1 else b1) = capacity) as Hb2.
    { case_decide; rewrite ?lru_model_put_cap; congruence. }
    destruct (decide (LruKModel.k a ≤ cnt)%Z); (eexists; split; [done|]);
      (split; [cbn [LruKModel.store]; rewrite ?lru_model_put_cap; done|]);
      (split; [cbn [LruKModel.history]; rewrite ?lru_model_remove_cap; done|]);
      cbn [LruKModel.history]; [|done].
    intros j x Hj%lru_model_remove_values. by eapply Hall'.
Qed.

Lemma lruk_run_counts capacity historyCapacity
    (accs : list (Key * LruK.access)) c (n : nat) :
  (Z.of_nat (n + length accs) < 2 ^ 31)%Z →
  LruKModel.wf c →
  lruk_counts_upto capacity historyCapacity (Z.of_nat n) (LruKModel.abs c) →
  ∃ c', run (lruk_step <$> accs) c = Some c' ∧ LruKModel.wf c'
    ∧ lruk_counts_upto capacity historyCapacity
                       (Z.of_nat (n + length accs)) (LruKModel.abs c').
Proof.
  revert c n. induction accs as [|[key acc] accs IH]; intros c n Hn Hwf Hinv.
  - exists c. by rewrite Nat.add_0_r.
  - rewrite fmap_cons, run_cons. cbn [length] in Hn.
    destruct (lruk_model_access_counts capacity historyCapacity
                (Z.of_nat n) key acc _ ltac:(lia) Hinv) as (a' & E & Hinv').
    destruct (lruk_access_refines key acc c _ Hwf E) as (c1 & Hs & Hwf1 & Ha1).
    change (lruk_step (key, acc) c) with (LruK.do_access key acc c).
    rewrite Hs. sb.
    destruct (IH c1 (S n)) as (c' & Hr & Hwf' & Hinv''); [lia|done|..].
    { rewrite Ha1. by replace (Z.of_nat (S n)) with (Z.of_nat n + 1) by lia. }
    exists c'. split; [done|]. split; [done|].
    by replace (n + length ((key, acc) :: accs))%nat
      with (S n + length accs)%nat by (cbn [length]; lia).
Qed.

(** X10.  Fewer than 2^31 - 1 accesses of an [LruKCache], by [get] and [put]
    on whatever keys, run without undefined behaviour (no access count
    can overflow), and afterwards the promotion store holds at most
    [capacity] entries and the history at most [historyCapacity]. *)
Theorem lruk_sizes_within_capacities (capacity historyCapacity K : Z)
    (accs : list (Key * LruK.access)) :
  (0 ≤ capacity < 2 ^ 31)%Z → (0 ≤ historyCapacity < 2 ^ 31)%Z →
  (Z.of_nat (length accs) < 2 ^ 31)%Z →
  ∃ c, run (lruk_step <$> accs) (LruK.new Key0 capacity historyCapacity K)
       = Some c
    ∧ (zsize (Lru.nodeMap_ (LruK.base c)) ≤ capacity)%Z
    ∧ (zsize (Lru.nodeMap_ (LruK.historyList_ c)) ≤ historyCapacity)%Z.
Proof.
  intros Hc Hh Hlen.
  destruct (lruk_new_wf_any capacity historyCapacity K) as [Hwf0 Ha0]; [lia..|].
  destruct (lruk_run_counts capacity historyCapacity accs
              (LruK.new Key0 capacity historyCapacity K) 0)
    as (c & Hr & [Hwb Hwh] & Hcb & Hch & _); [cbn; lia|done|..].
  { rewrite Ha0. split; [done|]. split; [done|].
    intros j x Hj. cbn in Hj. by rewrite lookup_empty in Hj. }
  exists c. split; [done|]. cbn [LruKModel.abs LruKModel.store
    LruKModel.history LruModel.abs LruModel.cap] in Hcb, Hch.
  split.
  - rewrite <- Hcb. apply lru_wf_size; [done|lia].
  - rewrite <- Hch. apply lru_wf_size; [done|lia].
Qed.

(** X11.  In an [LruKCache] reached by fewer than 2^31 - 2 accesses, a [put]
    on a key of the promotion store whose value is not the empty string
    replaces the value: the [get] that follows returns the new one. *)
Theorem lruk_put_updates_promoted_key (capacity historyCapacity K : Z)
    (accs : list (Key * LruK.access)) c key old value :
  (0 < capacity < 2 ^ 31)%Z → (0 ≤ historyCapacity < 2 ^ 31)%Z →
  (Z.of_nat (length accs) + 2 < 2 ^ 31)%Z →
  run (lruk_step <$> accs) (LruK.new Key0 capacity historyCapacity K)
  = Some c →
  LruModel.view (LruK.base c) !! key = Some old → old ≠ "" →
  ∃ c' c'', LruK.put key value c = Some c'
    ∧ LruK.get key c' = Some (value, c'').
Proof.
  intros Hc Hh Hlen Hr Hold Hne.
  destruct (lruk_new_wf_any capacity historyCapacity K) as [Hwf0 Ha0]; [lia..|].
  destruct (lruk_run_counts capacity historyCapacity accs
              (LruK.new Key0 capacity historyCapacity K) 0)
    as (c0 & Hr0 & Hwf & Hcb & Hch & Hall); [cbn; lia|done|..].
  { rewrite Ha0. split; [done|]. split; [done|].
    intros j x Hj. cbn in Hj. by rewrite lookup_empty in Hj. }
  rewrite Hr in Hr0. injection Hr0 as <-. cbn [Nat.add] in Hall.
  set (n := Z.of_nat (length accs)) in *.
  (* the put, on the model *)
  destruct (lruk_model_touch_counts historyCapacity n key
              (LruKModel.history (LruKModel.abs c)) ltac:(lia) Hch Hall)
    as (cnt & h1 & Ht & Hch1 & Hall1).
  assert (∃ a', LruKModel.put key value (LruKModel.abs c) = Some a'
    ∧ LruModel.content (LruKModel.store a') !! key = Some value
    ∧ ∀ j x, LruModel.content (LruKModel.history a') !! j = Some x →
             (0 ≤ x ≤ n + 1)%Z) as (a' & Hput & Hval & Hall').
  { unfold LruKModel.put.
    destruct (lru_model_get_snd (LruKModel.store (LruKModel.abs c)) key)
      as (Hc1 & Hm1 & Hr1).
    destruct (LruModel.get key (LruKModel.store (LruKModel.abs c)))
      as [r b1]. cbn [fst snd] in Hc1, Hm1, Hr1.
    cbn [LruKModel.abs LruKModel.store LruModel.abs LruModel.content]
      in Hr1. rewrite Hold in Hr1. subst r. cbn [default from_option id].
    rewrite decide_True by done. rewrite Ht. sb.
    set (b2 := LruModel.put key value b1).
    assert (LruModel.cap b2 = capacity
            ∧ LruModel.content b2 !! key = Some value) as [Hb2c Hb2k].
    { unfold b2. rewrite lru_model_put_cap. split; [congruence|].
      destruct (lru_model_put_content b1 key value) as [-> _]; [lia|].
      apply lookup_insert_eq. }
    case_decide.
    - eexists. split; [done|]. cbn [LruKModel.store LruKModel.history].
      split.
      + destruct (lru_model_put_content b2 key value) as [-> _]; [lia|].
        apply lookup_insert_eq.
      + intros j x Hj%lru_model_remove_values. by eapply Hall1.
    - eexists. split; [done|]. cbn [LruKModel.store LruKModel.history].
      by split. }
  destruct (lruk_put_refines key value c a' Hwf Hput) as (c' & Hp & Hwf' & Ha').
  (* the get that follows *)
  destruct (lruk_model_touch_counts (LruModel.cap (LruKModel.history a'))
              (n + 1) key (LruKModel.history a') ltac:(lia) eq_refl Hall')
    as (cnt2 & h2 & Ht2 & _).
  assert (LruKModel.get key a'
          = Some (value,
                  LruKModel.mkState
                    (LruModel.get key (LruKModel.store a')).2 h2
                    (LruKModel.k a'))) as Hget.
  { unfold LruKModel.get. rewrite Ht2. sb.
    destruct (lru_model_get_snd (LruKModel.store a') key) as (_ & _ & Hr1).
    destruct (LruModel.get key (LruKModel.store a')) as [r b]. cbn in Hr1.
    rewrite Hr1, Hval. done. }
  rewrite <- Ha' in Hget.
  destruct (lruk_get_refines key c' _ _ Hwf' Hget) as (c'' & Hg & _).
  by exists c', c''.
Qed.
End LruKUser.

(** ** HashLruCaches: the shards *)

Section HashLruUser.
Context `{Countable Key} {Value : Type}.
Variables (Key0 : Key) (Value0 : Value).
Variable Hash : Key → Z.
Variable hardware_concurrency : Z.
Implicit Types s : Lru.LruCache (Key := Key) (Value := Value).
Implicit Types c : HashLru.HashLruCaches (Key := Key) (Value := Value).
Implicit Types key : Key.
Implicit Types value : Value.

Section Sliced.
Variables capacity sliceNum : Z.
Hypothesis Hcapacity : 0 ≤ capacity < 2 ^ 31.
Hypothesis HsliceNum : 0 < sliceNum < 2 ^ 31.

Lemma sliceSize_bounds :
  0 ≤ sliceSize capacity sliceNum ≤ capacity
  ∧ (0 < capacity → 0 < sliceSize capacity sliceNum).
Proof.
  unfold sliceSize. split; [split|].
  - apply Z.div_pos; lia.
  - destruct (decide (capacity = 0)) as [->|Hne].
    + rewrite Z.div_small; lia.
    + apply Z.div_le_upper_bound; nia.
  - intros. apply Z.div_str_pos. lia.
Qed.

Lemma hashlru_sliceIndex c key :
  HashLru.sliceNum_ c = sliceNum →
  ∃ i : nat, HashLru.sliceIndex Hash key c = Some (Z.of_nat i)
    ∧ (i < Z.to_nat sliceNum)%nat.
Proof.
  intros Hn. unfold HashLru.sliceIndex. rewrite Hn.
  rewrite (u64_small sliceNum) by lia.
  rewrite decide_False by lia.
  pose proof (Z.mod_pos_bound (u64 (Hash key)) sliceNum ltac:(lia)).
  exists (Z.to_nat (u64 (Hash key) `mod` sliceNum)).
  split; [f_equal|]; lia.
Qed.

Lemma hashlru_new_wf :
  hashlru_wf Hash sliceNum (sliceSize capacity sliceNum)
             (HashLru.new Key0 Value0 hardware_concurrency capacity
                          sliceNum).
Proof.
  pose proof sliceSize_bounds as [Hb _].
  unfold hashlru_wf, HashLru.new.
  cbn [HashLru.sliceNum_ HashLru.lruSliceCaches_].
  rewrite decide_True by lia. split; [done|].
  split; [by rewrite length_replicate|].
  intros i s [-> _]%lookup_replicate.
  rewrite s32_small by lia.
  destruct (lru_new_wf Key0 Value0 (sliceSize capacity sliceNum))
    as [Hwf _]; [lia|].
  split; [done|]. split; [done|].
  intros key [? Hk]. cbn [Lru.new Lru.initializeList Lru.nodeMap_] in Hk.
  by rewrite lookup_empty in Hk.
Qed.

Lemma hashlru_put_wf c key value :
  hashlru_wf Hash sliceNum (sliceSize capacity sliceNum) c →
  ∃ c', HashLru.put Hash key value c = Some c'
    ∧ hashlru_wf Hash sliceNum (sliceSize capacity sliceNum) c'
    ∧ ∃ i s', HashLru.sliceIndex Hash key c' = Some (Z.of_nat i)
        ∧ HashLru.lruSliceCaches_ c' !! i = Some s'
        ∧ (0 < capacity → LruModel.view s' !! key = Some value).
Proof.
  intros (Hn & Hlen & Hall).
  destruct (hashlru_sliceIndex c key Hn) as (i & Hi & Hlt).
  destruct (lookup_lt_is_Some_2 (HashLru.lruSliceCaches_ c) i)
    as [s Hs]; [lia|].
  destruct (Hall i s Hs) as (Hwf & Hcap & Hkeys).
  destruct (lru_put_keeps s key value Hwf)
    as (s' & Hp & Hwf' & Hcap' & Hk' & Hv).
  unfold HashLru.put. rewrite Hi. sb. unfold at_index.
  rewrite decide_True by lia. rewrite Nat2Z.id, Hs. sb. rewrite Hp. sb.
  eexists. split; [done|].
  assert (∀ j, HashLru.sliceIndex Hash j (HashLru.with_slice (Z.of_nat i) s' c)
               = HashLru.sliceIndex Hash j c) as Hsame by done.
  split; [split; [done|split]|].
  - cbn [HashLru.with_slice HashLru.lruSliceCaches_].
    by rewrite length_insert.
  - intros i2 s2. cbn [HashLru.with_slice HashLru.lruSliceCaches_].
    rewrite Nat2Z.id. destruct (decide (i2 = i)) as [->|Hne].
    + rewrite list_lookup_insert_eq by lia. intros [= <-].
      split; [done|]. split; [congruence|].
      intros j Hj. rewrite Hsame.
      destruct (Hk' j Hj) as [->|Hold]; [done|]. by apply Hkeys.
    + rewrite list_lookup_insert_ne by done. intros Hs2.
      destruct (Hall i2 s2 Hs2) as (? & ? & Hk2).
      split; [done|]. split; [done|].
      intros j Hj. rewrite Hsame. by apply Hk2.
  - exists i, s'. rewrite Hsame. split; [done|].
    cbn [HashLru.with_slice HashLru.lruSliceCaches_].
    rewrite Nat2Z.id, list_lookup_insert_eq by lia. split; [done|].
    intros Hpos. apply Hv. rewrite Hcap.
    by apply sliceSize_bounds.
Qed.

Lemma hashlru_get_wf c key :
  hashlru_wf Hash sliceNum (sliceSize capacity sliceNum) c →
  ∃ r c', HashLru.get Hash key c = Some (r, c')
    ∧ hashlru_wf Hash sliceNum (sliceSize capacity sliceNum) c'
    ∧ ∃ i s, HashLru.sliceIndex Hash key c = Some (Z.of_nat i)
        ∧ HashLru.lruSliceCaches_ c !! i = Some s
        ∧ r = LruModel.view s !! key.
Proof.
  intros (Hn & Hlen & Hall).
  destruct (hashlru_sliceIndex c key Hn) as (i & Hi & Hlt).
  destruct (lookup_lt_is_Some_2 (HashLru.lruSliceCaches_ c) i)
    as [s Hs]; [lia|].
  destruct (Hall i s Hs) as (Hwf & Hcap & Hkeys).
  destruct (lru_get_keeps s key Hwf)
    as (r & s' & Hg & Hwf' & Hcap' & Hview & Hr).
  unfold HashLru.get. rewrite Hi. sb. unfold at_index.
  rewrite decide_True by lia. rewrite Nat2Z.id, Hs. sb. rewrite Hg. sb.
  eexists _, _. split; [done|].
  assert (∀ j, HashLru.sliceIndex Hash j (HashLru.with_slice (Z.of_nat i) s' c)
               = HashLru.sliceIndex Hash j c) as Hsame by done.
  split; [split; [done|split]|].
  - cbn [HashLru.with_slice HashLru.lruSliceCaches_].
    by rewrite length_insert.
  - intros i2 s2. cbn [HashLru.with_slice HashLru.lruSliceCaches_].
    rewrite Nat2Z.id. destruct (decide (i2 = i)) as [->|Hne].
    + rewrite list_lookup_insert_eq by lia. intros [= <-].
      split; [done|]. split; [congruence|].
      intros j Hj. rewrite Hsame. apply Hkeys.
      apply (view_is_Some s j Hwf). rewrite <- Hview.
      by apply (view_is_Some s' j Hwf').
    + rewrite list_lookup_insert_ne by done. intros Hs2.
      destruct (Hall i2 s2 Hs2) as (? & ? & Hk2).
      split; [done|]. split; [done|].
      intros j Hj. rewrite Hsame. by apply Hk2.
  - by exists i, s.
Qed.

Lemma hashlru_run_wf (ops : list (hash_op Key Value)) c :
  hashlru_wf Hash sliceNum (sliceSize capacity sliceNum) c →
  ∃ c', run (hashlru_step Hash <$> ops) c = Some c'
    ∧ hashlru_wf Hash sliceNum (sliceSize capacity sliceNum) c'.
Proof.
  revert c. induction ops as [|o ops IH]; intros c Hwf.
  - by exists c.
  - rewrite fmap_cons, run_cons. destruct o as [key value|key].
    + destruct (hashlru_put_wf c key value Hwf) as (c1 & Hp & Hwf1 & _).
      cbn [hashlru_step]. rewrite Hp. sb. by apply IH.
    + destruct (hashlru_get_wf c key Hwf) as (r & c1 & Hg & Hwf1 & _).
      cbn [hashlru_step]. unfold call. rewrite Hg. sb. by apply IH.
Qed.
End Sliced.

(** X12.  Every sequence of [put] and [get] calls on a [HashLruCaches] built
    with a capacity and a positive shard count in the [int] range runs
    without undefined behaviour; afterwards every shard holds at most
    [ceil(capacity / sliceNum)] entries, and only keys whose hash selects
    that shard, so no key is ever held by two shards. *)
Theorem hashlru_shards_bounded_and_disjoint capacity sliceNum
    (ops : list (hash_op Key Value)) :
  0 ≤ capacity < 2 ^ 31 → 0 < sliceNum < 2 ^ 31 →
  ∃ c, run (hashlru_step Hash <$> ops)
           (HashLru.new Key0 Value0 hardware_concurrency capacity sliceNum)
       = Some c
    ∧ length (HashLru.lruSliceCaches_ c) = Z.to_nat sliceNum
    ∧ ∀ i s, HashLru.lruSliceCaches_ c !! i = Some s →
        zsize (Lru.nodeMap_ s) ≤ sliceSize capacity sliceNum
        ∧ ∀ key, is_Some (Lru.nodeMap_ s !! key) →
            Z.of_nat i = u64 (Hash key) `mod` sliceNum.
Proof.
  intros Hc Hn.
  destruct (hashlru_run_wf capacity sliceNum Hc Hn ops _
              (hashlru_new_wf capacity sliceNum Hc Hn))
    as (c & Hr & Hsn & Hlen & Hall).
  exists c. split; [done|]. split; [done|].
  intros i s Hs. destruct (Hall i s Hs) as (Hwf & Hcap & Hkeys).
  pose proof (sliceSize_bounds capacity sliceNum Hc Hn) as [Hb _].
  split.
  - rewrite <- Hcap. apply lru_wf_size; [done|lia].
  - intros key Hk. specialize (Hkeys key Hk).
    unfold HashLru.sliceIndex in Hkeys. rewrite Hsn in Hkeys.
    rewrite (u64_small sliceNum) in Hkeys by lia.
    rewrite decide_False in Hkeys by lia. congruence.
Qed.

(** X13.  On a [HashLruCaches] with positive capacity, after any sequence of
    [put] and [get] calls, [put(key, value)] followed by [get(key)]
    returns [value]. *)
Theorem hashlru_put_then_get capacity sliceNum
    (ops : list (hash_op Key Value)) c key value :
  0 < capacity < 2 ^ 31 → 0 < sliceNum < 2 ^ 31 →
  run (hashlru_step Hash <$> ops)
      (HashLru.new Key0 Value0 hardware_concurrency capacity sliceNum)
  = Some c →
  ∃ c' c'', HashLru.put Hash key value c = Some c'
    ∧ HashLru.get Hash key c' = Some (Some value, c'').
Proof.
  intros Hc Hn Hr.
  assert (0 ≤ capacity < 2 ^ 31) as Hc0 by lia.
  destruct (hashlru_run_wf capacity sliceNum Hc0 Hn ops _
              (hashlru_new_wf capacity sliceNum Hc0 Hn))
    as (c0 & Hr0 & Hwf).
  rewrite Hr in Hr0. injection Hr0 as <-.
  destruct (hashlru_put_wf capacity sliceNum Hc0 Hn c key value Hwf)
    as (c' & Hp & Hwf' & i & s' & Hi & Hs' & Hv).
  destruct (hashlru_get_wf capacity sliceNum Hn c' key Hwf')
    as (r & c'' & Hg & _ & i2 & s2 & Hi2 & Hs2 & ->).
  exists c', c''. split; [done|]. rewrite Hg. do 2 f_equal.
  rewrite Hi in Hi2. injection Hi2 as Hii. apply Nat2Z.inj in Hii as <-.
  rewrite Hs' in Hs2. injection Hs2 as <-. apply Hv. lia.
Qed.

(** X14.  A [HashLruCaches] constructed with [sliceNum <= 0] sets [sliceNum_]
    from the hardware but creates no shard, so every [put] and every
    [get] indexes the empty shard vector: undefined behaviour. *)
Theorem hashlru_nonpositive_sliceNum_has_no_shard capacity sliceNum
    key value :
  sliceNum ≤ 0 →
  HashLru.lruSliceCaches_
    (HashLru.new Key0 Value0 hardware_concurrency capacity sliceNum) = []
  ∧ HashLru.put Hash key value
      (HashLru.new Key0 Value0 hardware_concurrency capacity sliceNum)
    = None
  ∧ HashLru.get Hash key
      (HashLru.new Key0 Value0 hardware_concurrency capacity sliceNum)
    = None.
Proof.
  intros Hn.
  assert (HashLru.lruSliceCaches_
    (HashLru.new Key0 Value0 hardware_concurrency capacity sliceNum) = [])
    as Hnil.
  { unfold HashLru.new. cbn [HashLru.lruSliceCaches_].
    by replace (Z.to_nat sliceNum) with 0%nat by lia. }
  split; [done|]. unfold HashLru.put, HashLru.get.
  destruct (HashLru.sliceIndex Hash key _) as [i|]; [|done]. sb.
  rewrite Hnil. unfold at_index. by case_decide.
Qed.

End HashLruUser.

(** ** Caches of capacity 0 *)

Section ZeroCapacity.
Context `{Countable Key} {Value : Type}.
Variables (Key0 : Key) (Value0 : Value).

(** X16.  An [LfuCache] of capacity 0 ignores every [put]: whatever sequence
    of [put], [get] and [purge] calls is made, the cache stays as it was
    constructed and every [get] misses. *)
Theorem lfu_zero_capacity_stays_empty maxAverageNum
    (ops : list (lfu_op Key Value)) key :
  run (lfu_step Key0 Value0 <$> ops) (Lfu.new 0 maxAverageNum)
  = Some (Lfu.new 0 maxAverageNum)
  ∧ Lfu.get Key0 Value0 key (Lfu.new 0 maxAverageNum)
    = Some (None, Lfu.new 0 maxAverageNum).
Proof.
  split; [|done]. induction ops as [|o ops IH]; [done|].
  rewrite fmap_cons, run_cons.
  assert (lfu_step Key0 Value0 o (Lfu.new 0 maxAverageNum)
          = Some (Lfu.new 0 maxAverageNum)) as ->; [|done].
  destruct o as [k v|k|]; [|done..].
  unfold lfu_step, Lfu.put. by rewrite decide_True by done.
Qed.

(** X17.  An [ArcCache] of capacity 0 ignores every [put]: whatever sequence
    of [put] and [get] calls is made, the cache stays as it was
    constructed and every [get] misses. *)
Theorem arc_zero_capacity_stays_empty transformThreshold
    (ops : list (arc_op Key Value)) key :
  run (arc_step <$> ops) (Arc.new Key0 Value0 0 transformThreshold)
  = Some (Arc.new Key0 Value0 0 transformThreshold)
  ∧ Arc.get key (Arc.new Key0 Value0 0 transformThreshold)
    = Some (None, Arc.new Key0 Value0 0 transformThreshold).
Proof.
  assert (∀ k, Arc.get k (Arc.new Key0 Value0 0 transformThreshold)
    = Some (None, Arc.new Key0 Value0 0 transformThreshold)) as Hget.
  { intros k. by apply arc_get_absent. }
  split; [|done]. induction ops as [|o ops IH]; [done|].
  rewrite fmap_cons, run_cons.
  assert (arc_step o (Arc.new Key0 Value0 0 transformThreshold)
          = Some (Arc.new Key0 Value0 0 transformThreshold)) as ->; [|done].
  destruct o as [k v|k]; cbn [arc_step]; [|unfold call; by rewrite Hget].
  unfold Arc.put. rewrite arc_checkGhostCaches_absent by done. sb.
  unfold ArcLfu.inLfuMainCache.
  rewrite bool_decide_eq_false_2
    by (intros [x Hk]; exact (lookup_empty_Some (M := gmap Key) k x Hk)).
  unfold ArcLru.put. by rewrite decide_True by done.
Qed.
End ZeroCapacity.

(** ** ArcCache: the linked lists of the partitions *)

(* [set_solver] clears hypotheses that some of its branches no longer have. *)
Set Warnings "-clear-no-such-hyp".

Section ArcHeap.
Context {Key Value : Type}.
Implicit Types h : list (ArcNode.ArcNode (Key := Key) (Value := Value)).
Implicit Types p q a b : ptr.

Lemma arc_store_lookup h p f h' :
ArcNode.store p f h = Some h' →
length h' = length h
∧ ∀ q, h' !! q = if decide (q = p) then f <$> h !! p else h !! q.
Proof.
unfold ArcNode.store. destruct (h !! p) as [n|] eqn:Hp; [|done].
intros [= <-]. split; [by rewrite length_insert|].
intros q. case_decide as Hq.
- subst q. rewrite list_lookup_insert_eq; [done|]. by eapply lookup_lt_Some.
- by rewrite list_lookup_insert_ne.
Qed.

Lemma arc_store_Some h p f :
(p < length h)%nat → is_Some (ArcNode.store p f h).
Proof.
intros Hp. unfold ArcNode.store.
destruct (lookup_lt_is_Some_2 h p Hp) as [n ->]. by eexists.
Qed.

Lemma nxt_Some_valid h q x : nxt h q = Some x → (q < length h)%nat.
Proof.
unfold nxt. destruct (h !! q) eqn:E; [|done]. intros _. by eapply lookup_lt_Some.
Qed.

Lemma prv_Some_valid h q x : prv h q = Some x → (q < length h)%nat.
Proof.
unfold prv. destruct (h !! q) eqn:E; [|done]. intros _. by eapply lookup_lt_Some.
Qed.

(** What a store of one field does to the links and the payload. *)
Lemma arc_store_set_next h p x h' :
ArcNode.store p (ArcNode.set_next x) h = Some h' →
length h' = length h
∧ (∀ q, nxt h' q = if decide (q = p) then x else nxt h q)
∧ (∀ q, prv h' q = prv h q)
∧ (∀ q, payload h' q = payload h q).
Proof.
intros Hs. destruct (arc_store_lookup _ _ _ _ Hs) as [Hlen Hl].
unfold ArcNode.store in Hs. destruct (h !! p) as [n|] eqn:Hp; [|done].
split; [done|]. unfold nxt, prv, payload.
repeat split; intros q; rewrite Hl; case_decide; subst; rewrite ?Hp; done.
Qed.

Lemma arc_store_set_prev h p x h' :
ArcNode.store p (ArcNode.set_prev x) h = Some h' →
length h' = length h
∧ (∀ q, nxt h' q = nxt h q)
∧ (∀ q, prv h' q = if decide (q = p) then x else prv h q)
∧ (∀ q, payload h' q = payload h q).
Proof.
intros Hs. destruct (arc_store_lookup _ _ _ _ Hs) as [Hlen Hl].
unfold ArcNode.store in Hs. destruct (h !! p) as [n|] eqn:Hp; [|done].
split; [done|]. unfold nxt, prv, payload.
repeat split; intros q; rewrite Hl; case_decide; subst; rewrite ?Hp; done.
Qed.

(** A store that leaves the links alone. *)
Lemma arc_store_payload h p f h' :
(∀ n, ArcNode.prev_ (f n) = ArcNode.prev_ n
      ∧ ArcNode.next_ (f n) = ArcNode.next_ n) →
ArcNode.store p f h = Some h' →
length h' = length h
∧ (∀ q, nxt h' q = nxt h q)
∧ (∀ q, prv h' q = prv h q)
∧ (∀ q, q ≠ p → payload h' q = payload h q)
∧ (∀ q, q ≠ p → h' !! q = h !! q)
∧ h' !! p = f <$> h !! p.
Proof.
intros Hf Hs. destruct (arc_store_lookup _ _ _ _ Hs) as [Hlen Hl].
unfold ArcNode.store in Hs. destruct (h !! p) as [n|] eqn:Hp; [|done].
split; [done|]. unfold nxt, prv, payload.
split; [|split; [|split; [|split]]].
- intros q. rewrite Hl. case_decide; [subst|done]. rewrite Hp. cbn.
  apply Hf.
- intros q. rewrite Hl. case_decide; [subst|done]. rewrite Hp. cbn.
  apply Hf.
- intros q Hq. rewrite Hl. by rewrite decide_False.
- intros q Hq. rewrite Hl. by rewrite decide_False.
- rewrite Hl. by rewrite decide_True.
Qed.

Lemma payload_key h h' q :
payload h' q = payload h q → key_at h' q = key_at h q.
Proof.
unfold payload, key_at.
destruct (h' !! q), (h !! q); cbn; congruence.
Qed.

(** [unlink]: the neighbours of the node are linked to each other; the
  node keeps its own links. *)
Lemma arc_unlink_spec h p a b :
prv h p = Some a → nxt h p = Some b →
(a < length h)%nat → (b < length h)%nat →
∃ h', ArcNode.unlink (Some p) h = Some h'
  ∧ length h' = length h
  ∧ (∀ q, nxt h' q = if decide (q = a) then Some b else nxt h q)
  ∧ (∀ q, prv h' q = if decide (q = b) then Some a else prv h q)
  ∧ (∀ q, payload h' q = payload h q).
Proof.
intros Hpa Hpb Ha Hb. unfold ArcNode.unlink. cbn [mbind option_bind].
unfold prv, nxt in Hpa, Hpb.
destruct (h !! p) as [n|] eqn:Hp; [|done]. cbn in Hpa, Hpb.
cbn [mbind option_bind]. rewrite Hpa. cbn [mbind option_bind].
destruct (arc_store_Some h a (ArcNode.set_next (ArcNode.next_ n)) Ha)
  as [h1 Hs1].
rewrite Hs1. cbn [mbind option_bind].
destruct (arc_store_set_next _ _ _ _ Hs1) as (Hl1 & Hn1 & Hp1 & Hy1).
assert (nxt h1 p = Some b) as Hpb1.
{ rewrite Hn1. case_decide; [done|]. unfold nxt. by rewrite Hp. }
assert (prv h1 p = Some a) as Hpa1.
{ rewrite Hp1. unfold prv. by rewrite Hp. }
unfold nxt in Hpb1. unfold prv in Hpa1.
destruct (h1 !! p) as [n1|] eqn:Hp1'; [|done]. cbn in Hpb1, Hpa1.
cbn [mbind option_bind]. rewrite Hpb1. cbn [mbind option_bind].
destruct (arc_store_Some h1 b (ArcNode.set_prev (ArcNode.prev_ n1)))
  as [h2 Hs2]; [lia|].
rewrite Hs2. eexists. split; [done|].
destruct (arc_store_set_prev _ _ _ _ Hs2) as (Hl2 & Hn2 & Hp2 & Hy2).
split; [lia|]. repeat split; intros q.
- rewrite Hn2, Hn1. case_decide; [|done]. by rewrite Hpb.
- rewrite Hp2, Hp1. case_decide; done.
- by rewrite Hy2, Hy1.
Qed.

(** [link_after]: the node goes between [head] and its successor. *)
Lemma arc_link_after_spec h head p b :
nxt h head = Some b → (p < length h)%nat → (b < length h)%nat →
p ≠ head → p ≠ b →
∃ h', ArcNode.link_after head (Some p) h = Some h'
  ∧ length h' = length h
  ∧ (∀ q, nxt h' q = if decide (q = head) then Some p
                     else if decide (q = p) then Some b else nxt h q)
  ∧ (∀ q, prv h' q = if decide (q = p) then Some head
                     else if decide (q = b) then Some p else prv h q)
  ∧ (∀ q, payload h' q = payload h q).
Proof.
intros Hhb Hp Hb Hne1 Hne2. unfold ArcNode.link_after.
cbn [mbind option_bind]. pose proof (nxt_Some_valid _ _ _ Hhb) as Hh.
unfold nxt in Hhb. destruct (h !! head) as [hd|] eqn:Hhd; [|done].
cbn in Hhb. cbn [mbind option_bind].
destruct (arc_store_Some h p (ArcNode.set_next (ArcNode.next_ hd)) Hp)
  as [h1 Hs1]. rewrite Hs1. cbn [mbind option_bind].
destruct (arc_store_set_next _ _ _ _ Hs1) as (Hl1 & Hn1 & Hp1 & Hy1).
destruct (arc_store_Some h1 head (ArcNode.set_next (Some p)))
  as [h2 Hs2]; [lia|]. rewrite Hs2. cbn [mbind option_bind].
destruct (arc_store_set_next _ _ _ _ Hs2) as (Hl2 & Hn2 & Hp2 & Hy2).
assert (nxt h2 p = Some b) as Hpb.
{ rewrite Hn2, Hn1. rewrite decide_False by done. by rewrite decide_True. }
unfold nxt in Hpb. destruct (h2 !! p) as [n|] eqn:Hp2'; [|done].
cbn in Hpb. cbn [mbind option_bind]. rewrite Hpb. cbn [mbind option_bind].
destruct (arc_store_Some h2 b (ArcNode.set_prev (Some p)))
  as [h3 Hs3]; [lia|]. rewrite Hs3. cbn [mbind option_bind].
destruct (arc_store_set_prev _ _ _ _ Hs3) as (Hl3 & Hn3 & Hp3 & Hy3).
destruct (arc_store_Some h3 p (ArcNode.set_prev (Some head)))
  as [h4 Hs4]; [lia|]. rewrite Hs4.
destruct (arc_store_set_prev _ _ _ _ Hs4) as (Hl4 & Hn4 & Hp4 & Hy4).
eexists. split; [done|]. split; [lia|]. repeat split; intros q.
- rewrite Hn4, Hn3, Hn2, Hn1. repeat case_decide; subst; done.
- rewrite Hp4, Hp3, Hp2, Hp1. repeat case_decide; subst; done.
- by rewrite Hy4, Hy3, Hy2, Hy1.
Qed.

(** [link_before]: the node goes between [tail] and its predecessor. *)
Lemma arc_link_before_spec h tail p a :
prv h tail = Some a → (p < length h)%nat → (a < length h)%nat →
p ≠ tail → p ≠ a →
∃ h', ArcNode.link_before tail (Some p) h = Some h'
  ∧ length h' = length h
  ∧ (∀ q, nxt h' q = if decide (q = a) then Some p
                     else if decide (q = p) then Some tail else nxt h q)
  ∧ (∀ q, prv h' q = if decide (q = tail) then Some p
                     else if decide (q = p) then Some a else prv h q)
  ∧ (∀ q, payload h' q = payload h q).
Proof.
intros Hta Hp Ha Hne1 Hne2. unfold ArcNode.link_before.
cbn [mbind option_bind]. pose proof (prv_Some_valid _ _ _ Hta) as Ht.
destruct (arc_store_Some h p (ArcNode.set_next (Some tail)) Hp)
  as [h1 Hs1]. rewrite Hs1. cbn [mbind option_bind].
destruct (arc_store_set_next _ _ _ _ Hs1) as (Hl1 & Hn1 & Hp1 & Hy1).
assert (prv h1 tail = Some a) as Hta1 by (by rewrite Hp1).
unfold prv in Hta1. destruct (h1 !! tail) as [t|] eqn:Ht1; [|done].
cbn in Hta1. cbn [mbind option_bind]. rewrite Hta1. cbn [mbind option_bind].
destruct (arc_store_Some h1 a (ArcNode.set_next (Some p)))
  as [h2 Hs2]; [lia|]. rewrite Hs2. cbn [mbind option_bind].
destruct (arc_store_set_next _ _ _ _ Hs2) as (Hl2 & Hn2 & Hp2 & Hy2).
assert (prv h2 tail = Some a) as Hta2.
{ rewrite Hp2. unfold prv. by rewrite Ht1. }
unfold prv in Hta2. destruct (h2 !! tail) as [t2|] eqn:Ht2; [|done].
cbn in Hta2. cbn [mbind option_bind]. rewrite Hta2.
destruct (arc_store_Some h2 p (ArcNode.set_prev (Some a)))
  as [h3 Hs3]; [lia|]. rewrite Hs3. cbn [mbind option_bind].
destruct (arc_store_set_prev _ _ _ _ Hs3) as (Hl3 & Hn3 & Hp3 & Hy3).
destruct (arc_store_Some h3 tail (ArcNode.set_prev (Some p)))
  as [h4 Hs4]; [lia|]. rewrite Hs4.
destruct (arc_store_set_prev _ _ _ _ Hs4) as (Hl4 & Hn4 & Hp4 & Hy4).
eexists. split; [done|]. split; [lia|]. repeat split; intros q.
- rewrite Hn4, Hn3, Hn2, Hn1. repeat case_decide; subst; done.
- rewrite Hp4, Hp3, Hp2, Hp1. repeat case_decide; subst; done.
- by rewrite Hy4, Hy3, Hy2, Hy1.
Qed.

End ArcHeap.

Section Adjacent.
Implicit Types L l : list ptr.
Implicit Types x y z a b p : ptr.

Lemma adjacent_cons_inv z l x y :
adjacent (z :: l) x y → (x = z ∧ head l = Some y) ∨ adjacent l x y.
Proof.
intros [[|i] [H1 H2]].
- left. cbn in H1, H2. split; [congruence|]. by destruct l.
- right. by exists i.
Qed.

Lemma adjacent_cons z l x y : adjacent l x y → adjacent (z :: l) x y.
Proof. intros [i [H1 H2]]. by exists (S i). Qed.

Lemma adjacent_head x y l : adjacent (x :: y :: l) x y.
Proof. by exists 0%nat. Qed.

Lemma adjacent_app_r l1 l2 x y : adjacent l2 x y → adjacent (l1 ++ l2) x y.
Proof. intros Ha. induction l1; [done|]. by apply adjacent_cons. Qed.

Lemma adjacent_app_l l1 l2 x y : adjacent l1 x y → adjacent (l1 ++ l2) x y.
Proof.
intros [i [H1 H2]]. exists i. split; by apply lookup_app_l_Some.
Qed.

Lemma adjacent_app_inv l1 l2 x y :
adjacent (l1 ++ l2) x y →
adjacent l1 x y ∨ adjacent l2 x y ∨ (last l1 = Some x ∧ head l2 = Some y).
Proof.
induction l1 as [|a l1 IH]; [by right; left|].
intros [[-> Hh]|Ha]%adjacent_cons_inv.
- destruct l1 as [|b l1].
  + right; right. by split.
  + left. cbn in Hh. injection Hh as ->. apply adjacent_head.
- destruct (IH Ha) as [H1|[H2|[H3 H4]]].
  + left. by apply adjacent_cons.
  + by right; left.
  + right; right. split; [|done]. destruct l1; [done|]. done.
Qed.

Lemma adjacent_in L x y : adjacent L x y → x ∈ L ∧ y ∈ L.
Proof.
intros [i [H1 H2]]. split; by eapply list_elem_of_lookup_2.
Qed.

Lemma adjacent_fun L x y y' :
NoDup L → adjacent L x y → adjacent L x y' → y = y'.
Proof.
intros Hnd [i [H1 H2]] [j [H3 H4]].
assert (i = j) as -> by (by eapply NoDup_lookup). congruence.
Qed.

Lemma adjacent_inj L x x' y :
NoDup L → adjacent L x y → adjacent L x' y → x = x'.
Proof.
intros Hnd [i [H1 H2]] [j [H3 H4]].
assert (S i = S j) as [= ->] by (by eapply NoDup_lookup). congruence.
Qed.

(** An interior element splits a list with sentinels around its two
  neighbours. *)
Lemma split_interior hd m1 p m2 tl :
∃ l1 a b l2,
  hd :: (m1 ++ p :: m2) ++ [tl] = l1 ++ a :: p :: b :: l2
  ∧ hd :: (m1 ++ m2) ++ [tl] = l1 ++ a :: b :: l2.
Proof.
assert (∃ l1 a, hd :: m1 = l1 ++ [a]) as (l1 & a & E1).
{ destruct m1 as [|x m1 _] using rev_ind.
  - by exists [], hd.
  - by exists (hd :: m1), x. }
assert (∃ b l2, m2 ++ [tl] = b :: l2) as (b & l2 & E2).
{ destruct m2 as [|y m2]; by eexists _, _. }
exists l1, a, b, l2. split.
- rewrite <- app_assoc. cbn [app]. rewrite E2.
  rewrite app_comm_cons, E1, <- app_assoc. done.
- rewrite <- app_assoc, E2. rewrite app_comm_cons, E1, <- app_assoc. done.
Qed.
End Adjacent.

Section Linked.
Implicit Types nx pv : ptr → option ptr.
Implicit Types L l : list ptr.
Implicit Types x y z a b p q : ptr.

Lemma linked_frame nx pv nx' pv' L :
linked_fn nx pv L →
(∀ q, q ∈ L → nx' q = nx q ∧ pv' q = pv q) →
linked_fn nx' pv' L.
Proof.
intros HL Hsame x y Hxy. destruct (adjacent_in _ _ _ Hxy) as [Hx Hy].
destruct (HL x y Hxy) as [H1 H2].
destruct (Hsame x Hx) as [-> _]. destruct (Hsame y Hy) as [_ ->]. done.
Qed.

Lemma linked_neighbours nx pv l1 a p b l2 :
linked_fn nx pv (l1 ++ a :: p :: b :: l2) →
pv p = Some a ∧ nx p = Some b ∧ nx a = Some p ∧ pv b = Some p.
Proof.
intros HL.
destruct (HL a p) as [? ?]; [apply adjacent_app_r, adjacent_head|].
destruct (HL p b) as [? ?];
  [apply adjacent_app_r, adjacent_cons, adjacent_head|]. done.
Qed.

Lemma linked_remove nx pv nx' pv' l1 a p b l2 :
NoDup (l1 ++ a :: p :: b :: l2) →
linked_fn nx pv (l1 ++ a :: p :: b :: l2) →
nx' a = Some b → (∀ q, q ≠ a → q ≠ p → nx' q = nx q) →
pv' b = Some a → (∀ q, q ≠ b → q ≠ p → pv' q = pv q) →
linked_fn nx' pv' (l1 ++ a :: b :: l2).
Proof.
intros Hnd HL Hna Hn Hpb Hp x y Hxy.
pose proof Hnd as Hnd'.
apply NoDup_app in Hnd' as (Hnd1 & Hd1 & Hnd2).
apply NoDup_cons in Hnd2 as [Ha Hnd2]. apply NoDup_cons in Hnd2 as [Hpp Hnd2].
apply NoDup_cons in Hnd2 as [Hb Hnd2].
assert (adjacent (l1 ++ a :: p :: b :: l2) p b) as Hpb'
  by apply adjacent_app_r, adjacent_cons, adjacent_head.
assert (adjacent (l1 ++ a :: p :: b :: l2) a p) as Hap'
  by apply adjacent_app_r, adjacent_head.
apply adjacent_app_inv in Hxy as [H1|[H2|[H3 H4]]].
- assert (adjacent (l1 ++ a :: p :: b :: l2) x y) as Hold
    by (by apply adjacent_app_l).
  destruct (adjacent_in _ _ _ H1) as [Hx Hy].
  destruct (HL x y Hold) as [E1 E2].
  rewrite Hn, Hp; [done|..]; intros ->.
  + apply (Hd1 b Hy). set_solver.
  + apply (Hd1 p Hy). set_solver.
  + apply (Hd1 a Hx). set_solver.
  + apply (Hd1 p Hx). set_solver.
- apply adjacent_cons_inv in H2 as [[-> Hh]|H2].
  + cbn in Hh. injection Hh as <-. done.
  + assert (adjacent (l1 ++ a :: p :: b :: l2) x y) as Hold.
    { replace (l1 ++ a :: p :: b :: l2) with ((l1 ++ [a; p]) ++ b :: l2)
        by (by rewrite <- app_assoc).
      by apply adjacent_app_r. }
    destruct (adjacent_in _ _ _ H2) as [Hx Hy].
    destruct (HL x y Hold) as [E1 E2].
    rewrite Hn, Hp; [done|..]; intros ->.
    * assert (x = p) as -> by apply (adjacent_inj _ _ _ b Hnd Hold Hpb').
      set_solver.
    * set_solver.
    * set_solver.
    * set_solver.
- cbn in H4. injection H4 as <-.
  apply last_Some in H3 as [l1' ->].
  assert (adjacent ((l1' ++ [x]) ++ a :: p :: b :: l2) x a) as Hold.
  { rewrite <- app_assoc. apply adjacent_app_r, adjacent_head. }
  destruct (HL x a Hold) as [E1 E2].
  assert (x ∈ l1' ++ [x]) as Hx by set_solver.
  rewrite Hn, Hp; [done|..]; intros ->.
  + set_solver.
  + set_solver.
  + by apply (Hd1 a Hx); set_solver.
  + by apply (Hd1 p Hx); set_solver.
Qed.

Lemma linked_insert nx pv nx' pv' l1 a p b l2 :
NoDup (l1 ++ a :: p :: b :: l2) →
linked_fn nx pv (l1 ++ a :: b :: l2) →
nx' a = Some p → nx' p = Some b →
(∀ q, q ≠ a → q ≠ p → nx' q = nx q) →
pv' p = Some a → pv' b = Some p →
(∀ q, q ≠ p → q ≠ b → pv' q = pv q) →
linked_fn nx' pv' (l1 ++ a :: p :: b :: l2).
Proof.
intros Hnd HL Hna Hnp Hn Hpp Hpb Hp x y Hxy.
pose proof Hnd as Hnd'.
apply NoDup_app in Hnd' as (Hnd1 & Hd1 & Hnd2).
apply NoDup_cons in Hnd2 as [Ha Hnd2]. apply NoDup_cons in Hnd2 as [Hpp' Hnd2].
apply NoDup_cons in Hnd2 as [Hb Hnd2].
assert (NoDup (l1 ++ a :: b :: l2)) as HndOld.
{ apply NoDup_app. split; [done|]. split; [set_solver|].
  apply NoDup_cons. split; [set_solver|]. by apply NoDup_cons. }
assert (adjacent (l1 ++ a :: b :: l2) a b) as Hab'
  by apply adjacent_app_r, adjacent_head.
apply adjacent_app_inv in Hxy as [H1|[H2|[H3 H4]]].
- assert (adjacent (l1 ++ a :: b :: l2) x y) as Hold
    by (by apply adjacent_app_l).
  destruct (adjacent_in _ _ _ H1) as [Hx Hy].
  destruct (HL x y Hold) as [E1 E2].
  rewrite Hn, Hp; [done|..]; intros ->.
  + apply (Hd1 p Hy). set_solver.
  + apply (Hd1 b Hy). set_solver.
  + apply (Hd1 a Hx). set_solver.
  + apply (Hd1 p Hx). set_solver.
- apply adjacent_cons_inv in H2 as [[-> Hh]|H2].
  { cbn in Hh. injection Hh as <-. done. }
  apply adjacent_cons_inv in H2 as [[-> Hh]|H2].
  { cbn in Hh. injection Hh as <-. done. }
  assert (adjacent (l1 ++ a :: b :: l2) x y) as Hold.
  { replace (l1 ++ a :: b :: l2) with ((l1 ++ [a]) ++ b :: l2)
      by (by rewrite <- app_assoc).
    by apply adjacent_app_r. }
  destruct (adjacent_in _ _ _ H2) as [Hx Hy].
  destruct (HL x y Hold) as [E1 E2].
  rewrite Hn, Hp; [done|..]; intros ->.
  + set_solver.
  + assert (x = a) as -> by apply (adjacent_inj _ _ _ b HndOld Hold Hab').
    set_solver.
  + set_solver.
  + set_solver.
- cbn in H4. injection H4 as <-.
  apply last_Some in H3 as [l1' ->].
  assert (adjacent ((l1' ++ [x]) ++ a :: b :: l2) x a
          ∧ x ∈ l1' ++ [x]) as [Hold Hx].
  { split; [|set_solver].
    rewrite <- app_assoc. apply adjacent_app_r, adjacent_head. }
  destruct (HL x a Hold) as [E1 E2].
  rewrite Hn, Hp; [done|..]; intros ->.
  + set_solver.
  + set_solver.
  + set_solver.
  + apply (Hd1 p Hx). set_solver.
Qed.

End Linked.

Section Shape.
Context {Key Value : Type}.
Implicit Types h : list (ArcNode.ArcNode (Key := Key) (Value := Value)).
Implicit Types L K l : list ptr.
Implicit Types x y z a b p q : ptr.

Lemma shape_sym h L K : arc_shape h L K → arc_shape h K L.
Proof.
intros (Hnd & Hv & HL & HK). split; [|split; [|done]].
- eapply NoDup_Permutation_proper; [|exact Hnd]. solve_Permutation.
- intros q Hq. apply Hv. set_solver.
Qed.

Lemma shape_frame h h' L K :
arc_shape h L K → length h' = length h →
(∀ q, nxt h' q = nxt h q) → (∀ q, prv h' q = prv h q) →
arc_shape h' L K.
Proof.
intros (Hnd & Hv & HL & HK) Hlen Hn Hp. split; [done|]. split.
- intros q Hq. rewrite Hlen. by apply Hv.
- split; (eapply linked_frame; [eassumption|]); intros q _; by rewrite Hn, Hp.
Qed.

Lemma shape_alloc h L K n :
arc_shape h L K → arc_shape (h ++ [n]) L K.
Proof.
intros (Hnd & Hv & HL & HK). split; [done|]. split.
- intros q Hq. rewrite length_app. specialize (Hv q Hq). lia.
- split; (eapply linked_frame; [eassumption|]); intros q Hq;
    (assert (q < length h)%nat as Hlt by (apply Hv; set_solver));
    unfold nxt, prv; by rewrite lookup_app_l.
Qed.

Lemma shape_unlink h l1 a p b l2 K :
arc_shape h (l1 ++ a :: p :: b :: l2) K →
∃ h', ArcNode.unlink (Some p) h = Some h'
  ∧ length h' = length h
  ∧ (∀ q, payload h' q = payload h q)
  ∧ arc_shape h' (l1 ++ a :: b :: l2) K.
Proof.
intros (Hnd & Hv & HL & HK).
destruct (linked_neighbours _ _ _ _ _ _ _ HL) as (Hpa & Hpb & _ & _).
destruct (arc_unlink_spec h p a b Hpa Hpb) as (h' & Hu & Hlen & Hn & Hp & Hy).
{ apply Hv. set_solver. }
{ apply Hv. set_solver. }
exists h'. split; [done|]. split; [done|]. split; [done|].
pose proof Hnd as Hnd'. apply NoDup_app in Hnd' as (HndL & Hdis & HndK).
split; [|split; [|split]].
- eapply sublist_NoDup; [exact Hnd|].
  apply sublist_app; [|done]. apply sublist_app; [done|].
  apply sublist_skip. by apply sublist_cons.
- intros q Hq. rewrite Hlen. apply Hv. set_solver.
- eapply linked_remove; [exact HndL|exact HL|..].
  + rewrite Hn. by rewrite decide_True.
  + intros q Hq. rewrite Hn. by rewrite decide_False.
  + rewrite Hp. by rewrite decide_True.
  + intros q Hq. rewrite Hp. by rewrite decide_False.
- eapply linked_frame; [exact HK|]. intros q Hq.
  assert (q ≠ a) by (intros ->; apply (Hdis a); [set_solver|done]).
  assert (q ≠ b) by (intros ->; apply (Hdis b); [set_solver|done]).
  rewrite Hn, Hp, !decide_False by done. done.
Qed.

Lemma shape_link_after h l1 a p b l2 K :
arc_shape h (l1 ++ a :: b :: l2) K → l1 = [] →
(p < length h)%nat → p ∉ (l1 ++ a :: b :: l2) ++ K →
∃ h', ArcNode.link_after a (Some p) h = Some h'
  ∧ length h' = length h
  ∧ (∀ q, payload h' q = payload h q)
  ∧ arc_shape h' (l1 ++ a :: p :: b :: l2) K.
Proof.
intros (Hnd & Hv & HL & HK) -> Hpv Hpn. cbn [app] in *.
destruct (HL a b (adjacent_head _ _ _)) as [Hab Hba].
destruct (arc_link_after_spec h a p b Hab Hpv)
  as (h' & Hu & Hlen & Hn & Hp & Hy).
{ apply Hv. set_solver. }
{ set_solver. }
{ set_solver. }
exists h'. split; [done|]. split; [done|]. split; [done|].
pose proof Hnd as Hnd'.
apply (NoDup_app (a :: b :: l2)) in Hnd' as (HndL & Hdis & HndK).
assert (NoDup (a :: p :: b :: l2)) as HndL'.
{ apply NoDup_cons in HndL as [? ?]. apply NoDup_cons. split; [set_solver|].
  apply NoDup_cons. split; [set_solver|done]. }
split; [|split; [|split]].
- apply (NoDup_app (a :: p :: b :: l2)). split; [done|]. split; [|done].
  intros q Hq HqK. apply elem_of_cons in Hq as [->|Hq].
  + eapply (Hdis a); [set_solver|done].
  + apply elem_of_cons in Hq as [->|Hq]; [set_solver|].
    eapply (Hdis q); [set_solver|done].
- intros q Hq. rewrite Hlen.
  destruct (decide (q = p)) as [->|]; [done|]. apply Hv. set_solver.
- apply (linked_insert (nxt h) (prv h) (nxt h') (prv h') [] a p b l2); [done|done|..].
  + rewrite Hn. by rewrite decide_True.
  + rewrite Hn. rewrite decide_False by set_solver. by rewrite decide_True.
  + intros q H1 H2. rewrite Hn. by rewrite !decide_False.
  + rewrite Hp. by rewrite decide_True.
  + rewrite Hp. rewrite decide_False by set_solver. by rewrite decide_True.
  + intros q H1 H2. rewrite Hp. by rewrite !decide_False.
- eapply linked_frame; [exact HK|]. intros q Hq.
  assert (q ≠ a) by (intros ->; apply (Hdis a); [set_solver|done]).
  assert (q ≠ b) by (intros ->; apply (Hdis b); [set_solver|done]).
  assert (q ≠ p) by (intros ->; set_solver).
  rewrite Hn, Hp, !decide_False by done. done.
Qed.

Lemma shape_link_before h l1 a p b l2 K :
arc_shape h (l1 ++ a :: b :: l2) K → l2 = [] →
(p < length h)%nat → p ∉ (l1 ++ a :: b :: l2) ++ K →
∃ h', ArcNode.link_before b (Some p) h = Some h'
  ∧ length h' = length h
  ∧ (∀ q, payload h' q = payload h q)
  ∧ arc_shape h' (l1 ++ a :: p :: b :: l2) K.
Proof.
intros (Hnd & Hv & HL & HK) -> Hpv Hpn.
destruct (HL a b) as [Hab Hba]; [apply adjacent_app_r, adjacent_head|].
destruct (arc_link_before_spec h b p a Hba Hpv)
  as (h' & Hu & Hlen & Hn & Hp & Hy).
{ apply Hv. set_solver. }
{ set_solver. }
{ set_solver. }
exists h'. split; [done|]. split; [done|]. split; [done|].
pose proof Hnd as Hnd'.
apply NoDup_app in Hnd' as (HndL & Hdis & HndK).
assert (NoDup (l1 ++ [a; p; b])) as HndL'.
{ apply NoDup_app in HndL as (? & ? & Hab'). apply NoDup_app.
  split; [done|]. split; [set_solver|].
  apply NoDup_cons in Hab' as [? ?]. apply NoDup_cons. split; [set_solver|].
  apply NoDup_cons. split; [set_solver|done]. }
split; [|split; [|split]].
- apply NoDup_app. split; [done|]. split; [|done].
  intros q Hq HqK.
  destruct (decide (q = p)) as [->|]; [set_solver|].
  eapply (Hdis q); [set_solver|done].
- intros q Hq. rewrite Hlen.
  destruct (decide (q = p)) as [->|]; [done|]. apply Hv. set_solver.
- apply (linked_insert (nxt h) (prv h) (nxt h') (prv h') l1 a p b []); [done|done|..].
  + rewrite Hn. by rewrite decide_True.
  + rewrite Hn. rewrite decide_False by set_solver. by rewrite decide_True.
  + intros q H1 H2. rewrite Hn. by rewrite !decide_False.
  + rewrite Hp. rewrite decide_False by set_solver. by rewrite decide_True.
  + rewrite Hp. by rewrite decide_True.
  + intros q H1 H2. rewrite Hp. by rewrite !decide_False.
- eapply linked_frame; [exact HK|]. intros q Hq.
  assert (q ≠ a) by (intros ->; apply (Hdis a); [set_solver|done]).
  assert (q ≠ b) by (intros ->; apply (Hdis b); [set_solver|done]).
  assert (q ≠ p) by (intros ->; set_solver).
  rewrite Hn, Hp, !decide_False by done. done.
Qed.

End Shape.

Section Shape2.
Context {Key Value : Type}.
Implicit Types h : list (ArcNode.ArcNode (Key := Key) (Value := Value)).
Implicit Types L K l ms : list ptr.
Implicit Types x y z a b p q hd tl : ptr.

Lemma payload_value h h' q :
payload h' q = payload h q → value_at h' q = value_at h q.
Proof.
unfold payload, value_at. destruct (h' !! q), (h !! q); cbn; congruence.
Qed.

Lemma payload_count h h' q :
payload h' q = payload h q → count_at h' q = count_at h q.
Proof.
unfold payload, count_at. destruct (h' !! q), (h !! q); cbn; congruence.
Qed.

Lemma shape_last h hd ms tl K :
arc_shape h (hd :: ms ++ [tl]) K →
prv h tl = Some (default hd (last ms)).
Proof.
intros (_ & _ & HL & _).
destruct ms as [|x ms _] using rev_ind.
- apply (HL hd tl). apply adjacent_head.
- rewrite last_snoc. cbn. apply (HL x tl).
  rewrite <- app_assoc. apply (adjacent_app_r (hd :: ms)), adjacent_head.
Qed.

Lemma shape_first h hd ms tl K :
arc_shape h (hd :: ms ++ [tl]) K →
nxt h hd = Some (default tl (head ms)).
Proof.
intros (_ & _ & HL & _). destruct ms as [|x ms]; apply (HL hd); apply adjacent_head.
Qed.

Lemma shape_remove h hd m1 p m2 tl K :
arc_shape h (hd :: (m1 ++ p :: m2) ++ [tl]) K →
∃ h', ArcNode.unlink (Some p) h = Some h'
  ∧ length h' = length h
  ∧ (∀ q, payload h' q = payload h q)
  ∧ arc_shape h' (hd :: (m1 ++ m2) ++ [tl]) K.
Proof.
destruct (split_interior hd m1 p m2 tl) as (l1 & a & b & l2 & -> & ->).
apply shape_unlink.
Qed.

Lemma shape_push_front h hd ms tl p K :
arc_shape h (hd :: ms ++ [tl]) K →
(p < length h)%nat → p ∉ (hd :: ms ++ [tl]) ++ K →
∃ h', ArcNode.link_after hd (Some p) h = Some h'
  ∧ length h' = length h
  ∧ (∀ q, payload h' q = payload h q)
  ∧ arc_shape h' (hd :: (p :: ms) ++ [tl]) K.
Proof.
assert (∃ b l2, ms ++ [tl] = b :: l2) as (b & l2 & E).
{ destruct ms; by eexists _, _. }
cbn [app]. rewrite E. intros Hs Hp Hn.
by apply (shape_link_after h [] hd p b l2 K).
Qed.

Lemma shape_push_back h hd ms tl p K :
arc_shape h (hd :: ms ++ [tl]) K →
(p < length h)%nat → p ∉ (hd :: ms ++ [tl]) ++ K →
∃ h', ArcNode.link_before tl (Some p) h = Some h'
  ∧ length h' = length h
  ∧ (∀ q, payload h' q = payload h q)
  ∧ arc_shape h' (hd :: (ms ++ [p]) ++ [tl]) K.
Proof.
assert (∃ l1 a, hd :: ms = l1 ++ [a]) as (l1 & a & E).
{ destruct ms as [|x ms _] using rev_ind.
  - by exists [], hd.
  - by exists (hd :: ms), x. }
change (hd :: ms ++ [tl]) with ((hd :: ms) ++ [tl]).
change (hd :: (ms ++ [p]) ++ [tl]) with (((hd :: ms) ++ [p]) ++ [tl]).
rewrite E, <- !app_assoc. cbn [app]. intros Hs Hp Hn.
apply (shape_link_before h l1 a p tl [] K); [done..|].
by rewrite <- app_assoc.
Qed.

Lemma shape_move_front h hd m1 p m2 tl K :
arc_shape h (hd :: (m1 ++ p :: m2) ++ [tl]) K →
∃ h1 h', ArcNode.unlink (Some p) h = Some h1
  ∧ ArcNode.link_after hd (Some p) h1 = Some h'
  ∧ length h' = length h
  ∧ (∀ q, payload h' q = payload h q)
  ∧ arc_shape h' (hd :: (p :: m1 ++ m2) ++ [tl]) K.
Proof.
intros Hs. destruct (shape_remove _ _ _ _ _ _ _ Hs) as (h1 & Hu & Hl1 & Hy1 & Hs1).
destruct Hs as (Hnd & Hv & _).
destruct (shape_push_front h1 hd (m1 ++ m2) tl p K Hs1)
  as (h' & Hl & Hl2 & Hy2 & Hs2).
- rewrite Hl1. apply Hv. set_solver.
- apply NoDup_app in Hnd as (Hnd & Hdis & _).
  apply NoDup_cons in Hnd as [Hhd Hnd].
  rewrite <- app_assoc in Hnd. apply NoDup_app in Hnd as (_ & Hd1 & Hnd).
  apply NoDup_cons in Hnd as [Hp2 _].
  intros Hin. apply elem_of_app in Hin as [Hin|Hin].
  + apply elem_of_cons in Hin as [->|Hin]; [set_solver|].
    rewrite <- app_assoc in Hin. apply elem_of_app in Hin as [Hin|Hin].
    * by apply (Hd1 p Hin); left.
    * done.
  + apply (Hdis p); [set_solver|done].
- exists h1, h'. split; [done|]. split; [done|]. split; [lia|].
  split; [|done]. intros q. by rewrite Hy2, Hy1.
Qed.

End Shape2.

(** ** ArcLruPart: what its methods keep *)

Section ArcLruInv.
Context `{Countable Key} {Value : Type}.
Implicit Types c : ArcLru.ArcLruPart (Key := Key) (Value := Value).
Implicit Types h : list (ArcNode.ArcNode (Key := Key) (Value := Value)).
Implicit Types ms gs : list ptr.
Implicit Types p q : ptr.
Implicit Types key k : Key.
Implicit Types value : Value.

Ltac inv_open c Hinv :=
destruct c as [cap gcap thr mc gc mh mt gh gt h];
destruct Hinv as [(Hmh & Hmt & Hgh & Hgt) Hshape Hmain Hghost];
cbn [ArcLru.mainHead_ ArcLru.mainTail_ ArcLru.ghostHead_ ArcLru.ghostTail_
     ArcLru.nodes ArcLru.mainCache_ ArcLru.ghostCache_ ArcLru.capacity_
     ArcLru.ghostCapacity_ ArcLru.transformThreshold_] in *;
subst mh mt gh gt.

Ltac inv_keep c Hinv :=
let Hs := fresh "Hs" in
pose proof (alru_sentinels _ _ _ Hinv) as Hs;
destruct c as [cap gcap thr mc gc mh mt gh gt h];
cbn [ArcLru.mainHead_ ArcLru.mainTail_ ArcLru.ghostHead_ ArcLru.ghostTail_]
  in Hs;
destruct Hs as (-> & -> & -> & ->);
cbn [ArcLru.mainHead_ ArcLru.mainTail_ ArcLru.ghostHead_ ArcLru.ghostTail_
     ArcLru.nodes ArcLru.mainCache_ ArcLru.ghostCache_ ArcLru.capacity_
     ArcLru.ghostCapacity_ ArcLru.transformThreshold_].

Ltac lru_cbn :=
unfold ArcLru.with_nodes, ArcLru.with_mainCache, ArcLru.with_ghostCache,
  ArcLru.with_capacity;
cbn [ArcLru.mainHead_ ArcLru.mainTail_ ArcLru.ghostHead_ ArcLru.ghostTail_
     ArcLru.nodes ArcLru.mainCache_ ArcLru.ghostCache_ ArcLru.capacity_
     ArcLru.ghostCapacity_ ArcLru.transformThreshold_ mbind option_bind].

Lemma alru_new (Key0 : Key) (Value0 : Value) capacity transformThreshold :
arclru_inv (ArcLru.new Key0 Value0 capacity transformThreshold) [] [].
Proof.
split.
- done.
- split; [|split; [|split]].
  + cbn. repeat (apply NoDup_cons; split; [set_solver|]). apply NoDup_nil_2.
  + intros q Hq. cbn in *. set_solver by lia.
  + intros x y [[|[|i]] [H1 H2]]; cbn in H1, H2; try done.
    by injection H1 as <-; injection H2 as <-.
  + intros x y [[|[|i]] [H1 H2]]; cbn in H1, H2; try done.
    by injection H1 as <-; injection H2 as <-.
- intros k p. cbn. rewrite lookup_empty. split; [done|]. set_solver.
- intros k p. cbn. by rewrite lookup_empty.
Qed.

Lemma alru_valid c ms gs p :
arclru_inv c ms gs → p ∈ ms ++ gs → (p < length (ArcLru.nodes c))%nat.
Proof.
intros Hinv Hp. destruct Hinv as [_ (_ & Hv & _) _ _]. apply Hv. set_solver.
Qed.

Lemma alru_main_empty c ms gs :
arclru_inv c ms gs → (ArcLru.mainCache_ c = ∅ ↔ ms = []).
Proof.
intros Hinv. split.
- intros Hm. destruct ms as [|p ms]; [done|].
  assert (p < length (ArcLru.nodes c))%nat as Hp
    by (eapply alru_valid; [done|set_solver]).
  destruct (lookup_lt_is_Some_2 _ _ Hp) as [n Hn].
  assert (ArcLru.mainCache_ c !! ArcNode.key_ n = Some p) as E.
  { apply (alru_main_map _ _ _ Hinv). split; [set_solver|].
    unfold key_at. by rewrite Hn. }
  rewrite Hm in E. by rewrite lookup_empty in E.
- intros ->. apply map_empty. intros k.
  destruct (ArcLru.mainCache_ c !! k) as [p|] eqn:E; [|done].
  apply (alru_main_map _ _ _ Hinv) in E as [E _]. set_solver.
Qed.

(** A store that changes neither links nor key. *)
Lemma alru_store c ms gs p f :
arclru_inv c ms gs → (p < length (ArcLru.nodes c))%nat →
(∀ n, ArcNode.prev_ (f n) = ArcNode.prev_ n
      ∧ ArcNode.next_ (f n) = ArcNode.next_ n) →
(∀ n, ArcNode.key_ (f n) = ArcNode.key_ n) →
∃ h', ArcNode.store p f (ArcLru.nodes c) = Some h'
  ∧ arclru_inv (ArcLru.with_nodes h' c) ms gs
  ∧ length h' = length (ArcLru.nodes c)
  ∧ (∀ q, q ≠ p → h' !! q = ArcLru.nodes c !! q)
  ∧ h' !! p = f <$> ArcLru.nodes c !! p.
Proof.
intros Hinv Hp Hf Hk.
destruct (arc_store_Some (ArcLru.nodes c) p f Hp) as [h' Hs].
destruct (arc_store_payload _ _ _ _ Hf Hs) as (Hlen & Hn & Hpv & Hy & Hq & Hpp).
exists h'. split; [done|]. split; [|done].
assert (∀ q, key_at h' q = key_at (ArcLru.nodes c) q) as Hkey.
{ intros q. unfold key_at. destruct (decide (q = p)) as [->|Hne].
  - rewrite Hpp. destruct (ArcLru.nodes c !! p); cbn; [|done]. by rewrite Hk.
  - by rewrite Hq. }
inv_open c Hinv. split; lru_cbn.
- done.
- by eapply shape_frame.
- intros k q. rewrite Hkey. apply Hmain.
- intros k q. rewrite Hkey. apply Hghost.
Qed.

Lemma alru_moveToFront c ms gs p :
arclru_inv c ms gs → p ∈ ms →
∃ h' ms', ArcLru.moveToFront (Some p) c = Some (ArcLru.with_nodes h' c)
  ∧ arclru_inv (ArcLru.with_nodes h' c) ms' gs
  ∧ length h' = length (ArcLru.nodes c)
  ∧ (∀ q, payload h' q = payload (ArcLru.nodes c) q).
Proof.
intros Hinv Hp. apply list_elem_of_split in Hp as (m1 & m2 & ->).
inv_open c Hinv.
destruct (shape_move_front _ _ _ _ _ _ _ Hshape)
  as (h1 & h' & Hu & Hl & Hlen & Hy & Hs').
exists h', (p :: m1 ++ m2).
unfold ArcLru.moveToFront, ArcLru.addToFront. lru_cbn. rewrite Hu. lru_cbn.
rewrite Hl. lru_cbn. split; [done|]. split; [|done].
split; lru_cbn.
- done.
- done.
- intros k q. rewrite (payload_key _ _ _ (Hy q)), Hmain. set_solver.
- intros k q. rewrite (payload_key _ _ _ (Hy q)). apply Hghost.
Qed.


Lemma lookup_valid h p : (p < length h)%nat → ∃ n, h !! p = Some n.
Proof. intros Hp. by apply lookup_lt_is_Some_2. Qed.

Lemma prv_lookup h q a :
prv h q = Some a → ∃ n, h !! q = Some n ∧ ArcNode.prev_ n = Some a.
Proof. unfold prv. destruct (h !! q) as [n|]; [|done]. by exists n. Qed.

Lemma nxt_lookup h q a :
nxt h q = Some a → ∃ n, h !! q = Some n ∧ ArcNode.next_ n = Some a.
Proof. unfold nxt. destruct (h !! q) as [n|]; [|done]. by exists n. Qed.

Lemma key_at_lookup h q n : h !! q = Some n → key_at h q = Some (ArcNode.key_ n).
Proof. unfold key_at. by intros ->. Qed.

Lemma alru_removeOldestGhost_raw cap gcap thr mc gc h ms gs :
arc_shape h (0%nat :: ms ++ [1%nat]) (2%nat :: gs ++ [3%nat]) →
(∀ k p, gc !! k = Some p → p ∈ gs ∧ key_at h p = Some k) →
∃ h' g' gs',
  ArcLru.removeOldestGhost
    (ArcLru.mkPart cap gcap thr mc gc 0%nat 1%nat 2%nat 3%nat h)
  = Some (ArcLru.mkPart cap gcap thr mc g' 0%nat 1%nat 2%nat 3%nat h')
  ∧ arc_shape h' (0%nat :: ms ++ [1%nat]) (2%nat :: gs' ++ [3%nat])
  ∧ (∀ k p, g' !! k = Some p → p ∈ gs' ∧ key_at h' p = Some k)
  ∧ length h' = length h
  ∧ (∀ q, payload h' q = payload h q)
  ∧ g' ⊆ gc ∧ gs' ⊆ gs.
Proof.
intros Hshape Hghost. apply shape_sym in Hshape.
pose proof (shape_last _ _ _ _ _ Hshape) as Hlast.
destruct (prv_lookup _ _ _ Hlast) as (t & Ht & Hprev).
unfold ArcLru.removeOldestGhost. lru_cbn. rewrite Ht. lru_cbn. rewrite Hprev.
destruct gs as [|q g1 _] using rev_ind.
- cbn [last default from_option id]. rewrite decide_True by done.
  exists h, gc, []. split; [done|]. split; [by apply shape_sym|]. done.
- rewrite last_snoc. cbn [default from_option id].
  assert (q ≠ 2%nat) as Hq2.
  { destruct Hshape as (Hnd & _). apply NoDup_app in Hnd as (Hnd & _).
    apply NoDup_cons in Hnd as [Hnd _]. set_solver. }
  rewrite decide_False by congruence.
  destruct (shape_remove h 2%nat g1 q [] 3%nat _ Hshape)
    as (h' & Hu & Hlen & Hy & Hs').
  rewrite app_nil_r in Hs'.
  unfold ArcLru.removeFromGhost. lru_cbn. rewrite Hu. lru_cbn.
  assert (q < length h')%nat as Hqv.
  { rewrite Hlen. destruct Hshape as (_ & Hv & _). apply Hv. set_solver. }
  destruct (lookup_valid _ _ Hqv) as [n Hn]. rewrite Hn. lru_cbn.
  exists h', (delete (ArcNode.key_ n) gc), g1.
  split; [done|]. split; [by apply shape_sym|]. split; [|split; [done|]].
  + intros k p [Hk Hp]%lookup_delete_Some.
    destruct (Hghost k p Hp) as [Hin Hkey].
    rewrite (payload_key _ _ _ (Hy p)). split; [|done].
    apply elem_of_app in Hin as [Hin|Hin]; [done|].
    apply list_elem_of_singleton in Hin as ->.
    rewrite <- (payload_key _ _ _ (Hy q)), (key_at_lookup _ _ _ Hn) in Hkey.
    congruence.
  + split; [done|]. split; [apply delete_subseteq|]. set_solver.
Qed.


Lemma alru_evict c ms gs :
arclru_inv c ms gs →
∃ h' m' g' ms' gs',
  ArcLru.evictLeastRecent c
  = Some (ArcLru.with_mainCache m'
            (ArcLru.with_ghostCache g' (ArcLru.with_nodes h' c)))
  ∧ arclru_inv (ArcLru.with_mainCache m'
                  (ArcLru.with_ghostCache g' (ArcLru.with_nodes h' c)))
               ms' gs'
  ∧ length h' = length (ArcLru.nodes c)
  ∧ (∀ q, key_at h' q = key_at (ArcLru.nodes c) q)
  ∧ (∀ q, value_at h' q = value_at (ArcLru.nodes c) q)
  ∧ m' ⊆ ArcLru.mainCache_ c
  ∧ (ArcLru.mainCache_ c ≠ ∅ → zsize m' = zsize (ArcLru.mainCache_ c) - 1)
  ∧ (∀ k, ArcLru.mainCache_ c !! k = None →
          ArcLru.ghostCache_ c !! k = None → g' !! k = None).
Proof.
intros Hinv. inv_open c Hinv.
pose proof (shape_last _ _ _ _ _ Hshape) as Hlast.
destruct (prv_lookup _ _ _ Hlast) as (t & Ht & Hprev).
unfold ArcLru.evictLeastRecent. lru_cbn. rewrite Ht. lru_cbn. rewrite Hprev.
destruct ms as [|p m1 _] using rev_ind.
{ cbn [last default from_option id]. rewrite decide_True by done.
  exists h, mc, gc, [], gs. split; [done|]. split; [by split|].
  split; [done|]. split; [done|]. split; [done|]. split; [done|].
  split; [|done]. intros Hne. exfalso. apply Hne. apply map_empty. intros k.
  destruct (mc !! k) as [q|] eqn:E; [|done].
  apply Hmain in E as [E _]. set_solver. }
rewrite last_snoc. cbn [default from_option id].
pose proof Hshape as (Hnd & Hv & _).
assert (p ≠ 0%nat) as Hp0.
{ apply NoDup_app in Hnd as (Hnd & _).
  apply NoDup_cons in Hnd as [Hnd _]. set_solver. }
rewrite decide_False by congruence.
destruct (shape_remove h 0%nat m1 p [] 1%nat _ Hshape)
  as (h1 & Hu & Hlen1 & Hy1 & Hs1).
rewrite app_nil_r in Hs1.
unfold ArcLru.removeFromMain. lru_cbn. rewrite Hu. lru_cbn.
assert (∃ h2 g2 gs2,
  (if decide (gcap ≤ zsize gc)
   then ArcLru.removeOldestGhost
          (ArcLru.mkPart cap gcap thr mc gc 0%nat 1%nat 2%nat 3%nat h1)
   else Some (ArcLru.mkPart cap gcap thr mc gc 0%nat 1%nat 2%nat 3%nat h1))
  = Some (ArcLru.mkPart cap gcap thr mc g2 0%nat 1%nat 2%nat 3%nat h2)
  ∧ arc_shape h2 (0%nat :: m1 ++ [1%nat]) (2%nat :: gs2 ++ [3%nat])
  ∧ (∀ k q, g2 !! k = Some q → q ∈ gs2 ∧ key_at h2 q = Some k)
  ∧ length h2 = length h1
  ∧ (∀ q, payload h2 q = payload h1 q)
  ∧ g2 ⊆ gc ∧ gs2 ⊆ gs) as (h2 & g2 & gs2 & -> & Hs2 & Hg2 & Hlen2 & Hy2 & Hsub & Hgsub).
{ case_decide.
  - apply alru_removeOldestGhost_raw; [done|].
    intros k q Hk. rewrite (payload_key _ _ _ (Hy1 q)). by apply Hghost.
  - exists h1, gc, gs. split; [done|]. split; [done|]. split; [|done].
    intros k q Hk. rewrite (payload_key _ _ _ (Hy1 q)). by apply Hghost. }
lru_cbn. unfold ArcLru.addToGhost. lru_cbn.
assert (p < length h)%nat as Hpv by (apply Hv; set_solver).
destruct (arc_store_Some h2 p (ArcNode.set_accessCount 1)) as [h3 Hst];
  [lia|]. rewrite Hst. lru_cbn.
destruct (arc_store_payload h2 p (ArcNode.set_accessCount 1) h3)
  as (Hlen3 & Hn3 & Hp3 & _ & Hq3 & Hpp3); [done|done|].
assert (arc_shape h3 (2%nat :: gs2 ++ [3%nat]) (0%nat :: m1 ++ [1%nat])) as Hs3.
{ apply shape_sym. by eapply shape_frame. }
destruct (shape_push_front h3 2%nat gs2 3%nat p _ Hs3)
  as (h4 & Hl4 & Hlen4 & Hy4 & Hs4); [lia| |].
{ clear -Hnd Hgsub. intros Hin.
  apply NoDup_app in Hnd as (Hnd & Hdis & _).
  apply NoDup_cons in Hnd as [Hhd Hnd].
  rewrite <- app_assoc in Hnd. apply NoDup_app in Hnd as (_ & Hd1 & Hnd).
  apply NoDup_cons in Hnd as [Hp2 _].
  apply elem_of_app in Hin as [Hin|Hin].
  - apply (Hdis p); [set_solver|]. set_solver.
  - apply elem_of_cons in Hin as [->|Hin]; [set_solver|].
    apply elem_of_app in Hin as [Hin|Hin]; [|set_solver].
    apply (Hd1 p Hin). set_solver. }
rewrite Hl4. lru_cbn.
destruct (lookup_valid h4 p) as [n Hn]; [lia|]. rewrite Hn. lru_cbn.
rewrite Hn. lru_cbn.
assert (∀ q, key_at h3 q = key_at h2 q) as Hk3.
{ intros q. unfold key_at. destruct (decide (q = p)) as [->|Hne].
  - rewrite Hpp3. by destruct (h2 !! p).
  - by rewrite Hq3. }
assert (∀ q, value_at h3 q = value_at h2 q) as Hv3.
{ intros q. unfold value_at. destruct (decide (q = p)) as [->|Hne].
  - rewrite Hpp3. by destruct (h2 !! p).
  - by rewrite Hq3. }
assert (∀ q, key_at h4 q = key_at h q) as Hkey.
{ intros q. by rewrite (payload_key _ _ _ (Hy4 q)), Hk3,
    (payload_key _ _ _ (Hy2 q)), (payload_key _ _ _ (Hy1 q)). }
assert (∀ q, value_at h4 q = value_at h q) as Hval.
{ intros q. by rewrite (payload_value _ _ _ (Hy4 q)), Hv3,
    (payload_value _ _ _ (Hy2 q)), (payload_value _ _ _ (Hy1 q)). }
assert (key_at h p = Some (ArcNode.key_ n)) as Hkp.
{ rewrite <- Hkey. by apply key_at_lookup. }
assert (mc !! ArcNode.key_ n = Some p) as Hmp.
{ apply Hmain. split; [set_solver|done]. }
exists h4, (delete (ArcNode.key_ n) mc), (<[ArcNode.key_ n := p]> g2),
  m1, (p :: gs2).
split; [done|]. split; [split; lru_cbn|].
- done.
- by apply shape_sym.
- intros k q. rewrite Hkey. rewrite lookup_delete_Some, Hmain. split.
  + intros (Hne & Hin & Hkq). split; [|done].
    apply elem_of_app in Hin as [Hin|Hin]; [done|].
    apply list_elem_of_singleton in Hin as ->. congruence.
  + intros [Hin Hkq]. split; [|split; [set_solver|done]].
    intros <-. assert (mc !! ArcNode.key_ n = Some q) as E
      by (apply Hmain; split; [set_solver|done]).
    rewrite Hmp in E. injection E as <-.
    apply NoDup_app in Hnd as (Hnd & _).
    apply NoDup_cons in Hnd as [_ Hnd]. rewrite <- app_assoc in Hnd.
    apply NoDup_app in Hnd as (_ & Hd1 & _). apply (Hd1 p Hin). set_solver.
- intros k q. rewrite lookup_insert_Some. intros [[<- <-]|[Hne Hk]].
  + split; [set_solver|]. by apply key_at_lookup.
  + destruct (Hg2 k q Hk) as [Hin Hkq]. split; [set_solver|].
    by rewrite (payload_key _ _ _ (Hy4 q)), Hk3.
- split; [lia|]. split; [done|]. split; [done|].
  split; [apply delete_subseteq|]. split.
  + intros _. unfold zsize. rewrite map_size_delete_Some by done.
    assert (size mc ≠ 0%nat); [|lia].
    intros Hz. apply map_size_empty_iff in Hz. by rewrite Hz in Hmp.
  + intros k Hk1 Hk2. rewrite lookup_insert_ne by congruence.
    by eapply lookup_weaken_None.
Qed.


Lemma alru_with_capacity c ms gs n :
arclru_inv c ms gs → arclru_inv (ArcLru.with_capacity n c) ms gs.
Proof. intros Hinv. inv_open c Hinv. by split. Qed.

Lemma key_at_alloc h n q :
key_at (h ++ [n]) q
= if decide (q = length h) then Some (ArcNode.key_ n) else key_at h q.
Proof.
unfold key_at. case_decide as Hq.
- subst q. by rewrite list_lookup_middle.
- destruct (decide (q < length h)%nat).
  + by rewrite lookup_app_l.
  + rewrite !lookup_ge_None_2; [done|lia|]. rewrite length_app. cbn. lia.
Qed.

Lemma alru_put c ms gs key value :
arclru_inv c ms gs →
∃ b c' ms' gs', ArcLru.put key value c = Some (b, c')
  ∧ arclru_inv c' ms' gs'
  ∧ ArcLru.capacity_ c' = ArcLru.capacity_ c
  ∧ (ArcLru.capacity_ c ≠ 0 →
     ∃ p, ArcLru.mainCache_ c' !! key = Some p
          ∧ value_at (ArcLru.nodes c') p = Some value)
  ∧ (ArcLru.capacity_ c = 0 → c' = c)
  ∧ (ArcLru.ghostCache_ c !! key = None →
     ArcLru.ghostCache_ c' !! key = None)
  ∧ (0 ≤ ArcLru.capacity_ c →
     zsize (ArcLru.mainCache_ c) ≤ ArcLru.capacity_ c →
     zsize (ArcLru.mainCache_ c') ≤ ArcLru.capacity_ c).
Proof.
intros Hinv. unfold ArcLru.put. inv_keep c Hinv.
destruct (decide (cap = 0)) as [Hz|Hnz].
{ eexists false, _, ms, gs. split; [done|]. split; [done|]. split; [done|].
  split; [done|]. done. }
destruct (mc !! key) as [p|] eqn:Hk.
- (* update of a resident key *)
  assert (p ∈ ms) as Hp by (by apply (alru_main_map _ _ _ Hinv) in Hk as [? _]).
  assert (p < length h)%nat as Hpv
    by (eapply (alru_valid _ _ _ _ Hinv); set_solver).
  destruct (alru_store _ ms gs p (ArcNode.setValue value) Hinv)
    as (h1 & Hst & Hinv1 & Hlen1 & Hq1 & Hp1); [done..|].
  destruct (alru_moveToFront _ _ _ p Hinv1 Hp)
    as (h2 & ms' & Hmv & Hinv2 & Hlen2 & Hy2).
  unfold ArcLru.updateExistingNode. lru_cbn.
  unfold ArcLru.with_nodes in *.
  cbn [ArcLru.mainHead_ ArcLru.mainTail_ ArcLru.ghostHead_ ArcLru.ghostTail_
     ArcLru.nodes ArcLru.mainCache_ ArcLru.ghostCache_ ArcLru.capacity_
     ArcLru.ghostCapacity_ ArcLru.transformThreshold_] in *.
  rewrite Hst. sb. rewrite Hmv. sb.
  eexists true, _, ms', gs. split; [done|]. split; [done|]. split; [done|].
  split; [|done]. intros _. exists p. split; [done|]. cbn [ArcLru.nodes].
  rewrite (payload_value _ _ _ (Hy2 p)). unfold value_at. rewrite Hp1.
  by destruct (lookup_valid h p Hpv) as [n ->].
- (* a new key *)
  unfold ArcLru.addNewNode. lru_cbn.
  assert (∃ h1 m1 g1 ms1 gs1,
    (if decide (cap ≤ zsize mc)
     then ArcLru.evictLeastRecent
            (ArcLru.mkPart cap gcap thr mc gc 0%nat 1%nat 2%nat 3%nat h)
     else Some (ArcLru.mkPart cap gcap thr mc gc 0%nat 1%nat 2%nat 3%nat h))
    = Some (ArcLru.mkPart cap gcap thr m1 g1 0%nat 1%nat 2%nat 3%nat h1)
    ∧ arclru_inv (ArcLru.mkPart cap gcap thr m1 g1 0%nat 1%nat 2%nat 3%nat h1)
                 ms1 gs1
    ∧ m1 ⊆ mc
    ∧ (0 ≤ cap → zsize mc ≤ cap → zsize m1 < cap)
    ∧ (gc !! key = None → g1 !! key = None))
    as (h1 & m1 & g1 & ms1 & gs1 & -> & Hinv1 & Hsub & Hsz & Hgk).
  { case_decide as Hfull.
    - destruct (alru_evict _ ms gs Hinv)
        as (h1 & m1 & g1 & ms1 & gs1 & -> & Hinv1 & _ & _ & _ & Hsub & Hsz & Hgk).
      exists h1, m1, g1, ms1, gs1. split; [done|]. split; [done|].
      split; [done|]. split; [|by apply Hgk].
      intros Hc0 Hb. cbn [ArcLru.mainCache_] in Hsz. rewrite Hsz; [lia|].
      intros Hm. rewrite Hm in Hfull.
      unfold zsize in Hfull. rewrite map_size_empty in Hfull. lia.
    - exists h, mc, gc, ms, gs. split; [done|]. split; [done|].
      split; [done|]. split; [|done]. lia. }
  sb. destruct Hinv1 as [_ Hshape Hmain Hghost].
  cbn [ArcLru.mainHead_ ArcLru.mainTail_ ArcLru.ghostHead_ ArcLru.ghostTail_
     ArcLru.nodes ArcLru.mainCache_ ArcLru.ghostCache_ ArcLru.capacity_
     ArcLru.ghostCapacity_ ArcLru.transformThreshold_] in *.
  unfold ArcNode.alloc. unfold ArcLru.addToFront. lru_cbn.
  set (n := ArcNode.newNode key value).
  pose proof (shape_alloc _ _ _ n Hshape) as Hshape'.
  pose proof Hshape as (_ & Hv & _).
  destruct (shape_push_front (h1 ++ [n]) 0%nat ms1 1%nat (length h1) _ Hshape')
    as (h3 & Hl3 & Hlen3 & Hy3 & Hs3).
  { rewrite length_app. cbn. lia. }
  { intros Hin. apply Hv in Hin. lia. }
  rewrite Hl3. sb.
  assert (m1 !! key = None) as Hk1 by (by eapply lookup_weaken_None).
  assert (∀ q, key_at h3 q
               = if decide (q = length h1) then Some key else key_at h1 q)
    as Hkey.
  { intros q. by rewrite (payload_key _ _ _ (Hy3 q)), key_at_alloc. }
  eexists true, _, (length h1 :: ms1), gs1. split; [done|].
  split; [split; lru_cbn|].
  + done.
  + done.
  + intros k q. rewrite Hkey, lookup_insert_Some. split.
    * intros [[<- <-]|[Hne Hq]].
      -- split; [set_solver|]. by rewrite decide_True.
      -- apply Hmain in Hq as [Hin Hkq]. split; [set_solver|].
         rewrite decide_False; [done|]. intros ->.
         assert (length h1 < length h1)%nat; [|lia]. apply Hv. set_solver.
    * intros [Hin Hkq]. case_decide as Hq.
      -- left. split; [congruence|done].
      -- right. apply elem_of_cons in Hin as [->|Hin]; [done|].
         assert (m1 !! k = Some q) as E by (by apply Hmain).
         split; [|done]. intros <-. by rewrite Hk1 in E.
  + intros k q Hq. apply Hghost in Hq as [Hin Hkq]. split; [done|].
    rewrite Hkey. rewrite decide_False; [done|]. intros ->.
    assert (length h1 < length h1)%nat; [|lia]. apply Hv. set_solver.
  + lru_cbn. split; [done|]. split.
    * intros _. exists (length h1). rewrite lookup_insert_eq. split; [done|].
      rewrite (payload_value _ _ _ (Hy3 _)). unfold value_at.
      by rewrite list_lookup_middle.
    * split; [done|]. split; [done|]. intros Hc0 Hb.
      specialize (Hsz Hc0 Hb). unfold zsize in *.
      rewrite map_size_insert_None by done. lia.
Qed.


Lemma alru_get c ms gs key :
arclru_inv c ms gs →
∃ r c' ms', ArcLru.get key c = Some (r, c')
  ∧ arclru_inv c' ms' gs
  ∧ ArcLru.mainCache_ c' = ArcLru.mainCache_ c
  ∧ ArcLru.ghostCache_ c' = ArcLru.ghostCache_ c
  ∧ ArcLru.capacity_ c' = ArcLru.capacity_ c
  ∧ (∀ p, ArcLru.mainCache_ c !! key = Some p →
       ∃ v t, r = Some (v, t) ∧ value_at (ArcLru.nodes c) p = Some v)
  ∧ (ArcLru.mainCache_ c !! key = None → r = None ∧ c' = c).
Proof.
intros Hinv. unfold ArcLru.get. inv_keep c Hinv.
destruct (mc !! key) as [p|] eqn:Hk.
2:{ exists None, (ArcLru.mkPart cap gcap thr mc gc 0%nat 1%nat 2%nat 3%nat h), ms.
    split; [done|]. split; [done|]. split; [done|]. split; [done|].
    split; [done|]. split; [done|]. done. }
assert (p ∈ ms) as Hp by (by apply (alru_main_map _ _ _ Hinv) in Hk as [? _]).
assert (p < length h)%nat as Hpv
  by (eapply (alru_valid _ _ _ _ Hinv); set_solver).
destruct (alru_moveToFront _ _ _ p Hinv Hp)
  as (h1 & ms' & Hmv & Hinv1 & Hlen1 & Hy1).
cbn [ArcLru.nodes] in Hlen1, Hy1.
destruct (alru_store _ ms' gs p ArcNode.increaseAccessCount Hinv1)
  as (h2 & Hst & Hinv2 & Hlen2 & Hq2 & Hp2);
  [unfold ArcLru.with_nodes; cbn [ArcLru.nodes]; lia|done|done|].
unfold ArcLru.updateNodeAccess. rewrite Hmv. sb.
unfold ArcLru.with_nodes in *.
cbn [ArcLru.mainHead_ ArcLru.mainTail_ ArcLru.ghostHead_ ArcLru.ghostTail_
   ArcLru.nodes ArcLru.mainCache_ ArcLru.ghostCache_ ArcLru.capacity_
   ArcLru.ghostCapacity_ ArcLru.transformThreshold_] in *.
rewrite Hst. sb.
destruct (lookup_valid h2 p) as [n2 Hn2]; [lia|]. rewrite Hn2. sb.
cbn [ArcLru.nodes]. rewrite Hn2. sb.
eexists _, _, ms'. split; [done|]. split; [done|]. split; [done|].
split; [done|]. split; [done|]. split; [|done].
intros ? [= <-]. eexists _, _. split; [done|].
rewrite <- (payload_value _ _ _ (Hy1 p)). unfold value_at.
rewrite Hp2 in Hn2. destruct (h1 !! p) as [n1|]; [|done].
cbn in Hn2. injection Hn2 as <-. done.
Qed.

Lemma alru_checkGhost c ms gs key :
arclru_inv c ms gs →
∃ b c' gs', ArcLru.checkGhost key c = Some (b, c')
  ∧ arclru_inv c' ms gs'
  ∧ ArcLru.mainCache_ c' = ArcLru.mainCache_ c
  ∧ ArcLru.capacity_ c' = ArcLru.capacity_ c
  ∧ ArcLru.ghostCache_ c' = delete key (ArcLru.ghostCache_ c)
  ∧ (∀ q, payload (ArcLru.nodes c') q = payload (ArcLru.nodes c) q)
  ∧ (ArcLru.ghostCache_ c !! key = None → b = false ∧ c' = c).
Proof.
intros Hinv. unfold ArcLru.checkGhost. inv_keep c Hinv.
destruct (gc !! key) as [p|] eqn:Hk.
2:{ exists false, (ArcLru.mkPart cap gcap thr mc gc 0%nat 1%nat 2%nat 3%nat h), gs.
    split; [done|]. split; [done|]. split; [done|]. split; [done|].
    split; [by rewrite delete_id|]. done. }
destruct Hinv as [_ Hshape Hmain Hghost].
cbn [ArcLru.mainHead_ ArcLru.mainTail_ ArcLru.ghostHead_ ArcLru.ghostTail_
   ArcLru.nodes ArcLru.mainCache_ ArcLru.ghostCache_ ArcLru.capacity_
   ArcLru.ghostCapacity_ ArcLru.transformThreshold_] in *.
destruct (Hghost key p Hk) as [Hp Hkp].
apply list_elem_of_split in Hp as (g1 & g2 & ->).
apply shape_sym in Hshape.
destruct (shape_remove _ _ _ _ _ _ _ Hshape) as (h' & Hu & Hlen & Hy & Hs').
unfold ArcLru.removeFromGhost. lru_cbn. rewrite Hu. sb. lru_cbn.
eexists true, _, (g1 ++ g2). split; [done|]. split; [split; lru_cbn|].
- done.
- by apply shape_sym.
- intros k q. rewrite (payload_key _ _ _ (Hy q)). apply Hmain.
- intros k q [Hne Hq]%lookup_delete_Some.
  destruct (Hghost k q Hq) as [Hin Hkq].
  rewrite (payload_key _ _ _ (Hy q)). split; [|done].
  assert (q ≠ p) by congruence. set_solver.
- lru_cbn. done.
Qed.

Lemma alru_decreaseCapacity c ms gs :
arclru_inv c ms gs →
∃ b c' ms' gs', ArcLru.decreaseCapacity c = Some (b, c')
  ∧ arclru_inv c' ms' gs'
  ∧ (b = false → c' = c ∧ ArcLru.capacity_ c ≤ 0)
  ∧ (b = true → 0 < ArcLru.capacity_ c
               ∧ ArcLru.capacity_ c' = ArcLru.capacity_ c - 1)
  ∧ (zsize (ArcLru.mainCache_ c) ≤ ArcLru.capacity_ c →
     zsize (ArcLru.mainCache_ c') ≤ ArcLru.capacity_ c').
Proof.
intros Hinv. unfold ArcLru.decreaseCapacity. inv_keep c Hinv.
destruct (decide (cap ≤ 0)) as [Hz|Hnz].
{ eexists false, _, ms, gs. split; [done|]. split; [done|]. done. }
destruct (decide (zsize mc = cap)) as [Hfull|Hnf].
- destruct (alru_evict _ ms gs Hinv)
    as (h1 & m1 & g1 & ms1 & gs1 & -> & Hinv1 & _ & _ & _ & Hsub & Hsz & Hgk).
  sb. lru_cbn. eexists true, _, ms1, gs1. split; [done|].
  split; [by apply (alru_with_capacity _ _ _ (cap - 1)) in Hinv1|].
  split; [done|]. split; [intros _; split; [lia|done]|].
  intros _. cbn [ArcLru.mainCache_ ArcLru.capacity_] in *.
  rewrite Hsz; [lia|].
  intros Hm. rewrite Hm in Hfull. unfold zsize in Hfull.
  rewrite map_size_empty in Hfull. lia.
- sb. lru_cbn. eexists true, _, ms, gs. split; [done|].
  split; [by apply (alru_with_capacity _ _ _ (cap - 1)) in Hinv|].
  split; [done|]. split; [intros _; split; [lia|done]|].
  cbn [ArcLru.mainCache_ ArcLru.capacity_]. lia.
Qed.

End ArcLruInv.

(** ** ArcLfuPart: what its methods keep *)

Section ArcLfuInv.
Context `{Countable Key} {Value : Type}.
Implicit Types c : ArcLfu.ArcLfuPart (Key := Key) (Value := Value).
Implicit Types h : list (ArcNode.ArcNode (Key := Key) (Value := Value)).
Implicit Types gs : list ptr.
Implicit Types p q : ptr.
Implicit Types key k : Key.
Implicit Types value : Value.

Ltac lfu_proj :=
cbn [ArcLfu.ghostHead_ ArcLfu.ghostTail_ ArcLfu.nodes ArcLfu.mainCache_
     ArcLfu.ghostCache_ ArcLfu.capacity_ ArcLfu.ghostCapacity_
     ArcLfu.transformThreshold_ ArcLfu.minFreq_ ArcLfu.freqMap_].

Ltac lfu_proj_in_all :=
cbn [ArcLfu.ghostHead_ ArcLfu.ghostTail_ ArcLfu.nodes ArcLfu.mainCache_
     ArcLfu.ghostCache_ ArcLfu.capacity_ ArcLfu.ghostCapacity_
     ArcLfu.transformThreshold_ ArcLfu.minFreq_ ArcLfu.freqMap_] in *.

Ltac lfu_cbn :=
unfold ArcLfu.with_nodes, ArcLfu.with_mainCache, ArcLfu.with_ghostCache,
  ArcLfu.with_capacity, ArcLfu.with_freqMap, ArcLfu.with_minFreq;
cbn [ArcLfu.ghostHead_ ArcLfu.ghostTail_ ArcLfu.nodes ArcLfu.mainCache_
     ArcLfu.ghostCache_ ArcLfu.capacity_ ArcLfu.ghostCapacity_
     ArcLfu.transformThreshold_ ArcLfu.minFreq_ ArcLfu.freqMap_
     mbind option_bind].

Ltac lfu_keep c Hinv :=
let Hs := fresh "Hs" in
pose proof (alfu_sentinels _ _ Hinv) as Hs;
destruct c as [cap gcap thr mf mc gc fm gh gt h];
cbn [ArcLfu.ghostHead_ ArcLfu.ghostTail_] in Hs;
destruct Hs as (-> & ->);
lfu_proj.

Lemma alfu_new (Key0 : Key) (Value0 : Value) capacity transformThreshold :
arclfu_inv (ArcLfu.new Key0 Value0 capacity transformThreshold) [].
Proof.
split.
- done.
- split; [|split; [|split]].
  + cbn. repeat (apply NoDup_cons; split; [set_solver|]). apply NoDup_nil_2.
  + intros q Hq. cbn in *. set_solver by lia.
  + intros x y [[|[|i]] [H1 H2]]; cbn in H1, H2; try done.
    by injection H1 as <-; injection H2 as <-.
  + intros x y [i [H1 H2]]. done.
- intros k p. cbn. by rewrite lookup_empty.
- intros k p. cbn. by rewrite lookup_empty.
- intros f l. cbn. by rewrite lookup_empty.
Qed.

Lemma alfu_with_capacity c gs n :
arclfu_inv c gs → arclfu_inv (ArcLfu.with_capacity n c) gs.
Proof. intros Hinv. destruct c. destruct Hinv. by split. Qed.

Lemma count_at_lookup h q n :
h !! q = Some n → count_at h q = Some (ArcNode.accessCount_ n).
Proof. unfold count_at. by intros ->. Qed.

Lemma u64_succ_ne z : u64 (z + 1) ≠ z.
Proof.
unfold u64. intros E.
pose proof (Z.mod_pos_bound (z + 1) (2 ^ 64) ltac:(lia)) as Hb.
destruct (decide (z + 1 < 2 ^ 64)).
- rewrite Z.mod_small in E by lia. lia.
- assert (z = 2 ^ 64 - 1) as -> by lia.
  replace (2 ^ 64 - 1 + 1) with (2 ^ 64) in E by lia.
  rewrite Z.mod_same in E by lia. lia.
Qed.


Lemma alfu_removeOldestGhost c gs :
arclfu_inv c gs →
∃ h' g' gs',
  ArcLfu.removeOldestGhost c
  = Some (ArcLfu.with_ghostCache g' (ArcLfu.with_nodes h' c))
  ∧ arclfu_inv (ArcLfu.with_ghostCache g' (ArcLfu.with_nodes h' c)) gs'
  ∧ length h' = length (ArcLfu.nodes c)
  ∧ (∀ q, payload h' q = payload (ArcLfu.nodes c) q)
  ∧ g' ⊆ ArcLfu.ghostCache_ c ∧ gs' ⊆ gs.
Proof.
intros Hinv. lfu_keep c Hinv.
destruct Hinv as [_ Hshape Hghost Hmain Hfreq]. lfu_proj_in_all.
pose proof (shape_first _ _ _ _ _ Hshape) as Hfirst.
destruct (nxt_lookup _ _ _ Hfirst) as (hd & Hhd & Hnext).
unfold ArcLfu.removeOldestGhost. lfu_cbn. rewrite Hhd. lfu_cbn. rewrite Hnext.
destruct gs as [|q g1].
- cbn [head default from_option id]. rewrite decide_False by (by intros []).
  exists h, gc, []. split; [done|]. split; [by split|]. done.
- cbn [head default from_option id].
  assert (q ≠ 1%nat) as Hq1.
  { destruct Hshape as (Hnd & _). rewrite app_nil_r in Hnd.
    apply NoDup_cons in Hnd as [_ Hnd]. apply NoDup_cons in Hnd as [Hnd _].
    set_solver. }
  rewrite decide_True by congruence.
  destruct (shape_remove h 0%nat [] q g1 1%nat _ Hshape)
    as (h' & Hu & Hlen & Hy & Hs').
  cbn [app] in Hs'.
  unfold ArcLfu.removeFromGhost. lfu_cbn. rewrite Hu. lfu_cbn.
  assert (q < length h')%nat as Hqv.
  { rewrite Hlen. destruct Hshape as (_ & Hv & _). apply Hv. set_solver. }
  destruct (lookup_valid _ _ Hqv) as [n Hn]. rewrite Hn. lfu_cbn.
  exists h', (delete (ArcNode.key_ n) gc), g1.
  split; [done|]. split; [split; lfu_cbn|].
  + done.
  + done.
  + intros k p [Hk Hp]%lookup_delete_Some.
    destruct (Hghost k p Hp) as [Hin Hkey].
    rewrite (payload_key _ _ _ (Hy p)). split; [|done].
    apply elem_of_cons in Hin as [->|Hin]; [|done].
    rewrite <- (payload_key _ _ _ (Hy q)), (key_at_lookup _ _ _ Hn) in Hkey.
    congruence.
  + intros k p Hp. destruct (Hmain k p Hp) as (Hv & Hn' & Hk).
    rewrite Hlen, (payload_key _ _ _ (Hy p)). split; [done|].
    split; [set_solver|done].
  + intros f l Hl. destruct (Hfreq f l Hl) as [Hnd Hall]. split; [done|].
    intros p Hp. destruct (Hall p Hp) as (Hv & Hn' & Hc).
    rewrite Hlen, (payload_count _ _ _ (Hy p)). split; [done|].
    split; [set_solver|done].
  + split; [done|]. split; [done|]. split; [apply delete_subseteq|].
    set_solver.
Qed.


(** Moving [node] from the list of its old frequency to the end of the
  list of its new one. *)
Lemma alfu_freq_step h h' gs fm fm1 node old new :
arclfu_freq_ok h gs fm →
length h' = length h →
(∀ q, q ≠ node → count_at h' q = count_at h q) →
count_at h node = Some old → count_at h' node = Some new → new ≠ old →
(node ∉ 0%nat :: gs ++ [1%nat]) →
(fm1 = delete old fm
 ∨ fm1 = <[old := filter (λ q, q ≠ node) (default [] (fm !! old))]> fm) →
arclfu_freq_ok h' gs
  (<[new := default [] (fm1 !! new) ++ [node]]> fm1).
Proof.
intros Hfreq Hlen Hcnt Hold Hnew Hne Hng Hfm1.
assert (node < length h)%nat as Hnv.
{ unfold count_at in Hold. destruct (h !! node) eqn:E; [|done].
  by eapply lookup_lt_Some. }
assert (fm1 !! new = fm !! new) as Hnewl.
{ destruct Hfm1 as [-> | ->].
  - by rewrite lookup_delete_ne.
  - by rewrite lookup_insert_ne. }
assert (∀ f l, f ≠ new → fm1 !! f = Some l →
        NoDup l
        ∧ ∀ p, p ∈ l → p ≠ node ∧ ∃ l0, fm !! f = Some l0 ∧ p ∈ l0)
  as Hother.
{ intros f l Hf Hl. destruct Hfm1 as [-> | ->].
  - apply lookup_delete_Some in Hl as [Hfo Hl].
    destruct (Hfreq f l Hl) as [Hnd Hall]. split; [done|].
    intros p Hp. split; [|by exists l]. intros ->.
    destruct (Hall node Hp) as (_ & _ & Hc). congruence.
  - apply lookup_insert_Some in Hl as [[<- <-]|[Hfo Hl]].
    + destruct (fm !! old) as [l0|] eqn:E; cbn [default from_option id].
      * destruct (Hfreq old l0 E) as [Hnd _].
        split; [by apply NoDup_filter|].
        intros p Hp. apply list_elem_of_filter in Hp as [Hp1 Hp2].
        split; [exact Hp1|]. by exists l0.
      * rewrite filter_nil. split; [apply NoDup_nil_2|]. set_solver.
    + destruct (Hfreq f l Hl) as [Hnd Hall]. split; [done|].
      intros p Hp. split; [|by exists l]. intros ->.
      destruct (Hall node Hp) as (_ & _ & Hc). congruence. }
intros f l Hl. apply lookup_insert_Some in Hl as [[<- <-]|[Hf Hl]].
- rewrite Hnewl.
  assert (NoDup (default [] (fm !! new))
          ∧ ∀ p, p ∈ default [] (fm !! new) →
              (p < length h)%nat ∧ (p ∉ 0%nat :: gs ++ [1%nat])
              ∧ count_at h p = Some new) as [Hnd Hall].
  { destruct (fm !! new) as [l0|] eqn:E; cbn [default from_option id].
    - by apply Hfreq.
    - split; [apply NoDup_nil_2|]. set_solver. }
  assert (node ∉ default [] (fm !! new)) as Hnin.
  { intros Hin. destruct (Hall node Hin) as (_ & _ & Hc). congruence. }
  split.
  + apply NoDup_app. split; [done|]. split; [|apply NoDup_singleton].
    intros p Hp ->%list_elem_of_singleton. done.
  + intros p [Hp| ->%list_elem_of_singleton]%elem_of_app.
    * destruct (Hall p Hp) as (Hv & Hg & Hc). rewrite Hlen.
      split; [done|]. split; [done|]. rewrite Hcnt; [done|].
      intros ->. done.
    * rewrite Hlen. done.
- destruct (Hother f l (not_eq_sym Hf) Hl) as (Hnd & Hsub).
  split; [done|]. intros p Hp.
  destruct (Hsub p Hp) as (Hpn & l0 & Hl0 & Hp0).
  destruct (Hfreq f l0 Hl0) as [_ Hall].
  destruct (Hall p Hp0) as (Hv & Hg & Hc). rewrite Hlen, Hcnt by done. done.
Qed.

Lemma alfu_updateNodeFrequency c gs node :
arclfu_inv c gs →
(node < length (ArcLfu.nodes c))%nat → (node ∉ 0%nat :: gs ++ [1%nat]) →
∃ c', ArcLfu.updateNodeFrequency node c = Some c'
  ∧ arclfu_inv c' gs
  ∧ ArcLfu.mainCache_ c' = ArcLfu.mainCache_ c
  ∧ ArcLfu.ghostCache_ c' = ArcLfu.ghostCache_ c
  ∧ ArcLfu.capacity_ c' = ArcLfu.capacity_ c
  ∧ length (ArcLfu.nodes c') = length (ArcLfu.nodes c)
  ∧ (∀ q, key_at (ArcLfu.nodes c') q = key_at (ArcLfu.nodes c) q)
  ∧ (∀ q, value_at (ArcLfu.nodes c') q = value_at (ArcLfu.nodes c) q).
Proof.
intros Hinv Hv Hng. lfu_keep c Hinv. lfu_proj_in_all.
destruct Hinv as [_ Hshape Hghost Hmain Hfreq]. lfu_proj_in_all.
destruct (lookup_valid h node Hv) as [n Hn].
destruct (arc_store_Some h node ArcNode.increaseAccessCount Hv) as [h' Hst].
destruct (arc_store_payload h node ArcNode.increaseAccessCount h')
  as (Hlen & Hnx & Hpv & _ & Hq & Hpp); [done|done|].
rewrite Hn in Hpp. cbn in Hpp.
unfold ArcLfu.updateNodeFrequency. lfu_cbn. rewrite Hn. lfu_cbn.
rewrite Hst. lfu_cbn. rewrite Hpp. lfu_cbn.
cbn [ArcNode.increaseAccessCount ArcNode.set_accessCount ArcNode.accessCount_].
set (old := ArcNode.accessCount_ n).
set (new := u64 (old + 1)).
set (oldList := filter (λ q, q ≠ node) (default [] (fm !! old))).
assert (∀ q, key_at h' q = key_at h q) as Hkey.
{ intros q. unfold key_at. destruct (decide (q = node)) as [->|Hne].
  - by rewrite Hpp, Hn.
  - by rewrite Hq. }
assert (∀ q, value_at h' q = value_at h q) as Hval.
{ intros q. unfold value_at. destruct (decide (q = node)) as [->|Hne].
  - by rewrite Hpp, Hn.
  - by rewrite Hq. }
assert (∀ fm1,
  (fm1 = delete old fm ∨ fm1 = <[old := oldList]> fm) →
  arclfu_freq_ok h' gs (<[new := default [] (fm1 !! new) ++ [node]]> fm1))
  as Hstep.
{ intros fm1 Hfm1.
  eapply (alfu_freq_step h h' gs fm fm1 node old new); try done.
  - intros q Hne. unfold count_at. by rewrite Hq.
  - by apply count_at_lookup.
  - unfold count_at. by rewrite Hpp.
  - apply u64_succ_ne. }
assert (arc_shape h' (0%nat :: gs ++ [1%nat]) []) as Hshape'
  by (by eapply shape_frame).
assert (∀ k p, gc !! k = Some p → p ∈ gs ∧ key_at h' p = Some k) as Hghost'.
{ intros k p Hp. rewrite Hkey. by apply Hghost. }
assert (∀ k p, mc !! k = Some p →
  (p < length h')%nat ∧ (p ∉ 0%nat :: gs ++ [1%nat])
  ∧ key_at h' p = Some k) as Hmain'.
{ intros k p Hp. rewrite Hkey, Hlen. by apply Hmain. }
destruct (decide (oldList = [])) as [Hol|Hol].
- destruct (decide (old = mf)) as [Hom|Hom]; lfu_cbn;
    (eexists; split; [done|]); (split; [split; lfu_cbn; try done;
      apply Hstep; by left|]); done.
- lfu_cbn. eexists. split; [done|]. split; [|done].
  split; lfu_cbn; try done. apply Hstep. by right.
Qed.


Lemma alfu_evict c gs :
arclfu_inv c gs →
∃ c' gs', ArcLfu.evictLeastFrequent c = Some c'
  ∧ arclfu_inv c' gs'
  ∧ ArcLfu.capacity_ c' = ArcLfu.capacity_ c
  ∧ (length (ArcLfu.nodes c) ≤ length (ArcLfu.nodes c'))%nat
  ∧ ArcLfu.mainCache_ c' ⊆ ArcLfu.mainCache_ c.
Proof.
intros Hinv. unfold ArcLfu.evictLeastFrequent.
destruct (decide (ArcLfu.freqMap_ c = ∅)) as [He|Hne].
{ by exists c, gs. }
lfu_keep c Hinv. lfu_proj_in_all.
destruct (default [] (fm !! mf)) as [|leastNode rest] eqn:Hl.
{ eexists _, gs. split; [done|]. destruct Hinv as [? ? ? ? Hfreq].
  lfu_proj_in_all. split; [|done]. split; lfu_cbn; try done.
  intros f l [[<- <-]|[_ Hf]]%lookup_insert_Some; [|by apply Hfreq].
  split; [apply NoDup_nil_2|]. set_solver. }
assert (fm !! mf = Some (leastNode :: rest)) as Hmf.
{ destruct (fm !! mf); [|done]. cbn in Hl. by rewrite Hl. }
pose proof (alfu_freq _ _ Hinv) as Hfreq. lfu_proj_in_all.
destruct (Hfreq mf _ Hmf) as [HndL HallL].
destruct (HallL leastNode) as (HLv & HLg & HLc); [set_solver|].
apply NoDup_cons in HndL as [HLrest Hndrest].
(* the partition without the victim in its frequency list *)
assert (∃ mf1 fm1,
  match rest with
  | [] =>
      match min_key (delete mf fm) with
      | Some f =>
          ArcLfu.with_minFreq f
            (ArcLfu.with_freqMap (delete mf fm)
               (ArcLfu.mkPart cap gcap thr mf mc gc fm 0%nat 1%nat h))
      | None =>
          ArcLfu.with_freqMap (delete mf fm)
            (ArcLfu.mkPart cap gcap thr mf mc gc fm 0%nat 1%nat h)
      end
  | _ :: _ =>
      ArcLfu.with_freqMap (<[mf := rest]> fm)
        (ArcLfu.mkPart cap gcap thr mf mc gc fm 0%nat 1%nat h)
  end = ArcLfu.mkPart cap gcap thr mf1 mc gc fm1 0%nat 1%nat h
  ∧ arclfu_freq_ok h gs fm1
  ∧ ∀ f l, fm1 !! f = Some l → leastNode ∉ l)
  as (mf1 & fm1 & -> & Hfreq1 & Hnot).
{ assert (∀ f l, f ≠ mf → fm !! f = Some l → leastNode ∉ l) as Hoth.
  { intros f l Hf Hfl Hin. destruct (Hfreq f l Hfl) as [_ Hall].
    destruct (Hall _ Hin) as (_ & _ & Hc). congruence. }
  destruct rest as [|r rest].
  - assert (arclfu_freq_ok h gs (delete mf fm)) as Hok.
    { intros f l [Hf Hfl]%lookup_delete_Some. by apply Hfreq. }
    assert (∀ f l, delete mf fm !! f = Some l → leastNode ∉ l) as Hn.
    { intros f l [Hf Hfl]%lookup_delete_Some. by eapply Hoth. }
    destruct (min_key (delete mf fm)); eexists _, _; by split.
  - eexists _, _. split; [done|]. split.
    + intros f l [[<- <-]|[Hf Hfl]]%lookup_insert_Some; [|by apply Hfreq].
      split; [done|]. intros p Hp. apply HallL. set_solver.
    + intros f l [[<- <-]|[Hf Hfl]]%lookup_insert_Some; [done|].
      by eapply Hoth. }
assert (arclfu_inv (ArcLfu.mkPart cap gcap thr mf1 mc gc fm1 0%nat 1%nat h) gs)
  as Hinv1.
{ destruct Hinv as [? ? ? ? _]. by split. }
(* trimming the ghost list *)
assert (∃ h2 g2 gs2,
  (if decide (ArcLfu.ghostCapacity_
                (ArcLfu.mkPart cap gcap thr mf1 mc gc fm1 0%nat 1%nat h)
              ≤ zsize (ArcLfu.ghostCache_
                (ArcLfu.mkPart cap gcap thr mf1 mc gc fm1 0%nat 1%nat h)))
   then ArcLfu.removeOldestGhost
          (ArcLfu.mkPart cap gcap thr mf1 mc gc fm1 0%nat 1%nat h)
   else Some (ArcLfu.mkPart cap gcap thr mf1 mc gc fm1 0%nat 1%nat h))
  = Some (ArcLfu.mkPart cap gcap thr mf1 mc g2 fm1 0%nat 1%nat h2)
  ∧ arclfu_inv (ArcLfu.mkPart cap gcap thr mf1 mc g2 fm1 0%nat 1%nat h2) gs2
  ∧ length h2 = length h
  ∧ (∀ q, payload h2 q = payload h q)
  ∧ gs2 ⊆ gs) as (h2 & g2 & gs2 & -> & Hinv2 & Hlen2 & Hy2 & Hgsub).
{ case_decide.
  - destruct (alfu_removeOldestGhost _ _ Hinv1)
      as (h2 & g2 & gs2 & -> & Hinv2 & Hlen2 & Hy2 & _ & Hgsub).
    by exists h2, g2, gs2.
  - by exists h, gc, gs. }
lfu_cbn. unfold ArcLfu.addToGhost. lfu_cbn.
destruct Hinv2 as [_ Hshape2 Hghost2 Hmain2 Hfreq2]. lfu_proj_in_all.
destruct (arc_store_Some h2 leastNode (ArcNode.set_accessCount 1)) as [h3 Hst];
  [lia|]. rewrite Hst. lfu_cbn.
destruct (arc_store_payload h2 leastNode (ArcNode.set_accessCount 1) h3)
  as (Hlen3 & Hn3 & Hp3 & _ & Hq3 & Hpp3); [done|done|].
assert (arc_shape h3 (0%nat :: gs2 ++ [1%nat]) []) as Hs3
  by (by eapply shape_frame).
assert (leastNode ∉ (0%nat :: gs2 ++ [1%nat])) as HLg2 by set_solver.
destruct (shape_push_back h3 0%nat gs2 1%nat leastNode _ Hs3)
  as (h4 & Hl4 & Hlen4 & Hy4 & Hs4); [lia|by rewrite app_nil_r|].
rewrite Hl4. lfu_cbn.
destruct (lookup_valid h4 leastNode) as [n Hn]; [lia|]. rewrite Hn. lfu_cbn.
rewrite Hn. lfu_cbn.
assert (∀ q, key_at h3 q = key_at h2 q) as Hk3.
{ intros q. unfold key_at. destruct (decide (q = leastNode)) as [->|Hql].
  - rewrite Hpp3. by destruct (h2 !! leastNode).
  - by rewrite Hq3. }
assert (∀ q, key_at h4 q = key_at h2 q) as Hkey.
{ intros q. by rewrite (payload_key _ _ _ (Hy4 q)), Hk3. }
assert (∀ q, q ≠ leastNode → count_at h4 q = count_at h2 q) as Hcnt.
{ intros q Hql. rewrite (payload_count _ _ _ (Hy4 q)). unfold count_at.
  by rewrite Hq3. }
eexists _, (gs2 ++ [leastNode]). split; [done|].
split; [split; lfu_cbn|].
- done.
- done.
- intros k q. rewrite lookup_insert_Some. intros [[<- <-]|[Hkn Hk]].
  + split; [set_solver|]. by apply key_at_lookup.
  + destruct (Hghost2 k q Hk) as [Hin Hkq]. split; [set_solver|].
    by rewrite Hkey.
- intros k q [Hkn Hq]%lookup_delete_Some.
  destruct (Hmain2 k q Hq) as (Hv & Hg & Hkq).
  rewrite Hkey. split; [lia|]. split; [|done].
  assert (q ≠ leastNode).
  { intros ->. rewrite <- Hkey, (key_at_lookup _ _ _ Hn) in Hkq. congruence. }
  set_solver.
- intros f l Hfl. destruct (Hfreq2 f l Hfl) as [Hnd Hall]. split; [done|].
  intros q Hq. destruct (Hall q Hq) as (Hv & Hg & Hc).
  assert (q ≠ leastNode) by (intros ->; by eapply Hnot).
  rewrite Hcnt by done. split; [lia|]. split; [set_solver|done].
- lfu_cbn. split; [done|]. split; [lia|]. apply delete_subseteq.
Qed.


Lemma count_at_alloc h n q :
(q < length h)%nat → count_at (h ++ [n]) q = count_at h q.
Proof. intros Hq. unfold count_at. by rewrite lookup_app_l. Qed.

Lemma alfu_addNewNode c gs key value :
arclfu_inv c gs → ArcLfu.mainCache_ c !! key = None →
∃ c' gs', ArcLfu.addNewNode key value c = Some c'
  ∧ arclfu_inv c' gs'
  ∧ ArcLfu.capacity_ c' = ArcLfu.capacity_ c
  ∧ ∃ p, ArcLfu.mainCache_ c' !! key = Some p
         ∧ value_at (ArcLfu.nodes c') p = Some value.
Proof.
intros Hinv Hk. unfold ArcLfu.addNewNode.
assert (∃ c1 gs1,
  (if decide (ArcLfu.capacity_ c ≤ zsize (ArcLfu.mainCache_ c))
   then ArcLfu.evictLeastFrequent c else Some c) = Some c1
  ∧ arclfu_inv c1 gs1
  ∧ ArcLfu.capacity_ c1 = ArcLfu.capacity_ c
  ∧ ArcLfu.mainCache_ c1 !! key = None)
  as (c1 & gs1 & -> & Hinv1 & Hcap1 & Hk1).
{ case_decide.
  - destruct (alfu_evict c gs Hinv) as (c1 & gs1 & -> & Hinv1 & Hc & _ & Hsub).
    exists c1, gs1. split; [done|]. split; [done|]. split; [done|].
    by eapply lookup_weaken_None.
  - by exists c, gs. }
sb. rewrite <- Hcap1. clear Hinv Hk Hcap1 c gs.
lfu_keep c1 Hinv1. lfu_proj_in_all.
destruct Hinv1 as [_ Hshape Hghost Hmain Hfreq]. lfu_proj_in_all.
unfold ArcNode.alloc. lfu_cbn.
set (n := ArcNode.newNode key value).
pose proof Hshape as (_ & Hv & _).
assert (∀ q, q ∈ 0%nat :: gs1 ++ [1%nat] → q ≠ length h) as Hfresh.
{ intros q Hq ->. assert (length h < length h)%nat; [|lia].
  apply Hv. by rewrite app_nil_r. }
eexists _, gs1. split; [done|]. split; [split; lfu_cbn|].
- done.
- by apply shape_alloc.
- intros k q Hq. destruct (Hghost k q Hq) as [Hin Hkq]. split; [done|].
  rewrite key_at_alloc. rewrite decide_False; [done|].
  apply Hfresh. set_solver.
- intros k q. rewrite length_app. cbn [length].
  rewrite key_at_alloc. intros [[<- <-]|[Hne Hq]]%lookup_insert_Some.
  + split; [lia|]. split; [|by rewrite decide_True].
    intros Hin. by apply (Hfresh _ Hin).
  + destruct (Hmain k q Hq) as (Hqv & Hg & Hkq). split; [lia|].
    split; [done|]. rewrite decide_False by lia. done.
- intros f l. rewrite length_app. cbn [length].
  intros [[<- <-]|[Hne Hfl]]%lookup_insert_Some.
  + assert (NoDup (default [] (fm !! 1))
            ∧ ∀ p, p ∈ default [] (fm !! 1) →
                (p < length h)%nat ∧ (p ∉ 0%nat :: gs1 ++ [1%nat])
                ∧ count_at h p = Some 1) as [Hnd Hall].
    { destruct (fm !! 1) as [l0|] eqn:E; cbn [default from_option id].
      - by apply Hfreq.
      - split; [apply NoDup_nil_2|]. set_solver. }
    split.
    * apply NoDup_app. split; [done|]. split; [|apply NoDup_singleton].
      intros p Hp ->%list_elem_of_singleton.
      destruct (Hall _ Hp) as (? & _). lia.
    * intros p [Hp| ->%list_elem_of_singleton]%elem_of_app.
      -- destruct (Hall p Hp) as (Hpv & Hg & Hc). split; [lia|].
         split; [done|]. by rewrite count_at_alloc.
      -- split; [lia|]. split.
         ++ intros Hin. by apply (Hfresh _ Hin).
         ++ unfold count_at. by rewrite list_lookup_middle.
  + destruct (Hfreq f l Hfl) as [Hnd Hall]. split; [done|].
    intros p Hp. destruct (Hall p Hp) as (Hpv & Hg & Hc). split; [lia|].
    split; [done|]. by rewrite count_at_alloc.
- lfu_cbn. split; [done|]. exists (length h).
  rewrite lookup_insert_eq. split; [done|]. unfold value_at.
  by rewrite list_lookup_middle.
Qed.

Lemma alfu_put c gs key value :
arclfu_inv c gs →
∃ b c' gs', ArcLfu.put key value c = Some (b, c')
  ∧ arclfu_inv c' gs'
  ∧ ArcLfu.capacity_ c' = ArcLfu.capacity_ c
  ∧ (ArcLfu.capacity_ c ≠ 0 →
     ∃ p, ArcLfu.mainCache_ c' !! key = Some p
          ∧ value_at (ArcLfu.nodes c') p = Some value)
  ∧ (is_Some (ArcLfu.mainCache_ c !! key) →
     ArcLfu.mainCache_ c' = ArcLfu.mainCache_ c
     ∧ ArcLfu.ghostCache_ c' = ArcLfu.ghostCache_ c)
  ∧ (ArcLfu.capacity_ c = 0 → c' = c).
Proof.
intros Hinv. unfold ArcLfu.put.
destruct (decide (ArcLfu.capacity_ c = 0)) as [Hz|Hnz].
{ exists false, c, gs. split; [done|]. split; [done|]. split; [done|].
  split; [done|]. done. }
destruct (ArcLfu.mainCache_ c !! key) as [p|] eqn:Hk.
- destruct (alfu_main_map _ _ Hinv key p Hk) as (Hpv & Hpg & Hkp).
  unfold ArcLfu.updateExistingNode.
  destruct (arc_store_Some (ArcLfu.nodes c) p (ArcNode.setValue value) Hpv)
    as [h1 Hst]. rewrite Hst. sb.
  destruct (arc_store_payload (ArcLfu.nodes c) p (ArcNode.setValue value) h1)
    as (Hlen1 & Hn1 & Hp1 & _ & Hq1 & Hpp1); [done|done|].
  assert (arclfu_inv (ArcLfu.with_nodes h1 c) gs) as Hinv1.
  { assert (∀ q, key_at h1 q = key_at (ArcLfu.nodes c) q) as Hkey.
    { intros q. unfold key_at. destruct (decide (q = p)) as [->|Hne].
      - rewrite Hpp1. by destruct (ArcLfu.nodes c !! p).
      - by rewrite Hq1. }
    assert (∀ q, count_at h1 q = count_at (ArcLfu.nodes c) q) as Hcnt.
    { intros q. unfold count_at. destruct (decide (q = p)) as [->|Hne].
      - rewrite Hpp1. by destruct (ArcLfu.nodes c !! p).
      - by rewrite Hq1. }
    destruct c. destruct Hinv as [? Hshape Hghost Hmain Hfreq].
    lfu_proj_in_all. split; lfu_cbn.
    - done.
    - by eapply shape_frame.
    - intros k q Hq. rewrite Hkey. by apply Hghost.
    - intros k q Hq. rewrite Hkey, Hlen1. by apply Hmain.
    - intros f l Hfl. destruct (Hfreq f l Hfl) as [Hnd Hall].
      split; [done|]. intros q Hq. rewrite Hlen1, Hcnt. by apply Hall. }
  destruct (alfu_updateNodeFrequency _ gs p Hinv1)
    as (c' & -> & Hinv' & Hm' & Hg' & Hc' & Hl' & Hk' & Hv').
  { destruct c. cbn in *. lia. }
  { done. }
  sb. exists true, c', gs. split; [done|]. split; [done|].
  split; [by destruct c|]. split; [|split; [|done]].
  + intros _. exists p. rewrite Hm'. split; [by destruct c|].
    rewrite Hv'. destruct (lookup_valid _ p Hpv) as [n Hn].
    rewrite Hn in Hpp1. destruct c. lfu_cbn. unfold value_at.
    by rewrite Hpp1.
  + intros _. rewrite Hm', Hg'. by destruct c.
- destruct (alfu_addNewNode c gs key value Hinv Hk)
    as (c' & gs' & -> & Hinv' & Hc' & Hp').
  sb. exists true, c', gs'. split; [done|]. split; [done|]. split; [done|].
  split; [done|]. split; [by intros [? ?]|done].
Qed.

Lemma alfu_get c gs key :
arclfu_inv c gs →
∃ r c', ArcLfu.get key c = Some (r, c')
  ∧ arclfu_inv c' gs
  ∧ ArcLfu.capacity_ c' = ArcLfu.capacity_ c
  ∧ (∀ p, ArcLfu.mainCache_ c !! key = Some p →
       ∃ v, r = Some v ∧ value_at (ArcLfu.nodes c) p = Some v)
  ∧ (ArcLfu.mainCache_ c !! key = None → r = None ∧ c' = c).
Proof.
intros Hinv. unfold ArcLfu.get.
destruct (ArcLfu.mainCache_ c !! key) as [p|] eqn:Hk.
2:{ exists None, c. split; [done|]. split; [done|]. split; [done|].
    split; [done|]. done. }
destruct (alfu_main_map _ _ Hinv key p Hk) as (Hpv & Hpg & Hkp).
destruct (alfu_updateNodeFrequency _ gs p Hinv Hpv Hpg)
  as (c' & -> & Hinv' & Hm' & Hg' & Hc' & Hl' & Hk' & Hv').
sb. destruct (lookup_valid (ArcLfu.nodes c') p) as [n Hn]; [lia|].
rewrite Hn. sb. eexists _, c'. split; [done|]. split; [done|].
split; [done|]. split; [|done].
intros ? [= <-]. eexists. split; [done|]. rewrite <- Hv'.
unfold value_at. by rewrite Hn.
Qed.

Lemma alfu_checkGhost c gs key :
arclfu_inv c gs →
∃ b c' gs', ArcLfu.checkGhost key c = Some (b, c')
  ∧ arclfu_inv c' gs'
  ∧ ArcLfu.capacity_ c' = ArcLfu.capacity_ c
  ∧ ArcLfu.mainCache_ c' = ArcLfu.mainCache_ c
  ∧ (∀ q, payload (ArcLfu.nodes c') q = payload (ArcLfu.nodes c) q)
  ∧ (ArcLfu.ghostCache_ c !! key = None → b = false ∧ c' = c).
Proof.
intros Hinv. unfold ArcLfu.checkGhost.
destruct (ArcLfu.ghostCache_ c !! key) as [p|] eqn:Hk.
2:{ exists false, c, gs. split; [done|]. split; [done|]. done. }
lfu_keep c Hinv. lfu_proj_in_all.
destruct Hinv as [_ Hshape Hghost Hmain Hfreq]. lfu_proj_in_all.
destruct (Hghost key p Hk) as [Hp Hkp].
apply list_elem_of_split in Hp as (g1 & g2 & ->).
destruct (shape_remove _ _ _ _ _ _ _ Hshape) as (h' & Hu & Hlen & Hy & Hs').
unfold ArcLfu.removeFromGhost. lfu_cbn. rewrite Hu. sb. lfu_cbn.
eexists true, _, (g1 ++ g2). split; [done|]. split; [split; lfu_cbn|].
- done.
- done.
- intros k q [Hne Hq]%lookup_delete_Some.
  destruct (Hghost k q Hq) as [Hin Hkq].
  rewrite (payload_key _ _ _ (Hy q)). split; [|done].
  assert (q ≠ p) by congruence. set_solver.
- intros k q Hq. destruct (Hmain k q Hq) as (Hv & Hg & Hkq).
  rewrite Hlen, (payload_key _ _ _ (Hy q)). split; [done|].
  split; [set_solver|done].
- intros f l Hfl. destruct (Hfreq f l Hfl) as [Hnd Hall]. split; [done|].
  intros q Hq. destruct (Hall q Hq) as (Hv & Hg & Hc).
  rewrite Hlen, (payload_count _ _ _ (Hy q)). split; [done|].
  split; [set_solver|done].
- lfu_cbn. done.
Qed.

Lemma alfu_decreaseCapacity c gs :
arclfu_inv c gs →
∃ b c' gs', ArcLfu.decreaseCapacity c = Some (b, c')
  ∧ arclfu_inv c' gs'.
Proof.
intros Hinv. unfold ArcLfu.decreaseCapacity.
destruct (decide (ArcLfu.capacity_ c ≤ 0)) as [Hz|Hnz].
{ by exists true, c, gs. }
destruct (decide (zsize (ArcLfu.mainCache_ c) = ArcLfu.capacity_ c)).
- destruct (alfu_evict c gs Hinv) as (c1 & gs1 & -> & Hinv1 & _).
  sb. eexists true, _, gs1. split; [done|]. by apply alfu_with_capacity.
- sb. eexists true, _, gs. split; [done|]. by apply alfu_with_capacity.
Qed.

End ArcLfuInv.

(** ** ArcCache: every call runs to completion *)

Section ArcInv.
Context `{Countable Key} {Value : Type}.
Variables (Key0 : Key) (Value0 : Value).
Implicit Types c : Arc.ArcCache (Key := Key) (Value := Value).
Implicit Types key k : Key.
Implicit Types value : Value.

Lemma arc_new_inv capacity transformThreshold :
arc_inv (Arc.new Key0 Value0 capacity transformThreshold).
Proof.
split.
- exists [], []. apply alru_new.
- exists []. apply alfu_new.
Qed.

Lemma arc_checkGhostCaches_inv c key :
arc_inv c →
∃ b c', Arc.checkGhostCaches key c = Some (b, c')
  ∧ arc_inv c'
  ∧ ∀ n, arc_lru_bounded n c → n + 1 < 2 ^ 64 → arc_lru_bounded (n + 1) c'.
Proof.
intros [(ms & gs & Hlru) (gs' & Hlfu)]. unfold Arc.checkGhostCaches.
destruct (alru_checkGhost _ _ _ key Hlru)
  as (b & lru1 & gs1 & -> & Hlru1 & Hm1 & Hc1 & _). sb.
destruct b.
- destruct (alfu_decreaseCapacity _ _ Hlfu) as (ok & lfu1 & gs2 & -> & Hlfu1).
  sb. eexists true, _. split; [done|]. split.
  + split; cbn [Arc.lruPart_ Arc.lfuPart_]; [|by exists gs2].
    exists ms, gs1. destruct ok; [|done]. by apply alru_with_capacity.
  + intros n [Hcap Hsz] Hn. unfold arc_lru_bounded.
    cbn [Arc.lruPart_ Arc.lfuPart_].
    destruct ok.
    * unfold ArcLru.increaseCapacity. destruct lru1.
      cbn [ArcLru.with_capacity ArcLru.capacity_ ArcLru.mainCache_] in *.
      rewrite Hm1, Hc1. rewrite u64_small by lia. lia.
    * rewrite Hm1, Hc1. lia.
- destruct (alfu_checkGhost _ _ key Hlfu)
    as (b & lfu1 & gs2 & -> & Hlfu1 & _). sb.
  destruct b.
  + destruct (alru_decreaseCapacity _ _ _ Hlru1)
      as (ok & lru2 & ms2 & gs3 & -> & Hlru2 & Hfalse & Htrue & Hsz2).
    sb. eexists true, _. split; [done|]. split.
    * split; cbn [Arc.lruPart_ Arc.lfuPart_]; [by exists ms2, gs3|].
      exists gs2. destruct ok; [|done]. by apply alfu_with_capacity.
    * intros n [Hcap Hsz] Hn. unfold arc_lru_bounded.
      cbn [Arc.lruPart_ Arc.lfuPart_].
      rewrite <- Hm1, <- Hc1 in Hsz. rewrite <- Hc1 in Hcap.
      specialize (Hsz2 Hsz). split; [|done].
      destruct ok.
      -- destruct (Htrue eq_refl) as [? ->]. lia.
      -- destruct (Hfalse eq_refl) as [-> _]. lia.
  + eexists false, _. split; [done|]. split.
    * split; cbn [Arc.lruPart_ Arc.lfuPart_]; [by exists ms, gs1|by exists gs2].
    * intros n [Hcap Hsz] Hn. unfold arc_lru_bounded.
      cbn [Arc.lruPart_ Arc.lfuPart_]. rewrite Hm1, Hc1. lia.
Qed.

Lemma arc_put_inv c key value :
arc_inv c →
∃ c', Arc.put key value c = Some c'
  ∧ arc_inv c'
  ∧ ∀ n, arc_lru_bounded n c → n + 1 < 2 ^ 64 → arc_lru_bounded (n + 1) c'.
Proof.
intros Hinv. unfold Arc.put.
destruct (arc_checkGhostCaches_inv c key Hinv)
  as (b & c1 & -> & [(ms & gs & Hlru) (gs' & Hlfu)] & Hb). sb.
assert (∃ l ms' gs2 r,
  ArcLru.put key value (Arc.lruPart_ c1) = Some (r, l)
  ∧ arclru_inv l ms' gs2
  ∧ ∀ n, arc_lru_bounded n c1 → arc_lru_bounded n (Arc.with_lru l c1))
  as (l & ms' & gs2 & r & Hput & Hl & Hbl).
{ destruct (alru_put _ _ _ key value Hlru)
    as (r & l & ms' & gs2 & Hp & Hl & Hc & _ & _ & _ & Hsz).
  exists l, ms', gs2, r. split; [done|]. split; [done|].
  intros n [Hcap Hs]. unfold arc_lru_bounded. destruct c1.
  cbn [Arc.with_lru Arc.lruPart_] in *. rewrite Hc. split; [done|].
  apply Hsz; [lia|done]. }
destruct b.
- rewrite Hput. sb. eexists. split; [done|]. split.
  + destruct c1. split; cbn; [by exists ms', gs2|by exists gs'].
  + intros n Hn Hlt. by apply Hbl, Hb.
- destruct (ArcLfu.inLfuMainCache key (Arc.lfuPart_ c1)).
  + destruct (alfu_put _ _ key value Hlfu)
      as (r' & l' & gs3 & -> & Hl' & _). sb.
    eexists. split; [done|]. split.
    * destruct c1. split; cbn; [by exists ms, gs|by exists gs3].
    * intros n Hn Hlt. specialize (Hb n Hn Hlt). by destruct c1.
  + rewrite Hput. sb. eexists. split; [done|]. split.
    * destruct c1. split; cbn; [by exists ms', gs2|by exists gs'].
    * intros n Hn Hlt. by apply Hbl, Hb.
Qed.

Lemma arc_get_inv c key :
arc_inv c →
∃ r c', Arc.get key c = Some (r, c')
  ∧ arc_inv c'
  ∧ ∀ n, arc_lru_bounded n c → n + 1 < 2 ^ 64 → arc_lru_bounded (n + 1) c'.
Proof.
intros Hinv. unfold Arc.get.
destruct (arc_checkGhostCaches_inv c key Hinv)
  as (b & c1 & -> & [(ms & gs & Hlru) (gs' & Hlfu)] & Hb). sb.
destruct (alru_get _ _ _ key Hlru)
  as (r & lru1 & ms' & -> & Hlru1 & Hm1 & _ & Hc1 & _). sb.
assert (∀ n, arc_lru_bounded n c1 →
  0 ≤ ArcLru.capacity_ lru1 ≤ n
  ∧ zsize (ArcLru.mainCache_ lru1) ≤ ArcLru.capacity_ lru1) as Hbl.
{ intros n Hn. unfold arc_lru_bounded in Hn. by rewrite Hm1, Hc1. }
destruct r as [[v t]|].
- destruct t.
  + destruct (alfu_put _ _ key v Hlfu) as (r' & l' & gs3 & -> & Hl' & _). sb.
    eexists _, _. split; [done|]. split.
    * split; cbn; [by exists ms', gs|by exists gs3].
    * intros n Hn Hlt. by apply Hbl, Hb.
  + eexists _, _. split; [done|]. split.
    * destruct c1. split; cbn; [by exists ms', gs|by exists gs'].
    * intros n Hn Hlt. destruct c1. by apply Hbl, Hb.
- destruct (alfu_get _ _ key Hlfu) as (r2 & lfu1 & -> & Hlfu1 & _). sb.
  eexists _, _. split; [done|]. split.
  + split; cbn; [by exists ms', gs|by exists gs'].
  + intros n Hn Hlt. by apply Hbl, Hb.
Qed.

Lemma arc_run_inv (ops : list (arc_op Key Value)) c (n : Z) :
arc_inv c →
∃ c', run (arc_step <$> ops) c = Some c'
  ∧ arc_inv c'
  ∧ (arc_lru_bounded n c → n + Z.of_nat (length ops) < 2 ^ 64 →
     arc_lru_bounded (n + Z.of_nat (length ops)) c').
Proof.
revert c n. induction ops as [|o ops IH]; intros c n Hinv.
- exists c. split; [done|]. split; [done|]. cbn. by rewrite Z.add_0_r.
- rewrite fmap_cons, run_cons.
  assert (∃ c1, arc_step o c = Some c1 ∧ arc_inv c1
    ∧ ∀ n, arc_lru_bounded n c → n + 1 < 2 ^ 64 → arc_lru_bounded (n + 1) c1)
    as (c1 & -> & Hinv1 & Hb1).
  { destruct o as [key value|key]; cbn [arc_step].
    - apply arc_put_inv, Hinv.
    - destruct (arc_get_inv c key Hinv) as (r & c1 & Hg & ?).
      exists c1. unfold call. by rewrite Hg. }
  sb. destruct (IH c1 (n + 1) Hinv1) as (c' & Hr & Hinv' & Hb').
  exists c'. split; [done|]. split; [done|].
  intros Hn Hlt. cbn [length] in *.
  replace (n + Z.of_nat (S (length ops)))
    with (n + 1 + Z.of_nat (length ops)) by lia.
  apply Hb'; [|lia]. apply Hb1; [done|lia].
Qed.

(** X18.  Every sequence of [put] and [get] calls on an [ArcCache] runs to
  completion: no call dereferences a null or dangling node, whatever
  the capacity and the threshold.  In the state it reaches the main and
  ghost lists are linked lists of distinct nodes and every map entry
  points to an allocated node with its key, [arc_inv]. *)
Theorem arc_calls_never_undefined capacity transformThreshold
  (ops : list (arc_op Key Value)) :
∃ c, run (arc_step <$> ops) (Arc.new Key0 Value0 capacity transformThreshold)
     = Some c
  ∧ arc_inv c.
Proof.
destruct (arc_run_inv ops _ 0 (arc_new_inv capacity transformThreshold))
  as (c & Hr & Hinv & _). by exists c.
Qed.

(** X19.  After any sequence of [put] and [get] calls, the LRU partition of an
  [ArcCache] holds at most as many entries as its current capacity,
  which has grown by at most one per call. *)
Theorem arc_lru_partition_within_capacity capacity transformThreshold
  (ops : list (arc_op Key Value)) :
0 ≤ capacity → capacity + Z.of_nat (length ops) < 2 ^ 64 →
∃ c, run (arc_step <$> ops) (Arc.new Key0 Value0 capacity transformThreshold)
     = Some c
  ∧ zsize (ArcLru.mainCache_ (Arc.lruPart_ c))
    ≤ ArcLru.capacity_ (Arc.lruPart_ c)
  ∧ 0 ≤ ArcLru.capacity_ (Arc.lruPart_ c)
    ≤ capacity + Z.of_nat (length ops).
Proof.
intros Hc Hlt.
destruct (arc_run_inv ops _ capacity (arc_new_inv capacity transformThreshold))
  as (c & Hr & _ & Hb).
exists c. split; [done|]. destruct Hb as [Hcap Hsz]; [|done|done].
split; [cbn; lia|]. change (zsize (∅ : gmap Key ptr) ≤ capacity).
unfold zsize. rewrite map_size_empty. lia.
Qed.

End ArcInv.

(** ** ArcCache: what [get] returns after [put] *)

Section ArcUser.
Context `{Countable Key} {Value : Type}.
Variables (Key0 : Key) (Value0 : Value).
Implicit Types c : Arc.ArcCache (Key := Key) (Value := Value).
Implicit Types key k : Key.
Implicit Types value : Value.

Lemma arc_reach_inv capacity transformThreshold
  (ops : list (arc_op Key Value)) c :
run (arc_step <$> ops) (Arc.new Key0 Value0 capacity transformThreshold)
= Some c →
arc_inv c.
Proof.
intros Hr.
destruct (arc_run_inv ops _ 0 (arc_new_inv Key0 Value0 capacity transformThreshold))
  as (c' & Hr' & Hinv & _).
rewrite Hr in Hr'. by injection Hr' as <-.
Qed.

Lemma arc_checkGhostCaches_false c key :
fst <$> Arc.checkGhostCaches key c = Some false →
ArcLru.ghostCache_ (Arc.lruPart_ c) !! key = None
∧ ArcLfu.ghostCache_ (Arc.lfuPart_ c) !! key = None.
Proof.
unfold Arc.checkGhostCaches, ArcLru.checkGhost, ArcLfu.checkGhost.
destruct (ArcLru.ghostCache_ (Arc.lruPart_ c) !! key) as [p|].
{ destruct (ArcLru.removeFromGhost (Some p) (Arc.lruPart_ c)); [|done].
  sb. by destruct (ArcLfu.decreaseCapacity (Arc.lfuPart_ c)) as [[? ?]|]. }
sb. destruct (ArcLfu.ghostCache_ (Arc.lfuPart_ c) !! key) as [p|]; [|done].
destruct (ArcLfu.removeFromGhost (Some p) (Arc.lfuPart_ c)); [|done].
sb. by destruct (ArcLru.decreaseCapacity (Arc.lruPart_ c)) as [[? ?]|].
Qed.

(** [get] of a key that the ghost lists do not hold and the LRU partition
  does: the value comes from the node of the LRU partition, whatever
  the LFU partition holds. *)
Lemma arc_get_lru_resident c key p :
arc_inv c →
ArcLru.ghostCache_ (Arc.lruPart_ c) !! key = None →
ArcLfu.ghostCache_ (Arc.lfuPart_ c) !! key = None →
ArcLru.mainCache_ (Arc.lruPart_ c) !! key = Some p →
∃ v c', Arc.get key c = Some (Some v, c')
  ∧ value_at (ArcLru.nodes (Arc.lruPart_ c)) p = Some v.
Proof.
intros [(ms & gs & Hlru) (gs' & Hlfu)] Hg1 Hg2 Hp. unfold Arc.get.
rewrite arc_checkGhostCaches_absent by done. sb.
destruct (alru_get _ _ _ key Hlru)
  as (r & lru1 & ms' & -> & Hlru1 & _ & _ & _ & Hhit & _). sb.
destruct (Hhit p Hp) as (v & t & -> & Hv).
destruct t.
- destruct (alfu_put _ _ key v Hlfu) as (r' & l' & gs3 & -> & _). sb.
  by eexists _, _.
- by eexists _, _.
Qed.

(** X20.  A key that is resident in both partitions: [put] updates the copy of
  the LFU partition only, the LRU partition is left as it was, and
  [get] keeps returning the value of the LRU partition. *)
Theorem arc_put_of_promoted_key_is_not_read capacity transformThreshold
  (ops : list (arc_op Key Value)) c key value :
run (arc_step <$> ops) (Arc.new Key0 Value0 capacity transformThreshold)
= Some c →
ArcLru.inLruMainCache key (Arc.lruPart_ c) = true →
ArcLfu.inLfuMainCache key (Arc.lfuPart_ c) = true →
fst <$> Arc.checkGhostCaches key c = Some false →
∃ old c0 c' c'',
  Arc.get key c = Some (Some old, c0)
  ∧ Arc.put key value c = Some c'
  ∧ Arc.get key c' = Some (Some old, c'')
  ∧ Arc.lruPart_ c' = Arc.lruPart_ c
  ∧ (ArcLfu.capacity_ (Arc.lfuPart_ c) ≠ 0 →
     ∃ q, ArcLfu.mainCache_ (Arc.lfuPart_ c') !! key = Some q
       ∧ value_at (ArcLfu.nodes (Arc.lfuPart_ c')) q = Some value).
Proof.
intros Hr Hlru Hlfu Hgh.
pose proof (arc_reach_inv _ _ _ _ Hr) as Hinv.
destruct (arc_checkGhostCaches_false _ _ Hgh) as [Hg1 Hg2].
apply bool_decide_eq_true in Hlru as [p Hp].
pose proof Hlfu as Hlfu'. apply bool_decide_eq_true in Hlfu'.
destruct (arc_get_lru_resident c key p Hinv Hg1 Hg2 Hp) as (old & c0 & Hget & Hv).
destruct Hinv as [(ms & gs & Hil) (gs' & Hif)].
destruct (alfu_put _ _ key value Hif)
  as (r & lfu1 & gs1 & Hput & Hif1 & _ & Hres & Hsame & _).
destruct (Hsame Hlfu') as [Hm1 Hgc1].
exists old, c0, (Arc.with_lfu lfu1 c).
assert (Arc.put key value c = Some (Arc.with_lfu lfu1 c)) as Hp'.
{ unfold Arc.put. rewrite arc_checkGhostCaches_absent by done. sb.
  rewrite Hlfu. rewrite Hput. done. }
destruct (arc_get_lru_resident (Arc.with_lfu lfu1 c) key p)
  as (v & c'' & Hget' & Hv').
- destruct c. split; cbn; [by exists ms, gs|by exists gs1].
- by destruct c.
- destruct c. cbn in *. by rewrite Hgc1.
- by destruct c.
- exists c''. split; [done|]. split; [done|].
  split; [|split; [by destruct c|by destruct c]]. rewrite Hget'.
  assert (v = old) as ->; [|done].
  destruct c. cbn in *. congruence.
Qed.

(** X21.  A key outside the LFU partition and the ghost lists, with a LRU
  partition of capacity other than 0: [put] followed by [get] returns
  the value that was put. *)
Theorem arc_put_then_get_in_lru_partition capacity transformThreshold
  (ops : list (arc_op Key Value)) c key value :
run (arc_step <$> ops) (Arc.new Key0 Value0 capacity transformThreshold)
= Some c →
ArcLfu.inLfuMainCache key (Arc.lfuPart_ c) = false →
fst <$> Arc.checkGhostCaches key c = Some false →
ArcLru.capacity_ (Arc.lruPart_ c) ≠ 0 →
∃ c' c'', Arc.put key value c = Some c'
  ∧ Arc.get key c' = Some (Some value, c'').
Proof.
intros Hr Hlfu Hgh Hcap.
pose proof (arc_reach_inv _ _ _ _ Hr) as Hinv.
destruct (arc_checkGhostCaches_false _ _ Hgh) as [Hg1 Hg2].
destruct Hinv as [(ms & gs & Hil) (gs' & Hif)].
destruct (alru_put _ _ _ key value Hil)
  as (r & lru1 & ms1 & gs1 & Hput & Hil1 & _ & Hres & _ & Hgk & _).
destruct (Hres Hcap) as (p & Hp & Hv).
exists (Arc.with_lru lru1 c).
assert (Arc.put key value c = Some (Arc.with_lru lru1 c)) as Hp'.
{ unfold Arc.put. rewrite arc_checkGhostCaches_absent by done. sb.
  rewrite Hlfu. rewrite Hput. done. }
destruct (arc_get_lru_resident (Arc.with_lru lru1 c) key p)
  as (v & c'' & Hget' & Hv').
- destruct c. split; cbn; [by exists ms1, gs1|by exists gs'].
- destruct c. cbn in *. by apply Hgk.
- by destruct c.
- by destruct c.
- exists c''. split; [done|]. rewrite Hget'.
  assert (v = value) as ->; [|done].
  destruct c. cbn in *. congruence.
Qed.

(** X22.  A key that only the LFU partition holds, with a LFU partition of
  capacity other than 0: [put] followed by [get] returns the value
  that was put. *)
Theorem arc_put_then_get_in_lfu_partition capacity transformThreshold
  (ops : list (arc_op Key Value)) c key value :
run (arc_step <$> ops) (Arc.new Key0 Value0 capacity transformThreshold)
= Some c →
ArcLru.inLruMainCache key (Arc.lruPart_ c) = false →
ArcLfu.inLfuMainCache key (Arc.lfuPart_ c) = true →
fst <$> Arc.checkGhostCaches key c = Some false →
ArcLfu.capacity_ (Arc.lfuPart_ c) ≠ 0 →
∃ c' c'', Arc.put key value c = Some c'
  ∧ Arc.get key c' = Some (Some value, c'').
Proof.
intros Hr Hlru Hlfu Hgh Hcap.
pose proof (arc_reach_inv _ _ _ _ Hr) as Hinv.
destruct (arc_checkGhostCaches_false _ _ Hgh) as [Hg1 Hg2].
apply bool_decide_eq_false in Hlru.
assert (ArcLru.mainCache_ (Arc.lruPart_ c) !! key = None) as Hmiss
  by (by apply eq_None_not_Some).
pose proof Hlfu as Hlfu'. apply bool_decide_eq_true in Hlfu'.
destruct Hinv as [(ms & gs & Hil) (gs' & Hif)].
destruct (alfu_put _ _ key value Hif)
  as (r & lfu1 & gs1 & Hput & Hif1 & _ & Hres & Hsame & _).
destruct (Hres Hcap) as (p & Hp & Hv).
destruct (Hsame Hlfu') as [Hm1 Hgc1].
exists (Arc.with_lfu lfu1 c).
assert (Arc.put key value c = Some (Arc.with_lfu lfu1 c)) as Hp'.
{ unfold Arc.put. rewrite arc_checkGhostCaches_absent by done. sb.
  rewrite Hlfu. rewrite Hput. done. }
destruct (alfu_get _ _ key Hif1) as (r2 & lfu2 & Hget2 & _ & _ & Hhit & _).
destruct (Hhit p Hp) as (v & -> & Hv2).
assert (v = value) as -> by congruence.
exists (Arc.mkCache (Arc.capacity_ c) (Arc.transformThreshold_ c)
                    (Arc.lruPart_ c) lfu2).
split; [done|]. unfold Arc.get.
rewrite arc_checkGhostCaches_absent; [|by destruct c|].
2:{ destruct c. cbn in *. by rewrite Hgc1. }
sb. destruct (alru_get _ _ _ key Hil)
  as (r1 & lru1 & ms' & Hg & _ & _ & _ & _ & _ & Hnone).
destruct (Hnone Hmiss) as [-> ->].
destruct c. cbn in *. rewrite Hg. sb. rewrite Hget2. sb. done.
Qed.

End ArcUser.

(** ** ArcCache: the entries of the LFU partition *)

Section ArcLfuCounted.
Context `{Countable Key} {Value : Type}.
Implicit Types c : ArcLfu.ArcLfuPart (Key := Key) (Value := Value).
Implicit Types h : list (ArcNode.ArcNode (Key := Key) (Value := Value)).
Implicit Types gs : list ptr.
Implicit Types p q : ptr.
Implicit Types node : option ptr.
Implicit Types key k : Key.
Implicit Types value : Value.

Ltac lfu_cbn :=
unfold ArcLfu.with_nodes, ArcLfu.with_mainCache, ArcLfu.with_ghostCache,
  ArcLfu.with_capacity, ArcLfu.with_freqMap, ArcLfu.with_minFreq;
cbn [ArcLfu.ghostHead_ ArcLfu.ghostTail_ ArcLfu.nodes ArcLfu.mainCache_
     ArcLfu.ghostCache_ ArcLfu.capacity_ ArcLfu.ghostCapacity_
     ArcLfu.transformThreshold_ ArcLfu.minFreq_ ArcLfu.freqMap_
     mbind option_bind].

Ltac lfu_cbn_in_all :=
unfold ArcLfu.with_nodes, ArcLfu.with_mainCache, ArcLfu.with_ghostCache,
  ArcLfu.with_capacity, ArcLfu.with_freqMap, ArcLfu.with_minFreq in *;
cbn [ArcLfu.ghostHead_ ArcLfu.ghostTail_ ArcLfu.nodes ArcLfu.mainCache_
     ArcLfu.ghostCache_ ArcLfu.capacity_ ArcLfu.ghostCapacity_
     ArcLfu.transformThreshold_ ArcLfu.minFreq_ ArcLfu.freqMap_] in *.

Lemma arcnode_link_before_same tail node h h' :
ArcNode.link_before tail node h = Some h' → ArcNode.same_entries h h'.
Proof.
unfold ArcNode.link_before. intros Hu. simplify_option_eq.
repeat match goal with
| Hs : ArcNode.store _ _ _ = Some _ |- _ =>
    apply arcnode_store_same in Hs;
    [|first [apply keeps_set_next | apply keeps_set_prev
            | apply keeps_set_accessCount]]
end.
eauto using same_entries_trans.
Qed.

Lemma alfu_removeFromGhost_same node c c' :
ArcLfu.removeFromGhost node c = Some c' → alfu_same_main c c'.
Proof.
unfold ArcLfu.removeFromGhost. intros Hr.
apply bind_Some in Hr as (h & Hu & [= <-]). destruct c. lfu_cbn.
repeat split. by eapply arcnode_unlink_same.
Qed.

Lemma alfu_removeOldestGhost_same c c' :
ArcLfu.removeOldestGhost c = Some c' → alfu_same_main c c'.
Proof.
unfold ArcLfu.removeOldestGhost. intros Hr.
apply bind_Some in Hr as (hd & Hhd & Hr). case_decide.
- apply bind_Some in Hr as (c1 & H1 & Hr).
  apply bind_Some in Hr as (p & Hp & Hr).
  apply bind_Some in Hr as (n & Hn & [= <-]).
  apply alfu_removeFromGhost_same in H1. destruct c, c1. by lfu_cbn.
- injection Hr as <-. repeat split.
Qed.

Lemma alfu_addToGhost_same node c c' :
ArcLfu.addToGhost node c = Some c' → alfu_same_main c c'.
Proof.
unfold ArcLfu.addToGhost. intros Hr.
apply bind_Some in Hr as (p & Hp & Hr).
apply bind_Some in Hr as (h1 & H1 & Hr).
apply bind_Some in Hr as (h2 & H2 & Hr).
apply bind_Some in Hr as (n & Hn & [= <-]).
destruct c. lfu_cbn. repeat split. lfu_cbn_in_all.
apply arcnode_store_same in H1; [|apply keeps_set_accessCount].
apply arcnode_link_before_same in H2. by eapply same_entries_trans.
Qed.

Lemma alfu_checkGhost_same key c b c' :
ArcLfu.checkGhost key c = Some (b, c') → alfu_same_main c c'.
Proof.
unfold ArcLfu.checkGhost. intros Hr.
destruct (ArcLfu.ghostCache_ c !! key) as [node|].
- apply bind_Some in Hr as (c1 & H1 & [= <- <-]).
  apply alfu_removeFromGhost_same in H1. destruct c, c1. by lfu_cbn.
- injection Hr as <- <-. repeat split.
Qed.

Lemma same_entries_key h h' q :
ArcNode.same_entries h h' → key_at h' q = key_at h q.
Proof.
intros Hs. specialize (Hs q). unfold key_at.
destruct (h' !! q), (h !! q); cbn in *; congruence.
Qed.

Lemma min_key_Some {A} (m : gmap Z A) f :
min_key m = Some f → is_Some (m !! f).
Proof.
unfold min_key. destruct ((map_to_list m).*1) as [|g gs] eqn:E; [done|].
intros [= <-].
assert (∀ x, x ∈ g :: gs → is_Some (m !! x)) as Hin.
{ intros x Hx. rewrite <- E in Hx. apply list_elem_of_fmap in Hx as ([x' a] & -> & Hx).
  apply elem_of_map_to_list in Hx. by eexists. }
clear E. revert g Hin. induction gs as [|y gs IH]; intros g Hin.
- cbn. apply Hin. by left.
- cbn. destruct (Z.min_spec y (foldr Z.min g gs)) as [[_ ->]|[_ ->]].
  + apply Hin. right; by left.
  + apply IH. intros x Hx. apply Hin.
    apply elem_of_cons in Hx as [->|Hx]; [by left|]. right; by right.
Qed.

Lemma min_key_None {A} (m : gmap Z A) : min_key m = None → m = ∅.
Proof.
unfold min_key. destruct ((map_to_list m).*1) as [|g gs] eqn:E; [|done].
intros _. apply fmap_nil_inv in E. by apply map_to_list_empty_iff.
Qed.

Lemma alfu_updateNodeFrequency_fields p c c' :
ArcLfu.updateNodeFrequency p c = Some c' →
∃ old oldList fm1,
  count_at (ArcLfu.nodes c) p = Some old
  ∧ oldList = filter (λ q, q ≠ p) (default [] (ArcLfu.freqMap_ c !! old))
  ∧ ArcLfu.mainCache_ c' = ArcLfu.mainCache_ c
  ∧ ArcLfu.capacity_ c' = ArcLfu.capacity_ c
  ∧ ArcLfu.freqMap_ c'
    = <[u64 (old + 1) := default [] (fm1 !! u64 (old + 1)) ++ [p]]> fm1
  ∧ ((oldList = [] ∧ fm1 = delete old (ArcLfu.freqMap_ c)
      ∧ ArcLfu.minFreq_ c'
        = if decide (old = ArcLfu.minFreq_ c) then u64 (old + 1)
          else ArcLfu.minFreq_ c)
     ∨ (oldList ≠ [] ∧ fm1 = <[old := oldList]> (ArcLfu.freqMap_ c)
        ∧ ArcLfu.minFreq_ c' = ArcLfu.minFreq_ c)).
Proof.
unfold ArcLfu.updateNodeFrequency. intros Hu.
apply bind_Some in Hu as (n & Hn & Hu).
apply bind_Some in Hu as (h1 & Hs & Hu).
apply bind_Some in Hu as (n1 & Hn1 & Hu).
unfold ArcNode.store in Hs. rewrite Hn in Hs. injection Hs as <-.
rewrite list_lookup_insert_eq in Hn1 by (by eapply lookup_lt_Some).
injection Hn1 as <-. cbn [ArcNode.increaseAccessCount ArcNode.set_accessCount
  ArcNode.accessCount_] in Hu.
exists (ArcNode.accessCount_ n),
  (filter (λ q, q ≠ p)
     (default [] (ArcLfu.freqMap_ c !! ArcNode.accessCount_ n))),
  (if decide (filter (λ q, q ≠ p)
                (default [] (ArcLfu.freqMap_ c !! ArcNode.accessCount_ n))
              = [])
   then delete (ArcNode.accessCount_ n) (ArcLfu.freqMap_ c)
   else <[ArcNode.accessCount_ n :=
            filter (λ q, q ≠ p)
              (default [] (ArcLfu.freqMap_ c !! ArcNode.accessCount_ n))]>
          (ArcLfu.freqMap_ c)).
split; [unfold count_at; by rewrite Hn|]. split; [reflexivity|].
injection Hu as <-. destruct c. lfu_cbn_in_all.
case_decide as Hol.
- case_decide; lfu_cbn; (split; [done|]); (split; [done|]);
    (split; [reflexivity|]); left; by rewrite ?decide_True, ?decide_False.
- lfu_cbn. split; [done|]. split; [done|]. split; [reflexivity|].
  right. done.
Qed.

Lemma alfu_updateNodeFrequency_counted c gs k p c' :
arclfu_freq_ok (ArcLfu.nodes c) gs (ArcLfu.freqMap_ c) →
arclfu_counted c → ArcLfu.mainCache_ c !! k = Some p →
ArcLfu.updateNodeFrequency p c = Some c' →
arclfu_counted c'.
Proof.
intros Hfreq [Hlists Hmain Hmin Hsize] Hkp Hu.
unfold arclfu_freq_ok in Hfreq.
destruct (alfu_updateNodeFrequency_fields _ _ _ Hu)
  as (old & oldList & fm1 & Hcnt & HoL & Hm' & Hc' & Hfm' & Hcase).
destruct (Hmain k p Hkp) as (f & l & Hfl & Hpl).
assert (f = old) as ->.
{ destruct (Hfreq f l Hfl) as [_ Hall]. destruct (Hall p Hpl) as (_ & _ & Hf).
  congruence. }
rewrite Hfl in HoL. cbn [default from_option id] in HoL.
pose proof (u64_succ_ne old) as Hne.
set (new := u64 (old + 1)) in *.
assert (∀ f' l', fm1 !! f' = Some l' →
          l' ≠ [] ∧ ∀ q, q ∈ l' → ∃ k', ArcLfu.mainCache_ c !! k' = Some q)
  as Ha.
{ intros f' l' Hf'. destruct Hcase as [(Hol & -> & _)|(Hol & -> & _)].
  - apply lookup_delete_Some in Hf' as [_ Hf']. by apply (Hlists f' l').
  - destruct (decide (f' = old)) as [->|Hd].
    + rewrite lookup_insert_eq in Hf'. injection Hf' as <-.
      split; [done|]. intros q Hq. rewrite HoL in Hq.
      apply list_elem_of_filter in Hq as [_ Hq].
      by apply (proj2 (Hlists old l Hfl)).
    + rewrite lookup_insert_ne in Hf' by done. by apply (Hlists f' l'). }
assert (∀ k' q, ArcLfu.mainCache_ c !! k' = Some q → q ≠ p →
          ∃ f' l', fm1 !! f' = Some l' ∧ q ∈ l') as Hb.
{ intros k' q Hk' Hqp. destruct (Hmain k' q Hk') as (f' & l' & Hf' & Hq).
  destruct (decide (f' = old)) as [->|Hd].
  - assert (l' = l) as -> by congruence.
    assert (q ∈ oldList) as Hqo.
    { rewrite HoL. apply list_elem_of_filter. by split. }
    destruct Hcase as [(Hol & _)|(Hol & -> & _)].
    + rewrite Hol in Hqo. by apply elem_of_nil in Hqo.
    + exists old, oldList. by rewrite lookup_insert_eq.
  - exists f', l'. split; [|done].
    destruct Hcase as [(_ & -> & _)|(_ & -> & _)].
    + by rewrite lookup_delete_ne.
    + by rewrite lookup_insert_ne. }
assert (is_Some (ArcLfu.freqMap_ c' !! ArcLfu.minFreq_ c')) as Hc.
{ rewrite Hfm'. assert (is_Some (ArcLfu.freqMap_ c !! ArcLfu.minFreq_ c)) as Hm.
  { apply Hmin. intros He. by rewrite He, lookup_empty in Hfl. }
  destruct Hcase as [(_ & -> & ->)|(_ & -> & ->)].
  - case_decide as Hd; [by rewrite lookup_insert_eq|].
    destruct (decide (ArcLfu.minFreq_ c = new)) as [->|Hd'];
      [by rewrite lookup_insert_eq|].
    rewrite lookup_insert_ne by done. by rewrite lookup_delete_ne.
  - destruct (decide (ArcLfu.minFreq_ c = new)) as [->|Hd'];
      [by rewrite lookup_insert_eq|].
    rewrite lookup_insert_ne by done.
    destruct (decide (ArcLfu.minFreq_ c = old)) as [->|Hd''];
      [by rewrite lookup_insert_eq|].
    by rewrite lookup_insert_ne. }
split.
- intros f' l'. rewrite Hfm', Hm'. destruct (decide (f' = new)) as [->|Hd].
  + rewrite lookup_insert_eq. intros [= <-]. split.
    * intros He. by apply app_eq_nil in He as [_ ?].
    * intros q [Hq|Hq]%elem_of_app.
      -- destruct (fm1 !! new) as [l0|] eqn:E; [|by apply elem_of_nil in Hq].
         by apply (proj2 (Ha new l0 E)).
      -- apply list_elem_of_singleton in Hq as ->. by exists k.
  + rewrite lookup_insert_ne by done. apply Ha.
- intros k' q. rewrite Hfm', Hm'. intros Hk'.
  destruct (decide (q = p)) as [->|Hqp].
  + eexists new, _. rewrite lookup_insert_eq. split; [done|]. set_solver.
  + destruct (Hb k' q Hk' Hqp) as (f' & l' & Hf' & Hq).
    destruct (decide (f' = new)) as [->|Hd].
    * eexists new, _. rewrite lookup_insert_eq. split; [done|].
      rewrite Hf'. cbn. set_solver.
    * exists f', l'. by rewrite lookup_insert_ne.
- intros _. exact Hc.
- by rewrite Hm', Hc'.
Qed.

(** What [evictLeastFrequent] leaves in the fields of the partition. *)
Lemma alfu_evict_fields c c' :
ArcLfu.evictLeastFrequent c = Some c' →
(ArcLfu.freqMap_ c = ∅ ∧ c' = c)
∨ (default [] (ArcLfu.freqMap_ c !! ArcLfu.minFreq_ c) = []
   ∧ ArcLfu.freqMap_ c ≠ ∅)
∨ ∃ least rest k,
    ArcLfu.freqMap_ c !! ArcLfu.minFreq_ c = Some (least :: rest)
    ∧ key_at (ArcLfu.nodes c) least = Some k
    ∧ ArcLfu.mainCache_ c' = delete k (ArcLfu.mainCache_ c)
    ∧ ArcLfu.capacity_ c' = ArcLfu.capacity_ c
    ∧ ((rest = []
        ∧ ArcLfu.freqMap_ c' = delete (ArcLfu.minFreq_ c) (ArcLfu.freqMap_ c)
        ∧ ArcLfu.minFreq_ c'
          = default (ArcLfu.minFreq_ c)
              (min_key (delete (ArcLfu.minFreq_ c) (ArcLfu.freqMap_ c))))
       ∨ (rest ≠ []
          ∧ ArcLfu.freqMap_ c'
            = <[ArcLfu.minFreq_ c := rest]> (ArcLfu.freqMap_ c)
          ∧ ArcLfu.minFreq_ c' = ArcLfu.minFreq_ c)).
Proof.
unfold ArcLfu.evictLeastFrequent. intros He. case_decide as Hfm.
{ left. by injection He as <-. }
right.
destruct (default [] (ArcLfu.freqMap_ c !! ArcLfu.minFreq_ c))
  as [|least rest] eqn:Hl; [by left|].
right. exists least, rest.
assert (ArcLfu.freqMap_ c !! ArcLfu.minFreq_ c = Some (least :: rest)) as Hl'.
{ destruct (ArcLfu.freqMap_ c !! ArcLfu.minFreq_ c); [|done]. cbn in Hl.
  by rewrite Hl. }
apply bind_Some in He as (c2 & H2 & He).
apply bind_Some in He as (c3 & H3 & He).
apply bind_Some in He as (n & Hn & [= <-]).
apply alfu_addToGhost_same in H3 as (Hm3 & Hf3 & Hq3 & Hc3 & Hs3).
match type of H2 with
| (if _ then _ else _) = _ => idtac
end.
set (c1 := match rest with [] => _ | _ => _ end) in H2.
assert (alfu_same_main c1 c2) as (Hm2 & Hf2 & Hq2 & Hc2 & Hs2).
{ case_decide.
  - by apply alfu_removeOldestGhost_same.
  - injection H2 as <-. repeat split. }
assert (ArcLfu.mainCache_ c1 = ArcLfu.mainCache_ c
        ∧ ArcLfu.capacity_ c1 = ArcLfu.capacity_ c
        ∧ ArcLfu.nodes c1 = ArcLfu.nodes c) as (Hm1 & Hc1 & Hn1).
{ unfold c1. destruct rest; [destruct (min_key _)|]; by destruct c. }
exists (ArcNode.key_ n). split; [done|]. split.
{ rewrite <- Hn1. rewrite <- (same_entries_key _ _ least Hs2).
  rewrite <- (same_entries_key _ _ least Hs3). unfold key_at. by rewrite Hn. }
lfu_cbn. rewrite Hm3, Hm2, Hm1, Hc3, Hc2, Hc1, Hf3, Hf2, Hq3, Hq2.
split; [done|]. split; [done|]. unfold c1. destruct rest as [|r rest'].
- left. split; [done|]. destruct (min_key _); by destruct c.
- right. split; [done|]. by destruct c.
Qed.

Lemma zsize_delete_Some (m : gmap Key ptr) k :
is_Some (m !! k) → zsize (delete k m) = zsize m - 1.
Proof.
intros Hk. unfold zsize. rewrite map_size_delete_Some by done.
assert (size m ≠ 0%nat).
{ intros Hz. apply map_size_empty_inv in Hz. subst.
  rewrite lookup_empty in Hk. by destruct Hk. }
lia.
Qed.

Lemma zsize_insert_None (m : gmap Key ptr) k p :
m !! k = None → zsize (<[k := p]> m) = zsize m + 1.
Proof. intros Hk. unfold zsize. rewrite map_size_insert_None by done. lia. Qed.

Lemma alfu_evict_counted c gs c' :
arclfu_inv c gs → arclfu_counted c →
ArcLfu.evictLeastFrequent c = Some c' →
arclfu_counted c'
∧ ArcLfu.capacity_ c' = ArcLfu.capacity_ c
∧ ArcLfu.mainCache_ c' ⊆ ArcLfu.mainCache_ c
∧ (ArcLfu.mainCache_ c ≠ ∅ →
   zsize (ArcLfu.mainCache_ c') = zsize (ArcLfu.mainCache_ c) - 1).
Proof.
intros Hinv Hcnt He. pose proof Hcnt as [Hlists Hmain Hmin Hsize].
pose proof (alfu_freq _ _ Hinv) as Hfreq. unfold arclfu_freq_ok in Hfreq.
destruct (alfu_evict_fields _ _ He)
  as [[Hfm ->]|[[Hnil Hfm]|(least & rest & k & Hl & Hkey & Hm' & Hc' & Hcase)]].
- split; [done|]. split; [done|]. split; [done|]. intros Hne.
  destruct (map_choose _ Hne) as (k & p & Hkp).
  destruct (Hmain k p Hkp) as (f & l & Hfl & _).
  by rewrite Hfm, lookup_empty in Hfl.
- destruct (Hmin Hfm) as [l Hl]. rewrite Hl in Hnil. cbn in Hnil.
  by destruct (Hlists _ l Hl) as [? _].
- destruct (Hfreq _ _ Hl) as [Hnd Hall].
  destruct (proj2 (Hlists _ _ Hl) least) as [k0 Hk0]; [by left|].
  assert (k0 = k) as ->.
  { destruct (alfu_main_map _ _ Hinv k0 least Hk0) as (_ & _ & Hk'). congruence. }
  assert (∀ f l q, ArcLfu.freqMap_ c !! f = Some l → q ∈ l →
            (f = ArcLfu.minFreq_ c → q ∈ rest) →
            ∃ k', delete k (ArcLfu.mainCache_ c) !! k' = Some q) as Hkeep.
  { intros f l q Hfl Hq Hrest.
    destruct (proj2 (Hlists f l Hfl) q Hq) as [k' Hk'].
    exists k'. apply lookup_delete_Some. split; [|done]. intros <-.
    assert (q = least) as -> by congruence.
    destruct (decide (f = ArcLfu.minFreq_ c)) as [->|Hd].
    - apply NoDup_cons in Hnd as [Hnin _]. by apply Hnin, Hrest.
    - destruct (Hfreq f l Hfl) as [_ Hall'].
      destruct (Hall' least Hq) as (_ & _ & E1).
      destruct (Hall least) as (_ & _ & E2); [by left|]. congruence. }
  split; [|split; [done|split]].
  + split.
    * intros f l. rewrite Hm'.
      destruct Hcase as [(-> & -> & _)|(Hr & -> & _)].
      -- intros [Hd Hfl]%lookup_delete_Some. split; [by apply (Hlists f l)|].
         intros q Hq. by apply (Hkeep f l q).
      -- destruct (decide (f = ArcLfu.minFreq_ c)) as [->|Hd].
         ++ rewrite lookup_insert_eq. intros [= <-]. split; [done|].
            intros q Hq. apply (Hkeep _ _ q Hl); [by right|done].
         ++ rewrite lookup_insert_ne by done. intros Hfl.
            split; [by apply (Hlists f l)|]. intros q Hq.
            by apply (Hkeep f l q).
    * intros k' q. rewrite Hm'. intros [Hk' Hq]%lookup_delete_Some.
      destruct (Hmain k' q Hq) as (f & l & Hfl & Hql).
      assert (q ≠ least) as Hne.
      { intros ->. destruct (alfu_main_map _ _ Hinv k' least Hq) as (_ & _ & E).
        congruence. }
      destruct (decide (f = ArcLfu.minFreq_ c)) as [->|Hd].
      -- assert (l = least :: rest) as -> by congruence.
         apply elem_of_cons in Hql as [?|Hql]; [done|].
         destruct Hcase as [(-> & _)|(Hr & -> & _)];
           [by apply elem_of_nil in Hql|].
         exists (ArcLfu.minFreq_ c), rest. by rewrite lookup_insert_eq.
      -- exists f, l. split; [|done].
         destruct Hcase as [(_ & -> & _)|(_ & -> & _)].
         ++ by rewrite lookup_delete_ne.
         ++ by rewrite lookup_insert_ne.
    * destruct Hcase as [(_ & -> & ->)|(_ & -> & ->)].
      -- intros Hne.
         destruct (min_key (delete (ArcLfu.minFreq_ c) (ArcLfu.freqMap_ c)))
           as [f|] eqn:E.
         ++ by apply min_key_Some.
         ++ by apply min_key_None in E.
      -- intros _. by rewrite lookup_insert_eq.
    * rewrite Hm', Hc'. rewrite zsize_delete_Some by (by eexists). lia.
  + rewrite Hm'. apply delete_subseteq.
  + intros _. rewrite Hm'. by apply zsize_delete_Some.
Qed.

Lemma alfu_same_main_counted c c' :
alfu_same_main c c' → arclfu_counted c → arclfu_counted c'.
Proof.
intros (Hm & Hf & Hq & Hc & _) [Hlists Hmain Hmin Hsize].
split; rewrite ?Hm, ?Hf, ?Hq, ?Hc; done.
Qed.

Lemma alfu_new_counted (Key0 : Key) (Value0 : Value) capacity thr :
0 ≤ capacity → arclfu_counted (ArcLfu.new Key0 Value0 capacity thr).
Proof.
intros Hc. split; cbn.
- intros f l Hf. by rewrite lookup_empty in Hf.
- intros k p Hk. by rewrite lookup_empty in Hk.
- done.
- unfold zsize. rewrite map_size_empty. lia.
Qed.

Lemma alfu_addNewNode_counted c gs key value c' :
arclfu_inv c gs → arclfu_counted c →
ArcLfu.mainCache_ c !! key = None → 0 < ArcLfu.capacity_ c →
ArcLfu.addNewNode key value c = Some c' →
arclfu_counted c' ∧ ArcLfu.capacity_ c' = ArcLfu.capacity_ c.
Proof.
intros Hinv Hcnt Hk Hcap Ha. unfold ArcLfu.addNewNode in Ha.
apply bind_Some in Ha as (c1 & H1 & Ha).
assert (arclfu_counted c1 ∧ ArcLfu.capacity_ c1 = ArcLfu.capacity_ c
        ∧ ArcLfu.mainCache_ c1 !! key = None
        ∧ zsize (ArcLfu.mainCache_ c1) ≤ ArcLfu.capacity_ c - 1)
  as ([Hlists Hmain Hmin Hsize] & Hc1 & Hk1 & Hs1).
{ case_decide as Hfull.
  - destruct (alfu_evict_counted c gs c1 Hinv Hcnt H1)
      as (Hcnt1 & Hc1 & Hsub & Hsz).
    split; [done|]. split; [done|]. split.
    + by eapply lookup_weaken_None.
    + rewrite Hsz; [destruct Hcnt; lia|]. intros He. rewrite He in Hfull.
      unfold zsize in Hfull. rewrite map_size_empty in Hfull. lia.
  - injection H1 as <-. split; [done|]. split; [done|]. split; [done|]. lia. }
unfold ArcNode.alloc in Ha. injection Ha as <-. destruct c1.
lfu_cbn_in_all. split; [|done]. split; lfu_cbn.
- intros f l. destruct (decide (f = 1)) as [->|Hd].
  + rewrite lookup_insert_eq. intros [= <-]. split.
    * intros He. by apply app_eq_nil in He as [_ ?].
    * intros q [Hq|Hq]%elem_of_app.
      -- destruct (freqMap_ !! 1) as [l0|] eqn:E; [|by apply elem_of_nil in Hq].
         destruct (proj2 (Hlists 1 l0 E) q Hq) as [k' Hk'].
         exists k'. rewrite lookup_insert_ne; [done|]. intros <-. congruence.
      -- apply list_elem_of_singleton in Hq as ->. exists key.
         by rewrite lookup_insert_eq.
  + rewrite lookup_insert_ne by done. intros Hfl.
    split; [by apply (Hlists f l)|]. intros q Hq.
    destruct (proj2 (Hlists f l Hfl) q Hq) as [k' Hk'].
    exists k'. rewrite lookup_insert_ne; [done|]. intros <-. congruence.
- intros k' q. destruct (decide (k' = key)) as [->|Hd].
  + rewrite lookup_insert_eq. intros [= <-]. eexists 1, _.
    rewrite lookup_insert_eq. split; [done|]. set_solver.
  + rewrite lookup_insert_ne by done. intros Hk'.
    destruct (Hmain k' q Hk') as (f & l & Hfl & Hq).
    destruct (decide (f = 1)) as [->|Hd'].
    * eexists 1, _. rewrite lookup_insert_eq. split; [done|].
      rewrite Hfl. cbn. set_solver.
    * exists f, l. by rewrite lookup_insert_ne.
- intros _. by rewrite lookup_insert_eq.
- rewrite zsize_insert_None by done. lia.
Qed.

Lemma alfu_put_counted c gs key value b c' :
arclfu_inv c gs → arclfu_counted c →
ArcLfu.put key value c = Some (b, c') →
arclfu_counted c' ∧ ArcLfu.capacity_ c' = ArcLfu.capacity_ c.
Proof.
intros Hinv Hcnt Hp. unfold ArcLfu.put in Hp. case_decide as Hz.
{ by injection Hp as <- <-. }
assert (0 < ArcLfu.capacity_ c) as Hpos.
{ destruct Hcnt as [_ _ _ Hs]. unfold zsize in Hs. lia. }
apply bind_Some in Hp as (c1 & H1 & [= <- <-]).
destruct (ArcLfu.mainCache_ c !! key) as [p|] eqn:Hk.
- unfold ArcLfu.updateExistingNode in H1.
  apply bind_Some in H1 as (h1 & Hs & Hu).
  assert (∀ q, count_at h1 q = count_at (ArcLfu.nodes c) q) as Hcount.
  { intros q. unfold ArcNode.store in Hs.
    destruct (ArcLfu.nodes c !! p) as [n|] eqn:Hn; [|done].
    injection Hs as <-. unfold count_at.
    destruct (decide (q = p)) as [->|Hd].
    - rewrite list_lookup_insert_eq by (by eapply lookup_lt_Some).
      by rewrite Hn.
    - by rewrite list_lookup_insert_ne. }
  assert (length h1 = length (ArcLfu.nodes c)) as Hlen.
  { unfold ArcNode.store in Hs.
    destruct (ArcLfu.nodes c !! p) as [n|]; [|done].
    injection Hs as <-. by rewrite length_insert. }
  destruct (alfu_updateNodeFrequency_fields _ _ _ Hu)
    as (_ & _ & _ & _ & _ & _ & Hc' & _).
  split; [|by destruct c].
  eapply (alfu_updateNodeFrequency_counted _ gs key p); [..|exact Hu].
  + pose proof (alfu_freq _ _ Hinv) as Hfreq. unfold arclfu_freq_ok in *.
    destruct c. lfu_cbn_in_all. intros f l Hfl.
    destruct (Hfreq f l Hfl) as [Hnd Hall]. split; [done|].
    intros q Hq. rewrite Hlen, Hcount. by apply Hall.
  + destruct Hcnt; destruct c; by split.
  + by destruct c.
- by eapply alfu_addNewNode_counted.
Qed.

Lemma alfu_get_counted c gs key r c' :
arclfu_inv c gs → arclfu_counted c →
ArcLfu.get key c = Some (r, c') →
arclfu_counted c' ∧ ArcLfu.capacity_ c' = ArcLfu.capacity_ c.
Proof.
intros Hinv Hcnt Hg. unfold ArcLfu.get in Hg.
destruct (ArcLfu.mainCache_ c !! key) as [p|] eqn:Hk.
- apply bind_Some in Hg as (c1 & Hu & Hg).
  apply bind_Some in Hg as (n & Hn & [= <- <-]).
  destruct (alfu_updateNodeFrequency_fields _ _ _ Hu)
    as (_ & _ & _ & _ & _ & _ & Hc' & _).
  split; [|done].
  by eapply (alfu_updateNodeFrequency_counted _ gs key p);
    [apply (alfu_freq _ _ Hinv)|..].
- by injection Hg as <- <-.
Qed.

Lemma alfu_decreaseCapacity_counted c gs b c' :
arclfu_inv c gs → arclfu_counted c →
ArcLfu.decreaseCapacity c = Some (b, c') →
arclfu_counted c' ∧ ArcLfu.capacity_ c' ≤ ArcLfu.capacity_ c.
Proof.
intros Hinv Hcnt Hd. unfold ArcLfu.decreaseCapacity in Hd.
case_decide as Hz. { by injection Hd as <- <-. }
apply bind_Some in Hd as (c1 & H1 & [= <- <-]).
assert (arclfu_counted c1 ∧ ArcLfu.capacity_ c1 = ArcLfu.capacity_ c
        ∧ zsize (ArcLfu.mainCache_ c1) ≤ ArcLfu.capacity_ c - 1)
  as ([Hlists Hmain Hmin Hsize] & Hc1 & Hs1).
{ case_decide as Hfull.
  - destruct (alfu_evict_counted c gs c1 Hinv Hcnt H1)
      as (Hcnt1 & Hc1 & Hsub & Hsz).
    split; [done|]. split; [done|].
    rewrite Hsz; [lia|]. intros He. rewrite He in Hfull.
    unfold zsize in Hfull. rewrite map_size_empty in Hfull. lia.
  - injection H1 as <-. split; [done|]. split; [done|].
    destruct Hcnt. lia. }
destruct c1. lfu_cbn_in_all. split; [|lia]. split; lfu_cbn; [done..|lia].
Qed.

Lemma alfu_increaseCapacity_counted c :
arclfu_counted c → ArcLfu.capacity_ c + 1 < 2 ^ 64 →
arclfu_counted (ArcLfu.increaseCapacity c)
∧ ArcLfu.capacity_ (ArcLfu.increaseCapacity c) = ArcLfu.capacity_ c + 1.
Proof.
intros [Hlists Hmain Hmin Hsize] Hlt. unfold ArcLfu.increaseCapacity.
assert (0 ≤ ArcLfu.capacity_ c) by (unfold zsize in Hsize; lia).
destruct c. lfu_cbn_in_all. rewrite u64_small by lia.
split; [|done]. split; lfu_cbn; [done..|lia].
Qed.

End ArcLfuCounted.

Section ArcLfuBounded.
Context `{Countable Key} {Value : Type}.
Variables (Key0 : Key) (Value0 : Value).
Implicit Types c : Arc.ArcCache (Key := Key) (Value := Value).
Implicit Types key k : Key.
Implicit Types value : Value.

Lemma arc_checkGhostCaches_lfu c key b c' n :
arc_inv c → arc_lfu_bounded n c → n + 1 < 2 ^ 64 →
Arc.checkGhostCaches key c = Some (b, c') →
arc_lfu_bounded (n + 1) c'.
Proof.
intros [_ (gs & Hlfu)] [Hcnt Hn] Hlt Hc. unfold Arc.checkGhostCaches in Hc.
apply bind_Some in Hc as ([inLru lru1] & H1 & Hc). destruct inLru.
- apply bind_Some in Hc as ([ok lfu1] & H2 & [= <- <-]).
  destruct (alfu_decreaseCapacity_counted _ _ _ _ Hlfu Hcnt H2) as [Hcnt1 Hc1].
  split; cbn [Arc.lfuPart_]; [done|lia].
- apply bind_Some in Hc as ([inLfu lfu1] & H2 & Hc).
  pose proof (alfu_checkGhost_same _ _ _ _ H2) as Hsame.
  pose proof (alfu_same_main_counted _ _ Hsame Hcnt) as Hcnt1.
  destruct Hsame as (_ & _ & _ & Hc1 & _).
  destruct inLfu.
  + apply bind_Some in Hc as ([ok lru2] & H3 & [= <- <-]).
    cbn [Arc.lfuPart_]. destruct ok.
    * destruct (alfu_increaseCapacity_counted lfu1 Hcnt1) as [Hcnt2 Hc2];
        [lia|].
      split; cbn [Arc.lfuPart_]; [done|lia].
    * split; cbn [Arc.lfuPart_]; [done|lia].
  + injection Hc as <- <-. split; cbn [Arc.lfuPart_]; [done|lia].
Qed.

Lemma arc_put_lfu c key value c' n :
arc_inv c → arc_lfu_bounded n c → n + 1 < 2 ^ 64 →
Arc.put key value c = Some c' →
arc_lfu_bounded (n + 1) c'.
Proof.
intros Hinv Hb Hlt Hp. unfold Arc.put in Hp.
destruct (arc_checkGhostCaches_inv c key Hinv)
  as (b & c1 & Hc & [_ (gs & Hlfu)] & _).
pose proof (arc_checkGhostCaches_lfu _ _ _ _ _ Hinv Hb Hlt Hc) as [Hcnt1 Hn1].
rewrite Hc in Hp. cbn [mbind option_bind] in Hp.
assert (∀ r l, ArcLru.put key value (Arc.lruPart_ c1) = Some (r, l) →
          arc_lfu_bounded (n + 1) (Arc.with_lru l c1)) as Hlru.
{ intros r l _. by destruct c1. }
destruct b.
- apply bind_Some in Hp as ([r l] & Hput & [= <-]). by eapply Hlru.
- destruct (ArcLfu.inLfuMainCache key (Arc.lfuPart_ c1)).
  + apply bind_Some in Hp as ([r l] & Hput & [= <-]).
    destruct (alfu_put_counted _ _ _ _ _ _ Hlfu Hcnt1 Hput) as [Hcnt2 Hc2].
    destruct c1. split; cbn [Arc.with_lfu Arc.lfuPart_] in *; [done|lia].
  + apply bind_Some in Hp as ([r l] & Hput & [= <-]). by eapply Hlru.
Qed.

Lemma arc_get_lfu c key r c' n :
arc_inv c → arc_lfu_bounded n c → n + 1 < 2 ^ 64 →
Arc.get key c = Some (r, c') →
arc_lfu_bounded (n + 1) c'.
Proof.
intros Hinv Hb Hlt Hg. unfold Arc.get in Hg.
destruct (arc_checkGhostCaches_inv c key Hinv)
  as (b & c1 & Hc & [_ (gs & Hlfu)] & _).
pose proof (arc_checkGhostCaches_lfu _ _ _ _ _ Hinv Hb Hlt Hc) as [Hcnt1 Hn1].
rewrite Hc in Hg. cbn [mbind option_bind] in Hg.
apply bind_Some in Hg as ([r1 lru1] & H1 & Hg).
destruct r1 as [[v t]|].
- destruct t.
  + apply bind_Some in Hg as ([r2 lfu1] & Hput & [= <- <-]).
    destruct (alfu_put_counted _ _ _ _ _ _ Hlfu Hcnt1 Hput) as [Hcnt2 Hc2].
    split; cbn [Arc.lfuPart_]; [done|lia].
  + injection Hg as <- <-. by destruct c1.
- apply bind_Some in Hg as ([r2 lfu1] & Hget & [= <- <-]).
  destruct (alfu_get_counted _ _ _ _ _ Hlfu Hcnt1 Hget) as [Hcnt2 Hc2].
  split; cbn [Arc.lfuPart_]; [done|lia].
Qed.

Lemma arc_run_lfu (ops : list (arc_op Key Value)) :
∀ c c' n,
arc_inv c → arc_lfu_bounded n c → n + Z.of_nat (length ops) < 2 ^ 64 →
run (arc_step <$> ops) c = Some c' →
arc_lfu_bounded (n + Z.of_nat (length ops)) c'.
Proof.
induction ops as [|o ops IH]; intros c c' n Hinv Hb Hlt Hr.
- injection Hr as <-. cbn. by rewrite Z.add_0_r.
- rewrite fmap_cons, run_cons in Hr. cbn [length] in *.
  apply bind_Some in Hr as (c1 & Hs & Hr).
  assert (arc_inv c1 ∧ arc_lfu_bounded (n + 1) c1) as [Hinv1 Hb1].
  { destruct o as [key value|key]; cbn [arc_step] in Hs.
    - destruct (arc_put_inv c key value Hinv) as (c2 & Hp & Hinv2 & _).
      assert (c2 = c1) as -> by congruence. split; [done|].
      apply (arc_put_lfu c key value c1 n Hinv Hb); [lia|exact Hp].
    - unfold call in Hs.
      destruct (arc_get_inv c key Hinv) as (r & c2 & Hg & Hinv2 & _).
      rewrite Hg in Hs. injection Hs as <-. split; [done|].
      apply (arc_get_lfu c key r c2 n Hinv Hb); [lia|exact Hg]. }
  replace (n + Z.of_nat (S (length ops)))
    with (n + 1 + Z.of_nat (length ops)) by lia.
  eapply IH; [exact Hinv1|exact Hb1|lia|exact Hr].
Qed.

Lemma arc_reach_lfu capacity transformThreshold
  (ops : list (arc_op Key Value)) c :
0 ≤ capacity → capacity + Z.of_nat (length ops) < 2 ^ 64 →
run (arc_step <$> ops) (Arc.new Key0 Value0 capacity transformThreshold)
= Some c →
arclfu_counted (Arc.lfuPart_ c).
Proof.
intros Hc Hlt Hr.
eapply (arc_run_lfu ops _ c capacity); [apply arc_new_inv| |done|exact Hr].
split; cbn; [by apply alfu_new_counted|lia].
Qed.

End ArcLfuBounded.

(** ** ArcCache: where [put] writes *)

Section ArcRouting.
Context `{Countable Key} {Value : Type}.
Variables (Key0 : Key) (Value0 : Value).
Implicit Types c : Arc.ArcCache (Key := Key) (Value := Value).
Implicit Types key k : Key.
Implicit Types value : Value.

Lemma arc_checkGhostCaches_found c key found c1 :
Arc.checkGhostCaches key c = Some (found, c1) →
found = true
↔ (is_Some (ArcLru.ghostCache_ (Arc.lruPart_ c) !! key)
   ∨ is_Some (ArcLfu.ghostCache_ (Arc.lfuPart_ c) !! key)).
Proof.
intros Hc. split.
- intros ->.
  destruct (ArcLru.ghostCache_ (Arc.lruPart_ c) !! key) eqn:E1;
    [by left|].
  destruct (ArcLfu.ghostCache_ (Arc.lfuPart_ c) !! key) eqn:E2;
    [by right|].
  rewrite arc_checkGhostCaches_absent in Hc by done. done.
- intros Hg. by eapply arc_checkGhostCaches_hit.
Qed.

Lemma arc_checkGhostCaches_miss c key c1 :
Arc.checkGhostCaches key c = Some (false, c1) → c1 = c.
Proof.
intros Hc.
destruct (arc_checkGhostCaches_false c key) as [H1 H2]; [by rewrite Hc|].
rewrite arc_checkGhostCaches_absent in Hc by done. congruence.
Qed.

Lemma zsize_lookup_pos (m : gmap Key ptr) k p :
m !! k = Some p → 0 < zsize m.
Proof.
intros Hk. unfold zsize.
assert (size m ≠ 0%nat); [|lia].
intros Hz. apply map_size_empty_inv in Hz. subst.
by rewrite lookup_empty in Hk.
Qed.

(** C6, as amended.  In a state reached by calls on a new [ArcCache],
  [put] completes and routes the write by the ghost lists and the LFU
  main cache.  A key in neither ghost list that is resident in the LFU
  main cache is written into the LFU partition, which adds one to its
  frequency, and the LRU partition is left as it was.  A key in neither
  ghost list that is not resident in the LFU main cache goes to
  [ArcLruPart::put], and a key found in either ghost list goes to
  [ArcLruPart::put] after the capacity shift, whichever list matched;
  the LFU partition is not written.  [ArcLruPart::put] stores the value
  when the capacity of the LRU partition at the call is not 0, and
  changes nothing when it is 0. *)
Theorem arc_put_routing capacity transformThreshold
  (ops : list (arc_op Key Value)) c key value :
0 ≤ capacity → capacity + Z.of_nat (length ops) < 2 ^ 64 →
run (arc_step <$> ops) (Arc.new Key0 Value0 capacity transformThreshold)
= Some c →
∃ found c1 c',
  Arc.checkGhostCaches key c = Some (found, c1)
  ∧ Arc.put key value c = Some c'
  ∧ (found = true
     ↔ (is_Some (ArcLru.ghostCache_ (Arc.lruPart_ c) !! key)
        ∨ is_Some (ArcLfu.ghostCache_ (Arc.lfuPart_ c) !! key)))
  ∧ (found = false →
     ∀ p, ArcLfu.mainCache_ (Arc.lfuPart_ c) !! key = Some p →
     ∃ f, count_at (ArcLfu.nodes (Arc.lfuPart_ c)) p = Some f
       ∧ Arc.lruPart_ c' = Arc.lruPart_ c
       ∧ ArcLfu.mainCache_ (Arc.lfuPart_ c') !! key = Some p
       ∧ value_at (ArcLfu.nodes (Arc.lfuPart_ c')) p = Some value
       ∧ count_at (ArcLfu.nodes (Arc.lfuPart_ c')) p = Some (u64 (f + 1)))
  ∧ (found = false →
     ArcLfu.mainCache_ (Arc.lfuPart_ c) !! key = None →
     Arc.lfuPart_ c' = Arc.lfuPart_ c
     ∧ (ArcLru.capacity_ (Arc.lruPart_ c) ≠ 0 →
        ∃ p, ArcLru.mainCache_ (Arc.lruPart_ c') !! key = Some p
          ∧ value_at (ArcLru.nodes (Arc.lruPart_ c')) p = Some value)
     ∧ (ArcLru.capacity_ (Arc.lruPart_ c) = 0 → c' = c))
  ∧ (found = true →
     Arc.lfuPart_ c' = Arc.lfuPart_ c1
     ∧ (ArcLru.capacity_ (Arc.lruPart_ c1) ≠ 0 →
        ∃ p, ArcLru.mainCache_ (Arc.lruPart_ c') !! key = Some p
          ∧ value_at (ArcLru.nodes (Arc.lruPart_ c')) p = Some value)
     ∧ (ArcLru.capacity_ (Arc.lruPart_ c1) = 0 → c' = c1)).
Proof.
intros Hcap Hlt Hr.
pose proof (arc_reach_inv _ _ _ _ _ _ Hr) as Hinv.
pose proof (arc_reach_lfu _ _ _ _ _ _ Hcap Hlt Hr) as Hcnt.
destruct (arc_checkGhostCaches_inv c key Hinv)
  as (found & c1 & Hcg & [(ms & gs & Hlru) (gs' & Hlfu)] & _).
destruct (arc_put_inv c key value Hinv) as (c' & Hput & _).
exists found, c1, c'. split; [done|]. split; [done|].
split; [by eapply arc_checkGhostCaches_found|].
unfold Arc.put in Hput. rewrite Hcg in Hput.
cbn [mbind option_bind] in Hput.
destruct (alru_put _ _ _ key value Hlru)
  as (b & l & ms1 & gs1 & Hlput & _ & _ & Hstored & Hzero & _).
assert (Arc.with_lru l c1 = c' →
  Arc.lfuPart_ c' = Arc.lfuPart_ c1
  ∧ (ArcLru.capacity_ (Arc.lruPart_ c1) ≠ 0 →
     ∃ p, ArcLru.mainCache_ (Arc.lruPart_ c') !! key = Some p
       ∧ value_at (ArcLru.nodes (Arc.lruPart_ c')) p = Some value)
  ∧ (ArcLru.capacity_ (Arc.lruPart_ c1) = 0 → c' = c1)) as Hlrucase.
{ intros <-. split; [done|]. split; [done|].
  intros Hz. rewrite (Hzero Hz). by destruct c1. }
destruct found.
- split; [done|]. split; [done|]. intros _.
  rewrite Hlput in Hput. cbn [mbind option_bind] in Hput.
  injection Hput as Hput. by apply Hlrucase.
- pose proof (arc_checkGhostCaches_miss _ _ _ Hcg) as ->.
  split; [|split; [|done]]; intros _.
  + intros p Hp.
    assert (ArcLfu.inLfuMainCache key (Arc.lfuPart_ c) = true) as Hin.
    { apply bool_decide_eq_true. by eexists. }
    rewrite Hin in Hput.
    destruct (alfu_main_map _ _ Hlfu key p Hp) as (Hplt & _ & _).
    destruct (lookup_lt_is_Some_2 _ _ Hplt) as [n Hn].
    assert (ArcLfu.capacity_ (Arc.lfuPart_ c) ≠ 0) as Hne.
    { pose proof (alc_size _ Hcnt). pose proof (zsize_lookup_pos _ _ _ Hp).
      lia. }
    destruct (arclfu_put_resident key value _ p n Hne Hp Hn)
      as (part' & Hpp & Hm & Hnode).
    rewrite Hpp in Hput. cbn [mbind option_bind] in Hput.
    injection Hput as <-.
    exists (ArcNode.accessCount_ n). unfold count_at, value_at.
    rewrite Hn. cbn [Arc.with_lfu Arc.lruPart_ Arc.lfuPart_].
    rewrite Hnode. done.
  + intros Hnone.
    assert (ArcLfu.inLfuMainCache key (Arc.lfuPart_ c) = false) as Hin.
    { apply bool_decide_eq_false. rewrite Hnone. by intros [? ?]. }
    rewrite Hin, Hlput in Hput. cbn [mbind option_bind] in Hput.
    injection Hput as Hput.
    by apply Hlrucase.
Qed.

End ArcRouting.

Section ArcRoutingExamples.
Open Scope string_scope.

(** C6, the claim as stated fails.  In [ArcCache(1, 1)] after
  [put(1); get(1); put(2); get(2); put(3)], key 1 is in the ghost list
  of the LFU partition.  [put(1,"x")] hits that ghost list, the capacity
  shift takes the LRU partition from 1 to 0, and [ArcLruPart::put]
  returns at its capacity guard: key 1 is in neither partition
  afterwards.  A following [put(9,"y")] of a key that is in no ghost
  list and not in the LFU partition is not stored either. *)
Lemma arc_put_at_zero_lru_capacity_stores_nothing :
run (arc_step <$> arc_lfu_ghosted_ops) (Arc.new 0 "" 1 1)
= Some arc_lfu_ghosted
∧ ArcLru.ghostCache_ (Arc.lruPart_ arc_lfu_ghosted) !! 1 = None
∧ is_Some (ArcLfu.ghostCache_ (Arc.lfuPart_ arc_lfu_ghosted) !! 1)
∧ ArcLru.capacity_ (Arc.lruPart_ arc_lfu_ghosted) = 1
∧ ∃ c', Arc.put 1 "x" arc_lfu_ghosted = Some c'
    ∧ ArcLru.capacity_ (Arc.lruPart_ c') = 0
    ∧ ArcLru.mainCache_ (Arc.lruPart_ c') !! 1 = None
    ∧ ArcLfu.mainCache_ (Arc.lfuPart_ c') !! 1 = None
    ∧ ArcLru.ghostCache_ (Arc.lruPart_ c') !! 9 = None
    ∧ ArcLfu.ghostCache_ (Arc.lfuPart_ c') !! 9 = None
    ∧ ArcLfu.mainCache_ (Arc.lfuPart_ c') !! 9 = None
    ∧ ∃ c'', Arc.put 9 "y" c' = Some c''
        ∧ ArcLru.mainCache_ (Arc.lruPart_ c'') !! 9 = None
        ∧ ArcLfu.mainCache_ (Arc.lfuPart_ c'') !! 9 = None.
Proof.
split; [vm_compute; reflexivity|].
split; [vm_compute; reflexivity|].
split; [vm_compute; by eexists|].
split; [vm_compute; reflexivity|].
eexists. split; [vm_compute; reflexivity|].
repeat (split; [vm_compute; reflexivity|]).
eexists. split; [vm_compute; reflexivity|].
split; vm_compute; reflexivity.
Qed.

Lemma arc_put_routing_witness :
∃ c', Arc.put 3 "z" arc_reput = Some c'
  ∧ Arc.lruPart_ c' = Arc.lruPart_ arc_reput
  ∧ ArcLfu.freq_of 3 (Arc.lfuPart_ arc_reput) = Some 1
  ∧ ArcLfu.freq_of 3 (Arc.lfuPart_ c') = Some 2.
Proof.
destruct (arc_put_routing (Key := Z) 0 "" 2 2 arc_before_reput_ops
            arc_reput 3 "z")
  as (found & c1 & c' & Hcg & Hput & Hfound & Hlfu & _);
  [lia|vm_compute; reflexivity|vm_compute; reflexivity|].
exists c'. split; [exact Hput|].
assert (found = false) as ->.
{ destruct found; [|done]. destruct Hfound as [Hf _].
  by destruct (Hf eq_refl) as [[? Hg]|[? Hg]]; vm_compute in Hg. }
destruct (Hlfu eq_refl 3%nat) as (f & Hf & Hl & Hm & _ & Hf');
  [vm_compute; reflexivity|].
split; [exact Hl|]. split; [vm_compute; reflexivity|].
assert (f = 1) as ->.
{ vm_compute in Hf. by injection Hf. }
unfold ArcLfu.freq_of. rewrite Hm. cbn [mbind option_bind].
unfold count_at in Hf'. destruct (ArcLfu.nodes (Arc.lfuPart_ c') !! 3%nat);
  [|done]. cbn in Hf'. cbn. by injection Hf' as ->.
Defined.

End ArcRoutingExamples.

(** ** LfuCache: the frequency lists *)

Section LfuHeap.
Context `{Countable Key} {Value : Type}.
Implicit Types h : list (Lfu.Node (Key := Key) (Value := Value)).
Implicit Types p q a b : ptr.

Lemma lfu_store_lookup h p f h' :
Lfu.store p f h = Some h' →
length h' = length h
∧ ∀ q, h' !! q = if decide (q = p) then f <$> h !! p else h !! q.
Proof.
unfold Lfu.store. destruct (h !! p) as [n|] eqn:Hp; [|done].
intros [= <-]. split; [by rewrite length_insert|].
intros q. case_decide as Hq.
- subst q. rewrite list_lookup_insert_eq; [done|]. by eapply lookup_lt_Some.
- by rewrite list_lookup_insert_ne.
Qed.

Lemma lfu_store_Some h p f :
(p < length h)%nat → is_Some (Lfu.store p f h).
Proof.
intros Hp. unfold Lfu.store.
destruct (lookup_lt_is_Some_2 h p Hp) as [n ->]. by eexists.
Qed.

Lemma lfu_prv_Some_valid h q x : lfu_prv h q = Some x → (q < length h)%nat.
Proof.
unfold lfu_prv. destruct (h !! q) eqn:E; [|done].
intros _. by eapply lookup_lt_Some.
Qed.

Lemma lfu_freq_Some_valid h q x :
lfu_freq_at h q = Some x → (q < length h)%nat.
Proof.
unfold lfu_freq_at. destruct (h !! q) eqn:E; [|done].
intros _. by eapply lookup_lt_Some.
Qed.

(** What a store of one field does to the links and the payload. *)
Lemma lfu_store_set_next h p x h' :
Lfu.store p (Lfu.set_next x) h = Some h' →
length h' = length h
∧ (∀ q, lfu_nxt h' q = if decide (q = p) then x else lfu_nxt h q)
∧ (∀ q, lfu_prv h' q = lfu_prv h q)
∧ (∀ q, lfu_freq_at h' q = lfu_freq_at h q)
∧ (∀ q, lfu_key_at h' q = lfu_key_at h q)
∧ (∀ q, lfu_value_at h' q = lfu_value_at h q).
Proof.
intros Hs. destruct (lfu_store_lookup _ _ _ _ Hs) as [Hlen Hl].
unfold Lfu.store in Hs. destruct (h !! p) as [n|] eqn:Hp; [|done].
split; [done|].
unfold lfu_nxt, lfu_prv, lfu_freq_at, lfu_key_at, lfu_value_at.
repeat split; intros q; rewrite Hl; case_decide; subst; rewrite ?Hp; done.
Qed.

Lemma lfu_store_set_prev h p x h' :
Lfu.store p (Lfu.set_prev x) h = Some h' →
length h' = length h
∧ (∀ q, lfu_nxt h' q = lfu_nxt h q)
∧ (∀ q, lfu_prv h' q = if decide (q = p) then x else lfu_prv h q)
∧ (∀ q, lfu_freq_at h' q = lfu_freq_at h q)
∧ (∀ q, lfu_key_at h' q = lfu_key_at h q)
∧ (∀ q, lfu_value_at h' q = lfu_value_at h q).
Proof.
intros Hs. destruct (lfu_store_lookup _ _ _ _ Hs) as [Hlen Hl].
unfold Lfu.store in Hs. destruct (h !! p) as [n|] eqn:Hp; [|done].
split; [done|].
unfold lfu_nxt, lfu_prv, lfu_freq_at, lfu_key_at, lfu_value_at.
repeat split; intros q; rewrite Hl; case_decide; subst; rewrite ?Hp; done.
Qed.

Lemma lfu_store_set_freq h p x h' :
Lfu.store p (Lfu.set_freq x) h = Some h' →
length h' = length h
∧ (∀ q, lfu_nxt h' q = lfu_nxt h q)
∧ (∀ q, lfu_prv h' q = lfu_prv h q)
∧ (∀ q, lfu_freq_at h' q = if decide (q = p) then Some x else lfu_freq_at h q)
∧ (∀ q, lfu_key_at h' q = lfu_key_at h q)
∧ (∀ q, lfu_value_at h' q = lfu_value_at h q).
Proof.
intros Hs. destruct (lfu_store_lookup _ _ _ _ Hs) as [Hlen Hl].
unfold Lfu.store in Hs. destruct (h !! p) as [n|] eqn:Hp; [|done].
split; [done|].
unfold lfu_nxt, lfu_prv, lfu_freq_at, lfu_key_at, lfu_value_at.
repeat split; intros q; rewrite Hl; case_decide; subst; rewrite ?Hp; done.
Qed.

Lemma lfu_store_set_value h p x h' :
Lfu.store p (Lfu.set_value x) h = Some h' →
length h' = length h
∧ (∀ q, lfu_nxt h' q = lfu_nxt h q)
∧ (∀ q, lfu_prv h' q = lfu_prv h q)
∧ (∀ q, lfu_freq_at h' q = lfu_freq_at h q)
∧ (∀ q, lfu_key_at h' q = lfu_key_at h q)
∧ (∀ q, lfu_value_at h' q
        = if decide (q = p) then Some x else lfu_value_at h q).
Proof.
intros Hs. destruct (lfu_store_lookup _ _ _ _ Hs) as [Hlen Hl].
unfold Lfu.store in Hs. destruct (h !! p) as [n|] eqn:Hp; [|done].
split; [done|].
unfold lfu_nxt, lfu_prv, lfu_freq_at, lfu_key_at, lfu_value_at.
repeat split; intros q; rewrite Hl; case_decide; subst; rewrite ?Hp; done.
Qed.

(** [removeNode] of a node between [a] and [b]: the neighbours are linked
  to each other and the node loses its links. *)
Lemma lfu_removeNode_spec h p a b :
lfu_prv h p = Some a → lfu_nxt h p = Some b →
(a < length h)%nat → (b < length h)%nat → a ≠ p → b ≠ p →
∃ h', Lfu.removeNode (Some p) h = Some h'
  ∧ length h' = length h
  ∧ (∀ q, lfu_nxt h' q = if decide (q = p) then None
                         else if decide (q = a) then Some b
                         else lfu_nxt h q)
  ∧ (∀ q, lfu_prv h' q = if decide (q = p) then None
                         else if decide (q = b) then Some a
                         else lfu_prv h q)
  ∧ (∀ q, lfu_freq_at h' q = lfu_freq_at h q)
  ∧ (∀ q, lfu_key_at h' q = lfu_key_at h q)
  ∧ (∀ q, lfu_value_at h' q = lfu_value_at h q).
Proof.
intros Hpa Hpb Ha Hb Hap Hbp. unfold Lfu.removeNode.
pose proof (lfu_prv_Some_valid _ _ _ Hpa) as Hpv.
assert (lfu_prv h p = Some a) as Hpa0 by done.
assert (lfu_nxt h p = Some b) as Hpb0 by done.
unfold lfu_prv, lfu_nxt in Hpa, Hpb.
destruct (h !! p) as [n|] eqn:Hp; [|done]. cbn in Hpa, Hpb.
cbn [mbind option_bind]. rewrite Hpa, Hpb.
destruct (lfu_store_Some h a (Lfu.set_next (Some b)) Ha) as [h1 Hs1].
rewrite Hs1. cbn [mbind option_bind].
destruct (lfu_store_set_next _ _ _ _ Hs1)
  as (Hl1 & Hn1 & Hp1 & Hf1 & Hk1 & Hv1).
assert (lfu_nxt h1 p = Some b) as Hpb1.
{ rewrite Hn1. by rewrite decide_False by done. }
assert (lfu_prv h1 p = Some a) as Hpa1 by (by rewrite Hp1).
unfold lfu_nxt in Hpb1. unfold lfu_prv in Hpa1.
destruct (h1 !! p) as [n1|] eqn:Hp1'; [|done]. cbn in Hpb1, Hpa1.
cbn [mbind option_bind]. rewrite Hpb1. cbn [mbind option_bind].
rewrite Hpa1.
destruct (lfu_store_Some h1 b (Lfu.set_prev (Some a))) as [h2 Hs2]; [lia|].
rewrite Hs2. cbn [mbind option_bind].
destruct (lfu_store_set_prev _ _ _ _ Hs2)
  as (Hl2 & Hn2 & Hp2 & Hf2 & Hk2 & Hv2).
destruct (lfu_store_Some h2 p (Lfu.set_prev None)) as [h3 Hs3]; [lia|].
rewrite Hs3. cbn [mbind option_bind].
destruct (lfu_store_set_prev _ _ _ _ Hs3)
  as (Hl3 & Hn3 & Hp3 & Hf3 & Hk3 & Hv3).
destruct (lfu_store_Some h3 p (Lfu.set_next None)) as [h4 Hs4]; [lia|].
rewrite Hs4.
destruct (lfu_store_set_next _ _ _ _ Hs4)
  as (Hl4 & Hn4 & Hp4 & Hf4 & Hk4 & Hv4).
eexists. split; [done|]. split; [lia|]. repeat split; intros q.
- rewrite Hn4, Hn3, Hn2, Hn1. repeat case_decide; subst; done.
- rewrite Hp4, Hp3, Hp2, Hp1. repeat case_decide; subst; done.
- by rewrite Hf4, Hf3, Hf2, Hf1.
- by rewrite Hk4, Hk3, Hk2, Hk1.
- by rewrite Hv4, Hv3, Hv2, Hv1.
Qed.

(** [removeNode] of a node without a successor does nothing. *)
Lemma lfu_removeNode_unlinked h p :
(p < length h)%nat → lfu_nxt h p = None →
Lfu.removeNode (Some p) h = Some h.
Proof.
intros Hp Hn. unfold Lfu.removeNode, lfu_nxt in *.
destruct (lookup_lt_is_Some_2 h p Hp) as [n Hn'].
rewrite Hn' in *. cbn in Hn. cbn [mbind option_bind]. by rewrite Hn.
Qed.

(** [addNode]: the node goes between the tail sentinel and its
  predecessor. *)
Lemma lfu_addNode_spec h l p a :
lfu_prv h (Lfu.tail_ l) = Some a →
(p < length h)%nat → (a < length h)%nat → p ≠ Lfu.tail_ l → p ≠ a →
∃ h', Lfu.addNode l (Some p) h = Some h'
  ∧ length h' = length h
  ∧ (∀ q, lfu_nxt h' q = if decide (q = p) then Some (Lfu.tail_ l)
                         else if decide (q = a) then Some p
                         else lfu_nxt h q)
  ∧ (∀ q, lfu_prv h' q = if decide (q = Lfu.tail_ l) then Some p
                         else if decide (q = p) then Some a
                         else lfu_prv h q)
  ∧ (∀ q, lfu_freq_at h' q = lfu_freq_at h q)
  ∧ (∀ q, lfu_key_at h' q = lfu_key_at h q)
  ∧ (∀ q, lfu_value_at h' q = lfu_value_at h q).
Proof.
intros Hta Hp Ha Hne1 Hne2. unfold Lfu.addNode.
pose proof (lfu_prv_Some_valid _ _ _ Hta) as Ht.
assert (lfu_prv h (Lfu.tail_ l) = Some a) as Hta0 by done.
unfold lfu_prv in Hta. destruct (h !! Lfu.tail_ l) as [t|] eqn:Htl; [|done].
cbn in Hta. cbn [mbind option_bind]. rewrite Hta.
destruct (lfu_store_Some h p (Lfu.set_prev (Some a)) Hp) as [h1 Hs1].
rewrite Hs1. cbn [mbind option_bind].
destruct (lfu_store_set_prev _ _ _ _ Hs1)
  as (Hl1 & Hn1 & Hp1 & Hf1 & Hk1 & Hv1).
destruct (lfu_store_Some h1 (Lfu.tail_ l) (Lfu.set_prev (Some p)))
  as [h2 Hs2]; [lia|].
rewrite Hs2. cbn [mbind option_bind].
destruct (lfu_store_set_prev _ _ _ _ Hs2)
  as (Hl2 & Hn2 & Hp2 & Hf2 & Hk2 & Hv2).
assert (lfu_prv h2 p = Some a) as Hpa2.
{ rewrite Hp2, Hp1. rewrite decide_False by done. by rewrite decide_True. }
unfold lfu_prv in Hpa2. destruct (h2 !! p) as [n|] eqn:Hp2'; [|done].
cbn in Hpa2. cbn [mbind option_bind]. rewrite Hpa2.
cbn [mbind option_bind].
destruct (lfu_store_Some h2 a (Lfu.set_next (Some p))) as [h3 Hs3]; [lia|].
rewrite Hs3. cbn [mbind option_bind].
destruct (lfu_store_set_next _ _ _ _ Hs3)
  as (Hl3 & Hn3 & Hp3 & Hf3 & Hk3 & Hv3).
destruct (lfu_store_Some h3 p (Lfu.set_next (Some (Lfu.tail_ l))))
  as [h4 Hs4]; [lia|].
rewrite Hs4.
destruct (lfu_store_set_next _ _ _ _ Hs4)
  as (Hl4 & Hn4 & Hp4 & Hf4 & Hk4 & Hv4).
eexists. split; [done|]. split; [lia|]. repeat split; intros q.
- rewrite Hn4, Hn3, Hn2, Hn1. repeat case_decide; subst; done.
- rewrite Hp4, Hp3, Hp2, Hp1. repeat case_decide; subst; done.
- by rewrite Hf4, Hf3, Hf2, Hf1.
- by rewrite Hk4, Hk3, Hk2, Hk1.
- by rewrite Hv4, Hv3, Hv2, Hv1.
Qed.

End LfuHeap.

Section LfuList.
Context `{Countable Key} {Value : Type}.
Variables (Key0 : Key) (Value0 : Value).
Implicit Types h : list (Lfu.Node (Key := Key) (Value := Value)).
Implicit Types p q a b : ptr.
Implicit Types ps : list ptr.
Implicit Types l : Lfu.FreqList.
Implicit Types f g : Z.

Lemma adjacent_not_last (L : list ptr) x y tl :
NoDup (L ++ [tl]) → adjacent (L ++ [tl]) x y → x ≠ tl.
Proof.
intros Hnd [i [H1 H2]] ->.
assert ((L ++ [tl]) !! length L = Some tl) as H3.
{ rewrite lookup_app_r by lia. by rewrite Nat.sub_diag. }
assert (i = length L) as -> by (by eapply NoDup_lookup).
apply lookup_lt_Some in H2. rewrite length_app in H2. cbn in H2. lia.
Qed.

Lemma lfu_list_frame h h' f l ps :
lfu_list_ok h f l ps → (length h ≤ length h')%nat →
(∀ q, q ∈ lfu_chain l ps →
      lfu_nxt h' q = lfu_nxt h q ∧ lfu_prv h' q = lfu_prv h q
      ∧ lfu_freq_at h' q = lfu_freq_at h q) →
lfu_list_ok h' f l ps.
Proof.
intros [Hnd Hv HL Hf Htf Htn] Hlen Hsame.
assert (Lfu.tail_ l ∈ lfu_chain l ps) as Ht by (unfold lfu_chain; set_solver).
split.
- done.
- intros q Hq. specialize (Hv q Hq). lia.
- eapply linked_frame; [exact HL|]. intros q Hq.
  destruct (Hsame q Hq) as (? & ? & ?). done.
- intros p Hp. destruct (Hsame p) as (_ & _ & ->); [|by apply Hf].
  unfold lfu_chain. set_solver.
- by destruct (Hsame _ Ht) as (_ & _ & ->).
- by destruct (Hsame _ Ht) as (-> & _ & _).
Qed.

Lemma lfu_list_last h f l ps :
lfu_list_ok h f l ps →
lfu_prv h (Lfu.tail_ l) = Some (default (Lfu.head_ l) (last ps)).
Proof.
intros [_ _ HL _ _ _]. unfold lfu_chain in HL.
destruct ps as [|x ps _] using rev_ind.
- apply (HL (Lfu.head_ l) (Lfu.tail_ l)). apply adjacent_head.
- rewrite last_snoc. cbn. apply (HL x (Lfu.tail_ l)).
  rewrite <- app_assoc.
  apply (adjacent_app_r (Lfu.head_ l :: ps)), adjacent_head.
Qed.

Lemma lfu_list_first h f l ps :
lfu_list_ok h f l ps →
lfu_nxt h (Lfu.head_ l) = Some (default (Lfu.tail_ l) (head ps)).
Proof.
intros [_ _ HL _ _ _]. unfold lfu_chain in HL.
destruct ps as [|x ps]; apply (HL (Lfu.head_ l)); apply adjacent_head.
Qed.

Lemma lfu_list_remove h f l (m1 : list ptr) p (m2 : list ptr) :
lfu_list_ok h f l (m1 ++ p :: m2) →
∃ h', Lfu.removeNode (Some p) h = Some h'
  ∧ length h' = length h
  ∧ (∀ q, q ∉ lfu_chain l (m1 ++ p :: m2) →
          lfu_nxt h' q = lfu_nxt h q ∧ lfu_prv h' q = lfu_prv h q)
  ∧ (∀ q, lfu_freq_at h' q = lfu_freq_at h q)
  ∧ (∀ q, lfu_key_at h' q = lfu_key_at h q)
  ∧ (∀ q, lfu_value_at h' q = lfu_value_at h q)
  ∧ lfu_list_ok h' f l (m1 ++ m2).
Proof.
intros [Hnd Hv HL Hf Htf Htn]. unfold lfu_chain in *.
destruct (split_interior (Lfu.head_ l) m1 p m2 (Lfu.tail_ l))
  as (pre & a & b & post & E1 & E2).
assert (adjacent (Lfu.head_ l :: (m1 ++ p :: m2) ++ [Lfu.tail_ l]) a p)
  as Hadj by (rewrite E1; apply adjacent_app_r, adjacent_head).
assert (a ≠ Lfu.tail_ l) as Hat.
{ eapply (adjacent_not_last (Lfu.head_ l :: (m1 ++ p :: m2))); [exact Hnd|].
  exact Hadj. }
assert (p ≠ Lfu.tail_ l) as Hpt.
{ apply NoDup_cons in Hnd as [_ Hnd]. rewrite <- app_assoc in Hnd.
  apply NoDup_app in Hnd as (_ & _ & Hnd). cbn in Hnd.
  apply NoDup_cons in Hnd as [Hnd _]. set_solver. }
rewrite E1 in Hnd, Hv, HL.
destruct (linked_neighbours _ _ _ _ _ _ _ HL) as (Hpa & Hpb & _ & _).
pose proof Hnd as Hnd'.
apply NoDup_app in Hnd' as (Hnd1 & Hd1 & Hnd2).
apply NoDup_cons in Hnd2 as [Ha Hnd2]. apply NoDup_cons in Hnd2 as [Hp Hnd2].
destruct (lfu_removeNode_spec h p a b Hpa Hpb)
  as (h' & Hr & Hlen & Hn & Hpv & Hfq & Hk & Hvl).
{ apply Hv. set_solver. }
{ apply Hv. set_solver. }
{ set_solver. }
{ set_solver. }
exists h'. split; [done|]. split; [done|]. split; [|split; [done|]].
{ intros q Hq. rewrite E1 in Hq. rewrite Hn, Hpv.
  rewrite !decide_False by set_solver. done. }
split; [done|]. split; [done|]. split; unfold lfu_chain; rewrite ?E2.
- eapply sublist_NoDup; [exact Hnd|].
  apply sublist_app; [done|]. apply sublist_skip. by apply sublist_cons.
- intros q Hq. rewrite Hlen. apply Hv. set_solver.
- eapply linked_remove; [exact Hnd|exact HL|..].
  + rewrite Hn. rewrite decide_False by set_solver. by rewrite decide_True.
  + intros q Hq1 Hq2. rewrite Hn. by rewrite !decide_False.
  + rewrite Hpv. rewrite decide_False by set_solver. by rewrite decide_True.
  + intros q Hq1 Hq2. rewrite Hpv. by rewrite !decide_False.
- intros q Hq. rewrite Hfq. apply Hf. set_solver.
- by rewrite Hfq.
- rewrite Hn. by rewrite !decide_False by done.
Qed.

Lemma lfu_list_push_back h f l ps p :
lfu_list_ok h f l ps → (p < length h)%nat → p ∉ lfu_chain l ps →
lfu_freq_at h p = Some f →
∃ h', Lfu.addNode l (Some p) h = Some h'
  ∧ length h' = length h
  ∧ (∀ q, q ∉ lfu_chain l ps → q ≠ p →
          lfu_nxt h' q = lfu_nxt h q ∧ lfu_prv h' q = lfu_prv h q)
  ∧ (∀ q, lfu_freq_at h' q = lfu_freq_at h q)
  ∧ (∀ q, lfu_key_at h' q = lfu_key_at h q)
  ∧ (∀ q, lfu_value_at h' q = lfu_value_at h q)
  ∧ lfu_list_ok h' f l (ps ++ [p]).
Proof.
intros Hok Hp Hnin Hfp. pose proof (lfu_list_last _ _ _ _ Hok) as Hlast.
destruct Hok as [Hnd Hv HL Hf Htf Htn]. unfold lfu_chain in *.
assert (∃ pre a, Lfu.head_ l :: ps = pre ++ [a]
                ∧ default (Lfu.head_ l) (last ps) = a) as (pre & a & E & Ea).
{ destruct ps as [|x ps _] using rev_ind.
  - by exists [], (Lfu.head_ l).
  - exists (Lfu.head_ l :: ps), x. by rewrite last_snoc. }
rewrite Ea in Hlast.
assert (Lfu.head_ l :: ps ++ [Lfu.tail_ l] = pre ++ [a; Lfu.tail_ l]) as E1.
{ change (Lfu.head_ l :: ps ++ [Lfu.tail_ l])
    with ((Lfu.head_ l :: ps) ++ [Lfu.tail_ l]).
  rewrite E, <- app_assoc. done. }
assert (Lfu.head_ l :: (ps ++ [p]) ++ [Lfu.tail_ l]
        = pre ++ [a; p; Lfu.tail_ l]) as E2.
{ change (Lfu.head_ l :: (ps ++ [p]) ++ [Lfu.tail_ l])
    with (((Lfu.head_ l :: ps) ++ [p]) ++ [Lfu.tail_ l]).
  rewrite E, <- !app_assoc. done. }
rewrite E1 in Hnd, Hv, HL, Hnin.
assert (a ≠ Lfu.tail_ l) as Hat.
{ apply NoDup_app in Hnd as (_ & _ & Hnd).
  apply NoDup_cons in Hnd as [Hnd _]. set_solver. }
destruct (lfu_addNode_spec h l p a Hlast Hp)
  as (h' & Hr & Hlen & Hn & Hpv & Hfq & Hk & Hvl).
{ apply Hv. set_solver. }
{ set_solver. }
{ set_solver. }
exists h'. split; [done|]. split; [done|]. split; [|split; [done|]].
{ intros q Hq Hqp. rewrite E1 in Hq. rewrite Hn, Hpv.
  assert (q ≠ a) by (intros ->; apply Hq, elem_of_app; right; left).
  assert (q ≠ Lfu.tail_ l)
    by (intros ->; apply Hq, elem_of_app; right; right; left).
  rewrite !decide_False by done. done. }
split; [done|]. split; [done|].
assert (NoDup (pre ++ [a; p; Lfu.tail_ l])) as Hnd'.
{ apply NoDup_app in Hnd as (? & ? & Hab'). apply NoDup_app.
  split; [done|]. split; [set_solver|].
  apply NoDup_cons in Hab' as [? ?]. apply NoDup_cons. split; [set_solver|].
  apply NoDup_cons. split; [set_solver|done]. }
split; unfold lfu_chain; rewrite ?E2.
- done.
- intros q Hq. rewrite Hlen.
  destruct (decide (q = p)) as [->|]; [done|]. apply Hv. set_solver.
- apply (linked_insert (lfu_nxt h) (lfu_prv h) (lfu_nxt h') (lfu_prv h')
           pre a p (Lfu.tail_ l) []); [done|done|..].
  + rewrite Hn. rewrite decide_False by set_solver. by rewrite decide_True.
  + rewrite Hn. by rewrite decide_True.
  + intros q H1 H2. rewrite Hn. by rewrite !decide_False.
  + rewrite Hpv. rewrite decide_False by set_solver. by rewrite decide_True.
  + rewrite Hpv. by rewrite decide_True.
  + intros q H1 H2. rewrite Hpv. by rewrite !decide_False.
- intros q Hq. rewrite Hfq. apply elem_of_app in Hq as [Hq|Hq].
  + by apply Hf.
  + apply list_elem_of_singleton in Hq as ->. done.
- by rewrite Hfq.
- rewrite Hn. rewrite !decide_False by set_solver. done.
Qed.

Lemma lfu_list_new f h :
∃ h', Lfu.FreqList_new Key0 Value0 f h
      = (Lfu.mkFreqList f (length h) (S (length h)), h')
  ∧ length h' = S (S (length h))
  ∧ (∀ q, (q < length h)%nat → h' !! q = h !! q)
  ∧ lfu_list_ok h' f (Lfu.mkFreqList f (length h) (S (length h))) [].
Proof.
eexists. split; [reflexivity|].
set (h' := h ++ _).
assert (h' !! length h
        = Some (Lfu.set_next (Some (S (length h))) (Lfu.sentinel Key0 Value0)))
  as Hhd.
{ unfold h'. rewrite lookup_app_r by lia. by rewrite Nat.sub_diag. }
assert (h' !! S (length h)
        = Some (Lfu.set_prev (Some (length h)) (Lfu.sentinel Key0 Value0)))
  as Htl.
{ unfold h'. rewrite lookup_app_r by lia.
  by replace (S (length h) - length h)%nat with 1%nat by lia. }
assert (length h' = S (S (length h))) as Hlen.
{ unfold h'. rewrite length_app. cbn. lia. }
split; [done|]. split.
{ intros q Hq. unfold h'. by rewrite lookup_app_l. }
split; unfold lfu_chain; cbn [Lfu.head_ Lfu.tail_ app].
- apply NoDup_cons. split; [|apply NoDup_singleton].
  intros Hin. apply list_elem_of_singleton in Hin. lia.
- intros q Hq. rewrite Hlen. set_solver by lia.
- intros x y Hxy.
  apply adjacent_cons_inv in Hxy as [[-> [= <-]]|Hxy].
  + unfold lfu_nxt, lfu_prv. rewrite Hhd, Htl. done.
  + apply adjacent_cons_inv in Hxy as [[_ ?]|[i [? ?]]]; done.
- intros p Hp. by apply elem_of_nil in Hp.
- unfold lfu_freq_at. cbn [Lfu.tail_]. by rewrite Htl.
- unfold lfu_nxt. cbn [Lfu.tail_]. by rewrite Htl.
Qed.

End LfuList.

Section LfuLists.
Context `{Countable Key} {Value : Type}.
Variables (Key0 : Key) (Value0 : Value).
Implicit Types h : list (Lfu.Node (Key := Key) (Value := Value)).
Implicit Types fm : gmap Z Lfu.FreqList.
Implicit Types nm : gmap Key ptr.
Implicit Types G : Z → list ptr.
Implicit Types p q a b : ptr.
Implicit Types ps : list ptr.
Implicit Types l : Lfu.FreqList.
Implicit Types f g x : Z.

Lemma lfu_upd_eq G f ps : lfu_upd G f ps f = ps.
Proof. unfold lfu_upd. by rewrite decide_True. Qed.

Lemma lfu_upd_ne G f ps g : g ≠ f → lfu_upd G f ps g = G g.
Proof. intros. unfold lfu_upd. by rewrite decide_False. Qed.

Lemma lfu_chain_mono l ps ps' q :
(∀ a, a ∈ ps → a ∈ ps') → q ∈ lfu_chain l ps → q ∈ lfu_chain l ps'.
Proof. unfold lfu_chain. set_solver. Qed.

Lemma lfu_lists_frame h h' fm G :
lfu_lists_ok h fm G → (length h ≤ length h')%nat →
(∀ f l q, fm !! f = Some l → q ∈ lfu_chain l (G f) →
   lfu_nxt h' q = lfu_nxt h q ∧ lfu_prv h' q = lfu_prv h q
   ∧ lfu_freq_at h' q = lfu_freq_at h q) →
lfu_lists_ok h' fm G.
Proof.
intros [Hl Hd] Hlen Hs. split; [|done]. intros f l Hf.
eapply lfu_list_frame; [by apply Hl|done|]. intros q Hq. by eapply Hs.
Qed.

Lemma lfu_lists_remove h fm G p f l :
lfu_lists_ok h fm G → fm !! f = Some l → p ∈ G f →
∃ h' ps', Lfu.removeNode (Some p) h = Some h'
  ∧ length h' = length h
  ∧ (∀ q, lfu_freq_at h' q = lfu_freq_at h q)
  ∧ (∀ q, lfu_key_at h' q = lfu_key_at h q)
  ∧ (∀ q, lfu_value_at h' q = lfu_value_at h q)
  ∧ lfu_lists_ok h' fm (lfu_upd G f ps')
  ∧ lfu_detached h' fm (lfu_upd G f ps') p
  ∧ (∀ g q, q ≠ p → q ∈ G g → q ∈ lfu_upd G f ps' g).
Proof.
intros [Hl Hd] Hf Hp. apply list_elem_of_split in Hp as (m1 & m2 & E).
pose proof (Hl f l Hf) as Hok. rewrite E in Hok.
destruct (lfu_list_remove _ _ _ _ _ _ Hok)
  as (h' & Hr & Hlen & Hframe & Hfq & Hk & Hv & Hok').
assert (∀ g lg q, q ∈ lfu_chain lg (lfu_upd G f (m1 ++ m2) g) →
                  q ∈ lfu_chain lg (G g)) as Hsub.
{ intros g lg q. destruct (decide (g = f)) as [->|Hne].
  - rewrite lfu_upd_eq, E. apply lfu_chain_mono. set_solver.
  - by rewrite lfu_upd_ne. }
exists h', (m1 ++ m2). split; [done|]. split; [done|].
split; [done|]. split; [done|]. split; [done|]. split; [|split].
- split.
  + intros g lg Hg. destruct (decide (g = f)) as [->|Hne].
    * rewrite lfu_upd_eq. by replace lg with l by congruence.
    * rewrite lfu_upd_ne by done.
      eapply lfu_list_frame; [by apply Hl|lia|]. intros q Hq.
      assert (q ∉ lfu_chain l (m1 ++ p :: m2)) as Hnq.
      { rewrite <- E. by eapply (Hd g f lg l q). }
      destruct (Hframe q Hnq) as [-> ->]. by rewrite Hfq.
  + intros f1 f2 la lb q Hne H1 H2 Hq1 Hq2.
    apply (Hd f1 f2 la lb q Hne H1 H2); by apply Hsub.
- split.
  + rewrite Hlen. apply (lfl_valid _ _ _ _ (Hl f l Hf)).
    rewrite E. unfold lfu_chain. set_solver.
  + intros g lg Hg. destruct (decide (g = f)) as [->|Hne].
    * rewrite lfu_upd_eq. replace lg with l by congruence.
      destruct Hok as [Hnd _ _ _ _ _]. unfold lfu_chain in *.
      apply NoDup_cons in Hnd as [Hhd Hnd]. rewrite <- app_assoc in Hnd.
      apply NoDup_app in Hnd as (_ & Hd1 & Hnd). cbn in Hnd.
      apply NoDup_cons in Hnd as [Hp2 _].
      intros Hin. apply elem_of_cons in Hin as [->|Hin]; [set_solver|].
      rewrite <- app_assoc in Hin. apply elem_of_app in Hin as [Hin|Hin].
      -- apply (Hd1 p Hin). by left.
      -- done.
    * rewrite lfu_upd_ne by done. apply (Hd f g l lg p); [done..|].
      rewrite E. unfold lfu_chain. set_solver.
- intros g q Hqp Hq. destruct (decide (g = f)) as [->|Hne].
  + rewrite lfu_upd_eq. rewrite E in Hq. set_solver.
  + by rewrite lfu_upd_ne.
Qed.

Lemma lfu_lists_add h fm G p f l :
lfu_lists_ok h fm G → lfu_detached h fm G p →
lfu_freq_at h p = Some f → fm !! f = Some l →
∃ h', Lfu.addNode l (Some p) h = Some h'
  ∧ length h' = length h
  ∧ (∀ q, lfu_freq_at h' q = lfu_freq_at h q)
  ∧ (∀ q, lfu_key_at h' q = lfu_key_at h q)
  ∧ (∀ q, lfu_value_at h' q = lfu_value_at h q)
  ∧ lfu_lists_ok h' fm (lfu_upd G f (G f ++ [p])).
Proof.
intros [Hl Hd] [Hpv Hpd] Hfp Hf.
destruct (lfu_list_push_back h f l (G f) p (Hl f l Hf) Hpv (Hpd f l Hf) Hfp)
  as (h' & Ha & Hlen & Hframe & Hfq & Hk & Hv & Hok').
assert (∀ g lg q, fm !! g = Some lg →
                  q ∈ lfu_chain lg (lfu_upd G f (G f ++ [p]) g) →
                  q ∈ lfu_chain lg (G g) ∨ (q = p ∧ g = f)) as Hsub.
{ intros g lg q Hg. destruct (decide (g = f)) as [->|Hne].
  - rewrite lfu_upd_eq. unfold lfu_chain. set_solver.
  - rewrite lfu_upd_ne by done. by left. }
exists h'. split; [done|]. split; [done|].
split; [done|]. split; [done|]. split; [done|]. split.
- intros g lg Hg. destruct (decide (g = f)) as [->|Hne].
  + rewrite lfu_upd_eq. by replace lg with l by congruence.
  + rewrite lfu_upd_ne by done.
    eapply lfu_list_frame; [by apply Hl|lia|]. intros q Hq.
    assert (q ∉ lfu_chain l (G f)) as Hnq by (by eapply (Hd g f lg l q)).
    assert (q ≠ p) as Hqp by (intros ->; by apply (Hpd g lg Hg)).
    destruct (Hframe q Hnq Hqp) as [-> ->]. by rewrite Hfq.
- intros f1 f2 la lb q Hne H1 H2 Hq1 Hq2.
  destruct (Hsub _ _ _ H1 Hq1) as [Hq1'|[-> ->]];
    destruct (Hsub _ _ _ H2 Hq2) as [Hq2'|[Hqp ->]].
  + by apply (Hd f1 f2 la lb q Hne H1 H2).
  + subst q. by apply (Hpd f1 la H1).
  + by apply (Hpd f2 lb H2).
  + done.
Qed.

Lemma lfu_lists_new h fm G f :
lfu_lists_ok h fm G → fm !! f = None →
∃ l h', Lfu.FreqList_new Key0 Value0 f h = (l, h')
  ∧ length h' = S (S (length h))
  ∧ (∀ q, (q < length h)%nat → h' !! q = h !! q)
  ∧ lfu_lists_ok h' (<[f := l]> fm) (lfu_upd G f [])
  ∧ (∀ q, q ∈ lfu_chain l [] → (length h ≤ q)%nat).
Proof.
intros [Hl Hd] Hf.
destruct (lfu_list_new Key0 Value0 f h) as (h' & Hn & Hlen & Hsame & Hok).
eexists _, h'. split; [exact Hn|]. split; [done|]. split; [done|].
assert (∀ q, q ∈ lfu_chain (Lfu.mkFreqList f (length h) (S (length h))) [] →
             (length h ≤ q)%nat) as Hfresh.
{ intros q. unfold lfu_chain. cbn [Lfu.head_ Lfu.tail_ app].
  intros [->|Hq]%elem_of_cons; [lia|].
  apply list_elem_of_singleton in Hq as ->. lia. }
split; [|done]. split.
- intros g lg Hg. destruct (decide (g = f)) as [->|Hne].
  + rewrite lookup_insert_eq in Hg. injection Hg as <-.
    by rewrite lfu_upd_eq.
  + rewrite lookup_insert_ne in Hg by done. rewrite lfu_upd_ne by done.
    eapply lfu_list_frame; [by apply Hl|lia|]. intros q Hq.
    pose proof (lfl_valid _ _ _ _ (Hl g lg Hg) q Hq) as Hq'.
    unfold lfu_nxt, lfu_prv, lfu_freq_at. by rewrite Hsame.
- intros f1 f2 la lb q Hne H1 H2 Hq1 Hq2.
  destruct (decide (f1 = f)) as [->|Hne1];
    destruct (decide (f2 = f)) as [->|Hne2]; [done|..].
  + rewrite lookup_insert_eq in H1. injection H1 as <-.
    rewrite lookup_insert_ne in H2 by done.
    rewrite lfu_upd_eq in Hq1. rewrite lfu_upd_ne in Hq2 by done.
    pose proof (lfl_valid _ _ _ _ (Hl f2 lb H2) q Hq2).
    pose proof (Hfresh q Hq1). lia.
  + rewrite lookup_insert_eq in H2. injection H2 as <-.
    rewrite lookup_insert_ne in H1 by done.
    rewrite lfu_upd_eq in Hq2. rewrite lfu_upd_ne in Hq1 by done.
    pose proof (lfl_valid _ _ _ _ (Hl f1 la H1) q Hq1).
    pose proof (Hfresh q Hq2). lia.
  + rewrite lookup_insert_ne in H1, H2 by done.
    rewrite lfu_upd_ne in Hq1, Hq2 by done.
    by apply (Hd f1 f2 la lb q Hne H1 H2).
Qed.

(** A store that changes the frequency of a node in no list. *)
Lemma lfu_lists_set_freq h fm G p x :
lfu_lists_ok h fm G → lfu_detached h fm G p →
∃ h', Lfu.store p (Lfu.set_freq x) h = Some h'
  ∧ length h' = length h
  ∧ lfu_freq_at h' p = Some x
  ∧ (∀ q, q ≠ p → lfu_freq_at h' q = lfu_freq_at h q)
  ∧ (∀ q, lfu_key_at h' q = lfu_key_at h q)
  ∧ (∀ q, lfu_value_at h' q = lfu_value_at h q)
  ∧ lfu_lists_ok h' fm G
  ∧ lfu_detached h' fm G p.
Proof.
intros Hok [Hpv Hpd].
destruct (lfu_store_Some h p (Lfu.set_freq x) Hpv) as [h' Hs].
destruct (lfu_store_set_freq _ _ _ _ Hs) as (Hlen & Hn & Hp & Hf & Hk & Hv).
exists h'. split; [done|]. split; [done|]. split.
{ rewrite Hf. by rewrite decide_True. }
split. { intros q Hq. rewrite Hf. by rewrite decide_False. }
split; [done|]. split; [done|]. split.
- eapply lfu_lists_frame; [exact Hok|lia|]. intros f l q Hfl Hq.
  rewrite Hn, Hp, Hf. rewrite decide_False; [done|].
  intros ->. by apply (Hpd f l Hfl).
- split; [lia|done].
Qed.

(** A store that changes a value. *)
Lemma lfu_lists_set_value h fm G p v :
lfu_lists_ok h fm G → (p < length h)%nat →
∃ h', Lfu.store p (Lfu.set_value v) h = Some h'
  ∧ length h' = length h
  ∧ (∀ q, lfu_freq_at h' q = lfu_freq_at h q)
  ∧ (∀ q, lfu_key_at h' q = lfu_key_at h q)
  ∧ lfu_value_at h' p = Some v
  ∧ (∀ q, q ≠ p → lfu_value_at h' q = lfu_value_at h q)
  ∧ lfu_lists_ok h' fm G.
Proof.
intros Hok Hpv.
destruct (lfu_store_Some h p (Lfu.set_value v) Hpv) as [h' Hs].
destruct (lfu_store_set_value _ _ _ _ Hs) as (Hlen & Hn & Hp & Hf & Hk & Hv).
exists h'. split; [done|]. split; [done|]. split; [done|]. split; [done|].
split. { rewrite Hv. by rewrite decide_True. }
split. { intros q Hq. rewrite Hv. by rewrite decide_False. }
eapply lfu_lists_frame; [exact Hok|lia|]. intros f l q Hfl Hq.
by rewrite Hn, Hp, Hf.
Qed.

(** The allocation of a node. *)
Lemma lfu_lists_alloc h fm G n :
lfu_lists_ok h fm G →
lfu_lists_ok (h ++ [n]) fm G ∧ lfu_detached (h ++ [n]) fm G (length h).
Proof.
intros Hok. split.
- eapply lfu_lists_frame; [exact Hok|rewrite length_app; lia|].
  intros f l q Hfl Hq.
  pose proof (lfl_valid _ _ _ _ (lfs_list _ _ _ Hok f l Hfl) q Hq).
  unfold lfu_nxt, lfu_prv, lfu_freq_at. by rewrite lookup_app_l.
- split; [rewrite length_app; cbn; lia|]. intros f l Hfl Hq.
  pose proof (lfl_valid _ _ _ _ (lfs_list _ _ _ Hok f l Hfl) _ Hq). lia.
Qed.

End LfuLists.

Section LfuSteps.
Context `{Countable Key} {Value : Type}.
Variables (Key0 : Key) (Value0 : Value).
Implicit Types h : list (Lfu.Node (Key := Key) (Value := Value)).
Implicit Types fm : gmap Z Lfu.FreqList.
Implicit Types nm : gmap Key ptr.
Implicit Types G : Z → list ptr.
Implicit Types p q : ptr.
Implicit Types ps : list ptr.
Implicit Types l : Lfu.FreqList.
Implicit Types f g x B cap mf mx avg tot : Z.
Implicit Types k : Key.

Ltac lfu_cbn :=
unfold Lfu.with_nodes, Lfu.with_nodeMap, Lfu.with_lists, Lfu.with_minFreq,
  Lfu.with_average, Lfu.with_total;
cbn [Lfu.capacity_ Lfu.minFreq_ Lfu.maxAverageNum_ Lfu.curAverageNum_
     Lfu.curTotalNum_ Lfu.nodeMap_ Lfu.freqToFreqList_ Lfu.nodes
     mbind option_bind].

Lemma lfu_freq_at_lookup h p f :
lfu_freq_at h p = Some f → ∃ n, h !! p = Some n ∧ Lfu.freq n = f.
Proof.
unfold lfu_freq_at. destruct (h !! p) as [n|]; [|done].
intros [= <-]. by exists n.
Qed.

Lemma lfu_kv_ext_refl h : lfu_kv_ext h h.
Proof. by split. Qed.

Lemma lfu_kv_ext_trans h1 h2 h3 :
lfu_kv_ext h1 h2 → lfu_kv_ext h2 h3 → lfu_kv_ext h1 h3.
Proof.
intros [Hl1 H1] [Hl2 H2]. split; [lia|]. intros q Hq.
destruct (H1 q Hq) as [<- <-]. apply H2. lia.
Qed.

Lemma lfu_kv_ext_same h h' :
length h' = length h →
(∀ q, lfu_key_at h' q = lfu_key_at h q) →
(∀ q, lfu_value_at h' q = lfu_value_at h q) →
lfu_kv_ext h h'.
Proof. intros Hl Hk Hv. split; [lia|]. intros q _. by rewrite Hk, Hv. Qed.

Lemma lfu_kv_ext_lookup h h' :
(length h ≤ length h')%nat →
(∀ q, (q < length h)%nat → h' !! q = h !! q) →
lfu_kv_ext h h'.
Proof.
intros Hl Hs. split; [done|]. intros q Hq.
unfold lfu_key_at, lfu_value_at. by rewrite Hs.
Qed.

(** [removeFromFreqList] of an entry of a list. *)
Lemma lfu_removeFromFreqList_ok cap mf mx avg tot nm fm h G p f :
lfu_lists_ok h fm G → lfu_freq_at h p = Some f →
is_Some (fm !! f) → p ∈ G f →
∃ h' ps',
  Lfu.removeFromFreqList (Some p) (Lfu.mkCache cap mf mx avg tot nm fm h)
  = Some (Lfu.mkCache cap mf mx avg tot nm fm h')
  ∧ length h' = length h
  ∧ (∀ q, lfu_freq_at h' q = lfu_freq_at h q)
  ∧ (∀ q, lfu_key_at h' q = lfu_key_at h q)
  ∧ (∀ q, lfu_value_at h' q = lfu_value_at h q)
  ∧ lfu_lists_ok h' fm (lfu_upd G f ps')
  ∧ lfu_detached h' fm (lfu_upd G f ps') p
  ∧ (∀ g q, q ≠ p → q ∈ G g → q ∈ lfu_upd G f ps' g).
Proof.
intros Hok Hfp [l Hfl] Hp.
destruct (lfu_lists_remove h fm G p f l Hok Hfl Hp)
  as (h' & ps' & Hr & Hrest).
exists h', ps'. split; [|done].
destruct (lfu_freq_at_lookup _ _ _ Hfp) as (n & Hn & Hfn).
unfold Lfu.removeFromFreqList. lfu_cbn. rewrite Hn. lfu_cbn.
rewrite Hfn, Hfl. lfu_cbn. rewrite Hr. done.
Qed.

(** [addToFreqList] of a node that is in no list. *)
Lemma lfu_addToFreqList_ok cap mf mx avg tot nm fm h G p f :
lfu_lists_ok h fm G → lfu_detached h fm G p → lfu_freq_at h p = Some f →
∃ fm' h' G',
  Lfu.addToFreqList Key0 Value0 (Some p)
    (Lfu.mkCache cap mf mx avg tot nm fm h)
  = Some (Lfu.mkCache cap mf mx avg tot nm fm' h')
  ∧ (length h ≤ length h')%nat
  ∧ (∀ q, (q < length h)%nat →
          lfu_freq_at h' q = lfu_freq_at h q
          ∧ lfu_key_at h' q = lfu_key_at h q
          ∧ lfu_value_at h' q = lfu_value_at h q)
  ∧ lfu_lists_ok h' fm' G'
  ∧ (∀ g, is_Some (fm' !! g) ↔ is_Some (fm !! g) ∨ g = f)
  ∧ (∀ g q, is_Some (fm !! g) → q ∈ G g → q ∈ G' g)
  ∧ p ∈ G' f.
Proof.
intros Hok [Hpv Hpd] Hfp.
destruct (lfu_freq_at_lookup _ _ _ Hfp) as (n & Hn & Hfn).
unfold Lfu.addToFreqList. lfu_cbn. rewrite Hn. lfu_cbn. rewrite Hfn.
destruct (fm !! f) as [l|] eqn:Hfl.
- lfu_cbn. rewrite Hfl. lfu_cbn.
  destruct (lfu_lists_add h fm G p f l Hok (conj Hpv Hpd) Hfp Hfl)
    as (h' & Ha & Hlen & Hfq & Hk & Hv & Hok').
  rewrite Ha. lfu_cbn. eexists fm, h', _. split; [done|].
  split; [lia|]. split; [by intros q _|]. split; [exact Hok'|].
  split; [|split].
  + intros g. split; [by left|]. intros [?| ->]; [done|]. by eexists.
  + intros g q _ Hq. destruct (decide (g = f)) as [->|Hne].
    * rewrite lfu_upd_eq. set_solver.
    * by rewrite lfu_upd_ne.
  + rewrite lfu_upd_eq. set_solver.
- destruct (lfu_lists_new Key0 Value0 h fm G f Hok Hfl)
    as (l & h1 & Hnew & Hlen1 & Hsame1 & Hok1 & Hfresh).
  rewrite Hnew. lfu_cbn. rewrite lookup_insert_eq. lfu_cbn.
  assert (lfu_freq_at h1 p = Some f) as Hfp1.
  { unfold lfu_freq_at. rewrite Hsame1 by done. exact Hfp. }
  assert (lfu_detached h1 (<[f:=l]> fm) (lfu_upd G f []) p) as Hdet1.
  { split; [lia|]. intros g lg Hg. destruct (decide (g = f)) as [->|Hne].
    - rewrite lookup_insert_eq in Hg. injection Hg as <-.
      rewrite lfu_upd_eq. intros Hq. specialize (Hfresh _ Hq). lia.
    - rewrite lookup_insert_ne in Hg by done. rewrite lfu_upd_ne by done.
      by apply Hpd. }
  destruct (lfu_lists_add h1 _ _ p f l Hok1 Hdet1 Hfp1
              (lookup_insert_eq _ _ _))
    as (h' & Ha & Hlen & Hfq & Hk & Hv & Hok').
  rewrite Ha. eexists (<[f:=l]> fm), h', _. split; [done|].
  split; [lia|]. split; [|split; [exact Hok'|split; [|split]]].
  + intros q Hq. rewrite Hfq, Hk, Hv.
    unfold lfu_freq_at, lfu_key_at, lfu_value_at. by rewrite Hsame1.
  + intros g. destruct (decide (g = f)) as [->|Hne].
    * rewrite lookup_insert_eq. split; [by right|by eexists].
    * rewrite lookup_insert_ne by done. split; [by left|].
      by intros [?|?].
  + intros g q [lg Hg] Hq. destruct (decide (g = f)) as [->|Hne].
    * congruence.
    * by rewrite !lfu_upd_ne.
  + rewrite !lfu_upd_eq. set_solver.
Qed.

(** An entry leaves its list, takes the frequency [x] and enters the list
  of [x]. *)
Lemma lfu_rebucket B B' cap mf mx avg tot nm fm h G k p f x :
lfu_heap_inv B nm h fm G → nm !! k = Some p →
lfu_freq_at h p = Some f → 1 ≤ x ≤ B' → B ≤ B' →
∃ h1 h2 fm' h' G',
  Lfu.removeFromFreqList (Some p) (Lfu.mkCache cap mf mx avg tot nm fm h)
  = Some (Lfu.mkCache cap mf mx avg tot nm fm h1)
  ∧ lfu_freq_at h1 p = Some f
  ∧ Lfu.store p (Lfu.set_freq x) h1 = Some h2
  ∧ Lfu.addToFreqList Key0 Value0 (Some p)
      (Lfu.mkCache cap mf mx avg tot nm fm h2)
    = Some (Lfu.mkCache cap mf mx avg tot nm fm' h')
  ∧ lfu_heap_inv B' nm h' fm' G'
  ∧ lfu_kv_ext h h'
  ∧ (∀ g, is_Some (fm' !! g) ↔ is_Some (fm !! g) ∨ g = x)
  ∧ is_Some (fm !! f).
Proof.
intros [Hok Hmap Hfreqs Hone] Hkp Hfp Hx HB.
destruct (Hmap k p Hkp) as (Hkey & f' & Hfp' & Hfl & Hin).
assert (f' = f) as -> by congruence.
destruct (lfu_removeFromFreqList_ok cap mf mx avg tot nm fm h G p f
            Hok Hfp Hfl Hin)
  as (h1 & ps' & Hr & Hlen1 & Hfq1 & Hk1 & Hv1 & Hok1 & Hdet1 & Hmono1).
destruct (lfu_lists_set_freq h1 fm _ p x Hok1 Hdet1)
  as (h2 & Hs & Hlen2 & Hfp2 & Hfq2 & Hk2 & Hv2 & Hok2 & Hdet2).
destruct (lfu_addToFreqList_ok cap mf mx avg tot nm fm h2 _ p x
            Hok2 Hdet2 Hfp2)
  as (fm' & h' & G' & Ha & Hlen3 & Hsame3 & Hok3 & Hdom & Hmono3 & Hin3).
exists h1, h2, fm', h', G'. split; [done|]. split; [by rewrite Hfq1|].
split; [done|]. split; [done|]. split; [|split; [|split; [done|done]]].
- split.
  + done.
  + intros k' q Hk'. destruct (Hmap k' q Hk') as (Hkey' & g & Hfq & Hgl & Hq).
    assert (q < length h2)%nat as Hqv.
    { rewrite Hlen2, Hlen1. by eapply lfu_freq_Some_valid. }
    destruct (Hsame3 q Hqv) as (Ef & Ek & Ev). split.
    { by rewrite Ek, Hk2, Hk1. }
    destruct (decide (q = p)) as [->|Hne].
    * exists x. split; [by rewrite Ef|]. split; [|done].
      apply Hdom. by right.
    * exists g. split; [by rewrite Ef, Hfq2, Hfq1|]. split.
      -- apply Hdom. by left.
      -- apply Hmono3; [done|]. by apply Hmono1.
  + intros g [Hg| ->]%Hdom; [|lia]. specialize (Hfreqs g Hg). lia.
  + intros g _. apply Hdom. left. by apply (Hone f).
- split; [lia|]. intros q Hq.
  destruct (Hsame3 q) as (_ & -> & ->); [lia|].
  by rewrite Hk2, Hk1, Hv2, Hv1.
Qed.

(** The body of the loop of the aging pass. *)
Lemma lfu_ageNode_ok B cap mf mx avg tot nm fm h G k p :
lfu_heap_inv B nm h fm G → nm !! k = Some p →
0 ≤ mx < 2 ^ 31 → B < 2 ^ 31 →
∃ fm' h' G',
  Lfu.ageNode Key0 Value0 p (Lfu.mkCache cap mf mx avg tot nm fm h)
  = Some (Lfu.mkCache cap mf mx avg tot nm fm' h')
  ∧ lfu_heap_inv B nm h' fm' G'
  ∧ lfu_kv_ext h h'
  ∧ (∀ g, is_Some (fm !! g) → is_Some (fm' !! g)).
Proof.
intros Hinv Hkp Hmx HB.
destruct (lfh_map _ _ _ _ _ Hinv k p Hkp) as (Hkey & f & Hfp & Hfl & Hin).
pose proof (lfh_freqs _ _ _ _ _ Hinv f Hfl) as Hf.
assert (0 ≤ mx `quot` 2 ≤ mx) as Hq.
{ split; [apply Z.quot_pos; lia|]. apply Z.quot_le_upper_bound; lia. }
set (x := if decide (f - mx `quot` 2 < 1) then 1 else f - mx `quot` 2).
assert (1 ≤ x ≤ B) as Hx by (unfold x; case_decide; lia).
destruct (lfu_rebucket B B cap mf mx avg tot nm fm h G k p f x
            Hinv Hkp Hfp Hx)
  as (h1 & h2 & fm' & h' & G' & Hr & Hfp1 & Hs & Ha & Hinv' & Hext & Hdom & _);
  [lia|].
exists fm', h', G'. split; [|split; [done|split; [done|]]].
- unfold Lfu.ageNode. rewrite Hr. lfu_cbn.
  destruct (lfu_freq_at_lookup _ _ _ Hfp1) as (n1 & Hn1 & Hfn1).
  rewrite Hn1. lfu_cbn. rewrite Hfn1.
  unfold int_ok. rewrite decide_True by lia. lfu_cbn.
  fold x. rewrite Hs. lfu_cbn. exact Ha.
- intros g Hg. apply Hdom. by left.
Qed.

Lemma lfu_age_fold B cap mf mx avg tot nm (L : list (Key * ptr)) :
(∀ kp, kp ∈ L → nm !! kp.1 = Some kp.2) →
0 ≤ mx < 2 ^ 31 → B < 2 ^ 31 →
∀ fm h G, lfu_heap_inv B nm h fm G →
∃ fm' h' G',
  foldl (λ (acc : option Lfu.LfuCache) (kn : Key * ptr),
           c0 ← acc; Lfu.ageNode Key0 Value0 kn.2 c0)
        (Some (Lfu.mkCache cap mf mx avg tot nm fm h)) L
  = Some (Lfu.mkCache cap mf mx avg tot nm fm' h')
  ∧ lfu_heap_inv B nm h' fm' G'
  ∧ lfu_kv_ext h h'
  ∧ (∀ g, is_Some (fm !! g) → is_Some (fm' !! g)).
Proof.
intros HL Hmx HB. induction L as [|[k p] L IH]; intros fm h G Hinv.
- exists fm, h, G. split; [done|]. split; [done|].
  split; [apply lfu_kv_ext_refl|done].
- cbn [foldl]. lfu_cbn.
  destruct (lfu_ageNode_ok B cap mf mx avg tot nm fm h G k p Hinv)
    as (fm1 & h1 & G1 & Ha & Hinv1 & Hext1 & Hdom1); [|done|done|].
  { apply (HL (k, p)). by left. }
  cbn [snd]. rewrite Ha.
  destruct IH with (fm := fm1) (h := h1) (G := G1)
    as (fm' & h' & G' & Hf & Hinv' & Hext' & Hdom'); [|done|].
  { intros kp Hkp. apply HL. by right. }
  exists fm', h', G'. split; [done|]. split; [done|].
  split; [by eapply lfu_kv_ext_trans|]. intros g Hg. by apply Hdom', Hdom1.
Qed.

Lemma lfu_minFreq_fold fm h G (L : list (Z * Lfu.FreqList)) :
lfu_lists_ok h fm G →
(∀ fl, fl ∈ L → fm !! fl.1 = Some fl.2) →
∃ m, foldr (λ (fl : Z * Lfu.FreqList) (acc : option Z),
              m ← acc;
              e ← Lfu.isEmpty fl.2 h;
              Some (if (e : bool) then m else Z.min m fl.1))
           (Some INT8_MAX) L = Some m
     ∧ (m = INT8_MAX ∨ is_Some (fm !! m)).
Proof.
intros Hok HL. induction L as [|[f l] L IH].
- exists INT8_MAX. split; [done|by left].
- destruct IH as (m & Hm & Hcase).
  { intros fl Hfl. apply HL. by right. }
  cbn [foldr]. rewrite Hm. lfu_cbn. cbn [fst snd].
  assert (fm !! f = Some l) as Hfl by (apply (HL (f, l)); by left).
  assert (Lfu.head_ l < length h)%nat as Hhd.
  { apply (lfl_valid _ _ _ _ (lfs_list _ _ _ Hok f l Hfl)).
    unfold lfu_chain. set_solver. }
  unfold Lfu.isEmpty. destruct (lookup_lt_is_Some_2 h _ Hhd) as [hd ->].
  lfu_cbn. eexists. split; [done|]. case_bool_decide; [done|].
  destruct (Z.min_spec m f) as [[_ ->]|[_ ->]]; [done|].
  right. by eexists.
Qed.

(** [updateMinFreq] leaves a frequency that has a list. *)
Lemma lfu_updateMinFreq_ok B cap mf mx avg tot nm fm h G :
lfu_heap_inv B nm h fm G → fm ≠ ∅ →
∃ m,
  Lfu.updateMinFreq (Lfu.mkCache cap mf mx avg tot nm fm h)
  = Some (Lfu.mkCache cap m mx avg tot nm fm h)
  ∧ is_Some (fm !! m) ∧ 1 ≤ m.
Proof.
intros [Hok Hmap Hfreqs Hone] Hne.
destruct (lfu_minFreq_fold fm h G (map_to_list fm) Hok) as (m & Hm & Hcase).
{ intros [f l] Hfl. by apply elem_of_map_to_list in Hfl. }
unfold Lfu.updateMinFreq. lfu_cbn. rewrite Hm. lfu_cbn.
eexists. split; [done|].
assert (is_Some (fm !! 1)) as H1.
{ destruct (map_choose fm Hne) as (f & l & Hfl). apply (Hone f). by eexists. }
case_decide as Hd.
- split; [done|lia].
- destruct Hcase as [?|Hs]; [done|]. split; [done|].
  by apply Hfreqs.
Qed.

(** The aging pass. *)
Lemma lfu_handleOverMaxAverageNum_ok B cap mf mx avg tot nm fm h G :
lfu_heap_inv B nm h fm G → 0 ≤ mx < 2 ^ 31 → B < 2 ^ 31 →
∃ m fm' h' G',
  Lfu.handleOverMaxAverageNum Key0 Value0
    (Lfu.mkCache cap mf mx avg tot nm fm h)
  = Some (Lfu.mkCache cap m mx avg tot nm fm' h')
  ∧ lfu_heap_inv B nm h' fm' G'
  ∧ lfu_kv_ext h h'
  ∧ (∀ g, is_Some (fm !! g) → is_Some (fm' !! g))
  ∧ (1 ≤ mf → 1 ≤ m)
  ∧ (is_Some (fm !! mf) → is_Some (fm' !! m)).
Proof.
intros Hinv Hmx HB. unfold Lfu.handleOverMaxAverageNum. lfu_cbn.
case_decide as Hnm.
{ exists mf, fm, h, G. split; [done|]. split; [done|].
  split; [apply lfu_kv_ext_refl|done]. }
destruct (lfu_age_fold B cap mf mx avg tot nm (map_to_list nm))
  with (fm := fm) (h := h) (G := G)
  as (fm' & h' & G' & Hf & Hinv' & Hext & Hdom); [|done..|].
{ intros [k p] Hkp. by apply elem_of_map_to_list in Hkp. }
rewrite Hf. lfu_cbn.
assert (fm' ≠ ∅) as Hne.
{ destruct (map_choose nm Hnm) as (k & p & Hkp).
  destruct (lfh_map _ _ _ _ _ Hinv' k p Hkp) as (_ & f & _ & [l Hfl] & _).
  intros ->. by rewrite lookup_empty in Hfl. }
destruct (lfu_updateMinFreq_ok B cap mf mx avg tot nm fm' h' G' Hinv' Hne)
  as (m & Hu & Hm & Hm1).
rewrite Hu. by exists m, fm', h', G'.
Qed.

(** [addFreqNum] *)
Lemma lfu_addFreqNum_ok B cap mf mx avg tot nm fm h G :
lfu_heap_inv B nm h fm G → 0 ≤ mx < 2 ^ 31 → B < 2 ^ 31 →
- 2 ^ 31 ≤ tot + 1 < 2 ^ 31 →
∃ mf' avg' fm' h' G',
  Lfu.addFreqNum Key0 Value0 (Lfu.mkCache cap mf mx avg tot nm fm h)
  = Some (Lfu.mkCache cap mf' mx avg' (tot + 1) nm fm' h')
  ∧ lfu_heap_inv B nm h' fm' G'
  ∧ lfu_kv_ext h h'
  ∧ (∀ g, is_Some (fm !! g) → is_Some (fm' !! g))
  ∧ (1 ≤ mf → 1 ≤ mf')
  ∧ (is_Some (fm !! mf) → is_Some (fm' !! mf')).
Proof.
intros Hinv Hmx HB Htot. unfold Lfu.addFreqNum. lfu_cbn.
unfold int_ok. rewrite decide_True by done. lfu_cbn.
set (a := if decide (nm = ∅) then 0 else _).
case_decide as Ha.
- destruct (lfu_handleOverMaxAverageNum_ok B cap mf mx a (tot + 1) nm fm h G
              Hinv Hmx HB)
    as (m & fm' & h' & G' & Hh & Hrest).
  rewrite Hh. by exists m, a, fm', h', G'.
- exists mf, a, fm, h, G. split; [done|]. split; [done|].
  split; [apply lfu_kv_ext_refl|done].
Qed.

(** [decreaseFreqNum] *)
Lemma lfu_decreaseFreqNum_ok cap mf mx avg tot nm fm h num :
- 2 ^ 31 ≤ tot - num < 2 ^ 31 →
∃ avg',
  Lfu.decreaseFreqNum num (Lfu.mkCache cap mf mx avg tot nm fm h)
  = Some (Lfu.mkCache cap mf mx avg' (tot - num) nm fm h).
Proof.
intros Htot. unfold Lfu.decreaseFreqNum. lfu_cbn.
unfold int_ok. rewrite decide_True by done. lfu_cbn. by eexists.
Qed.

(** [kickOut] when [minFreq_] has a list: the first entry of that list
  leaves the list and the index; when the list holds no entry, the
  victim is its tail sentinel and no entry leaves a list. *)
Lemma lfu_kickOut_ok B cap mf mx avg tot nm fm h G :
lfu_heap_inv B nm h fm G → is_Some (fm !! mf) →
- 2 ^ 31 ≤ tot - B → tot < 2 ^ 31 →
∃ avg' tot' nm' h' G',
  Lfu.kickOut (Lfu.mkCache cap mf mx avg tot nm fm h)
  = Some (Lfu.mkCache cap mf mx avg' tot' nm' fm h')
  ∧ lfu_heap_inv B nm' h' fm G'
  ∧ lfu_kv_ext h h'
  ∧ tot - B ≤ tot' ≤ tot - 1
  ∧ ∃ k0, nm' = delete k0 nm.
Proof.
intros Hinv [l Hfl] Hlo Hhi. pose proof Hinv as [Hok Hmap Hfreqs Hone].
pose proof (lfs_list _ _ _ Hok mf l Hfl) as Hl.
pose proof (Hfreqs mf (ex_intro _ l Hfl)) as Hmf.
unfold Lfu.kickOut. lfu_cbn. rewrite Hfl. lfu_cbn.
pose proof (lfu_list_first _ _ _ _ Hl) as Hfirst.
assert (Lfu.head_ l < length h)%nat as Hhd.
{ apply (lfl_valid _ _ _ _ Hl). unfold lfu_chain. set_solver. }
assert (Lfu.tail_ l < length h)%nat as Htl.
{ apply (lfl_valid _ _ _ _ Hl). unfold lfu_chain. set_solver. }
unfold Lfu.getFirstNode. unfold lfu_nxt in Hfirst.
destruct (h !! Lfu.head_ l) as [hd|] eqn:Hhd'; [|done].
cbn in Hfirst. lfu_cbn. rewrite Hfirst. lfu_cbn.
destruct (G mf) as [|p ps] eqn:HG; cbn [head default from_option id].
- (* the list is empty: the victim is the tail sentinel *)
  pose proof (lfl_tail_freq _ _ _ _ Hl) as Htf.
  pose proof (lfl_tail_next _ _ _ _ Hl) as Htn.
  destruct (lfu_freq_at_lookup _ _ _ Htf) as (n & Hn & Hfn).
  unfold Lfu.removeFromFreqList. lfu_cbn. rewrite Hn. lfu_cbn.
  rewrite Hfn. destruct (Hone mf (ex_intro _ l Hfl)) as [l1 Hl1].
  rewrite Hl1. lfu_cbn.
  rewrite (lfu_removeNode_unlinked h _ Htl Htn). lfu_cbn.
  rewrite Hn. lfu_cbn. rewrite Hfn.
  destruct (lfu_decreaseFreqNum_ok cap mf mx avg tot
              (delete (Lfu.key n) nm) fm h 1) as [avg' Hd]; [lia|].
  rewrite Hd. exists avg', (tot - 1), (delete (Lfu.key n) nm), h, G.
  split; [done|]. split; [|split; [apply lfu_kv_ext_refl|split; [lia|by eexists]]].
  split; [done| |done|done].
  intros k q [_ Hkq]%lookup_delete_Some. by apply Hmap.
- (* the victim is the first entry *)
  assert (p ∈ p :: ps) as Hin' by (by left).
  pose proof (lfl_freq _ _ _ _ Hl p Hin') as Hfp.
  assert (p ∈ G mf) as Hin by (by rewrite HG).
  destruct (lfu_removeFromFreqList_ok cap mf mx avg tot nm fm h G p mf
              Hok Hfp (ex_intro _ l Hfl) Hin)
    as (h1 & ps' & Hr & Hlen1 & Hfq1 & Hk1 & Hv1 & Hok1 & Hdet1 & Hmono1).
  rewrite Hr. lfu_cbn.
  assert (lfu_freq_at h1 p = Some mf) as Hfp1 by (by rewrite Hfq1).
  destruct (lfu_freq_at_lookup _ _ _ Hfp1) as (n & Hn & Hfn).
  rewrite Hn. lfu_cbn. rewrite Hfn.
  destruct (lfu_decreaseFreqNum_ok cap mf mx avg tot
              (delete (Lfu.key n) nm) fm h1 mf) as [avg' Hd]; [lia|].
  rewrite Hd.
  exists avg', (tot - mf), (delete (Lfu.key n) nm), h1, (lfu_upd G mf ps').
  split; [done|].
  split; [|split; [by apply lfu_kv_ext_same|split; [lia|by eexists]]].
  split; [done| |done|done].
  intros k q [Hkn Hkq]%lookup_delete_Some.
  destruct (Hmap k q Hkq) as (Hkey & g & Hfq & Hgl & Hq).
  split; [by rewrite Hk1|].
  assert (q ≠ p) as Hne.
  { intros ->. apply Hkn. rewrite <- Hk1 in Hkey.
    unfold lfu_key_at in Hkey. rewrite Hn in Hkey. cbn in Hkey.
    congruence. }
  exists g. split; [by rewrite Hfq1|]. split; [done|]. by apply Hmono1.
Qed.

End LfuSteps.

Section LfuInv.
Context `{Countable Key} {Value : Type}.
Variables (Key0 : Key) (Value0 : Value).
Implicit Types c : Lfu.LfuCache (Key := Key) (Value := Value).
Implicit Types h : list (Lfu.Node (Key := Key) (Value := Value)).
Implicit Types fm : gmap Z Lfu.FreqList.
Implicit Types nm : gmap Key ptr.
Implicit Types G : Z → list ptr.
Implicit Types p q : ptr.
Implicit Types l : Lfu.FreqList.
Implicit Types f g x B n cap mf mx avg tot : Z.
Implicit Types k : Key.
Implicit Types v : Value.

Ltac lfu_cbn :=
unfold Lfu.with_nodes, Lfu.with_nodeMap, Lfu.with_lists, Lfu.with_minFreq,
  Lfu.with_average, Lfu.with_total;
cbn [Lfu.capacity_ Lfu.minFreq_ Lfu.maxAverageNum_ Lfu.curAverageNum_
     Lfu.curTotalNum_ Lfu.nodeMap_ Lfu.freqToFreqList_ Lfu.nodes
     mbind option_bind].

Ltac lfu_open c Hinv :=
destruct Hinv as [[G Hheap] Hmf Hml Htot Hmx Hcap];
destruct c as [cap mf mx avg tot nm fm h];
cbn [Lfu.capacity_ Lfu.minFreq_ Lfu.maxAverageNum_ Lfu.curAverageNum_
     Lfu.curTotalNum_ Lfu.nodeMap_ Lfu.freqToFreqList_ Lfu.nodes] in *.

Lemma lfu_heap_inv_mono B B' nm h fm G :
lfu_heap_inv B nm h fm G → B ≤ B' → lfu_heap_inv B' nm h fm G.
Proof.
intros [Hok Hmap Hfreqs Hone] HB. split; [done..| |done].
intros f Hf. specialize (Hfreqs f Hf). lia.
Qed.

Lemma lfu_inv_mono n c : lfu_inv n c → 0 ≤ n → lfu_inv (n + 1) c.
Proof.
intros [[G Hheap] Hmf Hml Htot Hmx Hcap] Hn. split; [|done|done| |done|done].
- exists G. eapply lfu_heap_inv_mono; [done|lia].
- nia.
Qed.

Lemma lfu_new_inv capacity maxAverageNum :
- 2 ^ 31 ≤ capacity < 2 ^ 31 → 0 ≤ maxAverageNum < 2 ^ 31 →
lfu_inv 0 (Lfu.new capacity maxAverageNum
           : Lfu.LfuCache (Key := Key) (Value := Value)).
Proof.
intros Hcap Hmx. split; cbn; [|done|done|lia|done|done].
exists (λ _, []). split.
- split.
  + intros f l Hf. by rewrite lookup_empty in Hf.
  + intros f g l l' q _ Hf. by rewrite lookup_empty in Hf.
- intros k p Hk. by rewrite lookup_empty in Hk.
- intros f [l Hf]. by rewrite lookup_empty in Hf.
- intros f [l Hf]. by rewrite lookup_empty in Hf.
Qed.

Lemma lfu_purge_inv n c : lfu_inv n c → lfu_inv n (Lfu.purge c).
Proof.
intros Hinv. lfu_open c Hinv. unfold Lfu.purge. lfu_cbn.
split; cbn; [|done|done|done|done|done].
exists G. split.
- split.
  + intros f l Hf. by rewrite lookup_empty in Hf.
  + intros f g l l' q _ Hf. by rewrite lookup_empty in Hf.
- intros k p Hk. by rewrite lookup_empty in Hk.
- intros f [l Hf]. by rewrite lookup_empty in Hf.
- intros f [l Hf]. by rewrite lookup_empty in Hf.
Qed.

Lemma lfu_bound_lt n : 0 ≤ n → (n + 2) * (n + 2) < 2 ^ 31 → n + 2 < 2 ^ 31.
Proof. intros. nia. Qed.

(** [getInternal] on the node of an indexed key. *)
Lemma lfu_getInternal_ok n c k p :
lfu_inv n c → Lfu.nodeMap_ c !! k = Some p →
0 ≤ n → (n + 2) * (n + 2) < 2 ^ 31 →
∃ v c', Lfu.getInternal Key0 Value0 p c = Some (v, c')
  ∧ lfu_value_at (Lfu.nodes c) p = Some v
  ∧ lfu_inv (n + 1) c'
  ∧ Lfu.nodeMap_ c' = Lfu.nodeMap_ c
  ∧ Lfu.capacity_ c' = Lfu.capacity_ c
  ∧ lfu_kv_ext (Lfu.nodes c) (Lfu.nodes c').
Proof.
intros Hinv Hkp Hn Hbound. lfu_open c Hinv.
pose proof (lfu_bound_lt n Hn Hbound) as Hlt.
destruct (lfh_map _ _ _ _ _ Hheap k p Hkp) as (Hkey & f & Hfp & Hfl & Hin).
pose proof (lfh_freqs _ _ _ _ _ Hheap f Hfl) as Hf.
destruct (lfu_rebucket Key0 Value0 (n + 1) (n + 2) cap mf mx avg tot nm fm h
            G k p f (f + 1) Hheap Hkp Hfp)
  as (h1 & h2 & fm' & h' & G' & Hr & Hfp1 & Hs & Ha & Hheap' & Hext & Hdom & _);
  [lia|lia|].
destruct (lfu_freq_at_lookup _ _ _ Hfp) as (n0 & Hn0 & Hfn0).
destruct (lfu_freq_at_lookup _ _ _ Hfp1) as (n1 & Hn1 & Hfn1).
assert (nm ≠ ∅) as Hnm by (intros ->; by rewrite lookup_empty in Hkp).
assert (∀ m1, 1 ≤ m1 → is_Some (fm' !! m1) →
  ∃ c', Lfu.addFreqNum Key0 Value0 (Lfu.mkCache cap m1 mx avg tot nm fm' h')
        = Some c'
    ∧ lfu_inv (n + 1) c' ∧ Lfu.nodeMap_ c' = nm ∧ Lfu.capacity_ c' = cap
    ∧ lfu_kv_ext h (Lfu.nodes c')) as Hfinish.
{ intros m1 Hm1 Hm1l.
  destruct (lfu_addFreqNum_ok Key0 Value0 (n + 2) cap m1 mx avg tot nm fm' h'
              G' Hheap' Hmx Hlt)
    as (mf' & avg' & fm2 & h2' & G2 & Hadd & Hheap2 & Hext2 & Hdom2 & Hge & Hls);
    [nia|].
  eexists. split; [exact Hadd|]. lfu_cbn. split; [|split; [done|split; [done|]]].
  - split; lfu_cbn.
    + exists G2. by replace (n + 1 + 1) with (n + 2) by lia.
    + by apply Hge.
    + intros _. by apply Hls.
    + nia.
    + done.
    + done.
  - by eapply lfu_kv_ext_trans. }
assert (lfu_value_at h p = Some (Lfu.value n0)) as Hval.
{ unfold lfu_value_at. by rewrite Hn0. }
unfold Lfu.getInternal. lfu_cbn. rewrite Hn0. lfu_cbn. rewrite Hr. lfu_cbn.
rewrite Hn1. lfu_cbn. rewrite Hfn1.
rewrite (int_ok_small (f + 1)) by lia. lfu_cbn. rewrite Hs. lfu_cbn. rewrite Ha.
lfu_cbn. replace (f + 1 - 1) with f by lia.
assert (is_Some (fm' !! f)) as [lf Hlf] by (apply Hdom; by left).
assert (is_Some (fm' !! mf)) as Hmfl by (apply Hdom; left; by apply Hml).
case_decide as Hd; lfu_cbn.
- rewrite Hlf. lfu_cbn.
  assert (Lfu.head_ lf < length h')%nat as Hhd.
  { apply (lfl_valid _ _ _ _
             (lfs_list _ _ _ (lfh_lists _ _ _ _ _ Hheap') f lf Hlf)).
    unfold lfu_chain. set_solver. }
  unfold Lfu.isEmpty. destruct (lookup_lt_is_Some_2 h' _ Hhd) as [hd ->].
  lfu_cbn. case_bool_decide; lfu_cbn.
  + rewrite (int_ok_small (mf + 1)) by lia. lfu_cbn.
    destruct (Hfinish (mf + 1)) as (c' & Hadd & Hrest); [lia| |].
    { apply Hdom. right. lia. }
    rewrite Hadd. lfu_cbn. by eexists _, c'.
  + destruct (Hfinish mf Hmf Hmfl) as (c' & Hadd & Hrest).
    rewrite Hadd. lfu_cbn. by eexists _, c'.
- destruct (Hfinish mf Hmf Hmfl) as (c' & Hadd & Hrest).
  rewrite Hadd. lfu_cbn. by eexists _, c'.
Qed.

Lemma lfu_u64_zero cap : - 2 ^ 31 ≤ cap < 2 ^ 31 → u64 cap = 0 → cap = 0.
Proof.
unfold u64. intros Hc Hm. apply Z.mod_divide in Hm; [|lia].
destruct Hm as [z Hz]. lia.
Qed.

(** [putInternal] *)
Lemma lfu_putInternal_ok n c k v :
lfu_inv n c → Lfu.capacity_ c ≠ 0 →
0 ≤ n → (n + 2) * (n + 2) < 2 ^ 31 →
∃ c' p nm1, Lfu.putInternal Key0 Value0 k v c = Some c'
  ∧ lfu_inv (n + 1) c'
  ∧ Lfu.nodeMap_ c' = <[k := p]> nm1
  ∧ (length (Lfu.nodes c) ≤ p)%nat
  ∧ lfu_value_at (Lfu.nodes c') p = Some v
  ∧ Lfu.capacity_ c' = Lfu.capacity_ c
  ∧ lfu_kv_ext (Lfu.nodes c) (Lfu.nodes c')
  ∧ (nm1 = Lfu.nodeMap_ c ∨ ∃ k0, nm1 = delete k0 (Lfu.nodeMap_ c))
  ∧ (zsize (Lfu.nodeMap_ c) ≠ u64 (Lfu.capacity_ c) → nm1 = Lfu.nodeMap_ c).
Proof.
intros Hinv Hc0 Hn Hbound. lfu_open c Hinv.
pose proof (lfu_bound_lt n Hn Hbound) as Hlt.
assert (∃ avg1 tot1 nm1 h1 G1,
  (if decide (zsize nm = u64 cap)
   then Lfu.kickOut (Lfu.mkCache cap mf mx avg tot nm fm h)
   else Some (Lfu.mkCache cap mf mx avg tot nm fm h))
  = Some (Lfu.mkCache cap mf mx avg1 tot1 nm1 fm h1)
  ∧ lfu_heap_inv (n + 1) nm1 h1 fm G1
  ∧ lfu_kv_ext h h1
  ∧ tot - (n + 1) ≤ tot1 ≤ tot
  ∧ (nm1 = nm ∨ ∃ k0, nm1 = delete k0 nm)
  ∧ (zsize nm ≠ u64 cap → nm1 = nm))
  as (avg1 & tot1 & nm1 & h1 & G1 & Hst & Hheap1 & Hext1 & Htot1 & Hdel & Hsame).
{ case_decide as Hfull.
  - assert (nm ≠ ∅) as Hnm.
    { intros ->. unfold zsize in Hfull. rewrite map_size_empty in Hfull.
      apply Hc0, lfu_u64_zero; [done|]. by rewrite <- Hfull. }
    destruct (lfu_kickOut_ok (n + 1) cap mf mx avg tot nm fm h G Hheap
                (Hml Hnm))
      as (avg' & tot' & nm' & h' & G' & Hk & Hheap' & Hext' & Htot' & Hdel');
      [nia|lia|].
    exists avg', tot', nm', h', G'. split; [done|]. split; [done|].
    split; [done|]. split; [lia|]. split; [by right|done].
  - exists avg, tot, nm, h, G. split; [done|]. split; [done|].
    split; [apply lfu_kv_ext_refl|]. split; [lia|]. split; [by left|done]. }
unfold Lfu.putInternal. lfu_cbn. rewrite Hst. lfu_cbn.
unfold Lfu.alloc. lfu_cbn.
set (p := length h1). set (h2 := h1 ++ [Lfu.newNode k v]).
destruct (lfu_lists_alloc h1 fm G1 (Lfu.newNode k v)
            (lfh_lists _ _ _ _ _ Hheap1)) as [Hok2 Hdet2].
fold h2 p in Hok2, Hdet2.
assert (h2 !! p = Some (Lfu.newNode k v)) as Hp2.
{ unfold h2, p. rewrite lookup_app_r by lia. by rewrite Nat.sub_diag. }
assert (lfu_freq_at h2 p = Some 1) as Hfp2.
{ unfold lfu_freq_at. by rewrite Hp2. }
assert (∀ q, (q < length h1)%nat → h2 !! q = h1 !! q) as Hsame2.
{ intros q Hq. unfold h2. by rewrite lookup_app_l. }
assert (length h2 = S (length h1)) as Hlen2.
{ unfold h2. rewrite length_app. cbn. lia. }
destruct (lfu_addToFreqList_ok Key0 Value0 cap mf mx avg1 tot1
            (<[k:=p]> nm1) fm h2 G1 p 1 Hok2 Hdet2 Hfp2)
  as (fm' & h3 & G3 & Ha & Hlen3 & Hsame3 & Hok3 & Hdom3 & Hmono3 & Hin3).
rewrite Ha. lfu_cbn.
assert (lfu_heap_inv (n + 2) (<[k:=p]> nm1) h3 fm' G3) as Hheap3.
{ destruct Hheap1 as [Hok1 Hmap1 Hfreqs1 Hone1]. split.
  - done.
  - intros k' q Hk'. destruct (decide (k' = k)) as [->|Hne].
    + rewrite lookup_insert_eq in Hk'. injection Hk' as <-.
      destruct (Hsame3 p) as (Ef & Ek & Ev); [lia|]. split.
      * rewrite Ek. unfold lfu_key_at. by rewrite Hp2.
      * exists 1. split; [by rewrite Ef|]. split; [|done].
        apply Hdom3. by right.
    + rewrite lookup_insert_ne in Hk' by done.
      destruct (Hmap1 k' q Hk') as (Hkey & g & Hfq & Hgl & Hq).
      pose proof (lfu_freq_Some_valid _ _ _ Hfq) as Hqv.
      destruct (Hsame3 q) as (Ef & Ek & Ev); [lia|]. split.
      * rewrite Ek. unfold lfu_key_at. rewrite Hsame2 by done. exact Hkey.
      * exists g. split; [|split].
        -- rewrite Ef. unfold lfu_freq_at. rewrite Hsame2 by done. exact Hfq.
        -- apply Hdom3. by left.
        -- by apply Hmono3.
  - intros g [Hg| ->]%Hdom3; [|lia]. specialize (Hfreqs1 g Hg). lia.
  - intros g _. apply Hdom3. by right. }
destruct (lfu_addFreqNum_ok Key0 Value0 (n + 2) cap mf mx avg1 tot1
            (<[k:=p]> nm1) fm' h3 G3 Hheap3 Hmx Hlt)
  as (mf' & avg' & fm4 & h4 & G4 & Hadd & Hheap4 & Hext4 & Hdom4 & Hge & Hls);
  [nia|].
rewrite Hadd. lfu_cbn. rewrite Z.min_r by (specialize (Hge Hmf); lia).
eexists _, p, nm1. split; [done|]. lfu_cbn.
assert (lfu_kv_ext h2 h3) as Hext3.
{ split; [done|]. intros q Hq. by destruct (Hsame3 q Hq) as (_ & -> & ->). }
assert (lfu_kv_ext h1 h2) as Hext2.
{ apply lfu_kv_ext_lookup; [lia|done]. }
split; [|split; [done|split; [|split; [|split; [done|split; [|done]]]]]].
- split; lfu_cbn.
  + exists G4. by replace (n + 1 + 1) with (n + 2) by lia.
  + done.
  + intros _. apply Hdom4, Hdom3. by right.
  + nia.
  + done.
  + done.
- destruct Hext1 as [Hl1 _]. unfold p. lia.
- destruct Hext4 as [_ Hv4]. destruct (Hv4 p) as [_ ->]; [lia|].
  destruct (Hsame3 p) as (_ & _ & ->); [lia|].
  unfold lfu_value_at. by rewrite Hp2.
- eapply lfu_kv_ext_trans; [exact Hext1|].
  eapply lfu_kv_ext_trans; [exact Hext2|].
  by eapply lfu_kv_ext_trans.
Qed.

(** [put] *)
Lemma lfu_put_ok n c k v :
lfu_inv n c → 0 ≤ n → (n + 2) * (n + 2) < 2 ^ 31 →
∃ c', Lfu.put Key0 Value0 k v c = Some c'
  ∧ lfu_inv (n + 1) c'
  ∧ Lfu.capacity_ c' = Lfu.capacity_ c
  ∧ (Lfu.capacity_ c ≠ 0 →
     ∃ p nm1, Lfu.nodeMap_ c' = <[k := p]> nm1
       ∧ lfu_value_at (Lfu.nodes c') p = Some v
       ∧ (∀ k' q, k' ≠ k → Lfu.nodeMap_ c !! k' = Some q →
            lfu_value_at (Lfu.nodes c') q = lfu_value_at (Lfu.nodes c) q)
       ∧ (nm1 = Lfu.nodeMap_ c ∨ ∃ k0, nm1 = delete k0 (Lfu.nodeMap_ c))
       ∧ (is_Some (Lfu.nodeMap_ c !! k)
          ∨ zsize (Lfu.nodeMap_ c) ≠ u64 (Lfu.capacity_ c) →
          nm1 = Lfu.nodeMap_ c)).
Proof.
intros Hinv Hn Hbound. unfold Lfu.put. case_decide as Hc0.
{ exists c. split; [done|]. split; [by apply lfu_inv_mono|]. done. }
destruct (Lfu.nodeMap_ c !! k) as [p|] eqn:Hkp.
- (* the key is indexed *)
  pose proof Hinv as Hinv0. lfu_open c Hinv.
  destruct (lfh_map _ _ _ _ _ Hheap k p Hkp) as (Hkey & f & Hfp & Hfl & Hin).
  pose proof (lfu_freq_Some_valid _ _ _ Hfp) as Hpv.
  destruct (lfu_lists_set_value h fm G p v (lfh_lists _ _ _ _ _ Hheap) Hpv)
    as (h0 & Hs & Hlen0 & Hfq0 & Hk0 & Hvp0 & Hv0 & Hok0).
  rewrite Hs. lfu_cbn.
  assert (lfu_inv n (Lfu.mkCache cap mf mx avg tot nm fm h0)) as Hinv1.
  { split; lfu_cbn; [|done..]. exists G.
    destruct Hheap as [Hok Hmap Hfreqs Hone]. split; [done| |done|done].
    intros k' q Hk'. destruct (Hmap k' q Hk') as (Hkey' & g & Hfq & Hgl & Hq).
    split; [by rewrite Hk0|]. exists g. by rewrite Hfq0. }
  destruct (lfu_getInternal_ok n _ k p Hinv1 Hkp Hn Hbound)
    as (v' & c' & Hg & Hval & Hinv' & Hnm' & Hcap' & Hext').
  rewrite Hg. cbn. eexists. split; [done|]. split; [done|].
  split; [done|]. intros _. exists p, nm.
  cbn [Lfu.nodeMap_ Lfu.nodes] in *.
  split; [by rewrite Hnm', insert_id|]. destruct Hext' as [Hl' Hkv'].
  split; [|split; [|split; [by left|done]]].
  + destruct (Hkv' p) as [_ ->]; [lia|]. done.
  + intros k' q Hne Hk'.
    destruct (lfh_map _ _ _ _ _ Hheap k' q Hk') as (Hkey' & g & Hfq & _).
    pose proof (lfu_freq_Some_valid _ _ _ Hfq) as Hqv.
    destruct (Hkv' q) as [_ ->]; [lia|]. apply Hv0. intros ->.
    congruence.
- destruct (lfu_putInternal_ok n c k v Hinv Hc0 Hn Hbound)
    as (c' & p & nm1 & Hput & Hinv' & Hnm' & Hfresh & Hval & Hcap' & Hext'
        & Hdel & Hsame).
  exists c'. split; [done|]. split; [done|]. split; [done|].
  intros _. exists p, nm1. split; [done|]. split; [done|].
  split; [|split; [done|]].
  + intros k' q Hne Hk'. destruct Hinv as [[G Hheap] _ _ _ _ _].
    destruct (lfh_map _ _ _ _ _ Hheap k' q Hk') as (Hkey' & g & Hfq & _).
    pose proof (lfu_freq_Some_valid _ _ _ Hfq) as Hqv.
    destruct Hext' as [_ Hkv']. by destruct (Hkv' q Hqv) as [_ ->].
  + intros [[? ?]|Hnf]; [done|]. by apply Hsame.
Qed.

(** [get] *)
Lemma lfu_get_ok n c k :
lfu_inv n c → 0 ≤ n → (n + 2) * (n + 2) < 2 ^ 31 →
∃ c', Lfu.get Key0 Value0 k c
      = Some (Lfu.nodeMap_ c !! k ≫= lfu_value_at (Lfu.nodes c), c')
  ∧ lfu_inv (n + 1) c'
  ∧ Lfu.capacity_ c' = Lfu.capacity_ c
  ∧ Lfu.nodeMap_ c' = Lfu.nodeMap_ c
  ∧ lfu_kv_ext (Lfu.nodes c) (Lfu.nodes c').
Proof.
intros Hinv Hn Hbound. unfold Lfu.get.
destruct (Lfu.nodeMap_ c !! k) as [p|] eqn:Hkp.
- destruct (lfu_getInternal_ok n c k p Hinv Hkp Hn Hbound)
    as (v & c' & Hg & Hval & Hinv' & Hnm' & Hcap' & Hext').
  rewrite Hg. cbn. rewrite Hval. by exists c'.
- exists c. split; [done|]. split; [by apply lfu_inv_mono|].
  split; [done|]. split; [done|apply lfu_kv_ext_refl].
Qed.

Lemma lfu_step_ok n c (o : lfu_op Key Value) :
lfu_inv n c → 0 ≤ n → (n + 2) * (n + 2) < 2 ^ 31 →
∃ c', lfu_step Key0 Value0 o c = Some c'
  ∧ lfu_inv (n + 1) c' ∧ Lfu.capacity_ c' = Lfu.capacity_ c.
Proof.
intros Hinv Hn Hbound. destruct o as [k v|k|]; cbn [lfu_step].
- destruct (lfu_put_ok n c k v Hinv Hn Hbound) as (c' & Hp & Hinv' & Hcap & _).
  by exists c'.
- destruct (lfu_get_ok n c k Hinv Hn Hbound) as (c' & Hg & Hinv' & Hcap & _).
  unfold call. rewrite Hg. by exists c'.
- eexists. split; [done|]. split.
  + apply lfu_inv_mono; [by apply lfu_purge_inv|done].
  + by destruct c.
Qed.

Lemma lfu_run_ok (ops : list (lfu_op Key Value)) :
∀ n c, lfu_inv n c → 0 ≤ n →
(n + Z.of_nat (length ops) + 1) * (n + Z.of_nat (length ops) + 1) < 2 ^ 31 →
∃ c', run (lfu_step Key0 Value0 <$> ops) c = Some c'
  ∧ lfu_inv (n + Z.of_nat (length ops)) c'
  ∧ Lfu.capacity_ c' = Lfu.capacity_ c.
Proof.
induction ops as [|o ops IH]; intros n c Hinv Hn Hbound.
- exists c. split; [done|]. split; [|done]. cbn [length].
  by replace (n + Z.of_nat 0) with n by lia.
- cbn [length] in *. rewrite fmap_cons, run_cons.
  destruct (lfu_step_ok n c o Hinv Hn) as (c1 & Hs & Hinv1 & Hcap1); [nia|].
  rewrite Hs. cbn [mbind option_bind].
  destruct (IH (n + 1) c1 Hinv1) as (c' & Hr & Hinv' & Hcap'); [lia|nia|].
  exists c'. split; [done|]. split; [|congruence].
  by replace (n + Z.of_nat (S (length ops)))
    with (n + 1 + Z.of_nat (length ops)) by lia.
Qed.

Lemma lfu_reach_inv capacity maxAverageNum (ops : list (lfu_op Key Value)) c :
- 2 ^ 31 ≤ capacity < 2 ^ 31 → 0 ≤ maxAverageNum < 2 ^ 31 →
Z.of_nat (length ops) < 46339 →
run (lfu_step Key0 Value0 <$> ops) (Lfu.new capacity maxAverageNum) = Some c →
∃ n, lfu_inv n c ∧ 0 ≤ n ∧ (n + 2) * (n + 2) < 2 ^ 31
     ∧ Lfu.capacity_ c = capacity.
Proof.
intros Hcap Hmx Hlen Hrun.
destruct (lfu_run_ok ops 0 _ (lfu_new_inv capacity maxAverageNum Hcap Hmx))
  as (c' & Hr & Hinv & Hc); [lia|nia|].
rewrite Hrun in Hr. injection Hr as <-.
exists (0 + Z.of_nat (length ops)). split; [done|]. split; [lia|].
split; [nia|done].
Qed.

Lemma lfu_view_lookup c k :
lfu_view c !! k = Lfu.nodeMap_ c !! k ≫= lfu_value_at (Lfu.nodes c).
Proof. unfold lfu_view. by rewrite lookup_omap. Qed.


(** X24.  In a state reached by calls on a new [LfuCache], [get] returns the
  value the cache holds for the key, or misses when it holds none, and
  leaves the content as it is: neither the move to the next frequency
  list nor an aging pass loses an entry or changes a value. *)
Theorem lfu_get_reads_content capacity maxAverageNum
  (ops : list (lfu_op Key Value)) c key :
- 2 ^ 31 ≤ capacity < 2 ^ 31 → 0 ≤ maxAverageNum < 2 ^ 31 →
Z.of_nat (length ops) < 46339 →
run (lfu_step Key0 Value0 <$> ops) (Lfu.new capacity maxAverageNum) = Some c →
∃ c', Lfu.get Key0 Value0 key c = Some (lfu_view c !! key, c')
      ∧ lfu_view c' = lfu_view c.
Proof.
intros Hcap Hmx Hlen Hrun.
destruct (lfu_reach_inv _ _ _ _ Hcap Hmx Hlen Hrun) as (n & Hinv & Hn & Hb & _).
destruct (lfu_get_ok n c key Hinv Hn Hb) as (c' & Hg & _ & _ & Hnm & Hext).
exists c'. rewrite lfu_view_lookup. split; [done|].
apply map_eq. intros k. rewrite !lfu_view_lookup, Hnm.
destruct (Lfu.nodeMap_ c !! k) as [p|] eqn:Hk; [|done]. cbn.
destruct Hinv as [[G Hheap] _ _ _ _ _].
destruct (lfh_map _ _ _ _ _ Hheap k p Hk) as (_ & g & Hfq & _).
pose proof (lfu_freq_Some_valid _ _ _ Hfq) as Hqv.
destruct Hext as [_ Hkv]. by destruct (Hkv p Hqv) as [_ ->].
Qed.

Lemma lfu_put_view capacity maxAverageNum
  (ops : list (lfu_op Key Value)) c key value :
- 2 ^ 31 ≤ capacity < 2 ^ 31 → 0 ≤ maxAverageNum < 2 ^ 31 →
capacity ≠ 0 →
Z.of_nat (length ops) < 46339 →
run (lfu_step Key0 Value0 <$> ops) (Lfu.new capacity maxAverageNum) = Some c →
∃ c', Lfu.put Key0 Value0 key value c = Some c'
  ∧ (∃ k0, lfu_view c' = <[key := value]> (delete k0 (lfu_view c)))
  ∧ (is_Some (lfu_view c !! key)
     ∨ zsize (Lfu.nodeMap_ c) ≠ u64 capacity →
     lfu_view c' = <[key := value]> (lfu_view c)).
Proof.
intros Hcap Hmx Hc0 Hlen Hrun.
destruct (lfu_reach_inv _ _ _ _ Hcap Hmx Hlen Hrun)
  as (n & Hinv & Hn & Hb & Hcapc).
destruct (lfu_put_ok n c key value Hinv Hn Hb) as (c' & Hp & _ & _ & Hcont).
destruct Hcont as (p & nm1 & Hnm & Hval & Hothers & Hdel & Hsame);
  [by rewrite Hcapc|].
exists c'. split; [done|].
assert (∀ nm0, Lfu.nodeMap_ c' = <[key:=p]> nm0 →
               (∀ k q, nm0 !! k = Some q → Lfu.nodeMap_ c !! k = Some q) →
               lfu_view c'
               = <[key:=value]> (omap (lfu_value_at (Lfu.nodes c)) nm0))
  as Hview.
{ intros nm0 Hnm0 Hsub. apply map_eq. intros k.
  rewrite lfu_view_lookup, Hnm0.
  destruct (decide (k = key)) as [->|Hne].
  - by rewrite !lookup_insert_eq.
  - rewrite !lookup_insert_ne by done. rewrite lookup_omap.
    destruct (nm0 !! k) as [q|] eqn:Hk; [|done]. cbn.
    apply (Hothers k); [done|]. by apply Hsub. }
assert (is_Some (lfu_view c !! key) → is_Some (Lfu.nodeMap_ c !! key)) as Hres.
{ rewrite lfu_view_lookup. destruct (Lfu.nodeMap_ c !! key); [by eexists|].
  by intros [? ?]. }
split.
- destruct Hdel as [->|[k0 ->]].
  + exists key. rewrite insert_delete_eq. by apply Hview.
  + exists k0. unfold lfu_view at 2. rewrite <- omap_delete.
    apply Hview; [done|]. intros k q [_ ?]%lookup_delete_Some. done.
- intros Hcase. rewrite Hcapc in Hsame. rewrite Hsame in Hnm.
  + by apply Hview.
  + destruct Hcase as [?|?]; [left; by apply Hres|by right].
Qed.

(** X25.  In a state reached by calls on a new [LfuCache] of a capacity other
  than 0, [put] stores the value under the key, keeps the value of
  every other key it does not evict, and evicts at most one key. *)
Theorem lfu_put_evicts_at_most_one capacity maxAverageNum
  (ops : list (lfu_op Key Value)) c key value :
- 2 ^ 31 ≤ capacity < 2 ^ 31 → 0 ≤ maxAverageNum < 2 ^ 31 →
capacity ≠ 0 →
Z.of_nat (length ops) < 46339 →
run (lfu_step Key0 Value0 <$> ops) (Lfu.new capacity maxAverageNum) = Some c →
∃ c' k0, Lfu.put Key0 Value0 key value c = Some c'
  ∧ lfu_view c' = <[key := value]> (delete k0 (lfu_view c)).
Proof.
intros Hcap Hmx Hc0 Hlen Hrun.
destruct (lfu_put_view _ _ _ _ key value Hcap Hmx Hc0 Hlen Hrun)
  as (c' & Hp & [k0 Hv] & _).
by exists c', k0.
Qed.

(** X26.  In such a state, a [put] of a key the cache holds, or a [put] while
  the number of indexed keys is not the capacity, evicts nothing: it
  sets the value of the key and keeps every other entry. *)
Theorem lfu_put_without_eviction capacity maxAverageNum
  (ops : list (lfu_op Key Value)) c key value :
- 2 ^ 31 ≤ capacity < 2 ^ 31 → 0 ≤ maxAverageNum < 2 ^ 31 →
capacity ≠ 0 →
Z.of_nat (length ops) < 46339 →
run (lfu_step Key0 Value0 <$> ops) (Lfu.new capacity maxAverageNum) = Some c →
is_Some (lfu_view c !! key) ∨ zsize (Lfu.nodeMap_ c) ≠ u64 capacity →
∃ c', Lfu.put Key0 Value0 key value c = Some c'
  ∧ lfu_view c' = <[key := value]> (lfu_view c).
Proof.
intros Hcap Hmx Hc0 Hlen Hrun Hcase.
destruct (lfu_put_view _ _ _ _ key value Hcap Hmx Hc0 Hlen Hrun)
  as (c' & Hp & _ & Hv).
exists c'. split; [done|]. by apply Hv.
Qed.

(** X27.  In a state reached by calls on a new [LfuCache] of a capacity other
  than 0, a [get] after a [put] of the same key returns the value that
  was put. *)
Theorem lfu_put_then_get capacity maxAverageNum
  (ops : list (lfu_op Key Value)) c key value :
- 2 ^ 31 ≤ capacity < 2 ^ 31 → 0 ≤ maxAverageNum < 2 ^ 31 →
capacity ≠ 0 →
Z.of_nat (length ops) < 46338 →
run (lfu_step Key0 Value0 <$> ops) (Lfu.new capacity maxAverageNum) = Some c →
∃ c' c'', Lfu.put Key0 Value0 key value c = Some c'
  ∧ Lfu.get Key0 Value0 key c' = Some (Some value, c'').
Proof.
intros Hcap Hmx Hc0 Hlen Hrun.
destruct (lfu_run_ok ops 0 _ (lfu_new_inv capacity maxAverageNum Hcap Hmx))
  as (c0 & Hr & Hinv & Hcapc); [lia|nia|].
rewrite Hrun in Hr. injection Hr as <-.
destruct (lfu_put_ok _ c key value Hinv) as (c' & Hp & Hinv' & _ & Hcont);
  [lia|nia|].
destruct Hcont as (p & nm1 & Hnm & Hval & _); [by rewrite Hcapc|].
destruct (lfu_get_ok _ c' key Hinv') as (c'' & Hg & _); [lia|nia|].
exists c', c''. split; [done|]. rewrite Hg, Hnm, lookup_insert_eq. cbn.
by rewrite Hval.
Qed.

End LfuInv.

(** ** LfuCache: the entry that [kickOut] removes *)

Section LfuKickOut.
Context `{Countable Key} {Value : Type}.
Variables (Key0 : Key) (Value0 : Value).
Implicit Types c : Lfu.LfuCache (Key := Key) (Value := Value).
Implicit Types h : list (Lfu.Node (Key := Key) (Value := Value)).
Implicit Types fm : gmap Z Lfu.FreqList.
Implicit Types nm : gmap Key ptr.
Implicit Types G : Z → list ptr.
Implicit Types p q : ptr.
Implicit Types l : Lfu.FreqList.
Implicit Types f g x B n cap mf mx avg tot : Z.

Ltac lfu_cbn :=
unfold Lfu.with_nodes, Lfu.with_nodeMap, Lfu.with_lists, Lfu.with_minFreq,
  Lfu.with_average, Lfu.with_total;
cbn [Lfu.capacity_ Lfu.minFreq_ Lfu.maxAverageNum_ Lfu.curAverageNum_
     Lfu.curTotalNum_ Lfu.nodeMap_ Lfu.freqToFreqList_ Lfu.nodes
     mbind option_bind].

(** [kickOut] when the list of [minFreq_] holds an entry. *)
Lemma lfu_kickOut_head B cap mf mx avg tot nm fm h G l :
lfu_heap_inv B nm h fm G → fm !! mf = Some l →
Lfu.isEmpty l h = Some false →
- 2 ^ 31 ≤ tot - B → tot < 2 ^ 31 →
∃ p nd q h' avg',
  Lfu.getFirstNode l h = Some (Some p)
  ∧ h !! p = Some nd ∧ Lfu.freq nd = mf ∧ Lfu.next nd = Some q
  ∧ Lfu.kickOut (Lfu.mkCache cap mf mx avg tot nm fm h)
    = Some (Lfu.mkCache cap mf mx avg' (tot - mf)
              (delete (Lfu.key nd) nm) fm h')
  ∧ Lfu.getFirstNode l h' = Some (Some q)
  ∧ Lfu.prev <$> h' !! q = Some (Some (Lfu.head_ l)).
Proof.
intros [Hok Hmap Hfreqs Hone] Hfl Hemp Hlo Hhi.
pose proof (lfs_list _ _ _ Hok mf l Hfl) as Hl.
pose proof (Hfreqs mf (ex_intro _ l Hfl)) as Hmf.
pose proof (lfu_list_first _ _ _ _ Hl) as Hfirst.
unfold Lfu.isEmpty in Hemp. unfold lfu_nxt in Hfirst.
destruct (h !! Lfu.head_ l) as [hd|] eqn:Hhd; [|done].
cbn in Hfirst, Hemp. injection Hemp as Hemp.
apply bool_decide_eq_false in Hemp.
destruct (G mf) as [|p ps] eqn:HG; [by rewrite Hfirst in Hemp|].
cbn [head default from_option id] in Hfirst.
assert (p ∈ p :: ps) as Hin by (by left).
pose proof (lfl_freq _ _ _ _ Hl p Hin) as Hfp.
destruct (lfu_freq_at_lookup _ _ _ Hfp) as (nd & Hnd & Hfnd).
set (q := default (Lfu.tail_ l) (head ps)).
assert (lfu_nxt h p = Some q ∧ lfu_prv h p = Some (Lfu.head_ l)) as [Hpq Hpp].
{ destruct Hl as [_ _ HL _ _ _]. unfold lfu_chain in HL. split.
  - apply (HL p q). apply adjacent_cons. unfold q.
    destruct ps as [|y ps']; apply adjacent_head.
  - apply (HL (Lfu.head_ l) p). apply adjacent_head. }
destruct (lfu_list_remove h mf l [] p ps Hl)
  as (h1 & Hr & Hlen1 & _ & Hfq1 & Hk1 & _ & Hl1).
cbn [app] in Hl1.
exists p, nd, q, h1.
assert (lfu_freq_at h1 p = Some mf) as Hfp1 by (by rewrite Hfq1).
destruct (lfu_freq_at_lookup _ _ _ Hfp1) as (n1 & Hn1 & Hfn1).
assert (Lfu.key n1 = Lfu.key nd) as Hkey.
{ specialize (Hk1 p). unfold lfu_key_at in Hk1. rewrite Hn1, Hnd in Hk1.
  cbn in Hk1. congruence. }
destruct (lfu_decreaseFreqNum_ok cap mf mx avg tot
            (delete (Lfu.key nd) nm) fm h1 mf) as [avg' Hd]; [lia|].
exists avg'. split; [|split; [done|split; [done|split; [|split; [|split]]]]].
- unfold Lfu.getFirstNode. rewrite Hhd. cbn. by rewrite Hfirst.
- unfold lfu_nxt in Hpq. rewrite Hnd in Hpq. exact Hpq.
- unfold Lfu.kickOut. lfu_cbn. rewrite Hfl. lfu_cbn.
  unfold Lfu.getFirstNode. rewrite Hhd. lfu_cbn. rewrite Hfirst. lfu_cbn.
  unfold Lfu.removeFromFreqList. lfu_cbn. rewrite Hnd. lfu_cbn.
  rewrite Hfnd, Hfl. lfu_cbn. rewrite Hr. lfu_cbn.
  rewrite Hn1. lfu_cbn. rewrite Hfn1, Hkey. exact Hd.
- pose proof (lfu_list_first _ _ _ _ Hl1) as Hfirst1.
  unfold lfu_nxt in Hfirst1. unfold Lfu.getFirstNode.
  destruct (h1 !! Lfu.head_ l) as [hd1|]; [|done]. cbn in *.
  by rewrite Hfirst1.
- destruct Hl1 as [_ _ HL1 _ _ _]. unfold lfu_chain in HL1.
  destruct (HL1 (Lfu.head_ l) q) as [_ Hprev].
  { unfold q. destruct ps as [|y ps']; apply adjacent_head. }
  unfold lfu_prv in Hprev. destruct (h1 !! q) as [nq|]; [|done].
  cbn in *. by rewrite Hprev.
Qed.

(** C8, as amended.  In a state reached by calls on a new [LfuCache], an
  eviction that finds an entry in the bucket of [minFreq_] removes the
  entry at the head of that bucket, the one that entered it first: the
  key of that entry leaves the index and its successor becomes the first
  node of the bucket.  The eviction step does not recompute [minFreq_]:
  it is the same afterwards, also when the bucket has become empty. *)
Theorem lfu_kickOut_evicts_head_of_minFreq_bucket capacity maxAverageNum
  (ops : list (lfu_op Key Value)) c l :
- 2 ^ 31 ≤ capacity < 2 ^ 31 → 0 ≤ maxAverageNum < 2 ^ 31 →
Z.of_nat (length ops) < 46339 →
run (lfu_step Key0 Value0 <$> ops) (Lfu.new capacity maxAverageNum) = Some c →
Lfu.freqToFreqList_ c !! Lfu.minFreq_ c = Some l →
Lfu.isEmpty l (Lfu.nodes c) = Some false →
∃ p nd q c',
  Lfu.getFirstNode l (Lfu.nodes c) = Some (Some p)
  ∧ Lfu.nodes c !! p = Some nd
  ∧ Lfu.freq nd = Lfu.minFreq_ c
  ∧ Lfu.next nd = Some q
  ∧ Lfu.kickOut c = Some c'
  ∧ Lfu.nodeMap_ c' = delete (Lfu.key nd) (Lfu.nodeMap_ c)
  ∧ Lfu.minFreq_ c' = Lfu.minFreq_ c
  ∧ Lfu.freqToFreqList_ c' = Lfu.freqToFreqList_ c
  ∧ Lfu.getFirstNode l (Lfu.nodes c') = Some (Some q)
  ∧ Lfu.prev <$> Lfu.nodes c' !! q = Some (Some (Lfu.head_ l))
  ∧ Lfu.capacity_ c' = Lfu.capacity_ c.
Proof.
intros Hcap Hmx Hlen Hrun Hfl Hemp.
destruct (lfu_reach_inv Key0 Value0 _ _ _ _ Hcap Hmx Hlen Hrun)
  as (n & Hinv & Hn & Hb & _).
destruct Hinv as [[G Hheap] Hmf Hml Htot _ _].
destruct c as [cap mf mx avg tot nm fm h].
cbn [Lfu.capacity_ Lfu.minFreq_ Lfu.maxAverageNum_ Lfu.curAverageNum_
     Lfu.curTotalNum_ Lfu.nodeMap_ Lfu.freqToFreqList_ Lfu.nodes] in *.
destruct (lfu_kickOut_head (n + 1) cap mf mx avg tot nm fm h G l
            Hheap Hfl Hemp)
  as (p & nd & q & h' & avg' & H1 & H2 & H3 & H4 & H5 & H6 & H7); [nia|lia|].
exists p, nd, q. eexists. split; [done|]. split; [done|]. split; [done|].
split; [done|]. split; [exact H5|]. by cbn.
Qed.

End LfuKickOut.

Section LfuKickOutExample.
Open Scope string_scope.
Lemma lfu_kickOut_evicts_head_of_minFreq_bucket_witness :
∃ c', Lfu.kickOut (final (Lfu.new 2 10) lfu_two_buckets) = Some c'
  ∧ Lfu.nodeMap_ c' !! "k2" = None
  ∧ Lfu.minFreq_ c' = 1.
Proof.
edestruct (lfu_kickOut_evicts_head_of_minFreq_bucket (Key := string) "" ""
             2 10 [LfuPut "k1" "a"; LfuPut "k2" "b"; LfuGet "k1"]
             (final (Lfu.new 2 10) lfu_two_buckets))
  as (p & nd & q & c' & Hp & Hnd & _ & _ & Hk & Hm & Hf & _).
- lia.
- lia.
- vm_compute; reflexivity.
- vm_compute; reflexivity.
- vm_compute; reflexivity.
- vm_compute; reflexivity.
- exists c'. split; [exact Hk|]. split.
  + rewrite Hm.
    assert (Lfu.key nd = "k2") as ->; [|apply lookup_delete_eq].
    vm_compute in Hp. injection Hp as <-. vm_compute in Hnd.
    injection Hnd as <-. reflexivity.
  + rewrite Hf. vm_compute; reflexivity.
Defined.
End LfuKickOutExample.

(** ** Instances *)

Section UserExamples.
Open Scope string_scope.

Lemma lru_size_within_capacity_witness :
∃ c : Lru.LruCache (Key := Z),
run (lru_step <$> [LruPut 1 "a"; LruPut 2 "b"; LruPut 3 "c"; LruGet 1;
                   LruRemove 3])
    (Lru.new 0 "" 2) = Some c
∧ Lru.capacity_ c = 2 ∧ (zsize (Lru.nodeMap_ c) ≤ 2)%Z.
Proof.
apply (lru_size_within_capacity (Key := Z) 0 "" 2
       [LruPut 1 "a"; LruPut 2 "b"; LruPut 3 "c"; LruGet 1; LruRemove 3]).
lia.
Defined.

Lemma lru_put_then_get_witness :
∃ c' c'', Lru.put 3 "c" lru_two_puts = Some c'
∧ Lru.get 3 c' = Some (Some "c", c'').
Proof.
apply (lru_put_then_get (Key := Z) 0 "" 2 lru_two_puts_ops lru_two_puts 3 "c").
- lia.
- vm_compute; reflexivity.
Defined.

Lemma lru_get_reads_content_witness :
∃ c', Lru.get 1 lru_two_puts = Some (LruModel.view lru_two_puts !! 1, c')
∧ LruModel.view c' = LruModel.view lru_two_puts
∧ zsize (Lru.nodeMap_ c') = zsize (Lru.nodeMap_ lru_two_puts).
Proof.
apply (lru_get_reads_content (Key := Z) 0 "" 2 lru_two_puts_ops lru_two_puts 1).
- lia.
- vm_compute; reflexivity.
Defined.

Lemma lru_put_without_eviction_witness :
∃ c', Lru.put 1 "x" lru_two_puts = Some c'
∧ LruModel.view c' = <[1 := "x"]> (LruModel.view lru_two_puts).
Proof.
apply (lru_put_without_eviction (Key := Z) 0 "" 2 lru_two_puts_ops
       lru_two_puts 1 "x").
- lia.
- vm_compute; reflexivity.
- left. vm_compute. eexists; reflexivity.
Defined.

Lemma lru_full_put_evicts_last_put_witness :
∃ c', Lru.put 3 "c" lru_two_puts = Some c'
∧ LruModel.view c' = <[3 := "c"]> (delete 2 (LruModel.view lru_two_puts))
∧ LruModel.view lru_two_puts !! 2 = Some "b"
∧ zsize (Lru.nodeMap_ c') = 2.
Proof.
apply (lru_full_put_evicts_last_put (Key := Z) 0 "" 2 [LruPut 1 "a"]
       lru_two_puts 2 "b" 3 "c").
- lia.
- vm_compute; reflexivity.
- vm_compute; reflexivity.
- vm_compute; reflexivity.
Defined.

Lemma lru_remove_deletes_witness :
∃ c', Lru.remove 1 lru_two_puts = Some c'
∧ LruModel.view c' = delete 1 (LruModel.view lru_two_puts)
∧ Lru.get 1 c' = Some (None, c').
Proof.
apply (lru_remove_deletes (Key := Z) 0 "" 2 lru_two_puts_ops lru_two_puts 1).
- lia.
- vm_compute; reflexivity.
Defined.

Lemma lru_nonpositive_capacity_stays_empty_witness :
run (lru_step <$> [LruPut 1 "a"; LruGet 1; LruPut 2 "b"]) (Lru.new 0 "" 0)
= Some (Lru.new (Key := Z) 0 "" 0).
Proof.
apply (lru_nonpositive_capacity_stays_empty (Key := Z) 0 "" 0
       [LruPut 1 "a"; LruGet 1; LruPut 2 "b"]).
lia.
Defined.

Lemma lruk_kth_put_admits_witness :
∃ c : LruK.LruKCache (Key := Z),
run (LruK.do_access 7 <$> [LruK.AGet]) (LruK.new 0 4 4 2) = Some c
∧ LruK.promoted 7 c = false
∧ ∃ c', LruK.put 7 "v" c = Some c'
    ∧ LruK.promoted 7 c' = true
    ∧ fst <$> LruK.get 7 c' = Some "v".
Proof.
destruct (lruk_kth_put_admits (Key := Z) 0 4 4 2 7 [LruK.AGet] "v")
as (c & Hr & Hp & Hk).
- lia.
- lia.
- lia.
- vm_compute; reflexivity.
- exists c. split; [exact Hr|]. split; [exact Hp|]. apply Hk. reflexivity.
Defined.

Lemma lruk_without_history_never_admits_witness :
run (lruk_step <$> [(1, LruK.APut "a"); (1, LruK.APut "a"); (1, LruK.AGet)])
  (LruK.new 0 2 0 2)
= Some (LruK.new (Key := Z) 0 2 0 2).
Proof.
apply (lruk_without_history_never_admits (Key := Z) 0 2 0 2
       [(1, LruK.APut "a"); (1, LruK.APut "a"); (1, LruK.AGet)]).
- lia.
- lia.
Defined.

Lemma lruk_sizes_within_capacities_witness :
∃ c : LruK.LruKCache (Key := Z),
run (lruk_step <$> [(1, LruK.APut "a"); (2, LruK.APut "b"); (1, LruK.AGet)])
    (LruK.new 0 1 1 1) = Some c
∧ (zsize (Lru.nodeMap_ (LruK.base c)) ≤ 1)%Z
∧ (zsize (Lru.nodeMap_ (LruK.historyList_ c)) ≤ 1)%Z.
Proof.
apply (lruk_sizes_within_capacities (Key := Z) 0 1 1 1
       [(1, LruK.APut "a"); (2, LruK.APut "b"); (1, LruK.AGet)]).
- lia.
- lia.
- vm_compute; reflexivity.
Defined.

Lemma lruk_put_updates_promoted_key_witness :
∃ c' c'', LruK.put 1 "b" lruk_one_admitted = Some c'
∧ LruK.get 1 c' = Some ("b", c'').
Proof.
apply (lruk_put_updates_promoted_key (Key := Z) 0 2 2 1 lruk_admitted_ops
       lruk_one_admitted 1 "a" "b").
- lia.
- lia.
- vm_compute; reflexivity.
- vm_compute; reflexivity.
- vm_compute; reflexivity.
- discriminate.
Defined.

Lemma hashlru_shards_bounded_and_disjoint_witness :
∃ c : HashLru.HashLruCaches (Key := Z),
run (hashlru_step id <$> hashlru_ops) (HashLru.new 0 "" 8 4 2) = Some c
∧ length (HashLru.lruSliceCaches_ c) = Z.to_nat 2
∧ ∀ i s, HashLru.lruSliceCaches_ c !! i = Some s →
    (zsize (Lru.nodeMap_ s) ≤ sliceSize 4 2)%Z
    ∧ ∀ key, is_Some (Lru.nodeMap_ s !! key) →
        Z.of_nat i = (u64 (id key) `mod` 2)%Z.
Proof.
apply (hashlru_shards_bounded_and_disjoint (Key := Z) 0 "" id 8 4 2
       hashlru_ops).
- lia.
- lia.
Defined.

Lemma hashlru_put_then_get_witness :
∃ c' c'', HashLru.put id 5 "e" hashlru_used = Some c'
∧ HashLru.get id 5 c' = Some (Some "e", c'').
Proof.
apply (hashlru_put_then_get (Key := Z) 0 "" id 8 4 2 hashlru_ops
       hashlru_used 5 "e").
- lia.
- lia.
- vm_compute; reflexivity.
Defined.

Lemma hashlru_nonpositive_sliceNum_has_no_shard_witness :
HashLru.lruSliceCaches_ (HashLru.new (Key := Z) 0 "" 8 4 0) = []
∧ HashLru.put id 1 "a" (HashLru.new 0 "" 8 4 0) = None
∧ HashLru.get id 1 (HashLru.new 0 "" 8 4 0) = None.
Proof.
apply (hashlru_nonpositive_sliceNum_has_no_shard (Key := Z) 0 "" id 8 4 0
       1 "a").
lia.
Defined.


Lemma arc_lru_partition_within_capacity_witness :
∃ c : Arc.ArcCache (Key := Z),
run (arc_step <$> arc_lfu_only_ops) (Arc.new 0 "" 1 2) = Some c
∧ (zsize (ArcLru.mainCache_ (Arc.lruPart_ c))
   ≤ ArcLru.capacity_ (Arc.lruPart_ c))%Z
∧ (0 ≤ ArcLru.capacity_ (Arc.lruPart_ c)
   ≤ 1 + Z.of_nat (length arc_lfu_only_ops))%Z.
Proof.
apply (arc_lru_partition_within_capacity (Key := Z) 0 "" 1 2 arc_lfu_only_ops).
- lia.
- vm_compute; reflexivity.
Defined.

Lemma arc_put_of_promoted_key_is_not_read_witness :
∃ c' c'', Arc.put 1 "b" arc_promoted = Some c'
∧ Arc.get 1 c' = Some (Some "a", c'').
Proof.
destruct (arc_put_of_promoted_key_is_not_read (Key := Z) 0 "" 2 2
          arc_promoted_ops arc_promoted 1 "b")
as (old & c0 & c' & c'' & Hget & Hput & Hget' & _).
- vm_compute; reflexivity.
- vm_compute; reflexivity.
- vm_compute; reflexivity.
- vm_compute; reflexivity.
- exists c', c''. split; [exact Hput|].
assert (fst <$> Arc.get 1 arc_promoted = Some (Some "a")) as E
  by (vm_compute; reflexivity).
rewrite Hget in E. injection E as ->. exact Hget'.
Defined.

Lemma arc_put_then_get_in_lru_partition_witness :
∃ c' c'', Arc.put 2 "b" arc_promoted = Some c'
∧ Arc.get 2 c' = Some (Some "b", c'').
Proof.
apply (arc_put_then_get_in_lru_partition (Key := Z) 0 "" 2 2
       arc_promoted_ops arc_promoted 2 "b").
- vm_compute; reflexivity.
- vm_compute; reflexivity.
- vm_compute; reflexivity.
- vm_compute. discriminate.
Defined.

Lemma arc_put_then_get_in_lfu_partition_witness :
∃ c' c'', Arc.put 1 "z" arc_lfu_only = Some c'
∧ Arc.get 1 c' = Some (Some "z", c'').
Proof.
apply (arc_put_then_get_in_lfu_partition (Key := Z) 0 "" 1 2
       arc_lfu_only_ops arc_lfu_only 1 "z").
- vm_compute; reflexivity.
- vm_compute; reflexivity.
- vm_compute; reflexivity.
- vm_compute; reflexivity.
- vm_compute. discriminate.
Defined.


Lemma lfu_get_reads_content_witness :
∃ c', Lfu.get 0 "" 1 lfu_full = Some (lfu_view lfu_full !! 1, c')
∧ lfu_view c' = lfu_view lfu_full.
Proof.
apply (lfu_get_reads_content (Key := Z) 0 "" 2 10 lfu_full_ops lfu_full 1).
- lia.
- lia.
- vm_compute; reflexivity.
- vm_compute; reflexivity.
Defined.

Lemma lfu_put_evicts_at_most_one_witness :
∃ c' k0, Lfu.put 0 "" 3 "c" lfu_full = Some c'
∧ lfu_view c' = <[3 := "c"]> (delete k0 (lfu_view lfu_full)).
Proof.
apply (lfu_put_evicts_at_most_one (Key := Z) 0 "" 2 10 lfu_full_ops
       lfu_full 3 "c").
- lia.
- lia.
- lia.
- vm_compute; reflexivity.
- vm_compute; reflexivity.
Defined.

Lemma lfu_put_without_eviction_witness :
∃ c', Lfu.put 0 "" 2 "x" lfu_full = Some c'
∧ lfu_view c' = <[2 := "x"]> (lfu_view lfu_full).
Proof.
apply (lfu_put_without_eviction (Key := Z) 0 "" 2 10 lfu_full_ops
       lfu_full 2 "x").
- lia.
- lia.
- lia.
- vm_compute; reflexivity.
- vm_compute; reflexivity.
- left. vm_compute. eexists; reflexivity.
Defined.

Lemma lfu_put_then_get_witness :
∃ c' c'', Lfu.put 0 "" 3 "c" lfu_full = Some c'
∧ Lfu.get 0 "" 3 c' = Some (Some "c", c'').
Proof.
apply (lfu_put_then_get (Key := Z) 0 "" 2 10 lfu_full_ops lfu_full 3 "c").
- lia.
- lia.
- lia.
- vm_compute; reflexivity.
- vm_compute; reflexivity.
Defined.

End UserExamples.
